(** * react-3d-dice: the dice engine (diceEngine.js)

    A shallow embedding of the geometry / numbering / orientation engine.

    Modelling conventions
    - a JavaScript [Number] that carries a coordinate, a length or an angle is
      a real number ([R]); [Math.sqrt], [Math.cos], [Math.sin] and [Math.PI]
      are the real functions of the same name, [Math.atan2] is [atan2] below;
    - a die's side count and the displayed face numbers are integers ([Z]);
    - array indices are [nat]; an array is a [list], read with [!!] and
      written with [<[i:=v]>];
    - a [Set] of indices is a [gset nat]; an object used as a dictionary is a
      [gmap]. *)

From Stdlib Require Import Reals Lra Lia ZArith Ascii String RNsatz.
From stdpp Require Import base option list gmap strings sorting pretty.

#[local] Open Scope R_scope.

(** ** Real comparisons as decisions *)

#[global] Instance Rlt_decision (a b : R) : Decision (a < b) := Rlt_dec a b.
#[global] Instance Rgt_decision (a b : R) : Decision (a > b) := Rgt_dec a b.
#[global] Instance Req_decision : EqDecision R := Req_dec_T.

(** ** THREE.Vector3 (values) *)

Record Vector3 : Type := Vec3 { vx : R; vy : R; vz : R }.

#[global] Instance Vector3_eq_decision : EqDecision Vector3.
Proof. solve_decision. Defined.

Module V3.

Definition add (a b : Vector3) : Vector3 :=
  Vec3 (vx a + vx b) (vy a + vy b) (vz a + vz b).

Definition sub (a b : Vector3) : Vector3 :=
  Vec3 (vx a - vx b) (vy a - vy b) (vz a - vz b).

Definition multiplyScalar (a : Vector3) (s : R) : Vector3 :=
  Vec3 (vx a * s) (vy a * s) (vz a * s).

(** [divideScalar(s)] is [multiplyScalar(1 / s)]. *)
Definition divideScalar (a : Vector3) (s : R) : Vector3 :=
  multiplyScalar a (1 / s).

Definition addScaledVector (a v : Vector3) (s : R) : Vector3 :=
  Vec3 (vx a + vx v * s) (vy a + vy v * s) (vz a + vz v * s).

Definition negate (a : Vector3) : Vector3 :=
  Vec3 (- vx a) (- vy a) (- vz a).

Definition dot (a b : Vector3) : R :=
  vx a * vx b + vy a * vy b + vz a * vz b.

Definition cross (a b : Vector3) : Vector3 :=
  Vec3 (vy a * vz b - vz a * vy b)
       (vz a * vx b - vx a * vz b)
       (vx a * vy b - vy a * vx b).

Definition length (a : Vector3) : R :=
  sqrt (vx a * vx a + vy a * vy a + vz a * vz a).

(** [normalize()] is [divideScalar(this.length() || 1)]: the zero vector
    is divided by 1 and stays the zero vector. *)
Definition normalize (a : Vector3) : Vector3 :=
  divideScalar a (if decide (length a = 0) then 1 else length a).

Definition distanceTo (a b : Vector3) : R := length (sub a b).

Definition zero : Vector3 := Vec3 0 0 0.

End V3.

Definition isUnit (v : Vector3) : Prop := V3.dot v v = 1.

Definition perpendicular (u v : Vector3) : Prop := V3.dot u v = 0.

(** ** Faces *)

(** [{ centroid, normal, verts }] as [computeFaces] builds it. *)
Record Face : Type := mkFace {
  centroid : Vector3;
  normal : Vector3;
  verts : list Vector3
}.

(** ** Constants *)

Definition FACE_LABELED : gset Z := {[ 4; 6; 8; 10; 12; 20 ]}%Z.

Definition D6_NUMBERS : list Z := [1; 6; 2; 5; 3; 4]%Z.

(** ** computeFaceNumbers *)

(** [Math.atan2(y, x)] on the reals (signed zeros are not modelled). *)
Definition atan2 (y x : R) : R :=
  if decide (0 < x) then atan (y / x)
  else if decide (x < 0) then
    (if decide (y < 0) then atan (y / x) - PI else atan (y / x) + PI)
  else if decide (0 < y) then PI / 2
  else if decide (y < 0) then - (PI / 2)
  else 0.

(** An entry [[i, j]] of [pairs]; the source's [-1] ("no partner") in the
    second slot is [None]. *)
Definition PairEntry : Type := (nat * option nat)%type.

(** The pairing loops of [computeFaceNumbers], over the test
    [opp i j] = [faces[i].normal.dot(faces[j].normal) < -0.99] and the
    number [n] of faces. *)
Section Pairing.

Variable opp : nat -> nat -> bool.
Variable n : nat.

(** The inner loop [for (j = i + 1; j < n; j++)]: the first [j] that is
    not used and is opposite to [i]. *)
Definition findPartner (used : gset nat) (i : nat) : option nat :=
  List.find (fun j => bool_decide (j ∉ used) && opp i j)
            (seq (i + 1) (n - (i + 1))).

(** The outer loop over the indices [idxs], threading [pairs] and [used];
    [used.has(i)] after the inner loop holds exactly when a partner was
    found. *)
Fixpoint pairLoop (idxs : list nat) (pairs : list PairEntry) (used : gset nat)
  : list PairEntry * gset nat :=
  match idxs with
  | [] => (pairs, used)
  | i :: rest =>
      if decide (i ∈ used) then pairLoop rest pairs used
      else match findPartner used i with
           | Some j => pairLoop rest (pairs ++ [(i, Some j)]) ({[ j ]} ∪ ({[ i ]} ∪ used))
           | None => pairLoop rest (pairs ++ [(i, None)]) ({[ i ]} ∪ used)
           end
  end.

Definition findPairs : list PairEntry :=
  fst (pairLoop (seq 0 n) [] ∅).

End Pairing.

(** The numbering loops: [first k] is the number of the first member of
    [pairs[k]], the partner gets [target - first k]. *)
Fixpoint assignLoop (first : nat -> Z) (target : Z) (k : nat)
         (pairs : list PairEntry) (numbers : list Z) : list Z :=
  match pairs with
  | [] => numbers
  | (a, ob) :: rest =>
      let numbers1 := <[a := first k]> numbers in
      let numbers2 :=
        match ob with
        | Some b => <[b := (target - first k)%Z]> numbers1
        | None => numbers1
        end in
      assignLoop first target (S k) rest numbers2
  end.

Section Numbering.

Variable faces : list Face.

Definition normalAt (i : nat) : Vector3 :=
  default V3.zero (normal <$> faces !! i).

Definition centroidAt (i : nat) : Vector3 :=
  default V3.zero (centroid <$> faces !! i).

(** [faces[i].normal.dot(faces[j].normal) < -0.99] *)
Definition opposite (i j : nat) : bool :=
  bool_decide (V3.dot (normalAt i) (normalAt j) < -0.99).

(** [pairs.forEach] of the D10 branch: put the face with the larger
    [centroid.y] first. *)
Definition orientPair (p : PairEntry) : PairEntry :=
  match p with
  | (a, Some b) =>
      if decide (vy (centroidAt a) < vy (centroidAt b)) then (b, Some a) else (a, Some b)
  | (a, None) => (a, None)
  end.

Definition azimuth (p : PairEntry) : R :=
  atan2 (vz (centroidAt (fst p))) (vx (centroidAt (fst p))).

(** [pairs.sort((a, b) => aA - bA)]: the sort is stable, so it is the
    stable insertion sort by the comparator's sign. *)
Fixpoint sortInsert (p : PairEntry) (l : list PairEntry) : list PairEntry :=
  match l with
  | [] => [p]
  | q :: l' =>
      if decide (azimuth q - azimuth p < 0) then q :: sortInsert p l'
      else p :: q :: l'
  end.

Definition sortPairs (l : list PairEntry) : list PairEntry :=
  foldr sortInsert [] l.

Definition computeFaceNumbers (sides : Z) : list Z :=
  if decide (sides = 6%Z) then D6_NUMBERS
  else if decide (sides = 4%Z) then [1; 2; 3; 4]%Z
  else
    let n := length faces in
    let numbers := replicate n 0%Z in
    let target := (sides + 1)%Z in
    let pairs := findPairs opposite n in
    if decide (sides = 10%Z) then
      assignLoop (fun k => (Z.of_nat k * 2 + 1)%Z) target 0
                 (sortPairs (orientPair <$> pairs)) numbers
    else
      assignLoop (fun k => (Z.of_nat k + 1)%Z) target 0 pairs numbers.

End Numbering.

(** [numbers[i] + numbers[j]], when both indices are in range. *)
Definition pairSum (numbers : list Z) (i j : nat) : option Z :=
  a ← numbers !! i; b ← numbers !! j; Some (a + b)%Z.

(** The face indices an entry of [pairs] holds, and those of a whole list. *)
Definition entryIdx (p : PairEntry) : list nat :=
  match p with
  | (a, Some b) => [a; b]
  | (a, None) => [a]
  end.

Definition pairIdx (pairs : list PairEntry) : list nat :=
  concat (entryIdx <$> pairs).

(** ** Vocabulary of the statements about the numbering *)

(** What the pairing loop maintains: the indices held by [pairs] are
    pairwise distinct, they are exactly the set [used], and they are
    valid face indices. *)
Record pairInv (n : nat) (pairs : list PairEntry) (used : gset nat) : Prop := {
  inv_nodup : NoDup (pairIdx pairs);
  inv_used : forall a, a ∈ pairIdx pairs <-> a ∈ used;
  inv_range : forall a, a ∈ used -> (a < n)%nat
}.

(** [used] contains a face together with its opposite face. *)
Definition closedUsed (opp : nat -> nat -> bool) (n : nat) (used : gset nat) : Prop :=
  forall a b, (a < n)%nat -> (b < n)%nat -> opp a b = true -> a ∈ used -> b ∈ used.

(** Every entry holds two opposite faces. *)
Definition allPaired (opp : nat -> nat -> bool) (pairs : list PairEntry) : Prop :=
  Forall (fun p => exists a b, p = (a, Some b) /\ opp a b = true) pairs.

(** Every face has exactly one anti-parallel partner. *)
Definition uniquePartner (faces : list Face) : Prop :=
  forall i, (i < length faces)%nat ->
    exists j, (j < length faces)%nat /\ opposite faces i j = true
              /\ forall j', (j' < length faces)%nat ->
                             opposite faces i j' = true -> j' = j.

(** The list of pair entries the numbering loop runs over. *)
Definition finalPairs (faces : list Face) (sides : Z) : list PairEntry :=
  if decide (sides = 10%Z)
  then sortPairs faces (orientPair faces <$> findPairs (opposite faces) (length faces))
  else findPairs (opposite faces) (length faces).

(** The number given to the first member of [pairs[k]]. *)
Definition firstNumber (sides : Z) (k : nat) : Z :=
  if decide (sides = 10%Z) then (Z.of_nat k * 2 + 1)%Z else (Z.of_nat k + 1)%Z.

(** [p] comes before or with [q] in azimuth. *)
Definition azLe (faces : list Face) (p q : PairEntry) : Prop :=
  azimuth faces p <= azimuth faces q.

(** The first member of the entry is not lower than its partner. *)
Definition oriented (faces : list Face) (p : PairEntry) : Prop :=
  forall b, p.2 = Some b -> vy (centroidAt faces b) <= vy (centroidAt faces p.1).

(** * Colour helper: parseColor *)

(** JavaScript values as far as [parseColor] can tell them apart.  Strings
    are sequences of code units below 256; infinities and signed zeros are
    not modelled. *)
Inductive JSValue : Type :=
| JSNumber (x : R)
| JSNaN
| JSString (s : string)
| JSBoolean (b : bool)
| JSUndefined
| JSNull
| JSFunction (name : string)
| JSObject (name : string).

(** [typeof v === 'number'] *)
Definition isNumber (v : JSValue) : bool :=
  match v with
  | JSNumber _ | JSNaN => true
  | _ => false
  end.

(** [typeof v === 'string'] *)
Definition isString (v : JSValue) : bool :=
  match v with
  | JSString _ => true
  | _ => false
  end.

(** ToBoolean, the test of an [if]. *)
Definition toBoolean (v : JSValue) : bool :=
  match v with
  | JSNumber x => bool_decide (x <> 0)
  | JSNaN => false
  | JSString s => negb (String.eqb s "")
  | JSBoolean b => b
  | JSUndefined | JSNull => false
  | JSFunction _ | JSObject _ => true
  end.

(** The properties every object literal inherits from [Object.prototype]. *)
Definition objectPrototype : gmap string JSValue :=
  list_to_map
    [ ("constructor", JSFunction "Object");
      ("hasOwnProperty", JSFunction "hasOwnProperty");
      ("isPrototypeOf", JSFunction "isPrototypeOf");
      ("propertyIsEnumerable", JSFunction "propertyIsEnumerable");
      ("toLocaleString", JSFunction "toLocaleString");
      ("toString", JSFunction "toString");
      ("valueOf", JSFunction "valueOf");
      ("__defineGetter__", JSFunction "__defineGetter__");
      ("__defineSetter__", JSFunction "__defineSetter__");
      ("__lookupGetter__", JSFunction "__lookupGetter__");
      ("__lookupSetter__", JSFunction "__lookupSetter__");
      ("__proto__", JSObject "Object.prototype") ]%string.

(** [obj[key]] for an object literal with the own properties [own]: an own
    property first, then the prototype chain. *)
Definition getProperty (own : gmap string JSValue) (key : string) : JSValue :=
  match own !! key with
  | Some v => v
  | None => default JSUndefined (objectPrototype !! key)
  end.

Definition TAILWIND_MAP : gmap string JSValue :=
  list_to_map
    [ ("bg-purple-500"%string, JSNumber 0xa855f7);
      ("bg-blue-500"%string, JSNumber 0x3b82f6);
      ("bg-green-500"%string, JSNumber 0x22c55e);
      ("bg-yellow-500"%string, JSNumber 0xeab308);
      ("bg-orange-500"%string, JSNumber 0xf97316);
      ("bg-red-500"%string, JSNumber 0xef4444);
      ("bg-pink-500"%string, JSNumber 0xec4899);
      ("bg-gray-500"%string, JSNumber 0x6b7280) ].

(** ** parseInt(string, 16) *)

Definition isWhiteSpace (c : ascii) : bool :=
  let k := nat_of_ascii c in
  ((9 <=? k) && (k <=? 13) || (k =? 32) || (k =? 160))%nat.

Fixpoint trimStart (s : string) : string :=
  match s with
  | String c rest => if isWhiteSpace c then trimStart rest else s
  | EmptyString => s
  end.

Definition hexDigit (c : ascii) : option Z :=
  let k := Z.of_nat (nat_of_ascii c) in
  if ((48 <=? k) && (k <=? 57))%Z then Some (k - 48)%Z
  else if ((97 <=? k) && (k <=? 102))%Z then Some (k - 87)%Z
  else if ((65 <=? k) && (k <=? 70))%Z then Some (k - 55)%Z
  else None.

(** The longest prefix of hexadecimal digits, read from the left with the
    value [acc] so far; [None] when no digit has been read. *)
Fixpoint hexPrefix (s : string) (acc : option Z) : option Z :=
  match s with
  | String c rest =>
      match hexDigit c with
      | Some d => hexPrefix rest (Some (default 0 acc * 16 + d)%Z)
      | None => acc
      end
  | EmptyString => acc
  end.

Definition stripHexPrefix (s : string) : string :=
  match s with
  | String "0"%char (String "x"%char rest)
  | String "0"%char (String "X"%char rest) => rest
  | _ => s
  end.

(** The integer [parseInt(input, 16)] reads, [None] for [NaN]. *)
Definition parseHex (input : string) : option Z :=
  let s := trimStart input in
  let '(sign, s) :=
    match s with
    | String "-"%char rest => ((-1)%Z, rest)
    | String "+"%char rest => (1%Z, rest)
    | _ => (1%Z, s)
    end in
  (fun m => (sign * m)%Z) <$> hexPrefix (stripHexPrefix s) None.

Definition parseInt16 (input : string) : JSValue :=
  match parseHex input with
  | Some m => JSNumber (IZR m)
  | None => JSNaN
  end.

(** [color.startsWith('#')] and [color.slice(1)] *)
Definition startsWithHash (s : string) : bool :=
  match s with
  | String "#"%char _ => true
  | _ => false
  end.

Definition slice1 (s : string) : string :=
  match s with
  | String _ rest => rest
  | EmptyString => EmptyString
  end.

Definition parseColor (color : JSValue) : JSValue :=
  if isNumber color then color
  else if isString color then
    match color with
    | JSString s =>
        if startsWithHash s then parseInt16 (slice1 s)
        else if toBoolean (getProperty TAILWIND_MAP s)
             then getProperty TAILWIND_MAP s
             else JSNumber 0x6b7280
    | _ => JSNumber 0x6b7280
    end
  else JSNumber 0x6b7280.

(** * Shape generator *)

(** ** THREE.BufferGeometry

    The [position] attribute as the list of its vertices, and the optional
    triangle-index buffer.  The coordinates are the numbers the attribute
    holds. *)
Record BufferGeometry : Type := mkGeometry {
  position : list Vector3;
  index : option (list nat)
}.

Definition Triangle : Type := (Vector3 * Vector3 * Vector3)%type.

(** ** THREE.Float32BufferAttribute

    The attribute keeps every number as a 32-bit float (a [Float32Array]):
    24 significant bits, round to nearest with ties to even, subnormal
    below 2^-126.  A number beyond the largest float, which the array
    turns into [Infinity], is not modelled. *)

(** The exponent [e] of the binade [2^e <= |x| < 2^(e+1)] of [x], not below
    that of the subnormal numbers. *)
Definition float32Exponent (x : R) : Z :=
  Z.max (Zfloor (ln (Rabs x) / ln 2)) (-126).

(** The distance between neighbouring floats around [x]. *)
Definition ulp32 (x : R) : R := powerRZ 2 (float32Exponent x - 23).

(** The nearest integer, a tie going to the even one. *)
Definition roundTiesToEven (y : R) : Z :=
  let f := Zfloor y in
  if decide (y - IZR f < 1 / 2) then f
  else if decide (1 / 2 < y - IZR f) then (f + 1)%Z
  else if Z.even f then f else (f + 1)%Z.

(** The float nearest to [x], as a [Float32Array] stores it
    ([Math.fround]). *)
Definition fround (x : R) : R :=
  IZR (roundTiesToEven (x / ulp32 x)) * ulp32 x.

(** A vertex as the attribute holds it. *)
Definition float32 (v : Vector3) : Vector3 :=
  Vec3 (fround (vx v)) (fround (vy v)) (fround (vz v)).

(** ** createD10Geometry *)

Section D10.

Variable radius : R.

Definition d10H : R := radius.

Definition d10h : R := d10H * (1 - cos (PI / 5)) / (1 + cos (PI / 5)).

Definition d10r : R := radius * 0.85.

Definition d10Top : Vector3 := Vec3 0 d10H 0.

Definition d10Bot : Vector3 := Vec3 0 (- d10H) 0.

(** The angles [aU] and [aL] of round [k] of the first loop. *)
Definition d10aU (k : nat) : R := (INR k * 2 * PI) / 5.

Definition d10aL (k : nat) : R := d10aU k + PI / 5.

(** [upper[k]] and [lower[k]] *)
Definition d10Upper (k : nat) : Vector3 :=
  Vec3 (d10r * cos (d10aU k)) d10h (d10r * sin (d10aU k)).

Definition d10Lower (k : nat) : Vector3 :=
  Vec3 (d10r * cos (d10aL k)) (- d10h) (d10r * sin (d10aL k)).

(** The twelve vertices round [k] of the second loop pushes: the two
    triangles of the top kite, then the two of the bottom kite. *)
Definition d10Round (k : nat) : list Vector3 :=
  let nk := ((k + 1) mod 5)%nat in
  [ d10Top; d10Lower k; d10Upper k;
    d10Top; d10Upper nk; d10Lower k;
    d10Bot; d10Lower k; d10Upper nk;
    d10Bot; d10Upper nk; d10Lower nk ].

(** [verts], three numbers to a vertex. *)
Definition d10Verts : list Vector3 := concat (d10Round <$> seq 0 5).

(** [new THREE.Float32BufferAttribute(verts, 3)] narrows every number to
    a float.  The geometry is not indexed.  ([computeVertexNormals] adds
    a normal attribute, which the engine never reads.) *)
Definition createD10Geometry : BufferGeometry :=
  mkGeometry (float32 <$> d10Verts) None.

End D10.

(** ** Triangles of a geometry that is not indexed *)

(** Vertices [3t], [3t+1], [3t+2] for [t] below [count / 3]; a geometry
    whose vertex count is no multiple of 3 is not modelled beyond its last
    full triangle. *)
Fixpoint trianglesOf (pos : list Vector3) : list Triangle :=
  match pos with
  | a :: b :: c :: rest => (a, b, c) :: trianglesOf rest
  | _ => []
  end.

(** [crossVectors(b - a, c - a)], the normal of a triangle before
    [normalize()]. *)
Definition triangleCross (t : Triangle) : Vector3 :=
  let '(a, b, c) := t in V3.cross (V3.sub b a) (V3.sub c a).

(** ** Vocabulary of the statements about the D10 *)

(** Consecutive triangles two by two: the kites of the D10. *)
Fixpoint inTwos (ts : list Triangle) : list (Triangle * Triangle) :=
  match ts with
  | t1 :: t2 :: rest => (t1, t2) :: inTwos rest
  | _ => []
  end.

(** [d] lies in the plane through the triangle [t]. *)
Definition inPlaneOf (t : Triangle) (d : Vector3) : Prop :=
  V3.dot (triangleCross t) (V3.sub d t.1.1) = 0.

(** The two triangles of a kite start at the same pole, have the same
    normal, and every vertex of the second lies in the plane of the first. *)
Definition kitePlanar (radius : R) (kite : Triangle * Triangle) : Prop :=
  let '(t1, t2) := kite in
  (t1.1.1 = d10Top radius \/ t1.1.1 = d10Bot radius)
  /\ t2.1.1 = t1.1.1
  /\ triangleCross t1 = triangleCross t2
  /\ inPlaneOf t1 t2.1.1 /\ inPlaneOf t1 t2.1.2 /\ inPlaneOf t1 t2.2.

(** [v] turned by the angle [a] about the y axis, from x towards z. *)
Definition rotateY (a : R) (v : Vector3) : Vector3 :=
  Vec3 (vx v * cos a - vz v * sin a) (vy v) (vx v * sin a + vz v * cos a).

(** The two kites round [k] emits, as pairs of triangles. *)
Definition d10TopKite (radius : R) (k : nat) : Triangle * Triangle :=
  let nk := ((k + 1) mod 5)%nat in
  ((d10Top radius, d10Lower radius k, d10Upper radius k),
   (d10Top radius, d10Upper radius nk, d10Lower radius k)).

Definition d10BotKite (radius : R) (k : nat) : Triangle * Triangle :=
  let nk := ((k + 1) mod 5)%nat in
  ((d10Bot radius, d10Lower radius k, d10Upper radius nk),
   (d10Bot radius, d10Upper radius nk, d10Lower radius nk)).

(** The direction of the outward normal of the top and of the bottom kite
    of round [k], before [normalize()]. *)
Definition d10TopW (radius : R) (k : nat) : Vector3 :=
  Vec3 ((d10h radius + d10H radius) * cos (d10aL k))
       (d10r radius)
       ((d10h radius + d10H radius) * sin (d10aL k)).

Definition d10BotW (radius : R) (k : nat) : Vector3 :=
  let nk := ((k + 1) mod 5)%nat in
  Vec3 ((d10h radius + d10H radius) * cos (d10aU nk))
       (- d10r radius)
       ((d10h radius + d10H radius) * sin (d10aU nk)).

(** The ten face normals, in the order in which the kites are emitted. *)
Definition d10Normals (radius : R) : list Vector3 :=
  concat ((fun k => [V3.normalize (d10TopW radius k);
                     V3.normalize (d10BotW radius k)]) <$> seq 0 5).

(** The squared length shared by the ten directions. *)
Definition d10W2 (radius : R) : R :=
  (d10h radius + d10H radius) * (d10h radius + d10H radius)
  + d10r radius * d10r radius.

(** ** Vocabulary of the statements about the stored vertices *)

Definition float32Triangle (t : Triangle) : Triangle :=
  (float32 t.1.1, float32 t.1.2, float32 t.2).

Definition float32Kite (kite : Triangle * Triangle) : Triangle * Triangle :=
  (float32Triangle kite.1, float32Triangle kite.2).

(** [b] is [a] with every coordinate moved by [δ] at most. *)
Definition within (δ : R) (a b : Vector3) : Prop :=
  (- δ <= vx b - vx a <= δ) /\ (- δ <= vy b - vy a <= δ)
  /\ (- δ <= vz b - vz a <= δ).

(** Every coordinate of [a] is within [B] of zero. *)
Definition bounded (B : R) (a : Vector3) : Prop :=
  (- B <= vx a <= B) /\ (- B <= vy a <= B) /\ (- B <= vz a <= B).

(** The unit vector [n] is within a whisker of the unit vector [m]. *)
Definition aligned (n m : Vector3) : Prop :=
  isUnit n /\ 1 - 2 / 100000 <= V3.dot n m.

(** The place in [d10Normals] of the kite that faces the other way than
    the kite at place [i]. *)
Definition d10Opposite (i : nat) : nat :=
  if Nat.even i then (2 * ((i / 2 + 2) mod 5) + 1)%nat
  else (2 * ((i / 2 + 3) mod 5))%nat.

(** The two triangles of a kite have area and the same unit normal, and
    the corners of the second lie in the plane of the first. *)
Definition kiteFlat (kite : Triangle * Triangle) : Prop :=
  let '(t1, t2) := kite in
  triangleCross t1 <> V3.zero /\ triangleCross t2 <> V3.zero
  /\ V3.normalize (triangleCross t1) = V3.normalize (triangleCross t2)
  /\ inPlaneOf t1 t2.1.1 /\ inPlaneOf t1 t2.1.2 /\ inPlaneOf t1 t2.2.

(** The vertex buffer [pos] is the pentagonal trapezohedron of the given
    radius: the poles at (0, ±radius, 0); an upper ring of five vertices
    at the height [h] with [h / radius = (1 - cos 36°) / (1 + cos 36°)],
    each a fifth of a turn after the one before; the lower ring at the
    height [-h], turned by 36° against the upper one; the ten kites, each
    as two triangles from the pole of its side, flat. *)
Definition trapezohedron (radius : R) (pos : list Vector3) : Prop :=
  let h := radius * ((1 - cos (PI / 5)) / (1 + cos (PI / 5))) in
  let top := Vec3 0 radius 0 in
  let bot := Vec3 0 (- radius) 0 in
  exists upper lower : nat -> Vector3,
    (forall k, (k < 5)%nat ->
       vy (upper k) = h /\ vy (lower k) = - h
       /\ upper k = rotateY (INR k * (2 * PI / 5)) (upper 0%nat)
       /\ lower k
          = rotateY (PI / 5) (Vec3 (vx (upper k)) (- h) (vz (upper k))))
    /\ (vx (upper 0%nat) <> 0 \/ vz (upper 0%nat) <> 0)
    /\ pos = concat ((fun k =>
                        let nk := ((k + 1) mod 5)%nat in
                        [ top; lower k; upper k;
                          top; upper nk; lower k;
                          bot; lower k; upper nk;
                          bot; upper nk; lower nk ]) <$> seq 0 5)
    /\ Forall kiteFlat (inTwos (trianglesOf pos)).
(** * Face extractor: computeFaces *)

(** [centroid] as both paths accumulate it: the sum of the vertices. *)
Definition sumVectors (vs : list Vector3) : Vector3 := foldl V3.add V3.zero vs.

(** ** Indexed geometry: sequential grouping *)

(** [Math.round(totalTris / numFaces)] with [totalTris = count / 3]: the
    nearest integer, halves rounded up. *)
Definition trisPerFace (count numFaces : nat) : nat :=
  ((2 * count + 3 * numFaces) / (6 * numFaces))%nat.

(** [pos] read at index [i]; an index outside the buffer (which gives NaN
    coordinates) is not modelled. *)
Definition vertexAt (pos : list Vector3) (i : nat) : Vector3 :=
  default V3.zero (pos !! i).

(** The indices [ia, ib, ic] of triangle [t]. *)
Definition triangleIndices (idx : list nat) (t : nat) : list nat :=
  [ default 0%nat (idx !! (3 * t)%nat);
    default 0%nat (idx !! (3 * t + 1)%nat);
    default 0%nat (idx !! (3 * t + 2)%nat) ].

(** The [seenIdx] / [faceVerts] bookkeeping: first occurrences, in order. *)
Definition firstOccurrences `{EqDecision A} (l : list A) : list A :=
  foldl (fun seen i => if decide (i ∈ seen) then seen else seen ++ [i]) [] l.

(** The normal of a group: from its first triangle only, normalized. *)
Definition groupNormal (pos : list Vector3) (ixs : list nat) : Vector3 :=
  match ixs with
  | ia :: ib :: ic :: _ =>
      let a := vertexAt pos ia in
      V3.normalize (V3.cross (V3.sub (vertexAt pos ib) a) (V3.sub (vertexAt pos ic) a))
  | _ => V3.zero
  end.

(** Round [f] of the loop over the faces. *)
Definition indexedFace (pos : list Vector3) (idx : list nat) (tpf f : nat) : Face :=
  let ixs := concat (triangleIndices idx <$> seq (f * tpf) tpf) in
  let vertCount := (3 * tpf)%nat in
  let centroid := V3.divideScalar (sumVectors (vertexAt pos <$> ixs)) (INR vertCount) in
  let normal0 := groupNormal pos ixs in
  let normal := if decide (V3.dot normal0 centroid < 0) then V3.negate normal0
                else normal0 in
  mkFace centroid normal (vertexAt pos <$> firstOccurrences ixs).

Definition indexedFaces (pos : list Vector3) (idx : list nat) (numFaces : nat)
  : list Face :=
  let tpf := trisPerFace (length idx) numFaces in
  indexedFace pos idx tpf <$> seq 0 numFaces.

(** ** Geometry that is not indexed: clustering by normal *)

Record Cluster : Type := mkCluster {
  cnormal : Vector3;
  cverts : list Vector3
}.

(** [n] of round [t]: the normalized cross product, turned away from the
    origin. *)
Definition outwardNormal (t : Triangle) : Vector3 :=
  let '(a, b, c) := t in
  let n := V3.normalize (V3.cross (V3.sub b a) (V3.sub c a)) in
  let mid := V3.divideScalar (V3.add (V3.add (V3.add V3.zero a) b) c) 3 in
  if decide (V3.dot n mid < 0) then V3.negate n else n.

(** [for (const cl of clusters)]: the triangle joins the first cluster whose
    normal ixs within the tolerance, or starts a new cluster at the end. *)
Fixpoint insertTriangle (n : Vector3) (abc : list Vector3) (clusters : list Cluster)
  : list Cluster :=
  match clusters with
  | [] => [mkCluster n abc]
  | cl :: rest =>
      if decide (V3.dot (cnormal cl) n > 0.999)
      then mkCluster (cnormal cl) (cverts cl ++ abc) :: rest
      else cl :: insertTriangle n abc rest
  end.

Definition clusterStep (clusters : list Cluster) (t : Triangle) : list Cluster :=
  let '(a, b, c) := t in insertTriangle (outwardNormal t) [a; b; c] clusters.

Definition clustersOf (pos : list Vector3) : list Cluster :=
  foldl clusterStep [] (trianglesOf pos).

(** The comparator of [clusters.sort]. *)
Definition compareNormals (an bn : Vector3) : R :=
  if decide (Rabs (vx an - vx bn) > 0.001) then vx an - vx bn
  else if decide (Rabs (vy an - vy bn) > 0.001) then vy an - vy bn
  else vz an - vz bn.

(** [clusters.sort(...)] as the stable insertion sort by the comparator's
    sign.  (With its tolerance the comparator need not be an ordering; the
    statements below only use that sorting permutes the clusters.) *)
Fixpoint sortInsertCluster (cl : Cluster) (l : list Cluster) : list Cluster :=
  match l with
  | [] => [cl]
  | q :: l' =>
      if decide (compareNormals (cnormal q) (cnormal cl) < 0)
      then q :: sortInsertCluster cl l'
      else cl :: q :: l'
  end.

Definition sortClusters (l : list Cluster) : list Cluster :=
  foldr sortInsertCluster [] l.

(** [unique]: a vertex is kept unless one already kept is closer than
    0.001. *)
Definition uniqueVerts (vs : list Vector3) : list Vector3 :=
  foldl (fun unique v =>
           if decide (Exists (fun u => V3.distanceTo v u < 0.001) unique)
           then unique else unique ++ [v]) [] vs.

Definition clusterFace (cl : Cluster) : Face :=
  mkFace (V3.divideScalar (sumVectors (cverts cl)) (INR (length (cverts cl))))
         (cnormal cl)
         (uniqueVerts (cverts cl)).

Definition clusteredFaces (pos : list Vector3) : list Face :=
  clusterFace <$> sortClusters (clustersOf pos).

Definition computeFaces (geometry : BufferGeometry) (numFaces : nat) : list Face :=
  match index geometry with
  | Some idx => indexedFaces (position geometry) idx numFaces
  | None => clusteredFaces (position geometry)
  end.

(** ** createGeometry and geomFaceCount *)

Definition geomFaceCount (sides : Z) : nat :=
  if decide (sides = 4%Z) then 4
  else if decide (sides = 6%Z) then 6
  else if decide (sides = 8%Z) then 8
  else if decide (sides = 10%Z) then 10
  else if decide (sides = 12%Z) then 12
  else if decide (sides = 20%Z) then 20
  else 20.

(** The constructors of three.js, which is not part of this repository:
    [polyhedron kind radius detail] for [THREE.TetrahedronGeometry],
    [OctahedronGeometry], [DodecahedronGeometry] and [IcosahedronGeometry],
    and [box width height depth] for [THREE.BoxGeometry]. *)
Inductive PolyhedronKind : Type := Tetrahedron | Octahedron | Dodecahedron | Icosahedron.

Section Three.

Variable polyhedron : PolyhedronKind -> R -> Z -> BufferGeometry.
Variable box : R -> R -> R -> BufferGeometry.

Definition createGeometry (sides : Z) : BufferGeometry :=
  if decide (sides = 4%Z) then polyhedron Tetrahedron 1.2 0
  else if decide (sides = 6%Z) then box 1.7 1.7 1.7
  else if decide (sides = 8%Z) then polyhedron Octahedron 1.2 0
  else if decide (sides = 10%Z) then createD10Geometry 1.2
  else if decide (sides = 12%Z) then polyhedron Dodecahedron 1.2 0
  else if decide (sides = 20%Z) then polyhedron Icosahedron 1.2 0
  else polyhedron Icosahedron 1.14 0.

End Three.

(** ** Vocabulary of the statements about the faces *)

(** No two faces have normals within the tolerance of each other. *)
Definition distinctNormals (faces : list Face) : Prop :=
  forall i j f g, i <> j -> faces !! i = Some f -> faces !! j = Some g ->
                  ~ V3.dot (normal f) (normal g) > 0.999.

(** The tolerance test of the clustering loop, and its effect on the list
    of cluster normals. *)
Definition near (a b : Vector3) : Prop := V3.dot a b > 0.999.

Definition joinNormal (cs : list Vector3) (n : Vector3) : list Vector3 :=
  if decide (Exists (fun c => near c n) cs) then cs else cs ++ [n].

(** Every earlier normal of the list is apart from every later one. *)
Definition separated (cs : list Vector3) : Prop :=
  StronglySorted (fun a b => ~ near a b) cs.

Definition triangleVerts (t : Triangle) : list Vector3 :=
  let '(a, b, c) := t in [a; b; c].

(** *** A geometry that is not indexed, by its triangles *)

(** The triangles are told apart by face: [faceOf] gives every triangle
    the number of its face, the faces being numbered from 0 to
    [numFaces - 1]; the outward normals [ns] of the triangles are unit
    vectors, and two of them are within the tolerance of each other
    exactly when the triangles are of the same face. *)
Definition facesApart (ns : list Vector3) (faceOf : list nat) (numFaces : nat)
  : Prop :=
  length faceOf = length ns
  /\ (forall l, l ∈ faceOf <-> (l < numFaces)%nat)
  /\ Forall isUnit ns
  /\ forall i j n n' l l',
       ns !! i = Some n -> ns !! j = Some n' ->
       faceOf !! i = Some l -> faceOf !! j = Some l' ->
       (near n n' <-> l = l').

(** The triangles of the face [l] in the order of the buffer, their
    corners, and the mean of a list of vertices. *)
Definition faceTriangles (ts : list Triangle) (faceOf : list nat) (l : nat)
  : list Triangle :=
  (filter (fun p => p.2 = l) (zip ts faceOf)).*1.

Definition faceVertices (ts : list Triangle) (faceOf : list nat) (l : nat)
  : list Vector3 :=
  concat (triangleVerts <$> faceTriangles ts faceOf l).

Definition centre (vs : list Vector3) : Vector3 :=
  V3.divideScalar (sumVectors vs) (INR (length vs)).

(** Every face is flat, and none of its corners is at its centre. *)
Definition facesPlanar (ts : list Triangle) (faceOf : list nat) : Prop :=
  (forall i j t t' l,
     ts !! i = Some t -> ts !! j = Some t' ->
     faceOf !! i = Some l -> faceOf !! j = Some l ->
     Forall (inPlaneOf t) (triangleVerts t'))
  /\ forall l v, v ∈ faceVertices ts faceOf l ->
                 v <> centre (faceVertices ts faceOf l).

(** The triangles that face the other way than a given one (dot product
    of the normals below -0.99) are those of one face. *)
Definition facesPaired (ns : list Vector3) (faceOf : list nat) : Prop :=
  forall i n, ns !! i = Some n ->
    exists l', l' ∈ faceOf
      /\ forall j n' l, ns !! j = Some n' -> faceOf !! j = Some l ->
                        (V3.dot n n' < -0.99 <-> l = l').

(** *** An indexed geometry, by its groups of triangles *)

(** The vertex indices of the group [f] of [tpf] triangles, and the
    first triangle of the group. *)
Definition groupIndices (idx : list nat) (tpf f : nat) : list nat :=
  concat (triangleIndices idx <$> seq (f * tpf) tpf).

Definition groupTriangle (pos : list Vector3) (idx : list nat) (tpf f : nat)
  : Triangle :=
  let t := (f * tpf)%nat in
  (vertexAt pos (default 0%nat (idx !! (3 * t)%nat)),
   vertexAt pos (default 0%nat (idx !! (3 * t + 1)%nat)),
   vertexAt pos (default 0%nat (idx !! (3 * t + 2)%nat))).

(** The group [f] lies across the unit vector [n], on the side [n] points
    to: its first triangle has area and edges perpendicular to [n], and
    the vertices of the group add up to a vector on the side of [n]. *)
Definition groupPlane (pos : list Vector3) (idx : list nat) (tpf f : nat)
           (n : Vector3) : Prop :=
  let '(a, b, c) := groupTriangle pos idx tpf f in
  isUnit n /\ triangleCross (a, b, c) <> V3.zero
  /\ perpendicular n (V3.sub b a) /\ perpendicular n (V3.sub c a)
  /\ 0 < V3.dot n (sumVectors (vertexAt pos <$> groupIndices idx tpf f)).

(** *** Solids *)

(** The geometry is a flat-shaded solid with [numFaces] faces whose
    normals are further apart than the tolerance.  Not indexed: its
    triangles are told apart by face.  Indexed: the index buffer holds
    [tpf >= 1] triangles per face and only indices of vertices, the groups
    lie across unit vectors [ns], and any two of these have a dot product
    of 0.999 at most. *)
Definition flatSolid (geometry : BufferGeometry) (numFaces : nat) : Prop :=
  match index geometry with
  | None =>
      exists faceOf,
        facesApart (outwardNormal <$> trianglesOf (position geometry))
                   faceOf numFaces
  | Some idx =>
      let tpf := trisPerFace (length idx) numFaces in
      (1 <= tpf)%nat /\ (3 * tpf * numFaces <= length idx)%nat
      /\ Forall (fun i => (i < length (position geometry))%nat) idx
      /\ exists ns,
           length ns = numFaces
           /\ (forall f n, ns !! f = Some n ->
                           groupPlane (position geometry) idx tpf f n)
           /\ forall f g n n', f <> g -> ns !! f = Some n -> ns !! g = Some n' ->
                               V3.dot n n' <= 0.999
  end.

(** What the round trip needs of the geometry of a die.  Not indexed: the
    triangles are told apart by face; unless the die is a D6, every face
    is flat with no corner at its centre; and where the numbering pairs
    the faces, the triangles opposite to a triangle are those of one face.
    Indexed, which is how a box comes: a flat-shaded solid with the six
    faces of a D6. *)
Definition regularSolid (geometry : BufferGeometry) (sides : Z) : Prop :=
  match index geometry with
  | None =>
      let ts := trianglesOf (position geometry) in
      exists faceOf,
        facesApart (outwardNormal <$> ts) faceOf (geomFaceCount sides)
        /\ (sides ≠ 6%Z -> facesPlanar ts faceOf)
        /\ (sides ≠ 4%Z -> sides ≠ 6%Z ->
            facesPaired (outwardNormal <$> ts) faceOf)
  | Some _ => sides = 6%Z /\ flatSolid geometry (geomFaceCount sides)
  end.


(** The cluster of a triangle that shares its normal with no other. *)
Definition triangleCluster (t : Triangle) : Cluster :=
  mkCluster (outwardNormal t) (triangleVerts t).

(** The cluster the two triangles of a kite end up in, and the ten kites of
    the D10 in the order in which they are emitted. *)
Definition kiteCluster (kite : Triangle * Triangle) : Cluster :=
  mkCluster (outwardNormal kite.1) (triangleVerts kite.1 ++ triangleVerts kite.2).

Definition kiteTriangles (kites : list (Triangle * Triangle)) : list Triangle :=
  concat ((fun kite => [kite.1; kite.2]) <$> kites).

Definition d10Kites (radius : R) : list (Triangle * Triangle) :=
  concat ((fun k => [d10TopKite radius k; d10BotKite radius k]) <$> seq 0 5).
(** * Orientation solver: faceSettleQuat *)

(** ** THREE.Matrix4 (its upper-left 3x3 block) and THREE.Quaternion *)

(** [mIJ] is the entry of row [I] and column [J]. *)
Record Matrix3 : Type := Mat3 {
  m11 : R; m12 : R; m13 : R;
  m21 : R; m22 : R; m23 : R;
  m31 : R; m32 : R; m33 : R
}.

Record Quaternion : Type := Quat { qx : R; qy : R; qz : R; qw : R }.

(** [makeBasis(xAxis, yAxis, zAxis)]: the three vectors are the columns. *)
Definition makeBasis (xAxis yAxis zAxis : Vector3) : Matrix3 :=
  Mat3 (vx xAxis) (vx yAxis) (vx zAxis)
       (vy xAxis) (vy yAxis) (vy zAxis)
       (vz xAxis) (vz yAxis) (vz zAxis).

(** [Quaternion.setFromRotationMatrix(m)] *)
Definition setFromRotationMatrix (m : Matrix3) : Quaternion :=
  let trace := m11 m + m22 m + m33 m in
  if decide (trace > 0) then
    let s := 0.5 / sqrt (trace + 1) in
    Quat ((m32 m - m23 m) * s) ((m13 m - m31 m) * s) ((m21 m - m12 m) * s)
         (0.25 / s)
  else if decide (m11 m > m22 m /\ m11 m > m33 m) then
    let s := 2 * sqrt (1 + m11 m - m22 m - m33 m) in
    Quat (0.25 * s) ((m12 m + m21 m) / s) ((m13 m + m31 m) / s)
         ((m32 m - m23 m) / s)
  else if decide (m22 m > m33 m) then
    let s := 2 * sqrt (1 + m22 m - m11 m - m33 m) in
    Quat ((m12 m + m21 m) / s) (0.25 * s) ((m23 m + m32 m) / s)
         ((m13 m - m31 m) / s)
  else
    let s := 2 * sqrt (1 + m33 m - m11 m - m22 m) in
    Quat ((m13 m + m31 m) / s) ((m23 m + m32 m) / s) (0.25 * s)
         ((m21 m - m12 m) / s).

(** [Quaternion.conjugate()] *)
Definition conjugate (q : Quaternion) : Quaternion :=
  Quat (- qx q) (- qy q) (- qz q) (qw q).

(** [Vector3.applyQuaternion(q)]: the vector rotated by [q]. *)
Definition applyQuaternion (v : Vector3) (q : Quaternion) : Vector3 :=
  let tx := 2 * (qy q * vz v - qz q * vy v) in
  let ty := 2 * (qz q * vx v - qx q * vz v) in
  let tz := 2 * (qx q * vy v - qy q * vx v) in
  Vec3 (vx v + qw q * tx + qy q * tz - qz q * ty)
       (vy v + qw q * ty + qz q * tx - qx q * tz)
       (vz v + qw q * tz + qx q * ty - qy q * tx).

(** ** The reference direction *)

(** [ref]: (0,1,0), or (0,0,1) when [Math.abs(n.dot(ref)) > 0.99]. *)
Definition worldRef (n : Vector3) : Vector3 :=
  if decide (Rabs (V3.dot n (Vec3 0 1 0)) > 0.99) then Vec3 0 0 1 else Vec3 0 1 0.

(** [ref.clone().addScaledVector(n, -ref.dot(n))], before [normalize()]. *)
Definition projectedRef (n : Vector3) : Vector3 :=
  V3.addScaledVector (worldRef n) n (- V3.dot (worldRef n) n).

Definition refUpOf (n : Vector3) : Vector3 := V3.normalize (projectedRef n).

(** ** The up direction of the label *)

(** D10: from the centroid towards the pole of its own side, projected on
    the face plane; before [normalize()] and [negate()]. *)
Definition poleOf (c : Vector3) : Vector3 :=
  let H := 1.2 in
  if decide (vy c > 0) then Vec3 0 H 0 else Vec3 0 (- H) 0.

Definition projectedToPole (c n : Vector3) : Vector3 :=
  let toPole := V3.sub (poleOf c) c in
  V3.addScaledVector toPole n (- V3.dot toPole n).

(** One round of the vertex loop; [bestDot] is [None] for [-Infinity]. *)
Definition snapStep (c refUp : Vector3) (st : option R * Vector3) (v : Vector3)
  : option R * Vector3 :=
  let dir := V3.normalize (V3.sub v c) in
  let d := V3.dot dir refUp in
  match st.1 with
  | None => (Some d, dir)
  | Some bestDot => if decide (d > bestDot) then (Some d, dir) else st
  end.

Definition snapToVertex (c refUp : Vector3) (vs : list Vector3) : Vector3 :=
  (foldl (snapStep c refUp) (None, refUp) vs).2.

(** The up direction from the centroid [c], the unit normal [n], the
    projected reference [refUp] and the vertices [vs]. *)
Definition faceUpFrom (c n refUp : Vector3) (vs : list Vector3) (sides : Z)
  : Vector3 :=
  if decide (sides = 10%Z) then
    V3.negate (V3.normalize (projectedToPole c n))
  else if decide (sides ≠ 6%Z /\ (3 <= length vs)%nat) then
    snapToVertex c refUp vs
  else refUp.

Definition faceUpOf (face : Face) (sides : Z) : Vector3 :=
  let n := V3.normalize (normal face) in
  faceUpFrom (centroid face) n (refUpOf n) (verts face) sides.

(** [crossVectors(faceUp, n)], before [normalize()]. *)
Definition basisCross (face : Face) (sides : Z) : Vector3 :=
  V3.cross (faceUpOf face sides) (V3.normalize (normal face)).

(** The quaternion of the basis (xAxis, faceUp, n), conjugated. *)
Definition basisQuat (faceUp n : Vector3) : Quaternion :=
  let xAxis := V3.normalize (V3.cross faceUp n) in
  let m := makeBasis xAxis faceUp n in
  conjugate (setFromRotationMatrix m).

Definition faceSettleQuat (face : Face) (sides : Z) : Quaternion :=
  let n := V3.normalize (normal face) in
  basisQuat (faceUpOf face sides) n.

(** ** Vocabulary of the statements about the basis *)

(** The direction the label's up is taken from is usable: for a D10 the
    pole is off the line through the centroid along the normal; for a face
    whose up is snapped to a vertex, every vertex lies in the face plane
    away from the centroid. *)
Definition wellPlaced (face : Face) (sides : Z) : Prop :=
  if decide (sides = 10%Z) then
    projectedToPole (centroid face) (normal face) <> V3.zero
  else if decide (sides ≠ 6%Z /\ (3 <= length (verts face))%nat) then
    Forall (fun v => v <> centroid face
                     /\ perpendicular (V3.sub v (centroid face)) (normal face))
           (verts face)
  else True.

(** A face whose three vertices sit on the line through its centroid along
    its normal. *)
Definition needleFace : Face :=
  mkFace (Vec3 0 0 0) (Vec3 0 0 1) [Vec3 0 0 1; Vec3 0 0 2; Vec3 0 0 3].
(** * The object store

    [THREE.Vector3] objects are mutable and shared by reference: a face
    object holds references to its centroid, its normal and its vertices.
    The store is the list of all vector objects; a reference is an index
    into it, and [new THREE.Vector3] appends a cell. *)

Abbreviation Loc := nat.

Abbreviation Heap := (list Vector3).

(** Computations that read and update the store. *)
Definition St (A : Type) : Type := Heap -> A * Heap.

Definition ret {A : Type} (a : A) : St A := fun h => (a, h).

Definition bind {A B : Type} (m : St A) (f : A -> St B) : St B :=
  fun h => let (a, h') := m h in f a h'.

Notation "'let!' x ':=' m 'in' k" := (bind m (fun x => k))
  (at level 10, x name, m at level 200, k at level 200,
   format "'[v' 'let!'  x  ':='  m  'in' '/' k ']'").

Module Store.

Definition read (l : Loc) : St Vector3 :=
  fun h => (default V3.zero (h !! l), h).

Definition write (l : Loc) (v : Vector3) : St Loc :=
  fun h => (l, <[l := v]> h).

(** [new THREE.Vector3(x, y, z)] *)
Definition newVector3 (x y z : R) : St Loc :=
  fun h => (length h, h ++ [Vec3 x y z]).

(** The methods below update [this] in place and return [this]. *)
Definition clone (this : Loc) : St Loc :=
  let! v := read this in newVector3 (vx v) (vy v) (vz v).

Definition normalize (this : Loc) : St Loc :=
  let! v := read this in write this (V3.normalize v).

Definition negate (this : Loc) : St Loc :=
  let! v := read this in write this (V3.negate v).

Definition addScaledVector (this v : Loc) (s : R) : St Loc :=
  let! a := read this in
  let! b := read v in
  write this (V3.addScaledVector a b s).

Definition subVectors (this a b : Loc) : St Loc :=
  let! va := read a in
  let! vb := read b in
  write this (V3.sub va vb).

Definition crossVectors (this a b : Loc) : St Loc :=
  let! va := read a in
  let! vb := read b in
  write this (V3.cross va vb).

Definition dot (this v : Loc) : St R :=
  let! a := read this in
  let! b := read v in
  ret (V3.dot a b).

(** A face object: references to its vectors. *)
Record FaceObj : Type := mkFaceObj {
  centroid : Loc;
  normal : Loc;
  verts : list Loc
}.

(** The face a face object stands for in the store [h]. *)
Definition faceOf (h : Heap) (f : FaceObj) : Face :=
  mkFace (default V3.zero (h !! centroid f))
         (default V3.zero (h !! normal f))
         ((fun l => default V3.zero (h !! l)) <$> verts f).

(** One round of [for (const v of face.verts)]; the state is [bestDot]
    ([None] for [-Infinity]) and the reference [faceUp]. *)
Definition snapStep (c refUp : Loc) (st : option R * Loc) (v : Loc)
  : St (option R * Loc) :=
  let! dir0 := newVector3 0 0 0 in
  let! dir1 := subVectors dir0 v c in
  let! dir := normalize dir1 in
  let! d := dot dir refUp in
  match st.1 with
  | None => ret (Some d, dir)
  | Some bestDot => if decide (d > bestDot) then ret (Some d, dir) else ret st
  end.

Fixpoint snapLoop (c refUp : Loc) (st : option R * Loc) (vs : list Loc)
  : St (option R * Loc) :=
  match vs with
  | [] => ret st
  | v :: rest =>
      let! st1 := snapStep c refUp st v in snapLoop c refUp st1 rest
  end.

(** [n = face.normal.clone().normalize()] *)
Definition normalOf (face : FaceObj) : St Loc :=
  let! n0 := clone (normal face) in
  normalize n0.

(** [ref] and [refUp] *)
Definition refUpOf (n : Loc) : St Loc :=
  let! ref0 := newVector3 0 1 0 in
  let! d := dot n ref0 in
  let! ref := (if decide (Rabs d > 0.99) then newVector3 0 0 1 else ret ref0) in
  let! up0 := clone ref in
  let! rn := dot ref n in
  let! up1 := addScaledVector up0 n (- rn) in
  normalize up1.

(** The three-way choice of [faceUp]. *)
Definition faceUpOf (face : FaceObj) (sides : Z) (n refUp : Loc) : St Loc :=
  if decide (sides = 10%Z) then
    let H := 1.2 in
    let! c := read (centroid face) in
    let! pole := (if decide (vy c > 0) then newVector3 0 H 0
                  else newVector3 0 (- H) 0) in
    let! t0 := newVector3 0 0 0 in
    let! toPole := subVectors t0 pole (centroid face) in
    let! tn := dot toPole n in
    let! t1 := addScaledVector toPole n (- tn) in
    let! t2 := normalize t1 in
    negate toPole
  else if decide (sides ≠ 6%Z /\ (3 <= length (verts face))%nat) then
    let! st := snapLoop (centroid face) refUp (None, refUp) (verts face) in
    ret st.2
  else ret refUp.

(** [xAxis], the basis matrix and the returned quaternion. *)
Definition basisQuat (faceUp n : Loc) : St Quaternion :=
  let! x0 := newVector3 0 0 0 in
  let! x1 := crossVectors x0 faceUp n in
  let! xAxis := normalize x1 in
  let! vxAxis := read xAxis in
  let! vfaceUp := read faceUp in
  let! vn := read n in
  ret (conjugate (setFromRotationMatrix (makeBasis vxAxis vfaceUp vn))).

Definition faceSettleQuat (face : FaceObj) (sides : Z) : St Quaternion :=
  let! n := normalOf face in
  let! refUp := refUpOf n in
  let! faceUp := faceUpOf face sides n refUp in
  basisQuat faceUp n.

(** ** Meshes and settleQuat *)

(** [mesh.userData]: a field that was never set is [None]. [numberToFace]
    maps a displayed number to a face index; both are integers. *)
Record UserData : Type := mkUserData {
  faces : option (list FaceObj);
  faceNumbers : option (list Z);
  numberToFace : option (gmap Z Z)
}.

Record Mesh : Type := mkMesh {
  geometry : BufferGeometry;
  userData : UserData
}.

(** How a call ends: with a value, or with a thrown [TypeError]. *)
Inductive Completion (A : Type) : Type :=
| Return (a : A)
| Throw.
Arguments Return {A} a.
Arguments Throw {A}.

(** [null] is [None].  Reading [.normal] of [faces[fi]] throws when
    [faces[fi]] is [undefined]. *)
Definition settleQuat (mesh : Mesh) (result : Z) (sides : Z)
  : St (Completion (option Quaternion)) :=
  match faces (userData mesh), numberToFace (userData mesh) with
  | Some fs, Some ntf =>
      match ntf !! result with
      | None => ret (Return None)
      | Some fi =>
          if decide (fi < 0 \/ fi >= Z.of_nat (length fs))%Z
          then ret (Return None)
          else match fs !! Z.to_nat fi with
               | Some face =>
                   let! q := faceSettleQuat face sides in
                   ret (Return (Some q))
               | None => ret Throw
               end
      end
  | _, _ => ret (Return None)
  end.

(** ** buildDieMesh *)

(** A fresh vector object holding [v]. *)
Definition newVector (v : Vector3) : St Loc := newVector3 (vx v) (vy v) (vz v).

Fixpoint newVectors (vs : list Vector3) : St (list Loc) :=
  match vs with
  | [] => ret []
  | v :: rest =>
      let! l := newVector v in
      let! ls := newVectors rest in
      ret (l :: ls)
  end.

(** [faces.push({ centroid, normal, verts })]: the face object holds vector
    objects that [computeFaces] created and that nothing else refers to. *)
Definition newFace (f : Face) : St FaceObj :=
  let 'mkFace c n vs := f in
  let! lc := newVector c in
  let! ln := newVector n in
  let! lvs := newVectors vs in
  ret (mkFaceObj lc ln lvs).

Fixpoint newFaces (fs : list Face) : St (list FaceObj) :=
  match fs with
  | [] => ret []
  | f :: rest =>
      let! o := newFace f in
      let! os := newFaces rest in
      ret (o :: os)
  end.

(** [computeFaces(geo, nf)] as a computation on the store: the faces it
    computes, as fresh objects. *)
Definition computeFaces (geometry : BufferGeometry) (numFaces : nat)
  : St (list FaceObj) :=
  newFaces (computeFaces geometry numFaces).

(** The faces the face objects stand for when [computeFaceNumbers] reads
    them. *)
Definition readFaces (fs : list FaceObj) : St (list Face) :=
  fun h => (faceOf h <$> fs, h).

(** [faceNumbers.forEach((num, idx) => { numberToFace[num] = idx; })] from
    index [idx] on: a later face replaces an earlier one with the same
    number. *)
Fixpoint indexNumbers (idx : nat) (numbers : list Z) (ntf : gmap Z Z) : gmap Z Z :=
  match numbers with
  | [] => ntf
  | num :: rest => indexNumbers (S idx) rest (<[num := Z.of_nat idx]> ntf)
  end.

(** Round [i] of the label loop, as far as the store goes: the position of
    the label is a fresh vector, [copy] and [addScaledVector] write to it,
    and [faceSettleQuat] runs on the face.  (Textures, materials and the
    scene graph are not modelled.) *)
Definition labelStep (fs : list FaceObj) (sides : Z) (i : nat) : St unit :=
  match fs !! i with
  | None => ret tt
  | Some face =>
      let! p0 := newVector3 0 0 0 in
      let! c := read (centroid face) in
      let! p1 := write p0 c in
      let! p2 := addScaledVector p1 (normal face) 0.02 in
      let! sq := faceSettleQuat face sides in
      ret tt
  end.

Fixpoint labelLoop (fs : list FaceObj) (sides : Z) (idxs : list nat) : St unit :=
  match idxs with
  | [] => ret tt
  | i :: rest =>
      let! u := labelStep fs sides i in
      labelLoop fs sides rest
  end.

Section Build.

Variable polyhedron : PolyhedronKind -> R -> Z -> BufferGeometry.
Variable box : R -> R -> R -> BufferGeometry.

(** [buildDieMesh(sides, color, d6Style)]: the geometry and [userData] of
    the mesh it returns; [color] and [d6Style] only reach the materials and
    textures. *)
Definition buildDieMesh (sides : Z) : St Mesh :=
  let geo := createGeometry polyhedron box sides in
  if decide (sides ∈ FACE_LABELED) then
    let! fs := computeFaces geo (geomFaceCount sides) in
    let! vals := readFaces fs in
    let numbers := computeFaceNumbers vals sides in
    let ntf := indexNumbers 0 numbers ∅ in
    let! u := labelLoop fs sides (seq 0 (Z.to_nat sides)) in
    ret (mkMesh geo (mkUserData (Some fs) (Some numbers) (Some ntf)))
  else ret (mkMesh geo (mkUserData None None None)).

End Build.

End Store.

(** ** Vocabulary of the statements about the store *)

(** Run from [h], [m] returns a reference to a cell holding [v] and leaves
    a store that extends [h]. *)
Definition yields (m : St Loc) (h : Heap) (v : Vector3) : Prop :=
  exists ext l, m h = (l, h ++ ext) /\ (h ++ ext) !! l = Some v.

(** The face object [f] lives in the store [h]. *)
Definition faceIn (h : Heap) (f : Store.FaceObj) : Prop :=
  (Store.centroid f < length h)%nat
  /\ (Store.normal f < length h)%nat
  /\ Forall (fun l => (l < length h)%nat) (Store.verts f).

(** Every face object of the mesh lives in the store. *)
Definition meshIn (h : Heap) (mesh : Store.Mesh) : Prop :=
  forall fs, Store.faces (Store.userData mesh) = Some fs -> Forall (faceIn h) fs.

(** A store with one triangular face, and a mesh labelled with it. *)
Definition sampleHeap : Heap :=
  [ Vec3 0 0 1; Vec3 0 0 1; Vec3 1 0 1; Vec3 (-1) 1 1; Vec3 0 (-1) 1 ].

Definition sampleFaceObj : Store.FaceObj := Store.mkFaceObj 0 1 [2; 3; 4]%nat.

Definition sampleMesh : Store.Mesh :=
  Store.mkMesh (mkGeometry [] None)
    (Store.mkUserData (Some [sampleFaceObj]) (Some [1%Z]) (Some {[ 1%Z := 0%Z ]})).

(** ** Vocabulary of the statements about built dice *)

(** What the round trip needs of the faces of a die: there are [sides] of
    them, their normals are unit vectors, the up direction of each label
    is usable, and, where the numbering pairs the faces, every face has
    exactly one anti-parallel partner. *)
Definition regularDie (faces : list Face) (sides : Z) : Prop :=
  Z.of_nat (length faces) = sides
  /\ Forall (fun f => isUnit (normal f) /\ wellPlaced f sides) faces
  /\ (sides ≠ 4%Z -> sides ≠ 6%Z -> uniquePartner faces).




(** ** Sample face lists *)

(** A face with the given normal, its centroid on the normal at distance
    0.85 and the given vertices. *)
Definition sampleFace (nrm : Vector3) (vs : list Vector3) : Face :=
  mkFace (V3.multiplyScalar nrm 0.85) nrm vs.

(** The six faces of the 1.7-cube in the order +x, -x, +y, -y, +z, -z. *)
Definition boxFaces : list Face :=
  [ sampleFace (Vec3 1 0 0)
      [Vec3 0.85 0.85 0.85; Vec3 0.85 0.85 (-0.85); Vec3 0.85 (-0.85) 0.85; Vec3 0.85 (-0.85) (-0.85)];
    sampleFace (Vec3 (-1) 0 0)
      [Vec3 (-0.85) 0.85 (-0.85); Vec3 (-0.85) 0.85 0.85; Vec3 (-0.85) (-0.85) (-0.85); Vec3 (-0.85) (-0.85) 0.85];
    sampleFace (Vec3 0 1 0)
      [Vec3 (-0.85) 0.85 (-0.85); Vec3 0.85 0.85 (-0.85); Vec3 (-0.85) 0.85 0.85; Vec3 0.85 0.85 0.85];
    sampleFace (Vec3 0 (-1) 0)
      [Vec3 (-0.85) (-0.85) 0.85; Vec3 0.85 (-0.85) 0.85; Vec3 (-0.85) (-0.85) (-0.85); Vec3 0.85 (-0.85) (-0.85)];
    sampleFace (Vec3 0 0 1)
      [Vec3 (-0.85) 0.85 0.85; Vec3 0.85 0.85 0.85; Vec3 (-0.85) (-0.85) 0.85; Vec3 0.85 (-0.85) 0.85];
    sampleFace (Vec3 0 0 (-1))
      [Vec3 0.85 0.85 (-0.85); Vec3 (-0.85) 0.85 (-0.85); Vec3 0.85 (-0.85) (-0.85); Vec3 (-0.85) (-0.85) (-0.85)] ].

(** Eight faces with rational unit normals in four anti-parallel pairs;
    face [i + 4] is opposite to face [i]. *)
Definition fourAxes : list Vector3 :=
  [ Vec3 (1/3) (2/3) (2/3); Vec3 (2/3) (1/3) (2/3);
    Vec3 (2/3) (2/3) (1/3); Vec3 (2/3) (-2/3) (1/3) ].

Definition eightFaces : list Face :=
  ((fun v => sampleFace v []) <$> fourAxes)
  ++ ((fun v => sampleFace (V3.negate v) []) <$> fourAxes).

Definition boxOpposite (i j : nat) : bool :=
  match i, j with
  | 0, 1 | 1, 0 | 2, 3 | 3, 2 | 4, 5 | 5, 4 => true
  | _, _ => false
  end%nat.

Definition eightOpposite (i j : nat) : bool :=
  bool_decide (j = i + 4 \/ i = j + 4)%nat.

(** Ten faces with rational unit normals in five anti-parallel pairs; face
    [i + 5] is opposite to face [i], and the upper face of a pair comes
    first in the pairs 0, 2 and 4 only. *)
Definition fiveAxes : list Vector3 :=
  [ Vec3 (3/5) (4/5) 0; Vec3 0 (-4/5) (-3/5); Vec3 (-3/5) (4/5) 0;
    Vec3 0 (-4/5) (3/5); Vec3 (2/3) (2/3) (1/3) ].

Definition tenFaces : list Face :=
  ((fun v => sampleFace v []) <$> fiveAxes)
  ++ ((fun v => sampleFace (V3.negate v) []) <$> fiveAxes).

Definition tenOpposite (i j : nat) : bool :=
  bool_decide (j = i + 5 \/ i = j + 5)%nat.


(** ** Sample geometries *)

(** The octahedron of circumradius 1.2 as a triangle soup: the six
    vertices on the axes, eight outward-wound triangles. *)
Definition octaVertex (i : nat) : Vector3 :=
  match i with
  | 0 => Vec3 1.2 0 0
  | 1 => Vec3 (-1.2) 0 0
  | 2 => Vec3 0 1.2 0
  | 3 => Vec3 0 (-1.2) 0
  | 4 => Vec3 0 0 1.2
  | _ => Vec3 0 0 (-1.2)
  end%nat.

Definition octaIndices : list nat :=
  [0; 2; 4;  0; 4; 3;  0; 3; 5;  0; 5; 2;
   1; 2; 5;  1; 5; 3;  1; 3; 4;  1; 4; 2]%nat.

Definition octahedronGeometry : BufferGeometry :=
  mkGeometry (octaVertex <$> octaIndices) None.

(** The directions of its eight face normals. *)
Definition octaDirections : list Vector3 :=
  [ Vec3 1 1 1; Vec3 1 (-1) 1; Vec3 1 (-1) (-1); Vec3 1 1 (-1);
    Vec3 (-1) 1 (-1); Vec3 (-1) (-1) (-1); Vec3 (-1) (-1) 1; Vec3 (-1) 1 1 ].

(** A box laid out as an indexed geometry: the six planes +x, -x, +y, -y,
    +z, -z with four vertices of their own each, every plane cut in the
    two triangles (0, 2, 1) and (2, 3, 1) of its vertices. *)
Definition boxPlanes (w h d : R) : list (list Vector3) :=
  [ [Vec3 w h d; Vec3 w h (- d); Vec3 w (- h) d; Vec3 w (- h) (- d)];
    [Vec3 (- w) h (- d); Vec3 (- w) h d; Vec3 (- w) (- h) (- d); Vec3 (- w) (- h) d];
    [Vec3 (- w) h (- d); Vec3 w h (- d); Vec3 (- w) h d; Vec3 w h d];
    [Vec3 (- w) (- h) d; Vec3 w (- h) d; Vec3 (- w) (- h) (- d); Vec3 w (- h) (- d)];
    [Vec3 (- w) h d; Vec3 w h d; Vec3 (- w) (- h) d; Vec3 w (- h) d];
    [Vec3 w h (- d); Vec3 (- w) h (- d); Vec3 w (- h) (- d); Vec3 (- w) (- h) (- d)] ].

Definition boxIndices : list nat :=
  concat ((fun p => [4 * p; 4 * p + 2; 4 * p + 1;
                     4 * p + 2; 4 * p + 3; 4 * p + 1]%nat) <$> seq 0 6).

Definition boxGeometry (width height depth : R) : BufferGeometry :=
  mkGeometry (concat (boxPlanes (width / 2) (height / 2) (depth / 2)))
             (Some boxIndices).

(** The directions of its six faces. *)
Definition boxDirections : list Vector3 :=
  [ Vec3 1 0 0; Vec3 (-1) 0 0; Vec3 0 1 0; Vec3 0 (-1) 0;
    Vec3 0 0 1; Vec3 0 0 (-1) ].

(** Stand-ins for the three.js constructors: the octahedron for every
    polyhedron, and the box. *)
Definition samplePolyhedron (kind : PolyhedronKind) (radius : R) (detail : Z)
  : BufferGeometry := octahedronGeometry.

Definition sampleBox (width height depth : R) : BufferGeometry :=
  boxGeometry width height depth.
(** * The face labels of buildDieMesh *)

(** [label.position.copy(face.centroid).addScaledVector(face.normal, 0.02)] *)
Definition labelPosition (face : Face) : Vector3 :=
  V3.addScaledVector (centroid face) (normal face) 0.02.

(** [label.quaternion.copy(sq.conjugate())] with
    [sq = faceSettleQuat(face, sides)] *)
Definition labelQuaternion (face : Face) (sides : Z) : Quaternion :=
  conjugate (faceSettleQuat face sides).

(** ** Vocabulary of the statements about rotations *)

Definition unitQuaternion (q : Quaternion) : Prop :=
  qx q * qx q + qy q * qy q + qz q * qz q + qw q * qw q = 1.

(** Three faces with pairwise perpendicular normals: no two are opposite. *)
Definition cornerFaces : list Face :=
  [ sampleFace (Vec3 1 0 0) []; sampleFace (Vec3 0 1 0) [];
    sampleFace (Vec3 0 0 1) [] ].

(** A square in the plane [z = 1] as an indexed geometry: four vertices and
    two triangles that make one face. *)
Definition quadGeometry : BufferGeometry :=
  mkGeometry [Vec3 0 0 1; Vec3 1 0 1; Vec3 1 1 1; Vec3 0 1 1]
             (Some [0; 1; 2; 0; 2; 3]%nat).
(** * Texture cache: texCache, getNumTexture, getDotTexture, clearTextureCache *)

Module Textures.

(** The calls made on the 2D context of a canvas, in order. *)
Inductive CanvasCall : Type :=
| clearRect (x y w h : R)
| font (px : R)
| textAlign (value : string)
| textBaseline (value : string)
| fillStyle (value : string)
| fillText (text : string) (x y : R)
| beginPath
| arc (x y radius startAngle endAngle : R)
| fill.

(** A [THREE.CanvasTexture]: what was drawn on its canvas, its
    [needsUpdate] flag, and whether [dispose()] was called on it. *)
Record Texture : Type := mkTexture {
  image : list CanvasCall;
  needsUpdate : bool;
  disposed : bool
}.

(** The key of a [Map] entry: a number or a string (no number is the same
    key as a string). *)
Definition Key : Type := (Z + string)%type.

(** The texture objects created so far, a reference being an index, and
    [texCache]. *)
Record Cache : Type := mkCache {
  textures : list Texture;
  texCache : gmap Key nat
}.

(** [texCache = new Map()] when the module is loaded. *)
Definition emptyCache : Cache := mkCache [] ∅.

Definition sz : R := 256.

(** [String(num)] for an integer: its decimal digits, after a minus sign
    if it is negative. *)
Definition toString (num : Z) : string := pretty num.

(** What [getNumTexture] draws. *)
Definition numImage (num : Z) : list CanvasCall :=
  let text := toString num in
  let fs := if decide (1 < String.length text)%nat then sz * 0.62 else sz * 0.82 in
  [ clearRect 0 0 sz sz;
    font fs; textAlign "center"; textBaseline "middle";
    fillStyle "rgba(0,0,0,0.35)"; fillText text (sz / 2 + 2) (sz / 2 + 2);
    fillStyle "#ffffff"; fillText text (sz / 2) (sz / 2) ].

(** [new THREE.CanvasTexture(c)], [tex.needsUpdate = true] and
    [texCache.set(key, tex)]. *)
Definition newTexture (key : Key) (img : list CanvasCall) (st : Cache)
  : nat * Cache :=
  let tex := length (textures st) in
  (tex, mkCache (textures st ++ [mkTexture img true false])
                (<[key := tex]> (texCache st))).

Definition getNumTexture (num : Z) (st : Cache) : nat * Cache :=
  match texCache st !! inl num with
  | Some tex => (tex, st)
  | None => newTexture (inl num) (numImage num) st
  end.

Definition DOT_POSITIONS : gmap Z (list (R * R)) :=
  list_to_map
    [ (1%Z, [(0.5, 0.5)]);
      (2%Z, [(0.22, 0.78); (0.78, 0.22)]);
      (3%Z, [(0.22, 0.78); (0.5, 0.5); (0.78, 0.22)]);
      (4%Z, [(0.22, 0.22); (0.78, 0.22); (0.22, 0.78); (0.78, 0.78)]);
      (5%Z, [(0.22, 0.22); (0.78, 0.22); (0.5, 0.5); (0.22, 0.78); (0.78, 0.78)]);
      (6%Z, [(0.22, 0.18); (0.22, 0.5); (0.22, 0.82);
             (0.78, 0.18); (0.78, 0.5); (0.78, 0.82)]) ].

(** One round of [dots.forEach]: the shadow, then the white dot. *)
Definition drawDot (r : R) (p : R * R) : list CanvasCall :=
  let '(px, py) := p in
  [ beginPath; arc (px * sz + 1) (py * sz + 1) r 0 (PI * 2);
    fillStyle "rgba(0,0,0,0.3)"; fill;
    beginPath; arc (px * sz) (py * sz) r 0 (PI * 2);
    fillStyle "#ffffff"; fill ].

(** What [getDotTexture] draws; [DOT_POSITIONS[num] || DOT_POSITIONS[1]]
    falls back to the single pip when [num] is no key. *)
Definition dotsOf (num : Z) : list (R * R) :=
  default [(0.5, 0.5)] (DOT_POSITIONS !! num).

Definition dotRadius (num : Z) : R :=
  if decide (num <= 2)%Z then sz * 0.13 else sz * 0.105.

Definition dotImage (num : Z) : list CanvasCall :=
  clearRect 0 0 sz sz :: concat (drawDot (dotRadius num) <$> dotsOf num).

(** [`dot-${num}`] *)
Definition dotKey (num : Z) : Key := inr ("dot-" +:+ toString num).

Definition getDotTexture (num : Z) (st : Cache) : nat * Cache :=
  match texCache st !! dotKey num with
  | Some tex => (tex, st)
  | None => newTexture (dotKey num) (dotImage num) st
  end.

(** [tex.dispose()] *)
Definition dispose (tex : Texture) : Texture :=
  mkTexture (image tex) (needsUpdate tex) true.

(** [texCache.forEach(tex => tex.dispose()); texCache.clear()].  (The
    entries are visited in the order of the map's list here, in insertion
    order there; disposing is the same in any order.) *)
Definition clearTextureCache (st : Cache) : Cache :=
  mkCache (foldr (fun entry ts => alter dispose entry.2 ts) (textures st)
                 (map_to_list (texCache st)))
          ∅.

(** ** Vocabulary of the statements about the cache *)

(** A request for a texture: [getNumTexture(num)] or [getDotTexture(num)]. *)
Inductive Request : Type :=
| NumTexture (num : Z)
| DotTexture (num : Z).

Definition request (r : Request) : Cache -> nat * Cache :=
  match r with
  | NumTexture num => getNumTexture num
  | DotTexture num => getDotTexture num
  end.

(** The key under which a request is cached, and the picture it asks for. *)
Definition keyOf (r : Request) : Key :=
  match r with
  | NumTexture num => inl num
  | DotTexture num => dotKey num
  end.

Definition pictureOf (r : Request) : list CanvasCall :=
  match r with
  | NumTexture num => numImage num
  | DotTexture num => dotImage num
  end.

(** A call of one of the three functions. *)
Inductive Call : Type :=
| Get (r : Request)
| Clear.

Definition call (c : Call) (st : Cache) : Cache :=
  match c with
  | Get r => (request r st).2
  | Clear => clearTextureCache st
  end.

(** The cache after the calls [cs], made one after the other from the
    start. *)
Definition history (cs : list Call) : Cache := foldl (fun st c => call c st) emptyCache cs.

(** Every entry of the cache refers to a texture that exists, has not been
    disposed and shows the picture of its key; no two entries refer to the
    same texture. *)
Definition cacheOk (st : Cache) : Prop :=
  (forall k t, texCache st !! k = Some t ->
     exists tex, textures st !! t = Some tex /\ disposed tex = false
                 /\ exists r, k = keyOf r /\ image tex = pictureOf r)
  /\ (forall k1 k2 t, texCache st !! k1 = Some t -> texCache st !! k2 = Some t ->
                      k1 = k2).

(** The circles of a picture, as (x, y, radius). *)
Definition arcsOf (img : list CanvasCall) : list (R * R * R) :=
  omap (fun c => match c with
                 | arc x y r _ _ => Some (x, y, r)
                 | _ => None
                 end) img.

(** The circle lies on the canvas. *)
Definition onCanvas (a : R * R * R) : Prop :=
  let '(x, y, r) := a in
  0 <= x - r /\ x + r <= sz /\ 0 <= y - r /\ y + r <= sz.

(** The font size of a picture of a number. *)
Definition fontOf (img : list CanvasCall) : option R :=
  head (omap (fun c => match c with font px => Some px | _ => None end) img).

End Textures.
(** * The component: Dice3D.jsx *)

Module Dice3D.

(** [Math.floor] and [Math.ceil] on the reals. *)
Definition floor (x : R) : R := IZR (up x - 1).

Definition ceil (x : R) : R := - floor (- x).

(** ** Effect 2: the grid of dice and the camera *)

Definition spacing : R := 2.8.

(** [cols = Math.min(count, 5)] and [rows = Math.ceil(count / cols)], with
    [count = results.length]. *)
Definition cols (count : nat) : R := Rmin (INR count) 5.

Definition rows (count : nat) : R := ceil (INR count / cols count).

(** Round [i] of the loop over the dice: [{ x, y }], the position of die
    [i]. *)
Definition gridPos (count i : nat) : R * R :=
  let row := floor (INR i / cols count) in
  let inRow := INR i - row * cols count in
  let rowItems := if decide (row = rows count - 1)
                  then INR count - row * cols count else cols count in
  let x := (- (rowItems - 1) / 2 + inRow) * spacing in
  let y := ((rows count - 1) / 2 - row) * spacing in
  (x, y).

(** [el ? el.clientWidth / Math.max(el.clientHeight, 1) : 1], the element
    given by its client width and height. *)
Definition aspect (el : option (R * R)) : R :=
  match el with
  | Some (clientWidth, clientHeight) => clientWidth / Rmax clientHeight 1
  | None => 1
  end.

Definition margin : R := 1.5.

(** [fh = Math.max(needY, needX, 2.5)] *)
Definition frustumHalf (count : nat) (asp : R) : R :=
  let spanX := Rmin (INR count) 5 * spacing in
  let spanY := rows count * spacing in
  let needY := spanY / 2 + margin in
  let needX := (spanX / 2 + margin) / asp in
  Rmax (Rmax needY needX) 2.5.

(** The four planes of the orthographic camera the effect sets. *)
Record Camera : Type := mkCamera {
  camLeft : R;
  camRight : R;
  camTop : R;
  camBottom : R
}.

Definition frustum (count : nat) (asp : R) : Camera :=
  let fh := frustumHalf count asp in
  mkCamera (- fh * asp) (fh * asp) fh (- fh).

(** ** The animation loop: settling *)

Definition SETTLE_SECS : R := 0.6.

Inductive Phase : Type := idle | spinning | settling.

(** [p] and [e] of the settling branch, at the frame time [time] (in
    milliseconds) for a settle that started at [settleStart]. *)
Definition settleP (time settleStart : R) : R :=
  Rmin ((time - settleStart) / 1000 / SETTLE_SECS) 1.

Definition settleE (time settleStart : R) : R :=
  1 - (1 - settleP time settleStart) ^ 3.

(** [s.phase] after the frame: only the settling branch changes it,
    [if (p >= 1) s.phase = 'idle']. *)
Definition framePhase (phase : Phase) (time settleStart : R) : Phase :=
  match phase with
  | settling => if decide (settleP time settleStart >= 1) then idle else settling
  | _ => phase
  end.

(** ** Render: the height of the canvas *)

(** [Math.ceil(results.length / 5) || 1] *)
Definition rowCount (count : nat) : R :=
  let r := ceil (INR count / 5) in
  if decide (r = 0) then 1 else r.

(** [Math.max(200, rowCount * 130 + 50)] *)
Definition computedH (count : nat) : R :=
  Rmax 200 (rowCount count * 130 + 50).

(** ** Vocabulary of the statements about the grid *)

(** How far inside the view a die's centre stays: the margin and half the
    spacing. *)
Definition clearance : R := margin + spacing / 2.

End Dice3D.
(** * Face numbering *)

Section PairingFacts.

Variable opp : nat -> nat -> bool.
Variable n : nat.

Lemma pairIdx_app (l1 l2 : list PairEntry) :
  pairIdx (l1 ++ l2) = pairIdx l1 ++ pairIdx l2.
Proof. unfold pairIdx. by rewrite fmap_app, concat_app. Qed.

Lemma findPartner_Some used i j :
  findPartner opp n used i = Some j ->
  (i < j < n)%nat /\ (j ∉ used) /\ opp i j = true.
Proof.
  unfold findPartner. intros H. apply find_some in H as [Hin Hb].
  apply in_seq in Hin. apply andb_true_iff in Hb as [Hu Ho].
  apply bool_decide_eq_true in Hu. repeat split; [lia | lia | done | done].
Qed.

Lemma findPartner_None used i j :
  findPartner opp n used i = None ->
  (i < j < n)%nat -> j ∉ used -> opp i j = false.
Proof.
  unfold findPartner. intros H Hj Hu.
  pose proof (find_none _ _ H j) as Hn.
  assert (Hin : In j (seq (i + 1) (n - (i + 1)))) by (apply in_seq; lia).
  specialize (Hn Hin). apply andb_false_iff in Hn as [Hn | Hn]; [|done].
  apply bool_decide_eq_false in Hn. contradiction.
Qed.

Lemma pairInv_init : pairInv n [] ∅.
Proof.
  split; cbn.
  - constructor.
  - intros a. set_solver.
  - intros a. set_solver.
Qed.

Lemma pairInv_single pairs used i :
  pairInv n pairs used -> i ∉ used -> (i < n)%nat ->
  pairInv n (pairs ++ [(i, None)]) ({[ i ]} ∪ used).
Proof.
  intros [Hnd Hu Hr] Hi Hlt. split.
  - rewrite pairIdx_app. cbn. apply NoDup_app. split; [done|]. split.
    + intros a Ha Hin. apply Hu in Ha. set_solver.
    + apply NoDup_singleton.
  - intros a. rewrite pairIdx_app, elem_of_app, Hu. cbn. set_solver.
  - intros a Ha. apply elem_of_union in Ha as [Ha | Ha]; [|by apply Hr].
    apply elem_of_singleton in Ha. by subst.
Qed.

Lemma pairInv_pair pairs used i j :
  pairInv n pairs used -> i ∉ used -> j ∉ used -> i ≠ j ->
  (i < n)%nat -> (j < n)%nat ->
  pairInv n (pairs ++ [(i, Some j)]) ({[ j ]} ∪ ({[ i ]} ∪ used)).
Proof.
  intros [Hnd Hu Hr] Hi Hj Hij Hlti Hltj. split.
  - rewrite pairIdx_app. cbn. apply NoDup_app. split; [done|]. split.
    + intros a Ha Hin. apply Hu in Ha. set_solver.
    + apply NoDup_cons. split; [set_solver | apply NoDup_singleton].
  - intros a. rewrite pairIdx_app, elem_of_app, Hu. cbn. set_solver.
  - intros a Ha. apply elem_of_union in Ha as [Ha | Ha].
    + apply elem_of_singleton in Ha. by subst.
    + apply elem_of_union in Ha as [Ha | Ha]; [|by apply Hr].
      apply elem_of_singleton in Ha. by subst.
Qed.

(** The loop from index [i] on: it keeps the invariant and leaves every
    index below [n] used. *)
Lemma pairLoop_inv m : forall i pairs used,
  (i + m = n)%nat ->
  pairInv n pairs used ->
  (forall a, (a < i)%nat -> a ∈ used) ->
  pairInv n (pairLoop opp n (seq i m) pairs used).1
          (pairLoop opp n (seq i m) pairs used).2
  /\ forall a, (a < n)%nat -> a ∈ (pairLoop opp n (seq i m) pairs used).2.
Proof.
  induction m as [|m IH]; intros i pairs used Him Hinv Hlow; cbn.
  - split; [done|]. intros a Ha. apply Hlow. lia.
  - destruct (decide (i ∈ used)) as [Hi | Hi].
    + apply IH; [lia | done |]. intros a Ha.
      destruct (decide (a = i)) as [-> | Hne]; [done | apply Hlow; lia].
    + destruct (findPartner opp n used i) as [j|] eqn:Hf.
      * apply findPartner_Some in Hf as (Hj & Hju & _).
        apply IH; [lia | apply pairInv_pair; [done..| lia | lia | lia] |].
        intros a Ha. destruct (decide (a = i)) as [-> | Hne]; [set_solver|].
        assert (a ∈ used) by (apply Hlow; lia). set_solver.
      * apply IH; [lia | apply pairInv_single; [done.. | lia] |].
        intros a Ha. destruct (decide (a = i)) as [-> | Hne]; [set_solver|].
        assert (a ∈ used) by (apply Hlow; lia). set_solver.
Qed.

(** Every face index is held by exactly one slot of [pairs]. *)
Lemma findPairs_perm : pairIdx (findPairs opp n) ≡ₚ seq 0 n.
Proof.
  unfold findPairs.
  destruct (pairLoop_inv n 0 [] ∅) as [[Hnd Hu Hr] Hall];
    [lia | apply pairInv_init | intros a Ha; lia |].
  apply NoDup_Permutation; [done | apply NoDup_seq |].
  intros a. rewrite Hu, elem_of_seq. split.
  - intros Ha. apply Hr in Ha. lia.
  - intros Ha. apply Hall. lia.
Qed.

End PairingFacts.

(** The numbering loop writes only the slots held by [pairs]. *)
Lemma assignLoop_length first target pairs : forall k numbers,
  length (assignLoop first target k pairs numbers) = length numbers.
Proof.
  induction pairs as [|[a ob] rest IH]; intros k numbers; cbn; [done|].
  rewrite IH. destruct ob; by rewrite ?length_insert.
Qed.

Lemma assignLoop_other first target pairs : forall k numbers i,
  i ∉ pairIdx pairs ->
  assignLoop first target k pairs numbers !! i = numbers !! i.
Proof.
  induction pairs as [|[a ob] rest IH]; intros k numbers i Hi; cbn; [done|].
  change (pairIdx ((a, ob) :: rest)) with (entryIdx (a, ob) ++ pairIdx rest) in Hi.
  apply not_elem_of_app in Hi as [Hi1 Hi2].
  rewrite IH by done. destruct ob as [b|]; cbn in Hi1.
  - rewrite !list_lookup_insert_ne; [done | set_solver | set_solver].
  - rewrite list_lookup_insert_ne; [done | set_solver].
Qed.

(** With pairwise distinct in-range indices, slot [j] of [pairs] gets
    [first (k + j)] and its partner [target - first (k + j)]. *)
Lemma assignLoop_lookup first target pairs : forall k numbers j a ob,
  NoDup (pairIdx pairs) ->
  (forall i, i ∈ pairIdx pairs -> (i < length numbers)%nat) ->
  pairs !! j = Some (a, ob) ->
  assignLoop first target k pairs numbers !! a = Some (first (k + j)%nat)
  /\ forall b, ob = Some b ->
       assignLoop first target k pairs numbers !! b
       = Some (target - first (k + j)%nat)%Z.
Proof.
  induction pairs as [|[a0 ob0] rest IH]; intros k numbers j a ob Hnd Hr Hj;
    [done|].
  change (pairIdx ((a0, ob0) :: rest)) with (entryIdx (a0, ob0) ++ pairIdx rest)
    in Hnd, Hr.
  apply NoDup_app in Hnd as (Hnd0 & Hdisj & Hndr).
  destruct j as [|j]; cbn in Hj.
  - inversion Hj; subst a0 ob0. rewrite Nat.add_0_r. cbn.
    destruct ob as [b|]; cbn in *.
    + apply NoDup_cons in Hnd0 as [Hab _].
      assert (a ≠ b) by set_solver.
      assert (Ha : (a < length numbers)%nat) by (apply Hr; set_solver).
      assert (Hb : (b < length numbers)%nat) by (apply Hr; set_solver).
      split.
      * rewrite assignLoop_other by (apply Hdisj; set_solver).
        rewrite list_lookup_insert_ne by done.
        by apply list_lookup_insert_eq.
      * intros b' [= <-].
        rewrite assignLoop_other by (apply Hdisj; set_solver).
        apply list_lookup_insert_eq. by rewrite length_insert.
    + assert (Ha : (a < length numbers)%nat) by (apply Hr; set_solver).
      split; [|done].
      rewrite assignLoop_other by (apply Hdisj; set_solver).
      by apply list_lookup_insert_eq.
  - cbn. replace (k + S j)%nat with (S k + j)%nat by lia.
    apply IH; [done | | done].
    intros i Hi. destruct ob0; rewrite ?length_insert; apply Hr; set_solver.
Qed.

Lemma pairIdx_cons (p : PairEntry) (l : list PairEntry) :
  pairIdx (p :: l) = entryIdx p ++ pairIdx l.
Proof. reflexivity. Qed.

Lemma pairIdx_Permutation (l1 l2 : list PairEntry) :
  l1 ≡ₚ l2 -> pairIdx l1 ≡ₚ pairIdx l2.
Proof.
  induction 1 as [|p l1 l2 _ IH|p q l|l1 l2 l3 _ IH1 _ IH2].
  - done.
  - rewrite !pairIdx_cons. by rewrite IH.
  - rewrite !pairIdx_cons, !app_assoc. apply Permutation_app_tail, Permutation_app_comm.
  - by rewrite IH1.
Qed.

Lemma elem_of_pairIdx (i : nat) (l : list PairEntry) :
  i ∈ pairIdx l <-> exists p, p ∈ l /\ i ∈ entryIdx p.
Proof.
  induction l as [|q l IH].
  - cbn. split; [intros H; inversion H | intros (p & H & _); inversion H].
  - rewrite pairIdx_cons, elem_of_app, IH. split.
    + intros [H | (p & Hp & Hi)]; [exists q | exists p]; set_solver.
    + intros (p & Hp & Hi). apply elem_of_cons in Hp as [-> | Hp]; [by left|].
      right. by exists p.
Qed.

Section NumberingFacts.

Variable faces : list Face.
Abbreviation n := (length faces).

Lemma sortInsert_perm p l : sortInsert faces p l ≡ₚ p :: l.
Proof.
  induction l as [|q l IH]; cbn; [done|].
  destruct (decide _); [|done]. rewrite IH. apply Permutation_swap.
Qed.

Lemma sortPairs_perm l : sortPairs faces l ≡ₚ l.
Proof.
  induction l as [|p l IH]; cbn; [done|].
  rewrite sortInsert_perm. by rewrite IH.
Qed.

Lemma entryIdx_orient p : entryIdx (orientPair faces p) ≡ₚ entryIdx p.
Proof.
  destruct p as [a [b|]]; cbn; [|done].
  destruct (decide _); cbn; [apply Permutation_swap | done].
Qed.

Lemma pairIdx_orient l : pairIdx (orientPair faces <$> l) ≡ₚ pairIdx l.
Proof.
  induction l as [|p l IH]; [done|].
  rewrite fmap_cons, !pairIdx_cons. by rewrite entryIdx_orient, IH.
Qed.

Lemma finalPairs_perm sides : pairIdx (finalPairs faces sides) ≡ₚ seq 0 n.
Proof.
  unfold finalPairs. destruct (decide _).
  - rewrite (pairIdx_Permutation _ _ (sortPairs_perm _)), pairIdx_orient.
    apply findPairs_perm.
  - apply findPairs_perm.
Qed.

Lemma computeFaceNumbers_general sides :
  sides ≠ 4%Z -> sides ≠ 6%Z ->
  computeFaceNumbers faces sides
  = assignLoop (firstNumber sides) (sides + 1) 0 (finalPairs faces sides)
               (replicate n 0%Z).
Proof.
  intros H4 H6. unfold computeFaceNumbers, finalPairs, firstNumber.
  rewrite !decide_False by done. destruct (decide (sides = 10%Z)); reflexivity.
Qed.

Lemma computeFaceNumbers_length sides :
  sides ≠ 4%Z -> sides ≠ 6%Z ->
  length (computeFaceNumbers faces sides) = n.
Proof.
  intros H4 H6. rewrite computeFaceNumbers_general by done.
  by rewrite assignLoop_length, length_replicate.
Qed.

(** Slot [k] of the final pair list: its first member shows
    [firstNumber k], its partner [sides + 1 - firstNumber k]. *)
Lemma computeFaceNumbers_lookup sides k a ob :
  sides ≠ 4%Z -> sides ≠ 6%Z ->
  finalPairs faces sides !! k = Some (a, ob) ->
  computeFaceNumbers faces sides !! a = Some (firstNumber sides k)
  /\ forall b, ob = Some b ->
       computeFaceNumbers faces sides !! b
       = Some (sides + 1 - firstNumber sides k)%Z.
Proof.
  intros H4 H6 Hk. rewrite computeFaceNumbers_general by done.
  pose proof (finalPairs_perm sides) as Hp.
  apply (assignLoop_lookup _ _ _ 0 _ k); [| | done].
  - rewrite Hp. apply NoDup_seq.
  - intros i Hi. rewrite Hp in Hi. apply elem_of_seq in Hi.
    rewrite length_replicate. lia.
Qed.

(** Every index below [n] sits in some slot of the final pair list. *)
Lemma finalPairs_cover sides i :
  (i < n)%nat ->
  exists k a ob, finalPairs faces sides !! k = Some (a, ob)
                 /\ (i = a \/ ob = Some i).
Proof.
  intros Hi.
  assert (Hin : i ∈ pairIdx (finalPairs faces sides)).
  { rewrite finalPairs_perm. apply elem_of_seq. lia. }
  apply elem_of_pairIdx in Hin as ([a ob] & Hp & Hie).
  apply list_elem_of_lookup in Hp as [k Hk].
  exists k, a, ob. split; [done|].
  destruct ob as [b|]; cbn in Hie; set_solver.
Qed.

End NumberingFacts.

(** ** Pairing when every face has exactly one opposite face *)

Section PerfectPairing.

Variable opp : nat -> nat -> bool.
Variable n : nat.

Hypothesis opp_sym : forall i j, opp i j = opp j i.
Hypothesis opp_irrefl : forall i, opp i i = false.
Hypothesis opp_unique : forall i, (i < n)%nat ->
  exists j, (j < n)%nat /\ opp i j = true
            /\ forall j', (j' < n)%nat -> opp i j' = true -> j' = j.

Lemma opp_partner_eq i j j' :
  (i < n)%nat -> (j < n)%nat -> (j' < n)%nat ->
  opp i j = true -> opp i j' = true -> j = j'.
Proof.
  intros Hi Hj Hj' H1 H2. destruct (opp_unique i Hi) as (j0 & _ & _ & Hu).
  rewrite (Hu j Hj H1). by rewrite (Hu j' Hj' H2).
Qed.

Lemma closedUsed_add used i j :
  (i < n)%nat -> (j < n)%nat -> opp i j = true ->
  closedUsed opp n used -> closedUsed opp n ({[ j ]} ∪ ({[ i ]} ∪ used)).
Proof.
  intros Hi Hj Hij Hc a b Ha Hb Hab Hin.
  apply elem_of_union in Hin as [Hin | Hin].
  - apply elem_of_singleton in Hin as ->.
    rewrite opp_sym in Hij.
    rewrite (opp_partner_eq j b i) by done. set_solver.
  - apply elem_of_union in Hin as [Hin | Hin].
    + apply elem_of_singleton in Hin as ->.
      rewrite (opp_partner_eq i b j) by done. set_solver.
    + assert (b ∈ used) by by apply (Hc a b). set_solver.
Qed.

Lemma pairLoop_paired m : forall i pairs used,
  (i + m = n)%nat ->
  (forall a, (a < i)%nat -> a ∈ used) ->
  closedUsed opp n used -> allPaired opp pairs ->
  allPaired opp (pairLoop opp n (seq i m) pairs used).1.
Proof.
  induction m as [|m IH]; intros i pairs used Him Hlow Hc Hp; cbn; [done|].
  assert (Hlow' : forall used', used ⊆ used' -> i ∈ used' ->
                    forall a, (a < S i)%nat -> a ∈ used').
  { intros used' Hsub Hi a Ha. destruct (decide (a = i)) as [-> | Hne]; [done|].
    apply Hsub, Hlow. lia. }
  destruct (decide (i ∈ used)) as [Hi | Hi].
  - apply IH; [lia | by apply Hlow' | done | done].
  - destruct (opp_unique i) as (j & Hj & Hij & Hu); [lia|].
    assert (Hju : j ∉ used).
    { intros Hin. apply Hi. apply (Hc j i); [done | lia | | done].
      by rewrite opp_sym. }
    assert (Hlt : (i < j)%nat).
    { destruct (decide (i < j)%nat) as [|Hge]; [done|].
      assert (j ≠ i) by (intros ->; rewrite opp_irrefl in Hij; done).
      exfalso. apply Hju, Hlow. lia. }
    destruct (findPartner opp n used i) as [j'|] eqn:Hf.
    + apply findPartner_Some in Hf as (Hj' & _ & Hij').
      assert (j' = j) as -> by (apply Hu; [lia | done]).
      apply IH; [lia | apply Hlow'; set_solver | | ].
      * apply closedUsed_add; [lia | done | done | done].
      * apply Forall_app. split; [done|].
        apply Forall_singleton. by exists i, j.
    + apply (findPartner_None _ _ _ _ j) in Hf; [congruence | lia | done].
Qed.

Lemma findPairs_paired : allPaired opp (findPairs opp n).
Proof.
  unfold findPairs. apply pairLoop_paired; [lia | | | ].
  - intros a Ha. lia.
  - intros a b _ _ _ Ha. set_solver.
  - constructor.
Qed.

Lemma allPaired_length pairs :
  allPaired opp pairs -> length (pairIdx pairs) = (2 * length pairs)%nat.
Proof.
  induction 1 as [|p l (a & b & -> & _) _ IH]; [done|].
  rewrite pairIdx_cons, length_app, IH. cbn. lia.
Qed.

Lemma findPairs_length : (2 * length (findPairs opp n))%nat = n.
Proof.
  rewrite <- (allPaired_length) by apply findPairs_paired.
  by rewrite findPairs_perm, length_seq.
Qed.

End PerfectPairing.

(** ** The opposite-face test on real normals *)

Lemma dot_comm (a b : Vector3) : V3.dot a b = V3.dot b a.
Proof. unfold V3.dot. ring. Qed.

Lemma dot_self_nonneg (a : Vector3) : 0 <= V3.dot a a.
Proof. unfold V3.dot. nra. Qed.

Lemma opposite_sym (faces : list Face) (i j : nat) :
  opposite faces i j = opposite faces j i.
Proof. unfold opposite. by rewrite dot_comm. Qed.

Lemma opposite_irrefl (faces : list Face) (i : nat) : opposite faces i i = false.
Proof.
  unfold opposite. apply bool_decide_eq_false.
  pose proof (dot_self_nonneg (normalAt faces i)). lra.
Qed.

Section PairedNumbering.

Variable faces : list Face.
Abbreviation n := (length faces).
Hypothesis Huniq : uniquePartner faces.

Lemma orientPair_paired p :
  (exists a b, p = (a, Some b) /\ opposite faces a b = true) ->
  exists a b, orientPair faces p = (a, Some b) /\ opposite faces a b = true.
Proof.
  intros (a & b & -> & Hab). cbn. destruct (decide _).
  - exists b, a. by rewrite opposite_sym.
  - by exists a, b.
Qed.

Lemma finalPairs_paired sides : allPaired (opposite faces) (finalPairs faces sides).
Proof.
  pose proof (findPairs_paired (opposite faces) n (opposite_sym faces)
                (opposite_irrefl faces) Huniq) as Hp.
  unfold finalPairs. destruct (decide _); [|done].
  unfold allPaired. rewrite sortPairs_perm.
  apply Forall_fmap. eapply Forall_impl; [exact Hp|].
  intros p Hpp. by apply orientPair_paired.
Qed.

Lemma finalPairs_length sides : (2 * length (finalPairs faces sides))%nat = n.
Proof.
  rewrite <- (allPaired_length (opposite faces)) by apply finalPairs_paired.
  by rewrite finalPairs_perm, length_seq.
Qed.

(** The two faces of an opposite pair sit in the same slot of the pair
    list. *)
Lemma opposite_same_slot sides i j :
  (i < n)%nat -> (j < n)%nat -> opposite faces i j = true ->
  exists k, finalPairs faces sides !! k = Some (i, Some j)
            \/ finalPairs faces sides !! k = Some (j, Some i).
Proof.
  intros Hi Hj Hij.
  destruct (finalPairs_cover faces sides i Hi) as (k & a & ob & Hk & Hcase).
  pose proof (finalPairs_paired sides) as Hp.
  unfold allPaired in Hp. rewrite Forall_lookup in Hp.
  destruct (Hp k _ Hk) as (a' & b & [= -> ->] & Hab).
  assert (Hrange : forall x, x ∈ entryIdx (a', Some b) -> (x < n)%nat).
  { intros x Hx.
    assert (Hin : x ∈ pairIdx (finalPairs faces sides)).
    { apply elem_of_pairIdx. exists (a', Some b). split; [|done].
      apply list_elem_of_lookup. by exists k. }
    rewrite finalPairs_perm in Hin. apply elem_of_seq in Hin. lia. }
  assert (Ha : (a' < n)%nat) by (apply Hrange; cbn; set_solver).
  assert (Hb : (b < n)%nat) by (apply Hrange; cbn; set_solver).
  exists k. destruct Hcase as [-> | [= ->]].
  - left. rewrite Hk.
    assert (b = j) as ->; [|done].
    eapply (opp_partner_eq (opposite faces) n Huniq a'); eauto.
  - right. rewrite Hk. rewrite opposite_sym in Hab.
    assert (a' = j) as ->; [|done].
    eapply (opp_partner_eq (opposite faces) n Huniq i); eauto.
Qed.

(** Opposite faces show numbers that sum to [sides + 1]. *)
Lemma computeFaceNumbers_pair_sum sides i j :
  sides ≠ 4%Z -> sides ≠ 6%Z ->
  (i < n)%nat -> (j < n)%nat -> opposite faces i j = true ->
  pairSum (computeFaceNumbers faces sides) i j = Some (sides + 1)%Z.
Proof.
  intros H4 H6 Hi Hj Hij.
  destruct (opposite_same_slot sides i j Hi Hj Hij) as [k [Hk | Hk]];
    destruct (computeFaceNumbers_lookup faces sides k _ _ H4 H6 Hk) as [Ha Hb];
    specialize (Hb _ eq_refl); unfold pairSum; rewrite Ha, Hb; cbn;
    f_equal; lia.
Qed.

(** In the general branch the numbers are exactly 1..sides. *)
Lemma computeFaceNumbers_bijective sides :
  sides ≠ 4%Z -> sides ≠ 6%Z -> sides ≠ 10%Z -> Z.of_nat n = sides ->
  computeFaceNumbers faces sides ≡ₚ seqZ 1 sides.
Proof.
  intros H4 H6 H10 Hn. symmetry.
  apply submseteq_length_Permutation.
  - apply NoDup_submseteq; [apply NoDup_seqZ|].
    intros x Hx. apply elem_of_seqZ in Hx.
    pose proof (finalPairs_length sides) as Hlen.
    pose proof (finalPairs_paired sides) as Hp.
    unfold allPaired in Hp. rewrite Forall_lookup in Hp.
    set (k := if decide (2 * x <= sides)%Z then Z.to_nat (x - 1)
              else Z.to_nat (sides - x)).
    assert (Hk : (k < length (finalPairs faces sides))%nat)
      by (subst k; destruct (decide _); lia).
    apply lookup_lt_is_Some in Hk as [[a ob] Hk].
    destruct (Hp k _ Hk) as (a' & b & [= -> ->] & _).
    destruct (computeFaceNumbers_lookup faces sides k _ _ H4 H6 Hk) as [Ha Hb].
    specialize (Hb _ eq_refl). unfold firstNumber in Ha, Hb.
    rewrite decide_False in Ha, Hb by done.
    subst k. destruct (decide (2 * x <= sides)%Z).
    + apply list_elem_of_lookup. exists a'. rewrite Ha. f_equal. lia.
    + apply list_elem_of_lookup. exists b. rewrite Hb. f_equal. lia.
  - rewrite computeFaceNumbers_length, length_seqZ by done. lia.
Qed.

End PairedNumbering.

(** ** The pairing depends on the faces only through the opposite test *)

Lemma find_ext_in {A : Type} (f g : A -> bool) (l : list A) :
  (forall x, In x l -> f x = g x) -> List.find f l = List.find g l.
Proof.
  induction l as [|x l IH]; intros H; cbn; [done|].
  rewrite <- (H x) by (by left). destruct (f x); [done|].
  apply IH. intros y Hy. apply H. by right.
Qed.

Section PairingExt.

Variables opp opp' : nat -> nat -> bool.
Variable n : nat.
Hypothesis opp_ext : forall i j, (i < n)%nat -> (j < n)%nat -> opp i j = opp' i j.

Lemma findPartner_ext used i :
  (i < n)%nat -> findPartner opp n used i = findPartner opp' n used i.
Proof.
  intros Hi. unfold findPartner. apply find_ext_in.
  intros j Hj. apply in_seq in Hj. rewrite opp_ext by lia. done.
Qed.

Lemma pairLoop_ext idxs : forall pairs used,
  Forall (fun i => (i < n)%nat) idxs ->
  pairLoop opp n idxs pairs used = pairLoop opp' n idxs pairs used.
Proof.
  induction idxs as [|i rest IH]; intros pairs used Hr; cbn; [done|].
  apply Forall_cons in Hr as [Hi Hr].
  destruct (decide (i ∈ used)); [by apply IH|].
  rewrite findPartner_ext by done.
  destruct (findPartner opp' n used i); by apply IH.
Qed.

Lemma findPairs_ext : findPairs opp n = findPairs opp' n.
Proof.
  unfold findPairs. rewrite pairLoop_ext; [done|].
  apply Forall_forall. intros i Hi. apply elem_of_seq in Hi. lia.
Qed.

End PairingExt.

(** Decide a comparison of two concrete reals. *)
Ltac v3_simpl :=
  unfold V3.dot, V3.cross, V3.sub, V3.add, V3.negate, V3.multiplyScalar,
    V3.addScaledVector; cbn [vx vy vz].

Ltac real_test :=
  unfold opposite, normalAt, centroidAt; cbn;
  first [ apply bool_decide_eq_true | apply bool_decide_eq_false | idtac ];
  v3_simpl; lra.

Lemma boxFaces_opposite i j :
  (i < 6)%nat -> (j < 6)%nat -> opposite boxFaces i j = boxOpposite i j.
Proof.
  intros Hi Hj.
  do 6 (destruct i as [|i]; [do 6 (destruct j as [|j]; [real_test|]); lia|]).
  lia.
Qed.

Lemma eightFaces_opposite i j :
  (i < 8)%nat -> (j < 8)%nat -> opposite eightFaces i j = eightOpposite i j.
Proof.
  intros Hi Hj.
  do 8 (destruct i as [|i]; [do 8 (destruct j as [|j]; [real_test|]); lia|]).
  lia.
Qed.

Lemma eightFaces_uniquePartner : uniquePartner eightFaces.
Proof.
  intros i Hi. change (length eightFaces) with 8%nat in *.
  exists (if Nat.ltb i 4 then i + 4 else i - 4)%nat.
  destruct (Nat.ltb_spec i 4); (split; [lia|]); split.
  1,3: rewrite eightFaces_opposite by lia; apply bool_decide_eq_true; lia.
  all: intros j Hj; rewrite eightFaces_opposite by done;
    intros H'; apply bool_decide_eq_true in H'; lia.
Qed.

Lemma tenFaces_opposite i j :
  (i < 10)%nat -> (j < 10)%nat -> opposite tenFaces i j = tenOpposite i j.
Proof.
  intros Hi Hj.
  do 10 (destruct i as [|i]; [do 10 (destruct j as [|j]; [real_test|]); lia|]).
  lia.
Qed.

Lemma tenFaces_uniquePartner : uniquePartner tenFaces.
Proof.
  intros i Hi. change (length tenFaces) with 10%nat in *.
  exists (if Nat.ltb i 5 then i + 5 else i - 5)%nat.
  destruct (Nat.ltb_spec i 5); (split; [lia|]); split.
  1,3: rewrite tenFaces_opposite by lia; apply bool_decide_eq_true; lia.
  all: intros j Hj; rewrite tenFaces_opposite by done;
    intros H'; apply bool_decide_eq_true in H'; lia.
Qed.

(** C4. For every face list (of length 6 or not), [computeFaceNumbers(faces, 6)]
    is the fixed sequence [1, 6, 2, 5, 3, 4], whatever the geometry; its
    entries at positions (0,1), (2,3) and (4,5) each sum to 7. *)
Theorem computeFaceNumbers_d6_fixed (faces : list Face) :
  computeFaceNumbers faces 6 = [1; 6; 2; 5; 3; 4]%Z
  /\ pairSum (computeFaceNumbers faces 6) 0 1 = Some 7%Z
  /\ pairSum (computeFaceNumbers faces 6) 2 3 = Some 7%Z
  /\ pairSum (computeFaceNumbers faces 6) 4 5 = Some 7%Z.
Proof.
  assert (E : computeFaceNumbers faces 6 = [1; 6; 2; 5; 3; 4]%Z) by reflexivity.
  rewrite E. repeat split.
Qed.

(** C1. For a face list of a die with 8, 12 or 20 sides in which every face
    has exactly one anti-parallel partner, [computeFaceNumbers] returns a
    permutation of 1..sides (a bijection from the face indices onto
    1..sides), and the numbers of two opposite faces sum to [sides + 1]. *)
Theorem computeFaceNumbers_opposite_sum (faces : list Face) (sides : Z) :
  sides = 8%Z \/ sides = 12%Z \/ sides = 20%Z ->
  Z.of_nat (length faces) = sides ->
  uniquePartner faces ->
  computeFaceNumbers faces sides ≡ₚ seqZ 1 sides
  /\ forall i j, (i < length faces)%nat -> (j < length faces)%nat ->
       opposite faces i j = true ->
       pairSum (computeFaceNumbers faces sides) i j = Some (sides + 1)%Z.
Proof.
  intros Hs Hn Hu. split.
  - apply computeFaceNumbers_bijective; [done | lia..| done].
  - intros i j Hi Hj Hij. apply computeFaceNumbers_pair_sum; [done | lia..| done].
Qed.

Lemma computeFaceNumbers_opposite_sum_witness :
  (8 = 8 \/ 8 = 12 \/ 8 = 20)%Z
  /\ Z.of_nat (length eightFaces) = 8%Z
  /\ uniquePartner eightFaces
  /\ computeFaceNumbers eightFaces 8 ≡ₚ seqZ 1 8
  /\ pairSum (computeFaceNumbers eightFaces 8) 1 5 = Some 9%Z.
Proof.
  assert (H8 : (8 = 8 \/ 8 = 12 \/ 8 = 20)%Z) by (left; reflexivity).
  assert (Hn : Z.of_nat (length eightFaces) = 8%Z) by reflexivity.
  destruct (computeFaceNumbers_opposite_sum eightFaces 8 H8 Hn
              eightFaces_uniquePartner) as [Hperm Hsum].
  repeat split; [exact H8 | exact eightFaces_uniquePartner | exact Hperm |].
  apply Hsum; [cbn; lia | cbn; lia |].
  rewrite eightFaces_opposite by lia. reflexivity.
Defined.

(** The first members' numbers grow with the slot. *)
Lemma firstNumber_mono (sides : Z) (k k' : nat) :
  (k <= k')%nat -> (firstNumber sides k <= firstNumber sides k')%Z.
Proof. intros H. unfold firstNumber. destruct (decide _); lia. Qed.

Lemma firstNumber_pos (sides : Z) (k : nat) : (0 < firstNumber sides k)%Z.
Proof. unfold firstNumber. destruct (decide _); lia. Qed.

(** C9 (amended). For every face list and every [sides] other than 4 and 6,
    [computeFaceNumbers] returns an array as long as the face list; the
    greedy pairing loop puts every face index in exactly one pair entry;
    both members of every pair entry receive a number: the first member of
    entry [k] a positive one ([k + 1], or [2k + 1] when [sides] is 10), its
    partner [sides + 1] minus that number.  All entries are positive when
    the number of the last entry's first member is at most [sides]. *)
Theorem computeFaceNumbers_all_assigned (faces : list Face) (sides : Z) :
  sides ≠ 4%Z -> sides ≠ 6%Z ->
  length (computeFaceNumbers faces sides) = length faces
  /\ pairIdx (findPairs (opposite faces) (length faces)) ≡ₚ seq 0 (length faces)
  /\ (forall k a ob, finalPairs faces sides !! k = Some (a, ob) ->
        computeFaceNumbers faces sides !! a = Some (firstNumber sides k)
        /\ (0 < firstNumber sides k)%Z
        /\ forall b, ob = Some b ->
             computeFaceNumbers faces sides !! b
             = Some (sides + 1 - firstNumber sides k)%Z)
  /\ ((firstNumber sides (length (finalPairs faces sides) - 1) <= sides)%Z ->
      Forall (fun v => (0 < v)%Z) (computeFaceNumbers faces sides)).
Proof.
  intros H4 H6. split; [by apply computeFaceNumbers_length|].
  split; [apply findPairs_perm|]. split.
  - intros k a ob Hk.
    destruct (computeFaceNumbers_lookup faces sides k a ob H4 H6 Hk) as [Ha Hb].
    split; [done|]. split; [apply firstNumber_pos | done].
  - intros Hlast. apply Forall_lookup. intros i v Hv.
    assert (Hi : (i < length faces)%nat).
    { rewrite <- (computeFaceNumbers_length faces sides) by done.
      apply lookup_lt_is_Some. by exists v. }
    destruct (finalPairs_cover faces sides i Hi) as (k & a & ob & Hk & Hcase).
    destruct (computeFaceNumbers_lookup faces sides k a ob H4 H6 Hk) as [Ha Hb].
    assert (Hklt : (k < length (finalPairs faces sides))%nat).
    { apply lookup_lt_is_Some. by eexists. }
    pose proof (firstNumber_mono sides k (length (finalPairs faces sides) - 1)
                  ltac:(lia)) as Hmono.
    pose proof (firstNumber_pos sides k) as Hpos.
    destruct Hcase as [-> | ->].
    + rewrite Ha in Hv. injection Hv as <-. done.
    + rewrite (Hb _ eq_refl) in Hv. injection Hv as <-. lia.
Qed.

Lemma boxFaces_findPairs :
  findPairs (opposite boxFaces) 6 = [(0, Some 1); (2, Some 3); (4, Some 5)]%nat.
Proof.
  rewrite (findPairs_ext _ boxOpposite 6 boxFaces_opposite). by vm_compute.
Qed.

Lemma computeFaceNumbers_all_assigned_witness :
  8%Z ≠ 4%Z /\ 8%Z ≠ 6%Z
  /\ length (computeFaceNumbers boxFaces 8) = length boxFaces
  /\ Forall (fun v => (0 < v)%Z) (computeFaceNumbers boxFaces 8).
Proof.
  assert (H4 : 8%Z ≠ 4%Z) by lia. assert (H6 : 8%Z ≠ 6%Z) by lia.
  destruct (computeFaceNumbers_all_assigned boxFaces 8 H4 H6)
    as (Hlen & _ & _ & Hpos).
  repeat split; [exact H4 | exact H6 | exact Hlen |].
  apply Hpos. unfold finalPairs. rewrite decide_False by lia.
  change (length boxFaces) with 6%nat. rewrite boxFaces_findPairs.
  vm_compute. discriminate.
Defined.

(** The claim as stated fails: with the six cube faces and [sides] = 2 the
    third pair's partner gets [3 - 3 = 0]. *)
Lemma computeFaceNumbers_zero_entry :
  boxFaces ≠ [] /\ 2%Z ≠ 4%Z /\ 2%Z ≠ 6%Z
  /\ computeFaceNumbers boxFaces 2 = [1; 2; 2; 1; 3; 0]%Z
  /\ ~ Forall (fun v => (0 < v)%Z) (computeFaceNumbers boxFaces 2).
Proof.
  assert (E : computeFaceNumbers boxFaces 2 = [1; 2; 2; 1; 3; 0]%Z).
  { unfold computeFaceNumbers. rewrite !decide_False by lia.
    change (length boxFaces) with 6%nat. rewrite boxFaces_findPairs.
    reflexivity. }
  repeat split; [done | lia | lia | exact E |].
  rewrite E. intros H. rewrite Forall_lookup in H.
  specialize (H 5%nat 0%Z eq_refl). lia.
Qed.

(** ** The D10 branch: orientation of the pairs and the sort by azimuth *)

Lemma StronglySorted_lookup_le {A : Type} (Rel : A -> A -> Prop) (l : list A) :
  StronglySorted Rel l ->
  forall k k' x y, (k < k')%nat -> l !! k = Some x -> l !! k' = Some y -> Rel x y.
Proof.
  induction 1 as [|a l Hs IH Hall]; intros k k' x y Hlt Hx Hy; [done|].
  destruct k' as [|k']; [lia|]. cbn in Hy. destruct k as [|k]; cbn in Hx.
  - injection Hx as <-. rewrite Forall_forall in Hall. apply Hall.
    apply list_elem_of_lookup. by exists k'.
  - apply (IH k k'); [lia | done | done].
Qed.

Section D10Facts.

Variable faces : list Face.

Lemma sortInsert_sorted p l :
  StronglySorted (azLe faces) l -> StronglySorted (azLe faces) (sortInsert faces p l).
Proof.
  induction 1 as [|q l Hs IH Hall]; cbn.
  - repeat constructor.
  - destruct (decide (azimuth faces q - azimuth faces p < 0)) as [Hlt | Hge].
    + constructor; [done|]. rewrite sortInsert_perm.
      constructor; [unfold azLe; lra | done].
    + constructor; [by constructor|].
      constructor; [unfold azLe; lra|].
      eapply Forall_impl; [exact Hall|]. unfold azLe. intros r Hr. lra.
Qed.

Lemma sortPairs_sorted l : StronglySorted (azLe faces) (sortPairs faces l).
Proof.
  induction l as [|p l IH]; cbn; [constructor | by apply sortInsert_sorted].
Qed.

Lemma orientPair_oriented p : oriented faces (orientPair faces p).
Proof.
  destruct p as [a [b|]]; cbn; [|by intros b].
  destruct (decide _) as [Hlt | Hge]; intros c [= <-]; cbn; lra.
Qed.

Lemma finalPairs_d10_oriented : Forall (oriented faces) (finalPairs faces 10).
Proof.
  unfold finalPairs. rewrite decide_True by done. rewrite sortPairs_perm.
  apply Forall_fmap, Forall_forall. intros p _. apply orientPair_oriented.
Qed.

Lemma finalPairs_d10_sorted : StronglySorted (azLe faces) (finalPairs faces 10).
Proof.
  unfold finalPairs. rewrite decide_True by done. apply sortPairs_sorted.
Qed.

(** A face that shows an odd number [2k + 1] is the first member of entry
    [k]. *)
Lemma d10_odd_is_first (i k : nat) :
  computeFaceNumbers faces 10 !! i = Some (Z.of_nat k * 2 + 1)%Z ->
  exists ob, finalPairs faces 10 !! k = Some (i, ob).
Proof.
  intros Hv.
  assert (Hi : (i < length faces)%nat).
  { rewrite <- (computeFaceNumbers_length faces 10) by done.
    apply lookup_lt_is_Some. by eexists. }
  destruct (finalPairs_cover faces 10 i Hi) as (k0 & a & ob & Hk & Hcase).
  destruct (computeFaceNumbers_lookup faces 10 k0 a ob) as [Ha Hb]; [done..|].
  unfold firstNumber in Ha, Hb. rewrite decide_True in Ha, Hb by done.
  destruct Hcase as [-> | ->].
  - rewrite Ha in Hv. injection Hv as Hv.
    assert (k0 = k) as -> by lia. by exists ob.
  - rewrite (Hb _ eq_refl) in Hv. injection Hv as Hv. lia.
Qed.

End D10Facts.

(** C5. For the ten faces of a D10 in which every face has exactly one
    anti-parallel partner: within an opposite pair the face with the larger
    centroid [y] gets an odd number [2k + 1] and its partner [11] minus that
    number; the odd numbers are given in ascending order of
    [atan2(centroid.z, centroid.x)]; and each of 1, 3, 5, 7, 9 is given to a
    face that is not lower than its partner. *)
Theorem computeFaceNumbers_d10_convention (faces : list Face) :
  length faces = 10%nat ->
  uniquePartner faces ->
  (forall i j, (i < 10)%nat -> (j < 10)%nat -> opposite faces i j = true ->
     vy (centroidAt faces j) < vy (centroidAt faces i) ->
     exists k, (k < 5)%nat
       /\ computeFaceNumbers faces 10 !! i = Some (Z.of_nat k * 2 + 1)%Z
       /\ computeFaceNumbers faces 10 !! j
          = Some (11 - (Z.of_nat k * 2 + 1))%Z)
  /\ (forall i i' k k',
        computeFaceNumbers faces 10 !! i = Some (Z.of_nat k * 2 + 1)%Z ->
        computeFaceNumbers faces 10 !! i' = Some (Z.of_nat k' * 2 + 1)%Z ->
        (k < k')%nat ->
        atan2 (vz (centroidAt faces i)) (vx (centroidAt faces i))
        <= atan2 (vz (centroidAt faces i')) (vx (centroidAt faces i')))
  /\ (forall k, (k < 5)%nat ->
        exists i j, opposite faces i j = true
          /\ vy (centroidAt faces j) <= vy (centroidAt faces i)
          /\ computeFaceNumbers faces 10 !! i = Some (Z.of_nat k * 2 + 1)%Z
          /\ computeFaceNumbers faces 10 !! j
             = Some (11 - (Z.of_nat k * 2 + 1))%Z).
Proof.
  intros Hlen Hu.
  pose proof (finalPairs_length faces Hu 10) as Hfl. rewrite Hlen in Hfl.
  pose proof (finalPairs_d10_oriented faces) as Hor.
  rewrite Forall_lookup in Hor.
  assert (Hslot : forall k a ob, finalPairs faces 10 !! k = Some (a, ob) ->
            computeFaceNumbers faces 10 !! a = Some (Z.of_nat k * 2 + 1)%Z
            /\ forall b, ob = Some b ->
                 computeFaceNumbers faces 10 !! b
                 = Some (11 - (Z.of_nat k * 2 + 1))%Z).
  { intros k a ob Hk.
    destruct (computeFaceNumbers_lookup faces 10 k a ob) as [Ha Hb]; [done..|].
    unfold firstNumber in Ha, Hb. rewrite decide_True in Ha, Hb by done.
    split; [done|]. intros b Hb'. rewrite (Hb b Hb'). f_equal. }
  repeat split.
  - intros i j Hi Hj Hij Hy.
    destruct (opposite_same_slot faces Hu 10 i j) as [k [Hk | Hk]];
      [lia | lia | done | |].
    + exists k. destruct (Hslot _ _ _ Hk) as [Ha Hb].
      split; [|split; [done | by apply Hb]].
      assert ((k < length (finalPairs faces 10))%nat); [|lia].
      apply lookup_lt_is_Some. by eexists.
    + specialize (Hor _ _ Hk i eq_refl). cbn in Hor. lra.
  - intros i i' k k' Hi Hi' Hlt.
    destruct (d10_odd_is_first faces i k Hi) as [ob Hk].
    destruct (d10_odd_is_first faces i' k' Hi') as [ob' Hk'].
    apply (StronglySorted_lookup_le _ _ (finalPairs_d10_sorted faces)
             k k' _ _ Hlt Hk Hk').
  - intros k Hk.
    assert (Hklt : (k < length (finalPairs faces 10))%nat) by lia.
    apply lookup_lt_is_Some in Hklt as [[a ob] Hka].
    pose proof (finalPairs_paired faces Hu 10) as Hp.
    unfold allPaired in Hp. rewrite Forall_lookup in Hp.
    destruct (Hp _ _ Hka) as (a' & b & [= -> ->] & Hab).
    exists a', b. destruct (Hslot _ _ _ Hka) as [Ha Hb].
    split; [done|]. split; [apply (Hor _ _ Hka b eq_refl)|].
    split; [done | by apply Hb].
Qed.

Lemma computeFaceNumbers_d10_convention_witness :
  length tenFaces = 10%nat
  /\ uniquePartner tenFaces
  /\ exists k, (k < 5)%nat
       /\ computeFaceNumbers tenFaces 10 !! 6%nat = Some (Z.of_nat k * 2 + 1)%Z
       /\ computeFaceNumbers tenFaces 10 !! 1%nat
          = Some (11 - (Z.of_nat k * 2 + 1))%Z.
Proof.
  split; [reflexivity|]. split; [exact tenFaces_uniquePartner|].
  destruct (computeFaceNumbers_d10_convention tenFaces eq_refl
              tenFaces_uniquePartner) as (Hpair & _ & _).
  apply Hpair; [lia | lia | |].
  - rewrite tenFaces_opposite by lia. reflexivity.
  - unfold centroidAt, sampleFace. cbn. lra.
Defined.

Lemma parseHex_example : parseHex "3b82f6" = Some 0x3b82f6%Z.
Proof. reflexivity. Qed.

Example parseColor_css_hex :
  parseColor (JSString "#3b82f6") = JSNumber 0x3b82f6.
Proof.
  unfold parseColor, parseInt16. cbn [isNumber isString startsWithHash slice1].
  by rewrite parseHex_example.
Qed.

Lemma gray_nonzero : (0x6b7280 : R) <> 0.
Proof. lra. Qed.

(** What [parseColor] does on each kind of input. *)
Lemma parseColor_number (v : JSValue) : isNumber v = true -> parseColor v = v.
Proof. intros H. unfold parseColor. by rewrite H. Qed.

Lemma parseColor_hash (s : string) :
  startsWithHash s = true -> parseColor (JSString s) = parseInt16 (slice1 s).
Proof. intros H. unfold parseColor. cbn [isNumber isString]. by rewrite H. Qed.

Lemma parseColor_other (v : JSValue) :
  isNumber v = false -> isString v = false -> parseColor v = JSNumber 0x6b7280.
Proof. intros H1 H2. unfold parseColor. by rewrite H1, H2. Qed.

Lemma parseColor_own (s : string) (x : R) :
  startsWithHash s = false -> TAILWIND_MAP !! s = Some (JSNumber x) -> x <> 0 ->
  parseColor (JSString s) = JSNumber x.
Proof.
  intros H1 H2 H3. unfold parseColor, getProperty. cbn [isNumber isString].
  rewrite H1, H2. cbn [toBoolean]. by rewrite bool_decide_eq_true_2.
Qed.

Lemma parseColor_unknown (s : string) :
  startsWithHash s = false -> TAILWIND_MAP !! s = None ->
  objectPrototype !! s = None ->
  parseColor (JSString s) = JSNumber 0x6b7280.
Proof.
  intros H1 H2 H3. unfold parseColor, getProperty. cbn [isNumber isString].
  by rewrite H1, H2, H3.
Qed.

Lemma parseColor_tailwind :
  Forall (fun '(s, x) => parseColor (JSString s) = JSNumber x)
    [ ("bg-purple-500"%string, 0xa855f7); ("bg-blue-500"%string, 0x3b82f6);
      ("bg-green-500"%string, 0x22c55e); ("bg-yellow-500"%string, 0xeab308);
      ("bg-orange-500"%string, 0xf97316); ("bg-red-500"%string, 0xef4444);
      ("bg-pink-500"%string, 0xec4899); ("bg-gray-500"%string, 0x6b7280) ].
Proof.
  repeat constructor; (apply parseColor_own; [reflexivity | reflexivity | lra]).
Qed.

(** C10 (failing input). [TAILWIND_MAP[color]] also finds what the object
    literal inherits: for the string "constructor" [parseColor] returns the
    [Object] function, not the gray default and not a number at all. *)
Theorem parseColor_inherited_property :
  parseColor (JSString "constructor") = JSFunction "Object"
  /\ parseColor (JSString "constructor") <> JSNumber 0x6b7280
  /\ isNumber (parseColor (JSString "constructor")) = false.
Proof.
  assert (E : parseColor (JSString "constructor") = JSFunction "Object")
    by reflexivity.
  rewrite E. repeat split. discriminate.
Qed.

(** * Orientation solver *)

(** ** Vector algebra *)

Lemma vec3_eq (a b : Vector3) :
  vx a = vx b -> vy a = vy b -> vz a = vz b -> a = b.
Proof. destruct a, b; cbn; intros; subst; reflexivity. Qed.

Lemma dot_zero_iff (v : Vector3) : V3.dot v v = 0 <-> v = V3.zero.
Proof.
  split.
  - unfold V3.dot. intros H. apply vec3_eq; cbn; nra.
  - intros ->. unfold V3.dot. cbn. ring.
Qed.

Lemma length_sq (v : Vector3) : V3.length v * V3.length v = V3.dot v v.
Proof. unfold V3.length. apply sqrt_sqrt. apply dot_self_nonneg. Qed.

Lemma length_nonneg (v : Vector3) : 0 <= V3.length v.
Proof. apply sqrt_pos. Qed.

Lemma length_zero_iff (v : Vector3) : V3.length v = 0 <-> v = V3.zero.
Proof.
  rewrite <- dot_zero_iff, <- length_sq. split; intros H; [rewrite H; ring | nra].
Qed.

Lemma length_unit (v : Vector3) : isUnit v -> V3.length v = 1.
Proof.
  intros H. unfold V3.length. fold (V3.dot v v). rewrite H. apply sqrt_1.
Qed.

Lemma normalize_unit (v : Vector3) : isUnit v -> V3.normalize v = v.
Proof.
  intros H. unfold V3.normalize. rewrite (length_unit v H).
  rewrite decide_False by lra.
  unfold V3.divideScalar, V3.multiplyScalar. apply vec3_eq; cbn; field.
Qed.

Lemma normalize_nonzero (v : Vector3) :
  v <> V3.zero -> V3.normalize v = V3.multiplyScalar v (1 / V3.length v).
Proof.
  intros H. unfold V3.normalize. rewrite decide_False; [done|].
  by rewrite length_zero_iff.
Qed.

Lemma normalize_isUnit (v : Vector3) : v <> V3.zero -> isUnit (V3.normalize v).
Proof.
  intros H. rewrite normalize_nonzero by done.
  assert (Hl : V3.length v <> 0) by by rewrite length_zero_iff.
  pose proof (length_sq v) as Hsq. unfold isUnit, V3.dot in *. cbn.
  field_simplify_eq; [nra | done].
Qed.

Lemma normalize_perpendicular (v n : Vector3) :
  perpendicular v n -> perpendicular (V3.normalize v) n.
Proof.
  unfold perpendicular, V3.normalize, V3.divideScalar, V3.multiplyScalar, V3.dot.
  cbn. intros H. set (k := 1 / _).
  replace (vx v * k * vx n + vy v * k * vy n + vz v * k * vz n)
    with (k * (vx v * vx n + vy v * vy n + vz v * vz n)) by ring.
  rewrite H. ring.
Qed.

(** Lagrange's identity. *)
Lemma cross_norm (u n : Vector3) :
  V3.dot (V3.cross u n) (V3.cross u n)
  = V3.dot u u * V3.dot n n - V3.dot u n * V3.dot u n.
Proof. unfold V3.dot, V3.cross. cbn. ring. Qed.

Lemma cross_unit_perpendicular (u n : Vector3) :
  isUnit u -> isUnit n -> perpendicular u n -> isUnit (V3.cross u n).
Proof.
  unfold isUnit, perpendicular. intros Hu Hn Hp.
  rewrite cross_norm, Hu, Hn, Hp. ring.
Qed.

Lemma isUnit_nonzero (v : Vector3) : isUnit v -> v <> V3.zero.
Proof. unfold isUnit. intros H ->. unfold V3.dot in H. cbn in H. lra. Qed.

(** ** The reference direction never degenerates *)

Lemma worldRef_cases (n : Vector3) :
  (Rabs (vy n) > 0.99 /\ worldRef n = Vec3 0 0 1)
  \/ (Rabs (vy n) <= 0.99 /\ worldRef n = Vec3 0 1 0).
Proof.
  unfold worldRef.
  replace (V3.dot n (Vec3 0 1 0)) with (vy n) by (unfold V3.dot; cbn; ring).
  destruct (decide _); [left | right]; split; [done | done | lra | done].
Qed.

Lemma projectedRef_perpendicular (n : Vector3) :
  isUnit n -> perpendicular (projectedRef n) n.
Proof.
  unfold isUnit, perpendicular, projectedRef. intros Hn.
  destruct n as [x y z].
  destruct (worldRef_cases (Vec3 x y z)) as [[_ ->] | [_ ->]];
    unfold V3.addScaledVector, V3.dot in *; cbn in *.
  - transitivity (z * (1 - (x * x + y * y + z * z))); [ring | rewrite Hn; ring].
  - transitivity (y * (1 - (x * x + y * y + z * z))); [ring | rewrite Hn; ring].
Qed.

Lemma Rabs_sq_gt (a b : R) : 0 <= b -> Rabs a > b -> b * b < a * a.
Proof.
  intros Hb H. destruct (Rcase_abs a) as [Hneg | Hpos].
  - rewrite (Rabs_left _ Hneg) in H. nra.
  - rewrite (Rabs_right _ Hpos) in H. nra.
Qed.

Lemma Rabs_sq_le (a b : R) : Rabs a <= b -> a * a <= b * b.
Proof.
  intros H. destruct (Rcase_abs a) as [Hneg | Hpos].
  - rewrite (Rabs_left _ Hneg) in H. nra.
  - rewrite (Rabs_right _ Hpos) in H. nra.
Qed.

Lemma projectedRef_norm (n : Vector3) :
  isUnit n -> 0.0199 <= V3.dot (projectedRef n) (projectedRef n).
Proof.
  unfold isUnit, projectedRef. intros Hn.
  destruct n as [x y z].
  destruct (worldRef_cases (Vec3 x y z)) as [[Hy ->] | [Hy ->]];
    unfold V3.addScaledVector, V3.dot in *; cbn in *.
  - apply Rabs_sq_gt in Hy; [|lra].
    replace (_ + _ + _)
      with (1 - z * z * (2 - (x * x + y * y + z * z))) by ring.
    rewrite Hn. nra.
  - apply Rabs_sq_le in Hy.
    replace (_ + _ + _)
      with (1 - y * y * (2 - (x * x + y * y + z * z))) by ring.
    rewrite Hn. nra.
Qed.

Lemma projectedRef_nonzero (n : Vector3) : isUnit n -> projectedRef n <> V3.zero.
Proof.
  intros Hn H. pose proof (projectedRef_norm n Hn) as Hp.
  rewrite H in Hp. unfold V3.dot in Hp. cbn in Hp. lra.
Qed.

Lemma refUpOf_unit (n : Vector3) : isUnit n -> isUnit (refUpOf n).
Proof. intros Hn. apply normalize_isUnit. by apply projectedRef_nonzero. Qed.

Lemma refUpOf_perpendicular (n : Vector3) :
  isUnit n -> perpendicular (refUpOf n) n.
Proof.
  intros Hn. apply normalize_perpendicular. by apply projectedRef_perpendicular.
Qed.

(** ** The up direction is a unit vector in the face plane *)

Lemma snapLoop_choice (P : Vector3 -> Prop) (c refUp : Vector3) vs :
  Forall (fun v => P (V3.normalize (V3.sub v c))) vs ->
  forall st, P st.2 -> P (foldl (snapStep c refUp) st vs).2.
Proof.
  induction 1 as [|v vs Hv _ IH]; intros st Hst; [done|].
  cbn. apply IH. unfold snapStep.
  destruct st.1 as [b|]; [destruct (decide _)|]; done.
Qed.

Lemma snapToVertex_choice (P : Vector3 -> Prop) (c refUp : Vector3) vs :
  P refUp ->
  Forall (fun v => P (V3.normalize (V3.sub v c))) vs ->
  P (snapToVertex c refUp vs).
Proof. intros Hup Hall. unfold snapToVertex. by apply snapLoop_choice. Qed.

Lemma projectedToPole_perpendicular (c n : Vector3) :
  isUnit n -> perpendicular (projectedToPole c n) n.
Proof.
  unfold isUnit, perpendicular, projectedToPole. intros Hn.
  generalize (V3.sub (poleOf c) c). intros [tx ty tz]. destruct n as [x y z].
  unfold V3.addScaledVector, V3.dot in *. cbn in *.
  transitivity ((tx * x + ty * y + tz * z) * (1 - (x * x + y * y + z * z)));
    [ring | rewrite Hn; ring].
Qed.

Lemma negate_isUnit (v : Vector3) : isUnit v -> isUnit (V3.negate v).
Proof. unfold isUnit, V3.negate, V3.dot. cbn. intros H. nra. Qed.

Lemma negate_perpendicular (v n : Vector3) :
  perpendicular v n -> perpendicular (V3.negate v) n.
Proof. unfold perpendicular, V3.negate, V3.dot. cbn. intros H. nra. Qed.

Lemma sub_nonzero (v c : Vector3) : v <> c -> V3.sub v c <> V3.zero.
Proof.
  intros Hne H. apply Hne. unfold V3.sub, V3.zero in H. injection H as H1 H2 H3.
  apply vec3_eq; lra.
Qed.

Lemma faceUpOf_unit_perpendicular (face : Face) (sides : Z) :
  isUnit (normal face) -> wellPlaced face sides ->
  isUnit (faceUpOf face sides) /\ perpendicular (faceUpOf face sides) (normal face).
Proof.
  intros Hn Hw. unfold faceUpOf, faceUpFrom, wellPlaced in *.
  rewrite (normalize_unit _ Hn).
  destruct (decide (sides = 10%Z)).
  - split.
    + by apply negate_isUnit, normalize_isUnit.
    + by apply negate_perpendicular, normalize_perpendicular,
        projectedToPole_perpendicular.
  - destruct (decide _).
    + apply (snapToVertex_choice (fun u => isUnit u /\ perpendicular u (normal face))).
      * split; [by apply refUpOf_unit | by apply refUpOf_perpendicular].
      * eapply Forall_impl; [exact Hw|]. intros v [Hv Hp]. split.
        -- by apply normalize_isUnit, sub_nonzero.
        -- by apply normalize_perpendicular.
    + split; [by apply refUpOf_unit | by apply refUpOf_perpendicular].
Qed.

(** C7 (amended). The reference vector is (0,1,0) unless the absolute value
    of its dot product with the unit normal exceeds 0.99, in which case it is
    (0,0,1); for every unit normal the projected reference vector is
    non-zero; and the cross product that builds the basis is non-zero when
    the up direction is the projected reference, or a vertex or pole
    direction taken from a well placed face. *)
Theorem faceSettleQuat_basis_nondegenerate (face : Face) (sides : Z) :
  isUnit (normal face) ->
  worldRef (normal face)
  = (if decide (Rabs (V3.dot (normal face) (Vec3 0 1 0)) > 0.99)
     then Vec3 0 0 1 else Vec3 0 1 0)
  /\ projectedRef (normal face) <> V3.zero
  /\ (wellPlaced face sides -> basisCross face sides <> V3.zero).
Proof.
  intros Hn. split; [reflexivity|]. split; [by apply projectedRef_nonzero|].
  intros Hw. apply isUnit_nonzero. unfold basisCross.
  destruct (faceUpOf_unit_perpendicular face sides Hn Hw) as [Hu Hp].
  rewrite (normalize_unit _ Hn). by apply cross_unit_perpendicular.
Qed.

Lemma faceSettleQuat_basis_nondegenerate_witness :
  isUnit (Vec3 0 1 0)
  /\ wellPlaced (sampleFace (Vec3 0 1 0)
       [Vec3 (-0.85) 0.85 (-0.85); Vec3 0.85 0.85 (-0.85);
        Vec3 (-0.85) 0.85 0.85; Vec3 0.85 0.85 0.85]) 8
  /\ projectedRef (Vec3 0 1 0) <> V3.zero
  /\ basisCross (sampleFace (Vec3 0 1 0)
       [Vec3 (-0.85) 0.85 (-0.85); Vec3 0.85 0.85 (-0.85);
        Vec3 (-0.85) 0.85 0.85; Vec3 0.85 0.85 0.85]) 8 <> V3.zero.
Proof.
  set (f := sampleFace _ _).
  assert (Hn : isUnit (normal f)) by (unfold isUnit, V3.dot; cbn; lra).
  assert (Hw : wellPlaced f 8).
  { unfold wellPlaced. rewrite decide_False by lia.
    rewrite decide_True by (cbn; split; lia).
    repeat constructor; cbn;
      solve [ intros [= H1 H2 H3]; lra
            | unfold perpendicular, V3.dot, V3.sub; cbn; lra ]. }
  destruct (faceSettleQuat_basis_nondegenerate f 8 Hn) as (_ & Hp & Hc).
  split; [exact Hn|]. split; [exact Hw|]. split; [exact Hp | exact (Hc Hw)].
Defined.

(** The claim as stated fails twice over.  The normal (0,-1,0) has dot
    product -1 with (0,1,0), which is not above 0.99, and yet the reference
    is (0,0,1): the test is on the absolute value.  And a unit normal alone
    does not keep the basis from degenerating: for [needleFace] on a D8 the
    up direction snaps to a vertex direction along the normal and the cross
    product is the zero vector. *)
Lemma faceSettleQuat_basis_degenerate :
  isUnit (Vec3 0 (-1) 0)
  /\ ~ V3.dot (Vec3 0 (-1) 0) (Vec3 0 1 0) > 0.99
  /\ worldRef (Vec3 0 (-1) 0) = Vec3 0 0 1
  /\ isUnit (normal needleFace)
  /\ basisCross needleFace 8 = V3.zero.
Proof.
  split; [unfold isUnit, V3.dot; cbn; lra|].
  split; [unfold V3.dot; cbn; lra|].
  split.
  { destruct (worldRef_cases (Vec3 0 (-1) 0)) as [[_ E] | [H _]]; [exact E|].
    cbn in H. unfold Rabs in H. destruct (Rcase_abs (-1)); lra. }
  assert (Hn : isUnit (normal needleFace)) by (unfold isUnit, V3.dot; cbn; lra).
  split; [exact Hn|].
  unfold basisCross, faceUpOf, faceUpFrom. rewrite (normalize_unit _ Hn).
  rewrite decide_False by lia. rewrite decide_True by (cbn; split; lia).
  assert (Hup : vx (snapToVertex (centroid needleFace)
                      (refUpOf (normal needleFace)) (verts needleFace)) = 0
                /\ vy (snapToVertex (centroid needleFace)
                         (refUpOf (normal needleFace)) (verts needleFace)) = 0).
  { unfold snapToVertex.
    assert (Hrest : Forall (fun v => vx (V3.normalize (V3.sub v (centroid needleFace))) = 0
                             /\ vy (V3.normalize (V3.sub v (centroid needleFace))) = 0)
                      [Vec3 0 0 2; Vec3 0 0 3]).
    { repeat constructor;
        unfold V3.normalize, V3.divideScalar, V3.multiplyScalar; cbn; ring. }
    apply (snapLoop_choice (fun u => vx u = 0 /\ vy u = 0)
             (centroid needleFace) (refUpOf (normal needleFace))
             [Vec3 0 0 2; Vec3 0 0 3] Hrest
             (snapStep (centroid needleFace) (refUpOf (normal needleFace))
                       (None, refUpOf (normal needleFace)) (Vec3 0 0 1))).
    unfold snapStep at 1. cbn [fst].
    unfold V3.normalize, V3.divideScalar, V3.multiplyScalar; cbn.
    split; ring. }
  destruct Hup as [Hx Hy]. revert Hx Hy.
  generalize (snapToVertex (centroid needleFace) (refUpOf (normal needleFace))
                (verts needleFace)).
  intros [ux uy uz]. cbn. intros -> ->. unfold V3.cross, V3.zero. cbn.
  f_equal; ring.
Qed.
(** * The float store *)

(** Powers of two with a constant exponent, as numerals. *)
Ltac powers :=
  repeat match goal with
  | |- context [powerRZ ?b ?z] =>
      let z' := eval vm_compute in z in
      progress change (powerRZ b z) with (powerRZ b z')
  | H : context [powerRZ ?b ?z] |- _ =>
      let z' := eval vm_compute in z in
      progress change (powerRZ b z) with (powerRZ b z') in H
  end;
  unfold powerRZ in *;
  repeat match goal with
  | |- context [Pos.to_nat ?p] =>
      let n := eval vm_compute in (Pos.to_nat p) in change (Pos.to_nat p) with n
  | H : context [Pos.to_nat ?p] |- _ =>
      let n := eval vm_compute in (Pos.to_nat p) in change (Pos.to_nat p) with n in H
  end.

Lemma ln_0 : ln 0 = 0.
Proof.
  unfold ln. destruct (Rlt_dec 0 0) as [H | H]; [|reflexivity].
  exfalso. apply (Rlt_irrefl 0 H).
Qed.

Lemma ln2_pos : 0 < ln 2.
Proof. pose proof ln_lt_2. lra. Qed.

Lemma powerRZ2_pos (e : Z) : 0 < powerRZ 2 e.
Proof. apply powerRZ_lt. lra. Qed.

Lemma powerRZ2_exp (e : Z) : powerRZ 2 e = exp (IZR e * ln 2).
Proof. rewrite powerRZ_Rpower by lra. reflexivity. Qed.

Lemma powerRZ2_le (a b : Z) : (a <= b)%Z -> powerRZ 2 a <= powerRZ 2 b.
Proof.
  intros H. rewrite !powerRZ2_exp.
  destruct (Z.eq_dec a b) as [-> | Hne]; [lra|].
  left. apply exp_increasing. apply Rmult_lt_compat_r; [apply ln2_pos|].
  apply IZR_lt. lia.
Qed.

Lemma powerRZ2_succ (e : Z) : powerRZ 2 (e + 1) = 2 * powerRZ 2 e.
Proof.
  rewrite powerRZ_add by lra.
  replace (powerRZ 2 1) with 2 by (powers; lra). ring.
Qed.

(** The binade of a number that is not zero. *)
Lemma binade_spec (x : R) :
  x <> 0 ->
  powerRZ 2 (Zfloor (ln (Rabs x) / ln 2)) <= Rabs x
  < powerRZ 2 (Zfloor (ln (Rabs x) / ln 2) + 1).
Proof.
  intros Hx. assert (Hpos : 0 < Rabs x) by by apply Rabs_pos_lt.
  pose proof ln2_pos as Hl.
  destruct (Zfloor_bound (ln (Rabs x) / ln 2)) as [Hlo Hhi].
  set (e := Zfloor (ln (Rabs x) / ln 2)) in *.
  assert (E : Rabs x = exp (ln (Rabs x) / ln 2 * ln 2)).
  { replace (ln (Rabs x) / ln 2 * ln 2) with (ln (Rabs x)) by (field; lra).
    by rewrite exp_ln. }
  rewrite !powerRZ2_exp, plus_IZR. split.
  - rewrite E. destruct Hlo as [Hlo | Hlo].
    + left. apply exp_increasing. by apply Rmult_lt_compat_r.
    + rewrite Hlo. lra.
  - rewrite E. apply exp_increasing. by apply Rmult_lt_compat_r.
Qed.

Lemma binade_unique (x : R) (e : Z) :
  powerRZ 2 e <= Rabs x < powerRZ 2 (e + 1) ->
  Zfloor (ln (Rabs x) / ln 2) = e.
Proof.
  intros [Hlo Hhi]. pose proof (powerRZ2_pos e) as He.
  assert (Hx : x <> 0).
  { intros ->. rewrite Rabs_R0 in Hlo. lra. }
  destruct (binade_spec x Hx) as [Hlo' Hhi'].
  set (e' := Zfloor (ln (Rabs x) / ln 2)) in *.
  destruct (Z.lt_trichotomy e' e) as [H | [H | H]]; [|done|].
  - pose proof (powerRZ2_le (e' + 1) e ltac:(lia)). lra.
  - pose proof (powerRZ2_le (e + 1) e' ltac:(lia)). lra.
Qed.

Lemma ulp32_pos (x : R) : 0 < ulp32 x.
Proof. apply powerRZ2_pos. Qed.

Lemma roundTiesToEven_error (y : R) : Rabs (IZR (roundTiesToEven y) - y) <= 1 / 2.
Proof.
  unfold roundTiesToEven. destruct (Zfloor_bound y) as [Hlo Hhi].
  set (f := Zfloor y) in *. cbn zeta.
  destruct (decide _) as [H | H].
  - rewrite Rabs_left1 by lra. lra.
  - destruct (decide _) as [H' | H'].
    + rewrite plus_IZR. rewrite Rabs_right by lra. lra.
    + destruct (Z.even f).
      * rewrite Rabs_left1 by lra. lra.
      * rewrite plus_IZR. rewrite Rabs_right by lra. lra.
Qed.

Lemma roundTiesToEven_unique (y : R) (n : Z) :
  IZR n - 1 / 2 < y < IZR n + 1 / 2 -> roundTiesToEven y = n.
Proof.
  intros [Hlo Hhi]. unfold roundTiesToEven. cbn zeta.
  destruct (Zfloor_bound y) as [Hf Hf'].
  set (f := Zfloor y) in *.
  assert (Hcases : (f = n \/ f = n - 1)%Z).
  { assert (IZR f < IZR (n + 1)) by (rewrite plus_IZR; lra).
    assert (IZR (n - 2) < IZR f) by (rewrite minus_IZR; lra).
    apply lt_IZR in H, H0. lia. }
  destruct Hcases as [-> | ->].
  - destruct (decide _) as [H | H]; [done | lra].
  - rewrite minus_IZR in *.
    destruct (decide _) as [H | H]; [lra|].
    destruct (decide _) as [H' | H']; [lia | lra].
Qed.

(** Rounding to a float moves a number by half a unit in the last place
    at most. *)
Lemma fround_error (x : R) : Rabs (fround x - x) <= ulp32 x / 2.
Proof.
  unfold fround. pose proof (ulp32_pos x) as Hu.
  pose proof (roundTiesToEven_error (x / ulp32 x)) as He.
  set (n := roundTiesToEven (x / ulp32 x)) in *.
  replace (IZR n * ulp32 x - x) with ((IZR n - x / ulp32 x) * ulp32 x)
    by (field; lra).
  rewrite Rabs_mult, (Rabs_right (ulp32 x)) by lra.
  nra.
Qed.

Lemma ulp32_le (x : R) :
  x <> 0 -> ulp32 x <= powerRZ 2 (-23) * Rmax (Rabs x) (powerRZ 2 (-126)).
Proof.
  intros Hx. unfold ulp32, float32Exponent.
  pose proof (powerRZ2_pos (-23)) as H23.
  destruct (Z.max_spec (Zfloor (ln (Rabs x) / ln 2)) (-126)) as [[Hlt ->] | [Hle ->]].
  - replace (-126 - 23)%Z with (-23 + -126)%Z by lia.
    rewrite powerRZ_add by lra.
    apply Rmult_le_compat_l; [lra | apply Rmax_r].
  - destruct (binade_spec x Hx) as [Hlo _].
    set (e := Zfloor (ln (Rabs x) / ln 2)) in *.
    replace (e - 23)%Z with (-23 + e)%Z by lia.
    rewrite powerRZ_add by lra.
    apply Rmult_le_compat_l; [lra|].
    eapply Rle_trans; [exact Hlo | apply Rmax_l].
Qed.

Lemma fround_0 : fround 0 = 0.
Proof.
  unfold fround. unfold Rdiv. rewrite Rmult_0_l.
  rewrite (roundTiesToEven_unique 0 0); lra.
Qed.

(** The relative error of the store: 2^-24, from the smallest normal
    number on. *)
Lemma fround_close (x : R) :
  Rabs (fround x - x) <= powerRZ 2 (-24) * Rmax (Rabs x) (powerRZ 2 (-126)).
Proof.
  destruct (Req_dec x 0) as [-> | Hx].
  { rewrite fround_0, Rminus_diag, Rabs_R0.
    apply Rmult_le_pos; [left; apply powerRZ2_pos | apply Rmax_l]. }
  pose proof (fround_error x) as He. pose proof (ulp32_le x Hx) as Hu.
  replace (powerRZ 2 (-24)) with (powerRZ 2 (-23) / 2).
  - lra.
  - replace (-23)%Z with (-24 + 1)%Z by lia. rewrite powerRZ2_succ. field.
Qed.


Lemma float32Exponent_unique (x : R) (e : Z) :
  (-126 <= e)%Z -> powerRZ 2 e <= Rabs x < powerRZ 2 (e + 1) ->
  float32Exponent x = e.
Proof.
  intros He H. unfold float32Exponent. rewrite (binade_unique x e H). lia.
Qed.

(** The float nearest to [x] in the binade [e]: the multiple [n] of the
    unit in the last place. *)
Lemma fround_unique (x : R) (e n : Z) :
  (-126 <= e)%Z -> powerRZ 2 e <= Rabs x < powerRZ 2 (e + 1) ->
  (IZR n - 1 / 2) * powerRZ 2 (e - 23) < x < (IZR n + 1 / 2) * powerRZ 2 (e - 23) ->
  fround x = IZR n * powerRZ 2 (e - 23).
Proof.
  intros He Hb [Hlo Hhi]. unfold fround, ulp32.
  rewrite (float32Exponent_unique x e He Hb).
  pose proof (powerRZ2_pos (e - 23)) as Hp.
  rewrite (roundTiesToEven_unique _ n); [done|]. split.
  - apply (Rmult_lt_reg_r (powerRZ 2 (e - 23))); [done|].
    unfold Rdiv. rewrite Rmult_assoc, Rinv_l by lra. lra.
  - apply (Rmult_lt_reg_r (powerRZ 2 (e - 23))); [done|].
    unfold Rdiv. rewrite Rmult_assoc, Rinv_l by lra. lra.
Qed.

Lemma fround_1_2 : fround 1.2 = 10066330 / 8388608.
Proof.
  rewrite (fround_unique 1.2 0 10066330).
  - powers. lra.
  - lia.
  - rewrite Rabs_right by lra. powers. lra.
  - powers. lra.
Qed.

(** * The D10 solid *)

Lemma cos_PI5_pos : 0 < cos (PI / 5).
Proof. apply cos_gt_0; pose proof PI_RGT_0; lra. Qed.

(** The kite lemma: a pole on the y axis, a middle vertex at azimuth [al]
    and two wing vertices at azimuth [al - th] and [al + th], with the
    wings' height above the pole [cos th] times the middle vertex's. *)
Lemma kite_cross (Y0 y1 y2 r al th : R) :
  y2 - Y0 = cos th * (y1 - Y0) ->
  let P0 := Vec3 0 Y0 0 in
  let M := Vec3 (r * cos al) y1 (r * sin al) in
  let A := Vec3 (r * cos (al - th)) y2 (r * sin (al - th)) in
  let B := Vec3 (r * cos (al + th)) y2 (r * sin (al + th)) in
  V3.cross (V3.sub A P0) (V3.sub M P0) = V3.cross (V3.sub M P0) (V3.sub B P0).
Proof.
  intros Hy. cbn zeta.
  rewrite cos_minus, cos_plus, sin_minus, sin_plus.
  assert (E : y2 = Y0 + cos th * (y1 - Y0)) by lra. rewrite E.
  unfold V3.cross, V3.sub. cbn. f_equal; ring.
Qed.

Lemma cross_perp_l (u v : Vector3) : V3.dot (V3.cross u v) u = 0.
Proof. unfold V3.dot, V3.cross. cbn. ring. Qed.

Lemma cross_perp_r (u v : Vector3) : V3.dot (V3.cross u v) v = 0.
Proof. unfold V3.dot, V3.cross. cbn. ring. Qed.

Lemma cross_anti (u v : Vector3) : V3.cross u v = V3.negate (V3.cross v u).
Proof. unfold V3.cross, V3.negate. cbn. f_equal; ring. Qed.

Lemma sub_self (a : Vector3) : V3.sub a a = V3.zero.
Proof. unfold V3.sub, V3.zero. f_equal; ring. Qed.

Lemma dot_zero_r (a : Vector3) : V3.dot a V3.zero = 0.
Proof. unfold V3.dot. cbn. ring. Qed.

Lemma d10_kites_of_rounds (radius : R) (ks : list nat) :
  inTwos (trianglesOf (concat (d10Round radius <$> ks)))
  = concat ((fun k => [d10TopKite radius k; d10BotKite radius k]) <$> ks).
Proof.
  induction ks as [|k ks IH]; [done|].
  cbn [fmap list_fmap concat]. unfold d10Round at 1.
  cbn [app trianglesOf inTwos]. by rewrite IH.
Qed.

(** The ring-height ratio is the planarity condition of both kites. *)
Lemma d10_height_condition (radius : R) :
  d10h radius - d10H radius = cos (PI / 5) * (- d10h radius - d10H radius).
Proof.
  unfold d10h, d10H. pose proof cos_PI5_pos. field. lra.
Qed.

(** The azimuth of [upper[nk]] is that of [lower[k]] plus 36 degrees, and
    the azimuth of [lower[k]] that of [upper[nk]] minus 36 degrees, up to a
    full turn when [k] is 4. *)
Lemma d10_next_angle (k : nat) :
  (k < 5)%nat ->
  cos (d10aU ((k + 1) mod 5)) = cos (d10aL k + PI / 5)
  /\ sin (d10aU ((k + 1) mod 5)) = sin (d10aL k + PI / 5)
  /\ cos (d10aL k) = cos (d10aU ((k + 1) mod 5) - PI / 5)
  /\ sin (d10aL k) = sin (d10aU ((k + 1) mod 5) - PI / 5).
Proof.
  intros Hk. unfold d10aL, d10aU.
  destruct (decide (k = 4%nat)) as [-> | Hne].
  - change ((4 + 1) mod 5)%nat with 0%nat. cbn [INR].
    replace (0 * 2 * PI / 5) with 0 by field.
    replace ((1 + 1 + 1 + 1) * 2 * PI / 5 + PI / 5 + PI / 5) with (0 + 2 * PI)
      by field.
    replace ((1 + 1 + 1 + 1) * 2 * PI / 5 + PI / 5) with (0 - PI / 5 + 2 * PI)
      by field.
    rewrite !(cos_plus _ (2 * PI)), !(sin_plus _ (2 * PI)), cos_2PI, sin_2PI.
    repeat split; ring.
  - rewrite Nat.mod_small by lia. rewrite Nat.add_1_r, S_INR.
    repeat split; f_equal; field.
Qed.

Lemma d10TopKite_planar (radius : R) (k : nat) :
  (k < 5)%nat -> kitePlanar radius (d10TopKite radius k).
Proof.
  intros Hk. destruct (d10_next_angle k Hk) as (Hc & Hs & _ & _).
  pose proof (kite_cross (d10H radius) (- d10h radius) (d10h radius)
                (d10r radius) (d10aL k) (PI / 5)
                (d10_height_condition radius)) as Hkite.
  cbn zeta in Hkite.
  replace (d10aL k - PI / 5) with (d10aU k) in Hkite by (unfold d10aL; lra).
  rewrite <- Hc, <- Hs in Hkite.
  fold (d10Top radius) (d10Lower radius k) (d10Upper radius k)
       (d10Upper radius ((k + 1) mod 5)) in Hkite.
  assert (Hn : triangleCross (d10TopKite radius k).1
               = triangleCross (d10TopKite radius k).2).
  { cbn. rewrite cross_anti, Hkite, <- cross_anti. reflexivity. }
  unfold kitePlanar, inPlaneOf. cbn [d10TopKite fst snd].
  split; [by left|]. split; [done|]. split; [exact Hn|].
  cbn [d10TopKite fst snd] in Hn.
  split; [|split].
  - rewrite sub_self. apply dot_zero_r.
  - rewrite Hn. cbn. apply cross_perp_l.
  - cbn. apply cross_perp_l.
Qed.

Lemma d10BotKite_planar (radius : R) (k : nat) :
  (k < 5)%nat -> kitePlanar radius (d10BotKite radius k).
Proof.
  intros Hk. destruct (d10_next_angle k Hk) as (_ & _ & Hc & Hs).
  assert (Hcond : - d10h radius - - d10H radius
                  = cos (PI / 5) * (d10h radius - - d10H radius)).
  { pose proof (d10_height_condition radius). lra. }
  pose proof (kite_cross (- d10H radius) (d10h radius) (- d10h radius)
                (d10r radius) (d10aU ((k + 1) mod 5)) (PI / 5) Hcond) as Hkite.
  cbn zeta in Hkite. rewrite <- Hc, <- Hs in Hkite.
  fold (d10aL ((k + 1) mod 5)) in Hkite.
  fold (d10Bot radius) (d10Lower radius k) (d10Upper radius ((k + 1) mod 5))
       (d10Lower radius ((k + 1) mod 5)) in Hkite.
  assert (Hn : triangleCross (d10BotKite radius k).1
               = triangleCross (d10BotKite radius k).2) by exact Hkite.
  unfold kitePlanar, inPlaneOf. cbn [d10BotKite fst snd].
  split; [by right|]. split; [done|]. split; [exact Hn|].
  cbn [d10BotKite fst snd] in Hn.
  split; [|split].
  - rewrite sub_self. apply dot_zero_r.
  - cbn. apply cross_perp_r.
  - rewrite Hn. cbn. apply cross_perp_r.
Qed.

(** * The object store: faceSettleQuat only writes fresh cells *)

Section StoreFacts.

Variable h : Heap.

Lemma read_old (l : Loc) (ext : list Vector3) :
  (l < length h)%nat ->
  Store.read l (h ++ ext) = (default V3.zero (h !! l), h ++ ext).
Proof. intros Hl. unfold Store.read. by rewrite lookup_app_l. Qed.

Lemma read_new (k : nat) (ext : list Vector3) :
  Store.read (length h + k) (h ++ ext) = (default V3.zero (ext !! k), h ++ ext).
Proof.
  unfold Store.read. rewrite lookup_app_r by lia.
  by replace (length h + k - length h)%nat with k by lia.
Qed.

Lemma write_new (k : nat) (v : Vector3) (ext : list Vector3) :
  Store.write (length h + k) v (h ++ ext) = ((length h + k)%nat, h ++ <[k := v]> ext).
Proof.
  unfold Store.write. rewrite insert_app_r_alt by lia.
  by replace (length h + k - length h)%nat with k by lia.
Qed.

Lemma newVector3_app (x y z : R) (ext : list Vector3) :
  Store.newVector3 x y z (h ++ ext)
  = ((length h + length ext)%nat, h ++ (ext ++ [Vec3 x y z])).
Proof. unfold Store.newVector3. by rewrite length_app, app_assoc. Qed.

End StoreFacts.

Lemma vec3_eta (v : Vector3) : Vec3 (vx v) (vy v) (vz v) = v.
Proof. by destruct v. Qed.

Lemma insert_at_end {A : Type} (ext : list A) (x v : A) :
  <[length ext := v]> (ext ++ [x]) = ext ++ [v].
Proof.
  rewrite insert_app_r_alt by lia. by rewrite Nat.sub_diag.
Qed.

Lemma lookup_at_end {A : Type} (ext : list A) (x : A) :
  (ext ++ [x]) !! length ext = Some x.
Proof. rewrite lookup_app_r by lia. by rewrite Nat.sub_diag. Qed.

Lemma lookup_app_add {A : Type} (l ext : list A) (k : nat) :
  (l ++ ext) !! (length l + k)%nat = ext !! k.
Proof.
  rewrite lookup_app_r by lia.
  by replace (length l + k - length l)%nat with k by lia.
Qed.

Lemma lookup_app_Some {A : Type} (l ext : list A) (i : nat) (x : A) :
  l !! i = Some x -> (l ++ ext) !! i = Some x.
Proof. intros H. rewrite lookup_app_l; [done | by eapply lookup_lt_Some]. Qed.

Lemma read_old_val (h : Heap) (l : Loc) (v : Vector3) (ext : list Vector3) :
  h !! l = Some v -> Store.read l (h ++ ext) = (v, h ++ ext).
Proof.
  intros Hl. rewrite read_old by (by eapply lookup_lt_Some). by rewrite Hl.
Qed.

Lemma yields_nil (m : St Loc) (h : Heap) (v : Vector3) :
  (exists ext l, m (h ++ []) = (l, h ++ ext) /\ (h ++ ext) !! l = Some v) ->
  yields m h v.
Proof. by rewrite app_nil_r. Qed.

Ltac store_unfold :=
  unfold Store.clone, Store.normalize, Store.negate,
    Store.addScaledVector, Store.subVectors, Store.crossVectors, Store.dot,
    bind, ret.

Ltac store_step :=
  first
    [ rewrite read_new
    | erewrite read_old_val by eassumption
    | rewrite write_new
    | rewrite newVector3_app ];
  cbn [length app Nat.add lookup list_lookup insert list_insert default
       from_option vx vy vz];
  unfold Datatypes.id.

Ltac store_run := repeat store_step; rewrite ?vec3_eta.

Ltac store_done :=
  do 2 eexists; split; [reflexivity|]; rewrite lookup_app_add; reflexivity.

Lemma normalOf_spec (h : Heap) (face : Store.FaceObj) (N : Vector3) :
  h !! Store.normal face = Some N ->
  yields (Store.normalOf face) h (V3.normalize N).
Proof.
  intros Hn. apply yields_nil. unfold Store.normalOf. store_unfold.
  store_run. store_done.
Qed.

Lemma refUpOf_spec (h : Heap) (n : Loc) (N : Vector3) :
  h !! n = Some N -> yields (Store.refUpOf n) h (refUpOf N).
Proof.
  intros Hn. apply yields_nil. unfold Store.refUpOf. store_unfold.
  unfold refUpOf, projectedRef, worldRef.
  store_run. destruct (decide (Rabs (V3.dot N (Vec3 0 1 0)) > 0.99));
    store_run; store_done.
Qed.

Lemma snapStep_spec (c refUp v : Loc) (C RU V : Vector3) (h : Heap)
      (best : option R) (lu : Loc) :
  h !! v = Some V -> h !! c = Some C -> h !! refUp = Some RU ->
  Store.snapStep c refUp (best, lu) v h
  = (let d := V3.dot (V3.normalize (V3.sub V C)) RU in
     match best with
     | None => (Some d, length h)
     | Some b => if decide (d > b) then (Some d, length h) else (best, lu)
     end, h ++ [V3.normalize (V3.sub V C)]).
Proof.
  intros Hv Hc Hr.
  transitivity (Store.snapStep c refUp (best, lu) v (h ++ []));
    [by rewrite app_nil_r|].
  unfold Store.snapStep. store_unfold. store_run.
  rewrite Nat.add_0_r. cbn [fst].
  destruct best as [b|]; [destruct (decide _)|]; reflexivity.
Qed.

Lemma snapLoop_spec (c refUp : Loc) (C RU : Vector3) (vs : list Loc) :
  forall (VS : list Vector3) (h : Heap) (best : option R) (lu : Loc) (U : Vector3),
    Forall2 (fun l v => h !! l = Some v) vs VS ->
    h !! c = Some C -> h !! refUp = Some RU -> h !! lu = Some U ->
    exists ext best' lu',
      Store.snapLoop c refUp (best, lu) vs h = ((best', lu'), h ++ ext)
      /\ (h ++ ext) !! lu' = Some (foldl (snapStep C RU) (best, U) VS).2
      /\ best' = (foldl (snapStep C RU) (best, U) VS).1.
Proof.
  induction vs as [|v vs IH]; intros VS h best lu U Hvs Hc Hr Hu.
  - apply Forall2_nil_inv_l in Hvs as ->. cbn.
    exists [], best, lu. rewrite app_nil_r. done.
  - apply Forall2_cons_inv_l in Hvs as (V & VS' & Hv & Hvs & ->).
    cbn [Store.snapLoop foldl]. unfold bind at 1.
    rewrite (snapStep_spec c refUp v C RU V h best lu Hv Hc Hr). cbn zeta.
    set (d := V3.dot (V3.normalize (V3.sub V C)) RU).
    set (h1 := h ++ [V3.normalize (V3.sub V C)]).
    assert (Hnew : h1 !! length h = Some (V3.normalize (V3.sub V C))).
    { unfold h1. apply lookup_at_end. }
    assert (Hmono : forall l x, h !! l = Some x -> h1 !! l = Some x).
    { intros l x Hl. by apply lookup_app_Some. }
    assert (Hvs1 : Forall2 (fun l v => h1 !! l = Some v) vs VS').
    { eapply Forall2_impl; [exact Hvs|]. intros l x Hl. by apply Hmono. }
    assert (Hpure : snapStep C RU (best, U) V
                    = match best with
                      | None => (Some d, V3.normalize (V3.sub V C))
                      | Some b => if decide (d > b)
                                  then (Some d, V3.normalize (V3.sub V C))
                                  else (best, U)
                      end) by reflexivity.
    rewrite Hpure. clear Hpure.
    assert (Hgo : forall best1 lu1 U1, h1 !! lu1 = Some U1 ->
      exists ext best' lu',
        Store.snapLoop c refUp (best1, lu1) vs h1 = ((best', lu'), h ++ ext)
        /\ (h ++ ext) !! lu' = Some (foldl (snapStep C RU) (best1, U1) VS').2
        /\ best' = (foldl (snapStep C RU) (best1, U1) VS').1).
    { intros best1 lu1 U1 Hu1.
      destruct (IH VS' h1 best1 lu1 U1 Hvs1 (Hmono _ _ Hc) (Hmono _ _ Hr) Hu1)
        as (ext & best' & lu' & Hrun & Hl & Hb).
      exists ([V3.normalize (V3.sub V C)] ++ ext), best', lu'.
      unfold h1 in *. rewrite <- app_assoc in Hrun, Hl. done. }
    destruct best as [b|]; [destruct (decide (d > b))|].
    + by apply Hgo.
    + apply Hgo. by apply Hmono.
    + by apply Hgo.
Qed.

Lemma faceUpOf_spec (h : Heap) (face : Store.FaceObj) (sides : Z)
      (n refUp : Loc) (C N RU : Vector3) (VS : list Vector3) :
  h !! Store.centroid face = Some C ->
  Forall2 (fun l v => h !! l = Some v) (Store.verts face) VS ->
  h !! n = Some N -> h !! refUp = Some RU ->
  yields (Store.faceUpOf face sides n refUp) h (faceUpFrom C N RU VS sides).
Proof.
  intros Hc Hvs Hn Hr. unfold Store.faceUpOf, faceUpFrom.
  destruct (decide (sides = 10%Z)).
  - apply yields_nil. store_unfold. unfold projectedToPole, poleOf.
    store_run. destruct (decide (vy C > 0)); store_run; store_done.
  - rewrite (Forall2_length _ _ _ Hvs).
    destruct (decide (sides ≠ 6%Z /\ (3 <= length VS)%nat)).
    + destruct (snapLoop_spec (Store.centroid face) refUp C RU
                  (Store.verts face) VS h None refUp RU Hvs Hc Hr Hr)
        as (ext & best' & lu' & Hrun & Hl & _).
      exists ext, lu'. unfold bind, ret. rewrite Hrun. cbn [snd]. done.
    + exists [], refUp. unfold ret. rewrite app_nil_r. done.
Qed.

Lemma basisQuat_spec (h : Heap) (faceUp n : Loc) (U N : Vector3) :
  h !! faceUp = Some U -> h !! n = Some N ->
  exists ext, Store.basisQuat faceUp n h = (basisQuat U N, h ++ ext).
Proof.
  intros Hu Hn.
  assert (E : exists ext, Store.basisQuat faceUp n (h ++ [])
                          = (basisQuat U N, h ++ ext));
    [|by rewrite app_nil_r in E].
  unfold Store.basisQuat, basisQuat. store_unfold. store_run.
  eexists. reflexivity.
Qed.

Lemma faceIn_values (h : Heap) (face : Store.FaceObj) :
  faceIn h face ->
  h !! Store.centroid face = Some (centroid (Store.faceOf h face))
  /\ h !! Store.normal face = Some (normal (Store.faceOf h face))
  /\ Forall2 (fun l v => h !! l = Some v) (Store.verts face)
       (verts (Store.faceOf h face)).
Proof.
  intros (Hc & Hn & Hv). unfold Store.faceOf. cbn [centroid normal verts].
  apply lookup_lt_is_Some in Hc as [c Hc]. apply lookup_lt_is_Some in Hn as [n Hn].
  rewrite Hc, Hn. split; [done|]. split; [done|].
  apply Forall2_fmap_r, Forall_Forall2_diag.
  eapply Forall_impl; [exact Hv|]. intros l Hl.
  apply lookup_lt_is_Some in Hl as [v Hl]. unfold compose. by rewrite Hl.
Qed.

(** The store-passing [faceSettleQuat] computes the quaternion of the
    functional one and only appends cells to the store. *)
Lemma faceSettleQuat_store (h : Heap) (face : Store.FaceObj) (sides : Z) :
  faceIn h face ->
  exists ext,
    Store.faceSettleQuat face sides h
    = (faceSettleQuat (Store.faceOf h face) sides, h ++ ext).
Proof.
  intros Hin. destruct (faceIn_values h face Hin) as (Hc & Hn & Hvs).
  set (f := Store.faceOf h face) in *.
  unfold Store.faceSettleQuat, faceSettleQuat, faceUpOf, bind.
  destruct (normalOf_spec h face _ Hn) as (e1 & n & -> & Hn1).
  destruct (refUpOf_spec (h ++ e1) n _ Hn1) as (e2 & refUp & -> & Hr2).
  assert (Hmono : forall (l : Loc) (x : Vector3) (g e : Heap),
            g !! l = Some x -> (g ++ e) !! l = Some x).
  { intros l x g e Hl. by apply lookup_app_Some. }
  assert (Hvs2 : Forall2 (fun l v => ((h ++ e1) ++ e2) !! l = Some v)
                   (Store.verts face) (verts f)).
  { eapply Forall2_impl; [exact Hvs|]. intros l x Hl. by do 2 apply Hmono. }
  destruct (faceUpOf_spec ((h ++ e1) ++ e2) face sides n refUp _ _ _ _
              (Hmono _ _ _ _ (Hmono _ _ _ _ Hc)) Hvs2
              (Hmono _ _ _ _ Hn1) Hr2) as (e3 & faceUp & -> & Hu3).
  destruct (basisQuat_spec (((h ++ e1) ++ e2) ++ e3) faceUp n _ _ Hu3
              (Hmono _ _ _ _ (Hmono _ _ _ _ Hn1))) as (e4 & ->).
  exists (e1 ++ e2 ++ e3 ++ e4). by rewrite !app_assoc.
Qed.

(** * settleQuat *)

Lemma faceOf_app (h ext : Heap) (f : Store.FaceObj) :
  faceIn h f -> Store.faceOf (h ++ ext) f = Store.faceOf h f.
Proof.
  intros (Hc & Hn & Hv). unfold Store.faceOf.
  rewrite !lookup_app_l by done. f_equal.
  apply Forall_fmap_ext. eapply Forall_impl; [exact Hv|].
  intros l Hl. cbn beta. by rewrite lookup_app_l.
Qed.

(** C6. [settleQuat] never throws.  It returns [null], leaving the store as
    it is, when the mesh has no [userData.faces] or no
    [userData.numberToFace], when the requested value has no entry in
    [numberToFace], and when its entry is not an index of [faces].  When it
    returns a quaternion, every vector that was in the store is unchanged:
    the store has only grown, and every face of the mesh reads as before. *)
Theorem settleQuat_null_or_unchanged (h : Heap) (mesh : Store.Mesh)
        (result sides : Z) :
  meshIn h mesh ->
  (Store.faces (Store.userData mesh) = None
   \/ Store.numberToFace (Store.userData mesh) = None
   \/ (exists ntf, Store.numberToFace (Store.userData mesh) = Some ntf
                   /\ ntf !! result = None)
   \/ (exists fs ntf fi,
         Store.faces (Store.userData mesh) = Some fs
         /\ Store.numberToFace (Store.userData mesh) = Some ntf
         /\ ntf !! result = Some fi
         /\ (fi < 0 \/ fi >= Z.of_nat (length fs))%Z) ->
   Store.settleQuat mesh result sides h = (Store.Return None, h))
  /\ (Store.settleQuat mesh result sides h).1 <> Store.Throw
  /\ (forall q, (Store.settleQuat mesh result sides h).1 = Store.Return (Some q) ->
        exists ext,
          (Store.settleQuat mesh result sides h).2 = h ++ ext
          /\ forall fs, Store.faces (Store.userData mesh) = Some fs ->
               Forall (fun f => Store.faceOf (h ++ ext) f = Store.faceOf h f) fs).
Proof.
  intros Hmesh. unfold Store.settleQuat.
  destruct (Store.faces (Store.userData mesh)) as [fs|] eqn:Hfs;
    [|split; [done | split; [done | by intros q [=]]]].
  destruct (Store.numberToFace (Store.userData mesh)) as [ntf|] eqn:Hntf;
    [|split; [done | split; [done | by intros q [=]]]].
  destruct (ntf !! result) as [fi|] eqn:Hfi;
    [|split; [done | split; [done | by intros q [=]]]].
  destruct (decide (fi < 0 \/ fi >= Z.of_nat (length fs))%Z) as [Hout | Hin];
    [split; [done | split; [done | by intros q [=]]]|].
  assert (Hlt : (Z.to_nat fi < length fs)%nat) by lia.
  apply lookup_lt_is_Some in Hlt as [face Hface]. rewrite Hface.
  pose proof (Hmesh fs Hfs) as Hall.
  assert (Hfin : faceIn h face).
  { rewrite Forall_lookup in Hall. eauto. }
  destruct (faceSettleQuat_store h face sides Hfin) as (ext & Hrun).
  unfold bind, ret. rewrite Hrun. cbn [fst snd].
  split; [|split; [done|]].
  - intros [H | [H | [(ntf' & H & Hnone) | (fs' & ntf' & fi' & H1 & H2 & Hfi' & Hout)]]].
    + discriminate H.
    + discriminate H.
    + injection H as <-. congruence.
    + injection H1 as <-. injection H2 as <-.
      rewrite Hfi in Hfi'. injection Hfi' as <-. lia.
  - intros q _. exists ext. split; [done|].
    intros fs' [= <-].
    eapply Forall_impl; [exact Hall|]. intros f Hf. by apply faceOf_app.
Qed.

Lemma sampleMesh_in : meshIn sampleHeap sampleMesh.
Proof.
  intros fs [= <-]. repeat constructor; cbn; lia.
Qed.

Lemma settleQuat_null_or_unchanged_witness :
  meshIn sampleHeap sampleMesh
  /\ Store.settleQuat sampleMesh 0 4 sampleHeap = (Store.Return None, sampleHeap)
  /\ (Store.settleQuat sampleMesh 1 4 sampleHeap).1 <> Store.Throw.
Proof.
  split; [exact sampleMesh_in|].
  destruct (settleQuat_null_or_unchanged sampleHeap sampleMesh 0 4 sampleMesh_in)
    as (Hnull & _ & _).
  destruct (settleQuat_null_or_unchanged sampleHeap sampleMesh 1 4 sampleMesh_in)
    as (_ & Hthrow & _).
  split; [|exact Hthrow].
  apply Hnull. right. right. left. exists {[ 1%Z := 0%Z ]}. split; [reflexivity|].
  reflexivity.
Defined.

(** * Face extractor *)

(** ** The cluster normals are pairwise apart *)

Lemma insertTriangle_normals (n : Vector3) (abc : list Vector3) (cls : list Cluster) :
  cnormal <$> insertTriangle n abc cls = joinNormal (cnormal <$> cls) n.
Proof.
  unfold joinNormal. induction cls as [|cl cls IH]; cbn.
  - rewrite decide_False; [done|]. by intros H%Exists_nil.
  - destruct (decide (V3.dot (cnormal cl) n > 0.999)) as [Hnear | Hfar].
    + rewrite decide_True; [done|]. by apply Exists_cons_hd.
    + cbn. rewrite IH. destruct (decide (Exists _ (cnormal <$> cls))) as [He | Hne].
      * rewrite decide_True; [done|]. by apply Exists_cons_tl.
      * rewrite decide_False; [done|].
        intros [H | H]%Exists_cons; [by apply Hfar | by apply Hne].
Qed.

Lemma clustersOf_normals (pos : list Vector3) :
  cnormal <$> clustersOf pos
  = foldl joinNormal [] (outwardNormal <$> trianglesOf pos).
Proof.
  unfold clustersOf. generalize (trianglesOf pos). intros ts.
  change (@nil Vector3) with (cnormal <$> @nil Cluster).
  generalize (@nil Cluster).
  induction ts as [|[[a b] c] ts IH]; intros cls; [done|].
  cbn [foldl fmap list_fmap]. rewrite IH. f_equal.
  unfold clusterStep. apply insertTriangle_normals.
Qed.

Lemma joinNormal_separated (cs : list Vector3) (n : Vector3) :
  separated cs -> separated (joinNormal cs n).
Proof.
  unfold separated, joinNormal. intros Hs.
  destruct (decide _) as [|Hne]; [done|].
  apply StronglySorted_app. split; [|split; [done | repeat constructor]].
  intros a b Ha Hb Hnear. apply list_elem_of_singleton in Hb as ->.
  apply Hne, Exists_exists. by exists a.
Qed.

Lemma foldl_joinNormal_separated (ns cs : list Vector3) :
  separated cs -> separated (foldl joinNormal cs ns).
Proof.
  revert cs. induction ns as [|n ns IH]; intros cs Hs; [done|].
  cbn. by apply IH, joinNormal_separated.
Qed.

Lemma near_sym (a b : Vector3) : near a b -> near b a.
Proof. unfold near. by rewrite dot_comm. Qed.

Lemma separated_Permutation (l1 l2 : list Vector3) :
  l1 ≡ₚ l2 -> separated l1 -> separated l2.
Proof.
  unfold separated.
  induction 1 as [|x l1 l2 Hp IH|x y l|l1 l2 l3 _ IH1 _ IH2]; intros Hs.
  - done.
  - apply StronglySorted_cons in Hs as [Hall Hs].
    apply StronglySorted_cons. split; [by rewrite <- Hp | by apply IH].
  - apply StronglySorted_cons in Hs as [Hally Hs].
    apply StronglySorted_cons in Hs as [Hallx Hs].
    apply Forall_cons in Hally as [Hyx Hally].
    apply StronglySorted_cons. split.
    + apply Forall_cons. split; [|done]. intros H. by apply Hyx, near_sym.
    + by apply StronglySorted_cons.
  - by apply IH2, IH1.
Qed.

Lemma separated_lookup (cs : list Vector3) (i j : nat) (a b : Vector3) :
  separated cs -> i <> j -> cs !! i = Some a -> cs !! j = Some b -> ~ near a b.
Proof.
  intros Hs Hij Ha Hb.
  destruct (decide (i < j)%nat) as [Hlt | Hge].
  - exact (StronglySorted_lookup_le _ _ Hs i j a b Hlt Ha Hb).
  - intros H. apply near_sym in H. revert H.
    apply (StronglySorted_lookup_le _ _ Hs j i b a); [lia | done | done].
Qed.

Lemma sortInsertCluster_perm (cl : Cluster) (l : list Cluster) :
  sortInsertCluster cl l ≡ₚ cl :: l.
Proof.
  induction l as [|q l IH]; cbn; [done|].
  destruct (decide _); [|done]. rewrite IH. apply Permutation_swap.
Qed.

Lemma sortClusters_perm (l : list Cluster) : sortClusters l ≡ₚ l.
Proof.
  induction l as [|cl l IH]; cbn; [done|].
  rewrite sortInsertCluster_perm. by rewrite IH.
Qed.

Lemma clusteredFaces_normals (pos : list Vector3) :
  normal <$> clusteredFaces pos
  ≡ₚ foldl joinNormal [] (outwardNormal <$> trianglesOf pos).
Proof.
  unfold clusteredFaces. rewrite <- list_fmap_compose.
  rewrite <- clustersOf_normals.
  change (normal ∘ clusterFace) with cnormal.
  by rewrite sortClusters_perm.
Qed.

(** For a geometry that is not indexed, no two faces have normals within
    the tolerance, whatever the geometry. *)
Lemma clusteredFaces_distinct (pos : list Vector3) :
  distinctNormals (clusteredFaces pos).
Proof.
  assert (Hs : separated (normal <$> clusteredFaces pos)).
  { eapply separated_Permutation; [symmetry; apply clusteredFaces_normals|].
    apply foldl_joinNormal_separated. constructor. }
  intros i j f g Hij Hf Hg.
  apply (separated_lookup _ i j _ _ Hs Hij); by rewrite list_lookup_fmap, ?Hf, ?Hg.
Qed.

Lemma indexedFaces_length (pos : list Vector3) (idx : list nat) (numFaces : nat) :
  length (indexedFaces pos idx numFaces) = numFaces.
Proof. unfold indexedFaces. by rewrite length_fmap, length_seq. Qed.

(** * The faces of the D10 *)

(** ** More vector algebra *)

Lemma dot_add_r (w a b : Vector3) :
  V3.dot w (V3.add a b) = V3.dot w a + V3.dot w b.
Proof. unfold V3.dot, V3.add. cbn. ring. Qed.

Lemma add_zero_l (a : Vector3) : V3.add V3.zero a = a.
Proof. unfold V3.add, V3.zero. destruct a. cbn. f_equal; ring. Qed.

Lemma length_scale (v : Vector3) (k : R) :
  0 <= k -> V3.length (V3.multiplyScalar v k) = k * V3.length v.
Proof.
  intros Hk. unfold V3.length, V3.multiplyScalar. cbn.
  replace (vx v * k * (vx v * k) + vy v * k * (vy v * k) + vz v * k * (vz v * k))
    with (k * k * (vx v * vx v + vy v * vy v + vz v * vz v)) by ring.
  rewrite sqrt_mult; [| nra | apply (dot_self_nonneg v)].
  by rewrite sqrt_square.
Qed.

Lemma normalize_scale (v : Vector3) (k : R) :
  0 < k -> V3.normalize (V3.multiplyScalar v k) = V3.normalize v.
Proof.
  intros Hk. unfold V3.normalize. rewrite length_scale by lra.
  pose proof (length_nonneg v) as Hl.
  destruct (decide (V3.length v = 0)) as [E | Hne].
  - rewrite E, Rmult_0_r. rewrite decide_True by done.
    apply length_zero_iff in E. subst v.
    unfold V3.divideScalar, V3.multiplyScalar, V3.zero. cbn. f_equal; ring.
  - rewrite decide_False by nra.
    unfold V3.divideScalar, V3.multiplyScalar. cbn. f_equal; field; split; lra.
Qed.


(** A normalized vector points the way the vector does. *)
Lemma normalize_dot_nonneg (w x : Vector3) (k : R) :
  0 <= V3.dot w x -> 0 < k ->
  ~ V3.dot (V3.normalize w) (V3.divideScalar x k) < 0.
Proof.
  intros Hd Hk. unfold V3.normalize.
  set (l := if decide (V3.length w = 0) then 1 else V3.length w).
  assert (Hl : 0 < l).
  { unfold l. pose proof (length_nonneg w). destruct (decide _); lra. }
  assert (E : V3.dot (V3.divideScalar w l) (V3.divideScalar x k)
              = V3.dot w x * (/ l * / k)).
  { unfold V3.dot, V3.divideScalar, V3.multiplyScalar. cbn. field. split; lra. }
  rewrite E. apply Rle_not_lt, Rmult_le_pos; [done|].
  apply Rmult_le_pos; left; by apply Rinv_0_lt_compat.
Qed.

(** The dot product of two normalized vectors of the same length. *)
Lemma normalize_dot (a b : Vector3) (d2 : R) :
  0 < d2 -> V3.dot a a = d2 -> V3.dot b b = d2 ->
  V3.dot (V3.normalize a) (V3.normalize b) = V3.dot a b / d2.
Proof.
  intros Hd Ha Hb.
  assert (Hla : V3.length a * V3.length a = d2) by by rewrite length_sq.
  assert (Hlb : V3.length b * V3.length b = d2) by by rewrite length_sq.
  pose proof (length_nonneg a). pose proof (length_nonneg b).
  assert (Hab : V3.length a = V3.length b) by nra.
  unfold V3.normalize. rewrite !decide_False by nra.
  unfold V3.dot, V3.divideScalar, V3.multiplyScalar. cbn.
  rewrite <- Hab. rewrite <- Hla. field. nra.
Qed.

(** ** The kite algebra *)

(** The cross product of the kite lemma, up to the factor [r sin th]. *)
Lemma kite_cross_value (Y0 y1 y2 r al th : R) :
  y2 - Y0 = cos th * (y1 - Y0) ->
  let P0 := Vec3 0 Y0 0 in
  let M := Vec3 (r * cos al) y1 (r * sin al) in
  let A := Vec3 (r * cos (al - th)) y2 (r * sin (al - th)) in
  V3.cross (V3.sub A P0) (V3.sub M P0)
  = V3.multiplyScalar (Vec3 ((y1 - Y0) * cos al) (- r) ((y1 - Y0) * sin al))
      (r * sin th).
Proof.
  intros Hy. cbn zeta. rewrite cos_minus, sin_minus.
  pose proof (sin2_cos2 al) as Hal. unfold Rsqr in Hal.
  unfold V3.cross, V3.sub, V3.multiplyScalar. cbn.
  revert Hy Hal. generalize (cos al), (sin al), (cos th), (sin th).
  intros C S c s Hy Hal. f_equal; nsatz.
Qed.

Lemma dot_w_pole (P ry al Y0 : R) :
  V3.dot (Vec3 (P * cos al) ry (P * sin al)) (Vec3 0 Y0 0) = ry * Y0.
Proof. unfold V3.dot. cbn. ring. Qed.

Lemma dot_w_middle (P ry r y1 al : R) :
  V3.dot (Vec3 (P * cos al) ry (P * sin al)) (Vec3 (r * cos al) y1 (r * sin al))
  = P * r + ry * y1.
Proof.
  pose proof (sin2_cos2 al) as Hal. unfold Rsqr in Hal.
  unfold V3.dot. cbn. nsatz.
Qed.

Lemma dot_w_wing_minus (P ry r y2 al th : R) :
  V3.dot (Vec3 (P * cos al) ry (P * sin al))
         (Vec3 (r * cos (al - th)) y2 (r * sin (al - th)))
  = P * r * cos th + ry * y2.
Proof.
  pose proof (sin2_cos2 al) as Hal. unfold Rsqr in Hal.
  rewrite cos_minus, sin_minus. unfold V3.dot. cbn. nsatz.
Qed.

Lemma dot_w_wing_plus (P ry r y2 al th : R) :
  V3.dot (Vec3 (P * cos al) ry (P * sin al))
         (Vec3 (r * cos (al + th)) y2 (r * sin (al + th)))
  = P * r * cos th + ry * y2.
Proof.
  pose proof (sin2_cos2 al) as Hal. unfold Rsqr in Hal.
  rewrite cos_plus, sin_plus. unfold V3.dot. cbn. nsatz.
Qed.

(** Two directions of the same elevation: their dot product. *)
Lemma dot_w_w (P ry ry' al al' : R) :
  V3.dot (Vec3 (P * cos al) ry (P * sin al))
         (Vec3 (P * cos al') ry' (P * sin al'))
  = P * P * cos (al - al') + ry * ry'.
Proof. rewrite cos_minus. unfold V3.dot. cbn. ring. Qed.

(** ** The solid for a positive radius *)

Section D10Faces.

Variable radius : R.
Hypothesis radius_pos : 0 < radius.

Lemma sin_PI5_pos : 0 < sin (PI / 5).
Proof. apply sin_gt_0; pose proof PI_RGT_0; lra. Qed.

Lemma d10h_bounds : 0 <= d10h radius <= radius.
Proof.
  unfold d10h, d10H. pose proof cos_PI5_pos as Hc.
  pose proof (COS_bound (PI / 5)) as [_ Hc1].
  assert (E : radius * (1 - cos (PI / 5)) / (1 + cos (PI / 5))
              = radius * ((1 - cos (PI / 5)) * / (1 + cos (PI / 5))))
    by (field; lra).
  rewrite E.
  assert (Hinv : 0 < / (1 + cos (PI / 5))) by (apply Rinv_0_lt_compat; lra).
  assert (Hq : 0 <= (1 - cos (PI / 5)) * / (1 + cos (PI / 5)) <= 1).
  { split; [apply Rmult_le_pos; lra|].
    apply (Rmult_le_reg_r (1 + cos (PI / 5))); [lra|].
    rewrite Rmult_assoc, Rinv_l by lra. lra. }
  nra.
Qed.

Lemma d10r_pos : 0 < d10r radius.
Proof. unfold d10r. lra. Qed.

Lemma d10W2_pos : 0 < d10W2 radius.
Proof.
  unfold d10W2. pose proof d10r_pos as Hr.
  pose proof (Rmult_lt_0_compat _ _ Hr Hr).
  pose proof (Rle_0_sqr (d10h radius + d10H radius)) as Hs. unfold Rsqr in Hs.
  lra.
Qed.

Lemma d10TopW_norm k : V3.dot (d10TopW radius k) (d10TopW radius k) = d10W2 radius.
Proof.
  unfold d10TopW. rewrite dot_w_w, Rminus_diag, cos_0. unfold d10W2. ring.
Qed.

Lemma d10BotW_norm k : V3.dot (d10BotW radius k) (d10BotW radius k) = d10W2 radius.
Proof.
  unfold d10BotW. cbn zeta. rewrite dot_w_w, Rminus_diag, cos_0.
  unfold d10W2. ring.
Qed.

Lemma d10TopW_nonzero k : d10TopW radius k <> V3.zero.
Proof.
  intros E. pose proof (d10TopW_norm k) as H. rewrite E in H.
  pose proof d10W2_pos. unfold V3.dot in H. cbn in H. lra.
Qed.

Lemma d10BotW_nonzero k : d10BotW radius k <> V3.zero.
Proof.
  intros E. pose proof (d10BotW_norm k) as H. rewrite E in H.
  pose proof d10W2_pos. unfold V3.dot in H. cbn in H. lra.
Qed.

(** [outwardNormal] of a triangle whose cross product is a positive multiple
    of [w], when [w] points away from the origin at the triangle. *)
Lemma outwardNormal_of (a b c w : Vector3) (k : R) :
  0 < k ->
  V3.cross (V3.sub b a) (V3.sub c a) = V3.multiplyScalar w k ->
  0 <= V3.dot w a + V3.dot w b + V3.dot w c ->
  outwardNormal (a, b, c) = V3.normalize w.
Proof.
  intros Hk Hcross Hdot. unfold outwardNormal. rewrite Hcross.
  rewrite normalize_scale by done.
  rewrite decide_False; [done|].
  apply normalize_dot_nonneg; [|lra].
  rewrite add_zero_l, !dot_add_r. lra.
Qed.

Lemma d10_scale_pos : 0 < d10r radius * sin (PI / 5).
Proof. apply Rmult_lt_0_compat; [apply d10r_pos | apply sin_PI5_pos]. Qed.

Lemma d10_outward_sum_pos :
  0 <= d10r radius * d10H radius
       + (d10h radius + d10H radius) * d10r radius * (1 + cos (PI / 5)).
Proof.
  pose proof d10r_pos. pose proof d10h_bounds. pose proof cos_PI5_pos.
  unfold d10H. apply Rplus_le_le_0_compat; [nra|].
  apply Rmult_le_pos; [apply Rmult_le_pos|]; lra.
Qed.

Lemma d10Upper_as_minus k :
  d10Upper radius k
  = Vec3 (d10r radius * cos (d10aL k - PI / 5)) (d10h radius)
         (d10r radius * sin (d10aL k - PI / 5)).
Proof.
  unfold d10Upper. by replace (d10aL k - PI / 5) with (d10aU k)
    by (unfold d10aL; lra).
Qed.

Lemma d10Upper_next_as_plus k :
  (k < 5)%nat ->
  d10Upper radius ((k + 1) mod 5)
  = Vec3 (d10r radius * cos (d10aL k + PI / 5)) (d10h radius)
         (d10r radius * sin (d10aL k + PI / 5)).
Proof.
  intros Hk. destruct (d10_next_angle k Hk) as (Hc & Hs & _ & _).
  unfold d10Upper. by rewrite Hc, Hs.
Qed.

Lemma d10Lower_as_minus k :
  (k < 5)%nat ->
  d10Lower radius k
  = Vec3 (d10r radius * cos (d10aU ((k + 1) mod 5) - PI / 5)) (- d10h radius)
         (d10r radius * sin (d10aU ((k + 1) mod 5) - PI / 5)).
Proof.
  intros Hk. destruct (d10_next_angle k Hk) as (_ & _ & Hc & Hs).
  unfold d10Lower. by rewrite Hc, Hs.
Qed.

Lemma d10_top_cross k :
  triangleCross (d10Top radius, d10Lower radius k, d10Upper radius k)
  = V3.multiplyScalar (d10TopW radius k) (d10r radius * sin (PI / 5)).
Proof.
  pose proof (kite_cross_value (d10H radius) (- d10h radius) (d10h radius)
                (d10r radius) (d10aL k) (PI / 5)
                (d10_height_condition radius)) as Hv.
  cbn zeta in Hv. rewrite <- d10Upper_as_minus in Hv.
  fold (d10Top radius) (d10Lower radius k) in Hv.
  cbn [triangleCross]. rewrite cross_anti, Hv.
  unfold d10TopW, V3.negate, V3.multiplyScalar. cbn. f_equal; ring.
Qed.

Lemma d10_bot_cross k :
  (k < 5)%nat ->
  triangleCross (d10Bot radius, d10Lower radius k,
                 d10Upper radius ((k + 1) mod 5))
  = V3.multiplyScalar (d10BotW radius k) (d10r radius * sin (PI / 5)).
Proof.
  intros Hk.
  assert (Hcond : - d10h radius - - d10H radius
                  = cos (PI / 5) * (d10h radius - - d10H radius)).
  { pose proof (d10_height_condition radius). lra. }
  pose proof (kite_cross_value (- d10H radius) (d10h radius) (- d10h radius)
                (d10r radius) (d10aU ((k + 1) mod 5)) (PI / 5) Hcond) as Hv.
  cbn zeta in Hv. rewrite <- d10Lower_as_minus in Hv by done.
  fold (d10Bot radius) (d10Upper radius ((k + 1) mod 5)) in Hv.
  cbn [triangleCross]. rewrite Hv.
  unfold d10BotW, V3.multiplyScalar. cbn. f_equal; ring.
Qed.

Lemma d10_outward_top1 k :
  outwardNormal (d10Top radius, d10Lower radius k, d10Upper radius k)
  = V3.normalize (d10TopW radius k).
Proof.
  apply (outwardNormal_of _ _ _ _ _ d10_scale_pos (d10_top_cross k)).
  rewrite d10Upper_as_minus. unfold d10TopW, d10Top, d10Lower.
  rewrite dot_w_pole, dot_w_middle, dot_w_wing_minus.
  pose proof d10_outward_sum_pos. lra.
Qed.

Lemma d10_outward_top2 k :
  (k < 5)%nat ->
  outwardNormal (d10Top radius, d10Upper radius ((k + 1) mod 5),
                 d10Lower radius k)
  = V3.normalize (d10TopW radius k).
Proof.
  intros Hk.
  destruct (d10TopKite_planar radius k Hk) as (_ & _ & Heq & _).
  cbn [d10TopKite fst snd] in Heq. rewrite d10_top_cross in Heq.
  apply (outwardNormal_of _ _ _ _ _ d10_scale_pos (eq_sym Heq)).
  rewrite d10Upper_next_as_plus by done. unfold d10TopW, d10Top, d10Lower.
  rewrite dot_w_pole, dot_w_middle, dot_w_wing_plus.
  pose proof d10_outward_sum_pos. lra.
Qed.

Lemma d10_outward_bot1 k :
  (k < 5)%nat ->
  outwardNormal (d10Bot radius, d10Lower radius k,
                 d10Upper radius ((k + 1) mod 5))
  = V3.normalize (d10BotW radius k).
Proof.
  intros Hk.
  apply (outwardNormal_of _ _ _ _ _ d10_scale_pos (d10_bot_cross k Hk)).
  rewrite d10Lower_as_minus by done. unfold d10BotW, d10Bot, d10Upper.
  rewrite dot_w_pole, dot_w_middle, dot_w_wing_minus.
  pose proof d10_outward_sum_pos. lra.
Qed.

Lemma d10_outward_bot2 k :
  (k < 5)%nat ->
  outwardNormal (d10Bot radius, d10Upper radius ((k + 1) mod 5),
                 d10Lower radius ((k + 1) mod 5))
  = V3.normalize (d10BotW radius k).
Proof.
  intros Hk.
  destruct (d10BotKite_planar radius k Hk) as (_ & _ & Heq & _).
  cbn [d10BotKite fst snd] in Heq. rewrite d10_bot_cross in Heq by done.
  apply (outwardNormal_of _ _ _ _ _ d10_scale_pos (eq_sym Heq)).
  unfold d10BotW, d10Bot, d10Upper. unfold d10Lower at 1. unfold d10aL.
  rewrite dot_w_pole, dot_w_middle, dot_w_wing_plus.
  pose proof d10_outward_sum_pos. lra.
Qed.

End D10Faces.

(** ** The cosines of the multiples of 72 degrees *)

Lemma cos_PI5_equation : 4 * (cos (PI / 5) * cos (PI / 5)) - 2 * cos (PI / 5) - 1 = 0.
Proof.
  pose proof (sin_PI_x (2 * (PI / 5))) as H.
  replace (PI - 2 * (PI / 5)) with (2 * (PI / 5) + PI / 5) in H by field.
  rewrite sin_plus, sin_2a, cos_2a_cos in H.
  pose proof sin_PI5_pos as Hs.
  assert (E : sin (PI / 5)
              * (4 * (cos (PI / 5) * cos (PI / 5)) - 2 * cos (PI / 5) - 1) = 0)
    by (rewrite <- (Rminus_diag (2 * sin (PI / 5) * cos (PI / 5))); rewrite <- H at 1; ring).
  apply Rmult_integral in E as [E | E]; [lra | exact E].
Qed.

Lemma cos_PI5_bounds : 0.8 < cos (PI / 5) < 0.81.
Proof.
  pose proof cos_PI5_equation as E. pose proof cos_PI5_pos as Hp.
  split; nra.
Qed.

(** [cos (m * 72°)] for [m] = 1, 2, 3, 4 is below 0.31. *)
Lemma cos_fifth_1 : cos (2 * (PI / 5)) <= 0.31.
Proof.
  rewrite cos_2a_cos. pose proof cos_PI5_equation. pose proof cos_PI5_bounds.
  nra.
Qed.

Lemma cos_fifth_2 : cos (4 * (PI / 5)) <= 0.31.
Proof.
  replace (4 * (PI / 5)) with (PI - PI / 5) by field.
  rewrite cos_minus, cos_PI, sin_PI. pose proof cos_PI5_bounds. lra.
Qed.

Lemma cos_fifth_3 : cos (6 * (PI / 5)) <= 0.31.
Proof.
  replace (6 * (PI / 5)) with (PI + PI / 5) by field.
  rewrite cos_plus, cos_PI, sin_PI. pose proof cos_PI5_bounds. lra.
Qed.

Lemma cos_fifth_4 : cos (8 * (PI / 5)) <= 0.31.
Proof.
  replace (8 * (PI / 5)) with (2 * PI - 2 * (PI / 5)) by field.
  rewrite cos_minus, cos_2PI, sin_2PI. pose proof cos_fifth_1. lra.
Qed.

Lemma cos_fifths (a b : nat) :
  (a < 5)%nat -> (b < 5)%nat -> a <> b ->
  cos ((INR a - INR b) * (2 * (PI / 5))) <= 0.31.
Proof.
  intros Ha Hb Hab.
  assert (Hcases : exists m : R,
            (m = 2 \/ m = 4 \/ m = 6 \/ m = 8)
            /\ ((INR a - INR b) * (2 * (PI / 5)) = m * (PI / 5)
                \/ (INR a - INR b) * (2 * (PI / 5)) = - (m * (PI / 5)))).
  { assert (Ha' : (a = 0 \/ a = 1 \/ a = 2 \/ a = 3 \/ a = 4)%nat) by lia.
    assert (Hb' : (b = 0 \/ b = 1 \/ b = 2 \/ b = 3 \/ b = 4)%nat) by lia.
    destruct Ha' as [-> | [-> | [-> | [-> | ->]]]];
      destruct Hb' as [-> | [-> | [-> | [-> | ->]]]];
      try lia; cbn [INR];
      first [ exists 2; split; [tauto|]; first [left; field | right; field]
            | exists 4; split; [tauto|]; first [left; field | right; field]
            | exists 6; split; [tauto|]; first [left; field | right; field]
            | exists 8; split; [tauto|]; first [left; field | right; field] ]. }
  destruct Hcases as (m & Hm & [-> | ->]); rewrite ?cos_neg;
    destruct Hm as [-> | [-> | [-> | ->]]];
    [ apply cos_fifth_1 | apply cos_fifth_2 | apply cos_fifth_3 | apply cos_fifth_4
    | apply cos_fifth_1 | apply cos_fifth_2 | apply cos_fifth_3 | apply cos_fifth_4 ].
Qed.

(** ** The ten normals are further apart than the tolerance *)

Section D10Separation.

Variable radius : R.
Hypothesis radius_pos : 0 < radius.

Abbreviation P := (d10h radius + d10H radius).

Lemma d10_P_bounds : radius <= P <= 2 * radius.
Proof. pose proof (d10h_bounds radius radius_pos). unfold d10H. lra. Qed.

Lemma d10_same_side (al al' : R) (ry : R) :
  ry * ry = d10r radius * d10r radius ->
  cos (al - al') <= 0.31 ->
  (P * P * cos (al - al') + ry * ry) / d10W2 radius <= 0.999.
Proof.
  intros Hry Hcos. pose proof (d10W2_pos radius radius_pos) as Hw.
  apply (Rmult_le_reg_r (d10W2 radius)); [done|].
  unfold Rdiv. rewrite Rmult_assoc, Rinv_l by lra. rewrite Rmult_1_r.
  unfold d10W2 in *. rewrite Hry.
  pose proof d10_P_bounds as HP. unfold d10r in *.
  assert (HPP : radius * radius <= P * P) by nra.
  assert (P * P * cos (al - al') <= P * P * 0.31) by (apply Rmult_le_compat_l; nra).
  nra.
Qed.

Lemma d10_other_side (al al' : R) :
  (P * P * cos (al - al') + d10r radius * - d10r radius) / d10W2 radius <= 0.999.
Proof.
  pose proof (d10W2_pos radius radius_pos) as Hw.
  apply (Rmult_le_reg_r (d10W2 radius)); [done|].
  unfold Rdiv. rewrite Rmult_assoc, Rinv_l by lra. rewrite Rmult_1_r.
  unfold d10W2 in *.
  pose proof d10_P_bounds as HP. unfold d10r in *.
  pose proof (COS_bound (al - al')) as [_ Hc].
  assert (HPP : 0 <= P * P) by nra.
  assert (P * P * cos (al - al') <= P * P * 1) by (apply Rmult_le_compat_l; lra).
  assert (P * P <= 4 * (radius * radius)) by nra.
  nra.
Qed.

Lemma d10_top_top k k' :
  (k < 5)%nat -> (k' < 5)%nat -> k <> k' ->
  V3.dot (V3.normalize (d10TopW radius k)) (V3.normalize (d10TopW radius k'))
  <= 0.999.
Proof.
  intros Hk Hk' Hne.
  rewrite (normalize_dot _ _ (d10W2 radius));
    [| by apply d10W2_pos | by apply d10TopW_norm | by apply d10TopW_norm].
  unfold d10TopW. rewrite dot_w_w. apply d10_same_side; [done|].
  replace (d10aL k - d10aL k') with ((INR k - INR k') * (2 * (PI / 5)))
    by (unfold d10aL, d10aU; field).
  by apply cos_fifths.
Qed.

Lemma d10_bot_bot k k' :
  (k < 5)%nat -> (k' < 5)%nat -> k <> k' ->
  V3.dot (V3.normalize (d10BotW radius k)) (V3.normalize (d10BotW radius k'))
  <= 0.999.
Proof.
  intros Hk Hk' Hne.
  rewrite (normalize_dot _ _ (d10W2 radius));
    [| by apply d10W2_pos | by apply d10BotW_norm | by apply d10BotW_norm].
  unfold d10BotW. cbn zeta. rewrite dot_w_w. apply d10_same_side; [ring|].
  replace (d10aU ((k + 1) mod 5) - d10aU ((k' + 1) mod 5))
    with ((INR ((k + 1) mod 5) - INR ((k' + 1) mod 5)) * (2 * (PI / 5)))
    by (unfold d10aU; field).
  apply cos_fifths; [apply Nat.mod_upper_bound; lia..|].
  intros E. apply Hne.
  assert (Hm : forall x, (x < 5)%nat ->
            ((x + 1) mod 5 = if decide (x = 4) then 0 else x + 1)%nat).
  { intros x Hx. destruct (decide (x = 4%nat)) as [-> | Hx4]; [done|].
    apply Nat.mod_small. lia. }
  rewrite (Hm k Hk), (Hm k' Hk') in E.
  destruct (decide (k = 4%nat)), (decide (k' = 4%nat)); lia.
Qed.

Lemma d10_top_bot k k' :
  V3.dot (V3.normalize (d10TopW radius k)) (V3.normalize (d10BotW radius k'))
  <= 0.999.
Proof.
  rewrite (normalize_dot _ _ (d10W2 radius));
    [| by apply d10W2_pos | by apply d10TopW_norm | by apply d10BotW_norm].
  unfold d10TopW, d10BotW. cbn zeta. rewrite dot_w_w. apply d10_other_side.
Qed.

Lemma d10_bot_top k k' :
  V3.dot (V3.normalize (d10BotW radius k)) (V3.normalize (d10TopW radius k'))
  <= 0.999.
Proof. rewrite dot_comm. apply d10_top_bot. Qed.

(** The normals of the list [d10Normals], by position. *)
Lemma d10Normals_lookup (i : nat) (n : Vector3) :
  d10Normals radius !! i = Some n ->
  exists k, (k < 5)%nat
    /\ ((i = 2 * k)%nat /\ n = V3.normalize (d10TopW radius k)
        \/ (i = 2 * k + 1)%nat /\ n = V3.normalize (d10BotW radius k)).
Proof.
  intros H.
  do 10 (destruct i as [|i];
         [injection H as <-;
          first [ exists 0%nat; split; [lia|]; first [left; split; [lia | reflexivity] | right; split; [lia | reflexivity]]
                | exists 1%nat; split; [lia|]; first [left; split; [lia | reflexivity] | right; split; [lia | reflexivity]]
                | exists 2%nat; split; [lia|]; first [left; split; [lia | reflexivity] | right; split; [lia | reflexivity]]
                | exists 3%nat; split; [lia|]; first [left; split; [lia | reflexivity] | right; split; [lia | reflexivity]]
                | exists 4%nat; split; [lia|]; first [left; split; [lia | reflexivity] | right; split; [lia | reflexivity]] ]|]).
  discriminate H.
Qed.

Lemma d10Normals_apart (i j : nat) (a b : Vector3) :
  i <> j -> d10Normals radius !! i = Some a -> d10Normals radius !! j = Some b ->
  V3.dot a b <= 0.999.
Proof.
  intros Hij Ha Hb.
  apply d10Normals_lookup in Ha as (k & Hk & [[-> ->] | [-> ->]]);
    apply d10Normals_lookup in Hb as (k' & Hk' & [[-> ->] | [-> ->]]).
  - apply d10_top_top; [done | done | lia].
  - apply d10_top_bot.
  - apply d10_bot_top.
  - apply d10_bot_bot; [done | done | lia].
Qed.

Lemma d10Normals_unit : Forall isUnit (d10Normals radius).
Proof.
  apply Forall_lookup. intros i n Hn.
  apply d10Normals_lookup in Hn as (k & _ & [[_ ->] | [_ ->]]);
    apply normalize_isUnit;
    [by apply d10TopW_nonzero | by apply d10BotW_nonzero].
Qed.

End D10Separation.

(** ** The normals of the twenty triangles *)

Lemma firstOccurrences_doubled `{EqDecision A} (l : list A) :
  NoDup l -> firstOccurrences (concat ((fun x => [x; x]) <$> l)) = l.
Proof.
  unfold firstOccurrences.
  assert (Hgen : forall seen : list A, NoDup (seen ++ l) ->
            foldl (fun seen i => if decide (i ∈ seen) then seen else seen ++ [i])
                  seen (concat ((fun x => [x; x]) <$> l)) = seen ++ l).
  { induction l as [|x l IH]; intros seen Hnd; [by rewrite app_nil_r|].
    cbn [fmap list_fmap concat app foldl].
    assert (Hx : x ∉ seen).
    { apply NoDup_app in Hnd as (_ & Hd & _). intros Hin.
      apply (Hd x Hin). left. }
    destruct (decide (x ∈ seen)) as [|_]; [done|].
    rewrite decide_True by (apply elem_of_app; right; left).
    rewrite IH; [by rewrite <- app_assoc|].
    by rewrite <- app_assoc. }
  intros Hnd. by rewrite Hgen.
Qed.

Lemma elem_of_doubled {A : Type} (l : list A) (x : A) :
  x ∈ concat ((fun x => [x; x]) <$> l) <-> x ∈ l.
Proof.
  induction l as [|y l IH]; [done|].
  cbn [fmap list_fmap concat app]. rewrite !elem_of_cons, IH. tauto.
Qed.

Section D10Solid.

Variable radius : R.
Hypothesis radius_pos : 0 < radius.

Lemma d10_triangle_normals (ks : list nat) :
  Forall (fun k => (k < 5)%nat) ks ->
  outwardNormal <$> trianglesOf (concat (d10Round radius <$> ks))
  = concat ((fun n => [n; n])
            <$> concat ((fun k => [V3.normalize (d10TopW radius k);
                                   V3.normalize (d10BotW radius k)]) <$> ks)).
Proof.
  induction 1 as [|k ks Hk _ IH]; [done|].
  cbn [fmap list_fmap concat]. unfold d10Round at 1.
  cbn [app trianglesOf fmap list_fmap concat]. rewrite IH.
  rewrite d10_outward_top1, d10_outward_top2, d10_outward_bot1,
    d10_outward_bot2 by done.
  reflexivity.
Qed.

Lemma d10_normals_of_verts :
  outwardNormal <$> trianglesOf (d10Verts radius)
  = concat ((fun n => [n; n]) <$> d10Normals radius).
Proof.
  apply d10_triangle_normals.
  apply Forall_forall. intros k Hk%elem_of_seq. lia.
Qed.

Lemma d10Normals_NoDup : NoDup (d10Normals radius).
Proof.
  apply NoDup_alt. intros i j n Hi Hj.
  destruct (decide (i = j)) as [|Hne]; [done|]. exfalso.
  pose proof (d10Normals_apart radius radius_pos i j n n Hne Hi Hj) as Hd.
  pose proof (d10Normals_unit radius radius_pos) as Hu.
  rewrite Forall_lookup in Hu. specialize (Hu i n Hi). unfold isUnit in Hu. lra.
Qed.

End D10Solid.

(** * Vectors that are moved a little *)

Lemma prod_bounds (x y a b : R) :
  - a <= x <= a -> - b <= y <= b -> - (a * b) <= x * y <= a * b.
Proof. intros Hx Hy. split; nra. Qed.

Lemma sq_le_bounds (x a : R) : 0 <= a -> x * x <= a * a -> - a <= x <= a.
Proof. intros Ha H. split; nra. Qed.

Lemma sub_within (δ : R) (a b a' b' : Vector3) :
  within δ a a' -> within δ b b' -> within (2 * δ) (V3.sub b a) (V3.sub b' a').
Proof.
  unfold within, V3.sub. cbn. intros (? & ? & ?) (? & ? & ?).
  repeat split; lra.
Qed.

Lemma sub_bounded (B : R) (a b : Vector3) :
  bounded B a -> bounded B b -> bounded (2 * B) (V3.sub b a).
Proof.
  unfold bounded, V3.sub. cbn. intros (? & ? & ?) (? & ? & ?).
  repeat split; lra.
Qed.

(** A 2 x 2 determinant whose entries move by [α] at most. *)
Lemma det2_close (a b c d a' b' c' d' α B : R) :
  - B <= a <= B -> - B <= b <= B -> - B <= c <= B -> - B <= d <= B ->
  - α <= a' - a <= α -> - α <= b' - b <= α ->
  - α <= c' - c <= α -> - α <= d' - d <= α ->
  - (4 * (α * B) + 2 * (α * α)) <= (a' * d' - b' * c') - (a * d - b * c)
  <= 4 * (α * B) + 2 * (α * α).
Proof.
  intros Ha Hb Hc Hd Ha' Hb' Hc' Hd'.
  replace ((a' * d' - b' * c') - (a * d - b * c))
    with ((a' - a) * d + (d' - d) * a + (a' - a) * (d' - d)
          - ((b' - b) * c + (c' - c) * b + (b' - b) * (c' - c))) by ring.
  pose proof (prod_bounds _ _ _ _ Ha' Hd).
  pose proof (prod_bounds _ _ _ _ Hd' Ha).
  pose proof (prod_bounds _ _ _ _ Ha' Hd').
  pose proof (prod_bounds _ _ _ _ Hb' Hc).
  pose proof (prod_bounds _ _ _ _ Hc' Hb).
  pose proof (prod_bounds _ _ _ _ Hb' Hc').
  lra.
Qed.

Lemma cross_within (α B : R) (u v u' v' : Vector3) :
  bounded B u -> bounded B v -> within α u u' -> within α v v' ->
  within (4 * (α * B) + 2 * (α * α)) (V3.cross u v) (V3.cross u' v').
Proof.
  unfold bounded, within, V3.cross. cbn.
  intros (Hux & Huy & Huz) (Hvx & Hvy & Hvz) (Hux' & Huy' & Huz')
         (Hvx' & Hvy' & Hvz').
  repeat split; apply (det2_close _ _ _ _ _ _ _ _ α B); assumption.
Qed.

(** The dot product of two vectors that each move a little. *)
Lemma dot_within (α β A B : R) (a b a' b' : Vector3) :
  bounded A a -> bounded B b -> within α a a' -> within β b b' ->
  - (3 * (α * B + β * A + α * β)) <= V3.dot a' b' - V3.dot a b
  <= 3 * (α * B + β * A + α * β).
Proof.
  unfold bounded, within, V3.dot.
  intros (Hax & Hay & Haz) (Hbx & Hby & Hbz) (Hax' & Hay' & Haz')
         (Hbx' & Hby' & Hbz').
  replace (vx a' * vx b' + vy a' * vy b' + vz a' * vz b'
           - (vx a * vx b + vy a * vy b + vz a * vz b))
    with (((vx a' - vx a) * vx b + (vx b' - vx b) * vx a
           + (vx a' - vx a) * (vx b' - vx b))
          + ((vy a' - vy a) * vy b + (vy b' - vy b) * vy a
             + (vy a' - vy a) * (vy b' - vy b))
          + ((vz a' - vz a) * vz b + (vz b' - vz b) * vz a
             + (vz a' - vz a) * (vz b' - vz b))) by ring.
  pose proof (prod_bounds _ _ _ _ Hax' Hbx).
  pose proof (prod_bounds _ _ _ _ Hbx' Hax).
  pose proof (prod_bounds _ _ _ _ Hax' Hbx').
  pose proof (prod_bounds _ _ _ _ Hay' Hby).
  pose proof (prod_bounds _ _ _ _ Hby' Hay).
  pose proof (prod_bounds _ _ _ _ Hay' Hby').
  pose proof (prod_bounds _ _ _ _ Haz' Hbz).
  pose proof (prod_bounds _ _ _ _ Hbz' Haz).
  pose proof (prod_bounds _ _ _ _ Haz' Hbz').
  lra.
Qed.

(** Cauchy and Schwarz. *)
Lemma dot_sq_le (a b : Vector3) :
  V3.dot a b * V3.dot a b <= V3.dot a a * V3.dot b b.
Proof.
  pose proof (dot_self_nonneg (V3.cross a b)) as H.
  rewrite cross_norm in H. lra.
Qed.

Lemma within_norm (τ : R) (c c' : Vector3) :
  within τ c c' ->
  V3.dot (V3.sub c' c) (V3.sub c' c) <= 3 * (τ * τ).
Proof.
  unfold within, V3.dot, V3.sub. cbn. intros (Hx & Hy & Hz).
  assert (forall x, - τ <= x <= τ -> x * x <= τ * τ) as Hsq by (intros; nra).
  pose proof (Hsq _ Hx). pose proof (Hsq _ Hy). pose proof (Hsq _ Hz). lra.
Qed.

(** The direction of a vector that moves by a small part [θ] of its
    length. *)
Lemma normalize_close (θ τ : R) (c c' : Vector3) :
  0 <= θ <= 1 / 2 -> 0 < V3.dot c c -> within τ c c' ->
  3 * (τ * τ) <= θ * θ * V3.dot c c ->
  c' <> V3.zero
  /\ (1 - θ) * V3.dot c c <= V3.dot c' c
  /\ 1 - 2 * θ <= V3.dot (V3.normalize c') (V3.normalize c).
Proof.
  intros Hθ HQ Hw Hτ. set (Q := V3.dot c c) in *.
  pose proof (within_norm τ c c' Hw) as Hd.
  set (d := V3.sub c' c) in *.
  assert (Hc' : c' = V3.add c d).
  { unfold d, V3.add, V3.sub. apply vec3_eq; cbn; ring. }
  pose proof (dot_sq_le d c) as Hcs. fold Q in Hcs.
  assert (Hdd : 0 <= V3.dot d d) by apply dot_self_nonneg.
  assert (Hdc : - (θ * Q) <= V3.dot d c <= θ * Q).
  { apply sq_le_bounds; [nra|].
    apply Rle_trans with (V3.dot d d * Q); [done|].
    replace (θ * Q * (θ * Q)) with (θ * θ * Q * Q) by ring.
    apply Rmult_le_compat_r; lra. }
  assert (Hcc' : V3.dot c' c = Q + V3.dot d c).
  { rewrite Hc'. unfold Q, V3.dot, V3.add. cbn. ring. }
  assert (Hn' : V3.dot c' c' = Q + 2 * V3.dot d c + V3.dot d d).
  { rewrite Hc'. unfold Q, V3.dot, V3.add. cbn. ring. }
  assert (Hlow : (1 - θ) * Q <= V3.dot c' c) by lra.
  assert (Hne : c' <> V3.zero).
  { intros E. rewrite E in Hcc'. unfold V3.dot at 1 in Hcc'. cbn in Hcc'. nra. }
  split; [done|]. split; [done|].
  assert (Hcne : c <> V3.zero).
  { intros E. unfold Q in HQ. rewrite E in HQ. unfold V3.dot in HQ. cbn in HQ. lra. }
  rewrite !normalize_nonzero by done.
  pose proof (length_sq c) as Hlc. pose proof (length_sq c') as Hlc'.
  pose proof (length_nonneg c) as Hpc. pose proof (length_nonneg c') as Hpc'.
  fold Q in Hlc.
  set (lc := V3.length c) in *. set (lc' := V3.length c') in *.
  assert (Hlcpos : 0 < lc) by nra.
  assert (Hlc'pos : 0 < lc').
  { assert (0 < V3.dot c' c') by (rewrite Hn'; nra). nra. }
  assert (E : V3.dot (V3.multiplyScalar c' (1 / lc')) (V3.multiplyScalar c (1 / lc))
              = V3.dot c' c / (lc' * lc)).
  { unfold V3.dot, V3.multiplyScalar. cbn. field. lra. }
  rewrite E.
  assert (Hprod : lc' * lc <= (1 + θ) * Q).
  { assert ((lc' * lc) * (lc' * lc) <= ((1 + θ) * Q) * ((1 + θ) * Q)).
    { replace ((lc' * lc) * (lc' * lc)) with ((lc' * lc') * (lc * lc)) by ring.
      rewrite Hlc', Hlc, Hn'. nra. }
    assert (0 <= lc' * lc) by nra. nra. }
  apply (Rmult_le_reg_r (lc' * lc)); [nra|].
  unfold Rdiv. rewrite Rmult_assoc, Rinv_l by nra. rewrite Rmult_1_r.
  nra.
Qed.

(** ** Unit vectors that are close to given ones *)

Lemma close_near (ε : R) (n1 n2 n : Vector3) :
  isUnit n1 -> isUnit n2 -> isUnit n ->
  1 - ε <= V3.dot n1 n -> 1 - ε <= V3.dot n2 n ->
  1 - 4 * ε <= V3.dot n1 n2.
Proof.
  unfold isUnit. intros H1 H2 Hn Hc1 Hc2.
  pose proof (dot_self_nonneg
                (V3.sub (V3.add n1 n2) (V3.multiplyScalar n 2))) as Hs.
  assert (E : V3.dot (V3.sub (V3.add n1 n2) (V3.multiplyScalar n 2))
                     (V3.sub (V3.add n1 n2) (V3.multiplyScalar n 2))
              = V3.dot n1 n1 + V3.dot n2 n2 + 4 * V3.dot n n
                + 2 * V3.dot n1 n2 - 4 * V3.dot n1 n - 4 * V3.dot n2 n).
  { unfold V3.dot, V3.sub, V3.add, V3.multiplyScalar. cbn. ring. }
  rewrite E, H1, H2, Hn in Hs. lra.
Qed.

Lemma dot_unit_part (x y : Vector3) (η : R) :
  isUnit y -> 0 <= η -> V3.dot x x <= η * η -> - η <= V3.dot x y <= η.
Proof.
  unfold isUnit. intros Hy Hη Hx. apply sq_le_bounds; [done|].
  pose proof (dot_sq_le x y) as H. rewrite Hy in H. lra.
Qed.

Lemma close_far (ε η : R) (n1 n2 n m : Vector3) :
  isUnit n1 -> isUnit n2 -> isUnit n -> isUnit m ->
  1 - ε <= V3.dot n1 n -> 1 - ε <= V3.dot n2 m ->
  0 <= η -> 2 * ε <= η * η ->
  - (2 * η) <= V3.dot n1 n2 - V3.dot n m <= 2 * η.
Proof.
  intros H1 H2 Hn Hm Hc1 Hc2 Hη Hε.
  assert (E : V3.dot n1 n2 - V3.dot n m
              = V3.dot (V3.sub n1 n) n2 + V3.dot (V3.sub n2 m) n).
  { unfold V3.dot, V3.sub. cbn. ring. }
  assert (Hd1 : V3.dot (V3.sub n1 n) (V3.sub n1 n) <= η * η).
  { replace (V3.dot (V3.sub n1 n) (V3.sub n1 n))
      with (V3.dot n1 n1 + V3.dot n n - 2 * V3.dot n1 n)
      by (unfold V3.dot, V3.sub; cbn; ring).
    unfold isUnit in *. rewrite H1, Hn. lra. }
  assert (Hd2 : V3.dot (V3.sub n2 m) (V3.sub n2 m) <= η * η).
  { replace (V3.dot (V3.sub n2 m) (V3.sub n2 m))
      with (V3.dot n2 n2 + V3.dot m m - 2 * V3.dot n2 m)
      by (unfold V3.dot, V3.sub; cbn; ring).
    unfold isUnit in *. rewrite H2, Hm. lra. }
  pose proof (dot_unit_part _ n2 η H2 Hη Hd1).
  pose proof (dot_unit_part _ n η Hn Hη Hd2).
  rewrite E. lra.
Qed.

Lemma squares_zero (x y z : R) :
  x * x + y * y + z * z <= 0 -> x = 0 /\ y = 0 /\ z = 0.
Proof. intros H. repeat split; nra. Qed.

Lemma close_opposite (ε : R) (n1 n2 n m : Vector3) :
  isUnit n1 -> isUnit n2 -> isUnit n -> isUnit m ->
  V3.dot n m <= -1 ->
  1 - ε <= V3.dot n1 n -> 1 - ε <= V3.dot n2 m ->
  V3.dot n1 n2 <= -1 + 4 * ε.
Proof.
  intros H1 H2 Hn Hm Hnm Hc1 Hc2.
  assert (Hneg : isUnit (V3.negate n2)).
  { unfold isUnit, V3.dot, V3.negate in *. cbn. lra. }
  assert (Hm' : m = V3.negate n).
  { assert (Hz : V3.dot (V3.add n m) (V3.add n m) <= 0).
    { replace (V3.dot (V3.add n m) (V3.add n m))
        with (V3.dot n n + V3.dot m m + 2 * V3.dot n m)
        by (unfold V3.dot, V3.add; cbn; ring).
      unfold isUnit in *. rewrite Hn, Hm. lra. }
    unfold V3.dot, V3.add in Hz. cbn in Hz.
    apply squares_zero in Hz as (Hx & Hy & Hz).
    apply vec3_eq; unfold V3.negate; cbn; lra. }
  subst m.
  assert (Hc2' : 1 - ε <= V3.dot (V3.negate n2) n).
  { unfold V3.dot, V3.negate in *. cbn in *. lra. }
  pose proof (close_near ε n1 (V3.negate n2) n H1 Hneg Hn Hc1 Hc2') as H.
  unfold V3.dot, V3.negate in *. cbn in *. lra.
Qed.

(** ** The normal of a triangle whose corners move a little *)

Lemma cross_bounded (B : R) (u v : Vector3) :
  bounded B u -> bounded B v -> bounded (2 * (B * B)) (V3.cross u v).
Proof.
  unfold bounded, V3.cross. cbn.
  intros (Hux & Huy & Huz) (Hvx & Hvy & Hvz).
  pose proof (prod_bounds _ _ _ _ Huy Hvz).
  pose proof (prod_bounds _ _ _ _ Huz Hvy).
  pose proof (prod_bounds _ _ _ _ Huz Hvx).
  pose proof (prod_bounds _ _ _ _ Hux Hvz).
  pose proof (prod_bounds _ _ _ _ Hux Hvy).
  pose proof (prod_bounds _ _ _ _ Huy Hvx).
  repeat split; lra.
Qed.

(** Corners within [radius] of the axes, each moved by a ten-millionth of
    [radius] at most; the triangle has area and turns its face away from
    the origin. *)
Lemma outwardNormal_close (radius : R) (a b c a' b' c' : Vector3) :
  0 < radius ->
  bounded radius a -> bounded radius b -> bounded radius c ->
  within (radius / 10000000) a a' -> within (radius / 10000000) b b' ->
  within (radius / 10000000) c c' ->
  4 / 10 * (radius * radius * radius * radius)
  <= V3.dot (triangleCross (a, b, c)) (triangleCross (a, b, c)) ->
  radius * radius * radius / 1000
  <= V3.dot (triangleCross (a, b, c)) (V3.add (V3.add a b) c) ->
  isUnit (outwardNormal (a', b', c'))
  /\ 1 - 2 / 100000
     <= V3.dot (outwardNormal (a', b', c'))
               (V3.normalize (triangleCross (a, b, c))).
Proof.
  intros Hr Ha Hb Hc Ha' Hb' Hc' HQ Hout.
  set (δ := radius / 10000000) in *.
  assert (Hδ : 0 < δ) by (unfold δ; lra).
  cbn [triangleCross] in *.
  set (C := V3.cross (V3.sub b a) (V3.sub c a)) in *.
  set (C' := V3.cross (V3.sub b' a') (V3.sub c' a')).
  pose proof (cross_within (2 * δ) (2 * radius) _ _ _ _
                (sub_bounded _ _ _ Ha Hb) (sub_bounded _ _ _ Ha Hc)
                (sub_within _ _ _ _ _ Ha' Hb') (sub_within _ _ _ _ _ Ha' Hc'))
    as Hw.
  fold C C' in Hw.
  set (τ := 4 * (2 * δ * (2 * radius)) + 2 * (2 * δ * (2 * δ))) in *.
  assert (Hτ : τ <= 17 / 10000000 * (radius * radius)).
  { unfold τ, δ. nra. }
  assert (Hτ0 : 0 <= τ) by (unfold τ; nra).
  assert (Hr2 : 0 < radius * radius) by nra.
  assert (Hr4 : 0 < radius * radius * radius * radius) by nra.
  assert (Hsmall : 3 * (τ * τ)
                   <= 1 / 100000 * (1 / 100000) * V3.dot C C).
  { assert (τ * τ <= (17 / 10000000 * (radius * radius))
                     * (17 / 10000000 * (radius * radius))) by nra.
    nra. }
  destruct (normalize_close (1 / 100000) τ C C' ltac:(lra) ltac:(lra) Hw Hsmall)
    as (Hne & Hpos & Hclose).
  assert (Horient : 0 <= V3.dot C' (V3.add (V3.add (V3.add V3.zero a') b') c')).
  { rewrite add_zero_l.
    assert (HCb : bounded (2 * (2 * radius * (2 * radius))) C)
      by (apply cross_bounded; by apply sub_bounded).
    assert (Hsb : bounded (3 * radius) (V3.add (V3.add a b) c)).
    { unfold bounded, V3.add in *. cbn. repeat split; lra. }
    assert (Hsw : within (3 * δ) (V3.add (V3.add a b) c) (V3.add (V3.add a' b') c')).
    { unfold within, V3.add in *. cbn. repeat split; lra. }
    pose proof (dot_within _ _ _ _ _ _ _ _ HCb Hsb Hw Hsw) as Hd.
    assert (3 * (τ * (3 * radius) + 3 * δ * (2 * (2 * radius * (2 * radius)))
                 + τ * (3 * δ))
            <= radius * radius * radius / 1000).
    { unfold δ in *.
      assert (τ * radius <= 17 / 10000000 * (radius * radius) * radius) by nra.
      nra. }
    lra. }
  assert (E : outwardNormal (a', b', c') = V3.normalize C').
  { unfold outwardNormal. fold C'. rewrite decide_False; [done|].
    apply normalize_dot_nonneg; [exact Horient | lra]. }
  rewrite E. split; [by apply normalize_isUnit | lra].
Qed.

(** * The normals of the sample octahedron *)

Lemma firstOccurrences_NoDup `{EqDecision A} (l : list A) :
  NoDup l -> firstOccurrences l = l.
Proof.
  unfold firstOccurrences.
  assert (Hgen : forall seen : list A, NoDup (seen ++ l) ->
            foldl (fun seen i => if decide (i ∈ seen) then seen else seen ++ [i])
                  seen l = seen ++ l).
  { induction l as [|x l IH]; intros seen Hnd; [by rewrite app_nil_r|].
    cbn [foldl].
    assert (Hx : x ∉ seen).
    { apply NoDup_app in Hnd as (_ & Hd & _). intros Hin.
      apply (Hd x Hin). left. }
    rewrite decide_False by done.
    rewrite IH; [by rewrite <- app_assoc|]. by rewrite <- app_assoc. }
  intros Hnd. by rewrite Hgen.
Qed.

Lemma apart_NoDup (ns : list Vector3) :
  Forall isUnit ns ->
  (forall i j a b, i <> j -> ns !! i = Some a -> ns !! j = Some b ->
                   V3.dot a b <= 0.999) ->
  NoDup ns.
Proof.
  intros Hu Hs. apply NoDup_alt. intros i j n Hi Hj.
  destruct (decide (i = j)) as [|Hne]; [done|]. exfalso.
  pose proof (Hs i j n n Hne Hi Hj) as Hd.
  rewrite Forall_lookup in Hu. specialize (Hu i n Hi). unfold isUnit in Hu. lra.
Qed.

(** ** The sample octahedron *)

Lemma octahedron_normals :
  outwardNormal <$> trianglesOf (position octahedronGeometry)
  = V3.normalize <$> octaDirections.
Proof.
  cbn [octahedronGeometry position octaIndices fmap list_fmap octaVertex
       trianglesOf octaDirections].
  repeat f_equal;
    (apply (outwardNormal_of _ _ _ _ 1.44); [lra | |];
     [ unfold V3.cross, V3.sub, V3.multiplyScalar; cbn; f_equal; lra
     | unfold V3.dot; cbn; lra ]).
Qed.

Lemma octaDirections_norm :
  Forall (fun w => V3.dot w w = 3) octaDirections.
Proof. repeat constructor; unfold V3.dot; cbn; lra. Qed.

Lemma octaNormals_unit : Forall isUnit (V3.normalize <$> octaDirections).
Proof.
  apply Forall_fmap. eapply Forall_impl; [apply octaDirections_norm|].
  intros w Hw. apply normalize_isUnit. intros ->.
  unfold V3.dot in Hw. cbn in Hw. lra.
Qed.

Lemma octaNormals_apart (i j : nat) (a b : Vector3) :
  i <> j ->
  (V3.normalize <$> octaDirections) !! i = Some a ->
  (V3.normalize <$> octaDirections) !! j = Some b ->
  V3.dot a b <= 0.999.
Proof.
  intros Hij Hi Hj.
  rewrite list_lookup_fmap in Hi, Hj.
  destruct (octaDirections !! i) as [wi|] eqn:Ei; [|done].
  destruct (octaDirections !! j) as [wj|] eqn:Ej; [|done].
  injection Hi as <-. injection Hj as <-.
  pose proof octaDirections_norm as Hn. rewrite Forall_lookup in Hn.
  rewrite (normalize_dot wi wj 3); [| lra | by eapply Hn | by eapply Hn].
  do 8 (destruct i as [|i];
        [do 8 (destruct j as [|j];
               [first [ lia
                      | injection Ei as <-; injection Ej as <-;
                        unfold V3.dot; cbn; lra ]|]);
         discriminate Ej|]).
  discriminate Ei.
Qed.

(** * The round trip: a built die shows the value it is asked to show *)

(** ** The quaternion of an orthonormal basis *)

(** The vector turned by the conjugate of [(x, y, z, w)], when the products
    of the components are those of the rotation matrix [m]: the
    coordinates of the vector in the basis of the columns of [m]. *)
Lemma applyQuaternion_conjugate (v : Vector3) (x y z w : R) (m : Matrix3) :
  4 * (w * w) = 1 + m11 m + m22 m + m33 m ->
  4 * (x * x) = 1 + m11 m - m22 m - m33 m ->
  4 * (y * y) = 1 - m11 m + m22 m - m33 m ->
  4 * (z * z) = 1 - m11 m - m22 m + m33 m ->
  4 * (w * x) = m32 m - m23 m ->
  4 * (w * y) = m13 m - m31 m ->
  4 * (w * z) = m21 m - m12 m ->
  4 * (x * y) = m12 m + m21 m ->
  4 * (x * z) = m13 m + m31 m ->
  4 * (y * z) = m23 m + m32 m ->
  applyQuaternion v (conjugate (Quat x y z w))
  = Vec3 (m11 m * vx v + m21 m * vy v + m31 m * vz v)
         (m12 m * vx v + m22 m * vy v + m32 m * vz v)
         (m13 m * vx v + m23 m * vy v + m33 m * vz v).
Proof.
  destruct v as [a b c], m as [a11 a12 a13 a21 a22 a23 a31 a32 a33]. cbn.
  intros Hww Hxx Hyy Hzz Hwx Hwy Hwz Hxy Hxz Hyz.
  unfold applyQuaternion, conjugate. cbn.
  f_equal; nsatz.
Qed.

(** The component [σ / 2] is the pivot of its branch, the three others are
    [k / (2 σ)]. *)
Lemma pivot_sq (σ : R) : 4 * (σ / 2 * (σ / 2)) = σ * σ.
Proof. field. Qed.

Lemma pivot_row (σ k : R) : σ <> 0 -> 4 * (σ / 2 * (k / (2 * σ))) = k.
Proof. intros. field. done. Qed.

Lemma pivot_col (σ k : R) : σ <> 0 -> 4 * (k / (2 * σ) * (σ / 2)) = k.
Proof. intros. field. done. Qed.

Lemma pivot_off (σ ka kb kab : R) :
  σ <> 0 -> ka * kb = σ * σ * kab -> 4 * (ka / (2 * σ) * (kb / (2 * σ))) = kab.
Proof.
  intros Hs H. transitivity (ka * kb / (σ * σ)); [by field|].
  rewrite H. by field.
Qed.

Ltac pivot Hs :=
  first [ rewrite pivot_sq, Hs; ring
        | rewrite pivot_row by lra; ring
        | rewrite pivot_col by lra; ring
        | apply pivot_off; [lra | rewrite Hs; nsatz] ].

(** In each of its four branches [setFromRotationMatrix] returns the
    quaternion of the rotation whose matrix has the columns [u x n], [u]
    and [n]; turning by its conjugate reads off the coordinates in that
    basis. *)
Lemma setFromRotationMatrix_basis (u n v : Vector3) :
  isUnit u -> isUnit n -> perpendicular u n ->
  applyQuaternion v (conjugate (setFromRotationMatrix (makeBasis (V3.cross u n) u n)))
  = Vec3 (V3.dot v (V3.cross u n)) (V3.dot v u) (V3.dot v n).
Proof.
  destruct u as [ux uy uz], n as [nx ny nz], v as [a b c].
  unfold isUnit, perpendicular, V3.dot, V3.cross, makeBasis, setFromRotationMatrix.
  cbn. intros Hu Hn Hp.
  set (x1 := uy * nz - uz * ny). set (x2 := uz * nx - ux * nz).
  set (x3 := ux * ny - uy * nx).
  set (m := Mat3 x1 ux nx x2 uy ny x3 uz nz).
  assert (Hgoal : Vec3 (a * x1 + b * x2 + c * x3) (a * ux + b * uy + c * uz)
                       (a * nx + b * ny + c * nz)
                  = Vec3 (m11 m * a + m21 m * b + m31 m * c)
                         (m12 m * a + m22 m * b + m32 m * c)
                         (m13 m * a + m23 m * b + m33 m * c))
    by (cbn; f_equal; ring).
  rewrite Hgoal. clear Hgoal.
  replace 0.5 with (1 / 2) by lra. replace 0.25 with (1 / 4) by lra.
  destruct (decide (x1 + uy + nz > 0)) as [Ht|Ht];
    [|destruct (decide (x1 > uy /\ x1 > nz)) as [[H1 H1']|H1];
      [|destruct (decide (uy > nz)) as [H2|H2]]].
  - set (σ := sqrt (x1 + uy + nz + 1)).
    assert (Hσ : σ * σ = x1 + uy + nz + 1) by (apply sqrt_sqrt; lra).
    assert (Hpos : 0 < σ) by (apply sqrt_lt_R0; lra).
    replace (Quat _ _ _ _)
      with (Quat ((uz - ny) / (2 * σ)) ((nx - x3) / (2 * σ)) ((x2 - ux) / (2 * σ))
                 (σ / 2)) by (f_equal; field; lra).
    apply (applyQuaternion_conjugate (Vec3 a b c)); cbn; subst x1 x2 x3;
      pivot Hσ.
  - set (σ := sqrt (1 + x1 - uy - nz)).
    assert (Hσ : σ * σ = 1 + x1 - uy - nz) by (apply sqrt_sqrt; lra).
    assert (Hpos : 0 < σ) by (apply sqrt_lt_R0; lra).
    replace (Quat _ _ _ _)
      with (Quat (σ / 2) ((ux + x2) / (2 * σ)) ((nx + x3) / (2 * σ))
                 ((uz - ny) / (2 * σ))) by (f_equal; field; lra).
    apply (applyQuaternion_conjugate (Vec3 a b c)); cbn; subst x1 x2 x3;
      pivot Hσ.
  - assert (Hmax : x1 <= uy)
      by (destruct (Rle_or_lt x1 uy); [done|];
          destruct (Rle_or_lt x1 nz); [lra | tauto]).
    set (σ := sqrt (1 + uy - x1 - nz)).
    assert (Hσ : σ * σ = 1 + uy - x1 - nz) by (apply sqrt_sqrt; lra).
    assert (Hpos : 0 < σ) by (apply sqrt_lt_R0; lra).
    replace (Quat _ _ _ _)
      with (Quat ((ux + x2) / (2 * σ)) (σ / 2) ((ny + uz) / (2 * σ))
                 ((nx - x3) / (2 * σ))) by (f_equal; field; lra).
    apply (applyQuaternion_conjugate (Vec3 a b c)); cbn; subst x1 x2 x3;
      pivot Hσ.
  - assert (Hmax : x1 <= nz)
      by (destruct (Rle_or_lt x1 nz); [done|];
          destruct (Rle_or_lt x1 uy); [lra | tauto]).
    set (σ := sqrt (1 + nz - x1 - uy)).
    assert (Hσ : σ * σ = 1 + nz - x1 - uy) by (apply sqrt_sqrt; lra).
    assert (Hpos : 0 < σ) by (apply sqrt_lt_R0; lra).
    replace (Quat _ _ _ _)
      with (Quat ((nx + x3) / (2 * σ)) ((ny + uz) / (2 * σ)) (σ / 2)
                 ((x2 - ux) / (2 * σ))) by (f_equal; field; lra).
    apply (applyQuaternion_conjugate (Vec3 a b c)); cbn; subst x1 x2 x3;
      pivot Hσ.
Qed.

Lemma basisQuat_rotates (u n v : Vector3) :
  isUnit u -> isUnit n -> perpendicular u n ->
  applyQuaternion v (basisQuat u n)
  = Vec3 (V3.dot v (V3.cross u n)) (V3.dot v u) (V3.dot v n).
Proof.
  intros Hu Hn Hp. unfold basisQuat. cbn zeta.
  rewrite (normalize_unit _ (cross_unit_perpendicular u n Hu Hn Hp)).
  by apply setFromRotationMatrix_basis.
Qed.



(** ** The numbers of a regular die are 1..sides *)

Lemma computeFaceNumbers_d10_bijective (faces : list Face) :
  uniquePartner faces -> length faces = 10%nat ->
  computeFaceNumbers faces 10 ≡ₚ seqZ 1 10.
Proof.
  intros Huniq Hn. symmetry.
  apply submseteq_length_Permutation.
  - apply NoDup_submseteq; [apply NoDup_seqZ|].
    intros x Hx. apply elem_of_seqZ in Hx.
    pose proof (finalPairs_length faces Huniq 10) as Hlen.
    pose proof (finalPairs_paired faces Huniq 10) as Hp.
    unfold allPaired in Hp. rewrite Forall_lookup in Hp.
    assert (Hslot : forall k, (k < 5)%nat ->
              exists a b,
                computeFaceNumbers faces 10 !! a = Some (Z.of_nat k * 2 + 1)%Z
                /\ computeFaceNumbers faces 10 !! b
                   = Some (10 - Z.of_nat k * 2)%Z).
    { intros k Hk.
      assert (Hk' : (k < length (finalPairs faces 10))%nat) by lia.
      apply lookup_lt_is_Some in Hk' as [[a ob] Hk'].
      destruct (Hp k _ Hk') as (a' & b & [= -> ->] & _).
      destruct (computeFaceNumbers_lookup faces 10 k _ _ ltac:(done) ltac:(done) Hk')
        as [Ha Hb].
      specialize (Hb _ eq_refl). unfold firstNumber in Ha, Hb.
      rewrite decide_True in Ha, Hb by done.
      exists a', b. split; [done|]. rewrite Hb. f_equal. lia. }
    destruct (Z.Even_or_Odd x) as [[m ->] | [m ->]].
    + destruct (Hslot (Z.to_nat (5 - m)) ltac:(lia)) as (a & b & _ & Hb).
      apply list_elem_of_lookup. exists b. rewrite Hb. f_equal. lia.
    + destruct (Hslot (Z.to_nat m) ltac:(lia)) as (a & b & Ha & _).
      apply list_elem_of_lookup. exists a. rewrite Ha. f_equal. lia.
  - rewrite computeFaceNumbers_length, length_seqZ by done. lia.
Qed.

(** For every labelled die the numbers are exactly 1..sides. *)
Lemma computeFaceNumbers_onto (faces : list Face) (sides : Z) :
  sides ∈ FACE_LABELED ->
  Z.of_nat (length faces) = sides ->
  (sides ≠ 4%Z -> sides ≠ 6%Z -> uniquePartner faces) ->
  computeFaceNumbers faces sides ≡ₚ seqZ 1 sides.
Proof.
  intros Hs Hn Hu.
  destruct (decide (sides = 6%Z)) as [-> | H6].
  { unfold computeFaceNumbers. rewrite decide_True by done.
    apply NoDup_Permutation.
    - unfold D6_NUMBERS. repeat (apply NoDup_cons; split; [set_solver|]).
      apply NoDup_nil_2.
    - apply NoDup_seqZ.
    - intros x. rewrite elem_of_seqZ. unfold D6_NUMBERS.
      rewrite !elem_of_cons, elem_of_nil. lia. }
  destruct (decide (sides = 4%Z)) as [-> | H4].
  { unfold computeFaceNumbers. rewrite decide_False, decide_True by done.
    apply NoDup_Permutation.
    - repeat (apply NoDup_cons; split; [set_solver|]). apply NoDup_nil_2.
    - apply NoDup_seqZ.
    - intros x. rewrite elem_of_seqZ. rewrite !elem_of_cons, elem_of_nil. lia. }
  destruct (decide (sides = 10%Z)) as [-> | H10].
  { apply computeFaceNumbers_d10_bijective; [by apply Hu | lia]. }
  by apply computeFaceNumbers_bijective; [apply Hu| | | |].
Qed.

(** ** The store after buildDieMesh *)

Lemma faceIn_app (h ext : Heap) (f : Store.FaceObj) :
  faceIn h f -> faceIn (h ++ ext) f.
Proof.
  intros (Hc & Hn & Hv). unfold faceIn. rewrite length_app.
  split; [lia|]. split; [lia|].
  eapply Forall_impl; [exact Hv|]. intros l Hl. cbn beta in *. lia.
Qed.

Lemma newVector_run (v : Vector3) (h : Heap) :
  Store.newVector v h = (length h, h ++ [v]).
Proof. unfold Store.newVector, Store.newVector3. by rewrite vec3_eta. Qed.

(** The new vectors sit in consecutive cells at the end of the store. *)
Lemma newVectors_run (vs : list Vector3) (h : Heap) :
  Store.newVectors vs h = (seq (length h) (length vs), h ++ vs).
Proof.
  revert h. induction vs as [|v vs IH]; intros h; cbn [Store.newVectors length].
  - unfold ret. by rewrite app_nil_r.
  - unfold bind, ret. rewrite newVector_run, IH.
    rewrite length_app. cbn [length]. rewrite Nat.add_1_r.
    by rewrite <- app_assoc.
Qed.

Lemma newFace_run (f : Face) (h : Heap) :
  Store.newFace f h
  = (Store.mkFaceObj (length h) (S (length h))
       (seq (S (S (length h))) (length (verts f))),
     h ++ centroid f :: normal f :: verts f).
Proof.
  destruct f as [c n vs]. unfold Store.newFace, bind, ret.
  rewrite !newVector_run, newVectors_run.
  rewrite !length_app. cbn [length centroid normal verts].
  rewrite !Nat.add_1_r. by rewrite <- !app_assoc.
Qed.

Lemma lookup_seq_app (h vs : list Vector3) :
  (fun l => default V3.zero ((h ++ vs) !! l)) <$> seq (length h) (length vs) = vs.
Proof.
  apply list_eq. intros i. rewrite list_lookup_fmap.
  destruct (decide (i < length vs)%nat) as [Hi | Hi].
  - rewrite lookup_seq_lt by done. cbn. rewrite lookup_app_add.
    apply lookup_lt_is_Some in Hi as [x Hx]. by rewrite Hx.
  - rewrite lookup_seq_ge by lia. cbn. symmetry. apply lookup_ge_None. lia.
Qed.

Lemma newFace_spec (f : Face) (h : Heap) :
  exists o ext,
    Store.newFace f h = (o, h ++ ext)
    /\ faceIn (h ++ ext) o /\ Store.faceOf (h ++ ext) o = f.
Proof.
  eexists _, _. split; [apply newFace_run|].
  destruct f as [c n vs]. cbn [centroid normal verts]. split.
  - unfold faceIn. cbn [Store.centroid Store.normal Store.verts].
    rewrite length_app. cbn [length]. split; [lia|]. split; [lia|].
    apply Forall_forall. intros l Hl%elem_of_seq. lia.
  - unfold Store.faceOf. cbn [Store.centroid Store.normal Store.verts].
    f_equal.
    + replace (length h) with (length h + 0)%nat at 1 by lia.
      by rewrite lookup_app_add.
    + replace (S (length h)) with (length h + 1)%nat by lia.
      by rewrite lookup_app_add.
    + replace (h ++ c :: n :: vs) with ((h ++ [c; n]) ++ vs)
        by (by rewrite <- app_assoc).
      replace (S (S (length h))) with (length (h ++ [c; n]))
        by (rewrite length_app; cbn; lia).
      by apply lookup_seq_app.
Qed.

Lemma newFaces_spec (fs : list Face) (h : Heap) :
  exists os ext,
    Store.newFaces fs h = (os, h ++ ext)
    /\ Forall (faceIn (h ++ ext)) os
    /\ Store.faceOf (h ++ ext) <$> os = fs.
Proof.
  revert h. induction fs as [|f fs IH]; intros h.
  - exists [], []. cbn. unfold ret. by rewrite app_nil_r.
  - destruct (newFace_spec f h) as (o & e1 & Ho & Hin & Hval).
    destruct (IH (h ++ e1)) as (os & e2 & Hos & Hins & Hvals).
    exists (o :: os), (e1 ++ e2). cbn [Store.newFaces]. unfold bind, ret.
    rewrite Ho, Hos. rewrite app_assoc. split; [done|]. split.
    + apply Forall_cons. split; [by apply faceIn_app | done].
    + cbn [fmap list_fmap]. f_equal; [|done].
      by rewrite faceOf_app.
Qed.

(** The label loop only adds cells. *)
Lemma labelStep_spec (fs : list Store.FaceObj) (sides : Z) (i : nat) (h : Heap) :
  Forall (faceIn h) fs ->
  exists ext, Store.labelStep fs sides i h = (tt, h ++ ext).
Proof.
  intros Hin. unfold Store.labelStep.
  destruct (fs !! i) as [face|] eqn:Hi.
  - rewrite Forall_lookup in Hin. pose proof (Hin i face Hi) as Hf.
    destruct (faceIn_values h face Hf) as (Hc & Hn & _).
    unfold bind, ret. unfold Store.newVector3.
    rewrite read_old_val with (v := centroid (Store.faceOf h face)) by done.
    unfold Store.write. rewrite insert_at_end.
    unfold Store.addScaledVector, bind, ret.
    replace (length h) with (length h + 0)%nat by lia.
    rewrite (read_new h 0). cbn [lookup list_lookup default from_option].
    unfold Datatypes.id.
    rewrite read_old_val with (v := normal (Store.faceOf h face)) by done.
    rewrite (write_new h 0). cbn [insert list_insert].
    destruct (faceSettleQuat_store (h ++ [V3.addScaledVector (centroid (Store.faceOf h face))
                                           (normal (Store.faceOf h face)) 0.02])
                face sides (faceIn_app _ _ _ Hf)) as (ext & ->).
    rewrite <- app_assoc. by eexists.
  - exists []. unfold ret. by rewrite app_nil_r.
Qed.

Lemma labelLoop_spec (fs : list Store.FaceObj) (sides : Z) (idxs : list nat)
      (h : Heap) :
  Forall (faceIn h) fs ->
  exists ext, Store.labelLoop fs sides idxs h = (tt, h ++ ext).
Proof.
  revert h. induction idxs as [|i idxs IH]; intros h Hin.
  - exists []. cbn. unfold ret. by rewrite app_nil_r.
  - destruct (labelStep_spec fs sides i h Hin) as (e1 & H1).
    destruct (IH (h ++ e1)) as (e2 & H2).
    { eapply Forall_impl; [exact Hin|]. intros f. apply faceIn_app. }
    exists (e1 ++ e2). cbn [Store.labelLoop]. unfold bind.
    rewrite H1, H2. by rewrite app_assoc.
Qed.

(** [numberToFace] sends a number to the index of the face that shows it. *)
Lemma indexNumbers_other (numbers : list Z) (idx : nat) (ntf : gmap Z Z) (v : Z) :
  v ∉ numbers -> Store.indexNumbers idx numbers ntf !! v = ntf !! v.
Proof.
  revert idx ntf. induction numbers as [|x l IH]; intros idx ntf Hv; [done|].
  cbn. rewrite IH by set_solver. apply lookup_insert_ne. set_solver.
Qed.


(** ** The round trip for a regular die *)


(** * The kites of the D10 *)

(** ** The clusters of a soup of kites *)

Lemma insertTriangle_new (n : Vector3) (abc : list Vector3) (cls : list Cluster) :
  Forall (fun cl => ~ near (cnormal cl) n) cls ->
  insertTriangle n abc cls = cls ++ [mkCluster n abc].
Proof.
  induction cls as [|cl cls IH]; intros H; [done|].
  apply Forall_cons in H as [Hcl H]. cbn [insertTriangle app].
  rewrite decide_False by exact Hcl. by rewrite IH.
Qed.

Lemma insertTriangle_last (n : Vector3) (abc : list Vector3)
      (cls : list Cluster) (cl : Cluster) :
  Forall (fun cl => ~ near (cnormal cl) n) cls -> near (cnormal cl) n ->
  insertTriangle n abc (cls ++ [cl])
  = cls ++ [mkCluster (cnormal cl) (cverts cl ++ abc)].
Proof.
  induction cls as [|c cls IH]; intros H Hn; cbn [insertTriangle app].
  - by rewrite decide_True by exact Hn.
  - apply Forall_cons in H as [Hc H].
    rewrite decide_False by exact Hc. by rewrite IH.
Qed.

Lemma clusterStep_kite (cls : list Cluster) (kite : Triangle * Triangle) :
  near (outwardNormal kite.1) (outwardNormal kite.2) ->
  Forall (fun cl => ~ near (cnormal cl) (outwardNormal kite.1)
                    /\ ~ near (cnormal cl) (outwardNormal kite.2)) cls ->
  clusterStep (clusterStep cls kite.1) kite.2 = cls ++ [kiteCluster kite].
Proof.
  destruct kite as [[[a b] c] [[a' b'] c']]. cbn [fst snd].
  intros Hn Hf. unfold clusterStep.
  rewrite (insertTriangle_new _ [a; b; c] cls)
    by (eapply Forall_impl; [exact Hf|]; by intros cl [? _]).
  rewrite insertTriangle_last; [done | | done].
  eapply Forall_impl; [exact Hf|]. by intros cl [_ ?].
Qed.

(** Kites whose two triangles are within the tolerance of each other,
    every kite being apart from the clusters so far and from the kites
    before it: each kite becomes one cluster, in order. *)
Lemma clusters_of_kites (kites : list (Triangle * Triangle)) (cls : list Cluster) :
  Forall (fun kite => near (outwardNormal kite.1) (outwardNormal kite.2)) kites ->
  Forall (fun cl =>
            Forall (fun kite => ~ near (cnormal cl) (outwardNormal kite.1)
                                /\ ~ near (cnormal cl) (outwardNormal kite.2))
                   kites) cls ->
  StronglySorted (fun k k' => ~ near (outwardNormal k.1) (outwardNormal k'.1)
                              /\ ~ near (outwardNormal k.1) (outwardNormal k'.2))
                 kites ->
  foldl clusterStep cls (kiteTriangles kites) = cls ++ (kiteCluster <$> kites).
Proof.
  revert cls. induction kites as [|kite kites IH]; intros cls Hk Hc Hs.
  - by rewrite app_nil_r.
  - apply Forall_cons in Hk as [Hn Hk].
    apply StronglySorted_cons in Hs as [Hhead Hs].
    unfold kiteTriangles. cbn [fmap list_fmap concat app foldl].
    rewrite clusterStep_kite; [| done |].
    + fold (kiteTriangles kites). rewrite IH; [by rewrite <- app_assoc | done | | done].
      apply Forall_app. split.
      * eapply Forall_impl; [exact Hc|]. intros cl Hcl.
        by apply Forall_cons in Hcl as [_ ?].
      * apply Forall_cons_2; [|apply Forall_nil_2]. exact Hhead.
    + eapply Forall_impl; [exact Hc|]. intros cl Hcl.
      by apply Forall_cons in Hcl as [? _].
Qed.

Lemma StronglySorted_of_lookup {A : Type} (Rel : A -> A -> Prop) (l : list A) :
  (forall i j a b, (i < j)%nat -> l !! i = Some a -> l !! j = Some b -> Rel a b) ->
  StronglySorted Rel l.
Proof.
  induction l as [|x l IH]; intros H; [constructor|].
  apply StronglySorted_cons. split.
  - apply Forall_lookup. intros j b Hj.
    apply (H 0%nat (S j)); [lia | done | done].
  - apply IH. intros i j a b Hij Ha Hb.
    apply (H (S i) (S j)); [lia | done | done].
Qed.

(** ** The ten kites of the D10 *)

Section D10Clusters.

Variable radius : R.
Hypothesis radius_pos : 0 < radius.

Lemma d10_triangles_of_rounds (ks : list nat) :
  trianglesOf (concat (d10Round radius <$> ks))
  = kiteTriangles (concat ((fun k => [d10TopKite radius k; d10BotKite radius k])
                           <$> ks)).
Proof.
  induction ks as [|k ks IH]; [done|].
  cbn [fmap list_fmap concat]. unfold d10Round at 1.
  cbn [app trianglesOf]. rewrite IH. reflexivity.
Qed.

Lemma d10_triangles_of_kites :
  trianglesOf (d10Verts radius) = kiteTriangles (d10Kites radius).
Proof. apply d10_triangles_of_rounds. Qed.

Lemma d10_kite_normals_of (ks : list nat) :
  Forall (fun k => (k < 5)%nat) ks ->
  (fun kite : Triangle * Triangle => outwardNormal kite.1)
    <$> concat ((fun k => [d10TopKite radius k; d10BotKite radius k]) <$> ks)
  = concat ((fun k => [V3.normalize (d10TopW radius k);
                       V3.normalize (d10BotW radius k)]) <$> ks).
Proof.
  induction ks as [|k ks IH]; intros Hks; [done|].
  apply Forall_cons in Hks as [Hk Hks].
  cbn [fmap list_fmap concat app]. rewrite IH by done.
  unfold d10TopKite, d10BotKite. cbn [fst snd].
  by rewrite d10_outward_top1, d10_outward_bot1.
Qed.

Lemma d10_kite_normals :
  (fun kite : Triangle * Triangle => outwardNormal kite.1) <$> d10Kites radius
  = d10Normals radius.
Proof.
  apply d10_kite_normals_of. apply Forall_forall. intros k Hk%elem_of_seq. lia.
Qed.

Lemma d10_kites_flat :
  Forall (fun kite : Triangle * Triangle =>
            outwardNormal kite.2 = outwardNormal kite.1
            /\ isUnit (outwardNormal kite.1)) (d10Kites radius).
Proof.
  unfold d10Kites. apply Forall_concat, Forall_fmap, Forall_forall.
  intros k Hk%elem_of_seq. cbn beta.
  assert (Hk5 : (k < 5)%nat) by lia.
  repeat apply Forall_cons_2; [| |apply Forall_nil_2];
    unfold d10TopKite, d10BotKite; cbn [fst snd].
  - rewrite d10_outward_top1, d10_outward_top2 by done.
    split; [done|]. by apply normalize_isUnit, d10TopW_nonzero.
  - rewrite d10_outward_bot1, d10_outward_bot2 by done.
    split; [done|]. by apply normalize_isUnit, d10BotW_nonzero.
Qed.

Lemma d10Normals_separated : separated (d10Normals radius).
Proof.
  apply StronglySorted_of_lookup. intros i j a b Hij Ha Hb. unfold near.
  pose proof (d10Normals_apart radius radius_pos i j a b ltac:(lia) Ha Hb). lra.
Qed.

End D10Clusters.

(** ** The centroid of a kite lies in its plane *)

Lemma dot_foldl_add (w acc : Vector3) (vs : list Vector3) (δ : R) :
  Forall (fun v => V3.dot w v = δ) vs ->
  V3.dot w (foldl V3.add acc vs) = V3.dot w acc + INR (length vs) * δ.
Proof.
  revert acc. induction vs as [|v vs IH]; intros acc H.
  - cbn. ring.
  - apply Forall_cons in H as [Hv H]. cbn [foldl length].
    rewrite IH by done. rewrite dot_add_r, Hv, S_INR. ring.
Qed.

Lemma dot_centroid (w : Vector3) (vs : list Vector3) (δ : R) :
  vs <> [] -> Forall (fun v => V3.dot w v = δ) vs ->
  V3.dot w (V3.divideScalar (sumVectors vs) (INR (length vs))) = δ.
Proof.
  intros Hne H.
  assert (Hpos : 0 < INR (length vs))
    by (apply lt_0_INR; destruct vs; [done | cbn; lia]).
  transitivity (V3.dot w (sumVectors vs) / INR (length vs)).
  - unfold V3.dot, V3.divideScalar, V3.multiplyScalar. cbn. field. lra.
  - unfold sumVectors. rewrite (dot_foldl_add w _ vs δ H).
    assert (E : V3.dot w V3.zero = 0) by (unfold V3.dot, V3.zero; cbn; ring).
    rewrite E. field. lra.
Qed.

Lemma dot_normalize_zero (x w : Vector3) :
  V3.dot w x = 0 -> V3.dot x (V3.normalize w) = 0.
Proof.
  intros H. unfold V3.normalize, V3.divideScalar, V3.multiplyScalar, V3.dot in *.
  cbn. set (l := if decide _ then 1 else _).
  transitivity ((vx w * vx x + vy w * vy x + vz w * vz x) * (1 / l)); [ring|].
  rewrite H. ring.
Qed.

(** A centroid in the plane through the pole, at another height than the
    pole: the direction to the pole has a part in the plane. *)
Lemma projectedToPole_in_plane (c w pole : Vector3) :
  poleOf c = pole -> V3.dot w pole = V3.dot w c -> vy pole <> vy c ->
  projectedToPole c (V3.normalize w) <> V3.zero.
Proof.
  intros Hp Hd Hy E. unfold projectedToPole in E. rewrite Hp in E.
  assert (H0 : V3.dot (V3.sub pole c) (V3.normalize w) = 0).
  { apply dot_normalize_zero. unfold V3.dot, V3.sub in *. cbn. lra. }
  rewrite H0 in E. apply (f_equal vy) in E.
  unfold V3.addScaledVector, V3.sub, V3.zero in E. cbn in E.
  rewrite Ropp_0, Rmult_0_r in E. lra.
Qed.

Section D10Planes.

Variable radius : R.
Hypothesis radius_pos : 0 < radius.

(** Every vertex of a kite has the same component along the direction of
    the kite's normal. *)
Lemma d10_top_plane (k : nat) :
  (k < 5)%nat ->
  Forall (fun v => V3.dot (d10TopW radius k) v = d10r radius * d10H radius)
         (cverts (kiteCluster (d10TopKite radius k))).
Proof.
  intros Hk. pose proof (d10_height_condition radius) as Hc.
  assert (Hpole : V3.dot (d10TopW radius k) (d10Top radius)
                  = d10r radius * d10H radius)
    by (unfold d10TopW, d10Top; by rewrite dot_w_pole).
  assert (Hlow : V3.dot (d10TopW radius k) (d10Lower radius k)
                 = d10r radius * d10H radius)
    by (unfold d10TopW, d10Lower; rewrite dot_w_middle; ring).
  assert (Hup : V3.dot (d10TopW radius k) (d10Upper radius k)
                = d10r radius * d10H radius)
    by (rewrite d10Upper_as_minus; unfold d10TopW; rewrite dot_w_wing_minus;
        nsatz).
  assert (Hnext : V3.dot (d10TopW radius k) (d10Upper radius ((k + 1) mod 5))
                  = d10r radius * d10H radius)
    by (rewrite d10Upper_next_as_plus by done; unfold d10TopW;
        rewrite dot_w_wing_plus; nsatz).
  unfold kiteCluster, d10TopKite.
  cbn [cverts fst snd triangleVerts app].
  repeat (apply Forall_cons_2; [assumption|]). apply Forall_nil_2.
Qed.

Lemma d10_bot_plane (k : nat) :
  (k < 5)%nat ->
  Forall (fun v => V3.dot (d10BotW radius k) v = d10r radius * d10H radius)
         (cverts (kiteCluster (d10BotKite radius k))).
Proof.
  intros Hk. pose proof (d10_height_condition radius) as Hc.
  assert (Hpole : V3.dot (d10BotW radius k) (d10Bot radius)
                  = d10r radius * d10H radius)
    by (unfold d10BotW, d10Bot; cbn zeta; rewrite dot_w_pole; ring).
  assert (Hlow : V3.dot (d10BotW radius k) (d10Lower radius k)
                 = d10r radius * d10H radius)
    by (rewrite d10Lower_as_minus by done; unfold d10BotW; cbn zeta;
        rewrite dot_w_wing_minus; nsatz).
  assert (Hup : V3.dot (d10BotW radius k) (d10Upper radius ((k + 1) mod 5))
                = d10r radius * d10H radius)
    by (unfold d10BotW, d10Upper; cbn zeta; rewrite dot_w_middle; ring).
  assert (Hnext : V3.dot (d10BotW radius k) (d10Lower radius ((k + 1) mod 5))
                  = d10r radius * d10H radius)
    by (unfold d10BotW, d10Lower, d10aL; cbn zeta; rewrite dot_w_wing_plus;
        nsatz).
  unfold kiteCluster, d10BotKite.
  cbn [cverts fst snd triangleVerts app].
  repeat (apply Forall_cons_2; [assumption|]). apply Forall_nil_2.
Qed.

(** The centroid of a top kite is a third of the way up, that of a bottom
    kite a third of the way down. *)
Lemma d10_top_centroid_y (k : nat) :
  vy (centroid (clusterFace (kiteCluster (d10TopKite radius k)))) = d10H radius / 3.
Proof.
  unfold clusterFace, kiteCluster, d10TopKite, sumVectors.
  cbn [centroid cverts fst snd triangleVerts app foldl length].
  unfold V3.divideScalar, V3.multiplyScalar, V3.add, V3.zero, d10Top, d10Upper,
    d10Lower. cbn [vx vy vz INR]. field.
Qed.

Lemma d10_bot_centroid_y (k : nat) :
  vy (centroid (clusterFace (kiteCluster (d10BotKite radius k))))
  = - (d10H radius / 3).
Proof.
  unfold clusterFace, kiteCluster, d10BotKite, sumVectors.
  cbn [centroid cverts fst snd triangleVerts app foldl length].
  unfold V3.divideScalar, V3.multiplyScalar, V3.add, V3.zero, d10Bot, d10Upper,
    d10Lower. cbn [vx vy vz INR]. field.
Qed.

End D10Planes.

(** ** Every kite has exactly one anti-parallel kite *)

(** The cosines of the odd multiples of 36 degrees: -1 at 180 degrees, at
    least -0.31 elsewhere. *)
Lemma cos_odd_1 : -0.31 <= cos (1 * (PI / 5)).
Proof. rewrite Rmult_1_l. pose proof cos_PI5_bounds. lra. Qed.

Lemma cos_odd_3 : -0.31 <= cos (3 * (PI / 5)).
Proof.
  replace (3 * (PI / 5)) with (PI - 2 * (PI / 5)) by field.
  rewrite cos_minus, cos_PI, sin_PI. pose proof cos_fifth_1. lra.
Qed.

Lemma cos_odd_5 : cos (5 * (PI / 5)) = -1.
Proof. replace (5 * (PI / 5)) with PI by field. apply cos_PI. Qed.

Lemma cos_odd_7 : -0.31 <= cos (7 * (PI / 5)).
Proof.
  replace (7 * (PI / 5)) with (PI + 2 * (PI / 5)) by field.
  rewrite cos_plus, cos_PI, sin_PI. pose proof cos_fifth_1. lra.
Qed.

Lemma cos_odd_9 : -0.31 <= cos (9 * (PI / 5)).
Proof.
  replace (9 * (PI / 5)) with (2 * PI - PI / 5) by field.
  rewrite cos_minus, cos_2PI, sin_2PI. pose proof cos_PI5_bounds. lra.
Qed.

Lemma cos_odd_fifths (k nj : nat) :
  (k < 5)%nat -> (nj < 5)%nat ->
  (nj = (k + 3) mod 5 -> cos (d10aL k - d10aU nj) = -1)
  /\ (nj <> (k + 3) mod 5 -> -0.31 <= cos (d10aL k - d10aU nj)).
Proof.
  intros Hk Hj.
  assert (Hcases : exists m : R,
            (d10aL k - d10aU nj = m * (PI / 5)
             \/ d10aL k - d10aU nj = - (m * (PI / 5)))
            /\ (m = 5 /\ nj = (k + 3) mod 5
                \/ (m = 1 \/ m = 3 \/ m = 7 \/ m = 9) /\ nj <> (k + 3) mod 5)).
  { assert (Hk' : (k = 0 \/ k = 1 \/ k = 2 \/ k = 3 \/ k = 4)%nat) by lia.
    assert (Hj' : (nj = 0 \/ nj = 1 \/ nj = 2 \/ nj = 3 \/ nj = 4)%nat) by lia.
    unfold d10aL, d10aU.
    destruct Hk' as [-> | [-> | [-> | [-> | ->]]]];
      destruct Hj' as [-> | [-> | [-> | [-> | ->]]]];
      cbn [INR];
      first [ exists 5; split; [first [left; field | right; field]|];
              left; split; [reflexivity | reflexivity]
            | exists 1; split; [first [left; field | right; field]|];
              right; split; [tauto | vm_compute; lia]
            | exists 3; split; [first [left; field | right; field]|];
              right; split; [tauto | vm_compute; lia]
            | exists 7; split; [first [left; field | right; field]|];
              right; split; [tauto | vm_compute; lia]
            | exists 9; split; [first [left; field | right; field]|];
              right; split; [tauto | vm_compute; lia] ]. }
  destruct Hcases as (m & Hd & Hm).
  assert (Hcos : cos (d10aL k - d10aU nj) = cos (m * (PI / 5)))
    by (destruct Hd as [-> | ->]; [done | apply cos_neg]).
  rewrite Hcos.
  destruct Hm as [[-> Heq] | [Hm Hne]].
  - split; [intros _; apply cos_odd_5 | done].
  - split; [done|]. intros _.
    destruct Hm as [-> | [-> | [-> | ->]]];
      [apply cos_odd_1 | apply cos_odd_3 | apply cos_odd_7 | apply cos_odd_9].
Qed.

Lemma mod5_partner (k j : nat) :
  (k < 5)%nat -> (j < 5)%nat ->
  ((j + 1) mod 5 = (k + 3) mod 5 <-> j = (k + 2) mod 5)
  /\ ((j + 1) mod 5 = (k + 3) mod 5 <-> k = (j + 3) mod 5).
Proof.
  intros Hk Hj.
  assert (Hk' : (k = 0 \/ k = 1 \/ k = 2 \/ k = 3 \/ k = 4)%nat) by lia.
  assert (Hj' : (j = 0 \/ j = 1 \/ j = 2 \/ j = 3 \/ j = 4)%nat) by lia.
  destruct Hk' as [-> | [-> | [-> | [-> | ->]]]];
    destruct Hj' as [-> | [-> | [-> | [-> | ->]]]];
    vm_compute; (split; split; intros; first [reflexivity | lia]).
Qed.

Lemma div_lt_scaled (x w c : R) : 0 < w -> x / w < c <-> x < c * w.
Proof.
  intros Hw. split; intros Hx.
  - apply (Rmult_lt_reg_r (/ w)); [by apply Rinv_0_lt_compat|].
    rewrite (Rmult_assoc c), Rinv_r by lra. unfold Rdiv in Hx. lra.
  - apply (Rmult_lt_reg_r w); [done|].
    unfold Rdiv. rewrite (Rmult_assoc x), Rinv_l by lra. lra.
Qed.

Section D10Partners.

Variable radius : R.
Hypothesis radius_pos : 0 < radius.

Abbreviation P := (d10h radius + d10H radius).

(** A top and a bottom kite are anti-parallel exactly when their azimuths
    are half a turn apart. *)
Lemma d10_top_bot_opposite (k j : nat) :
  (k < 5)%nat -> (j < 5)%nat ->
  V3.dot (V3.normalize (d10TopW radius k)) (V3.normalize (d10BotW radius j)) < -0.99
  <-> (j + 1) mod 5 = (k + 3) mod 5.
Proof.
  intros Hk Hj.
  pose proof (d10W2_pos radius radius_pos) as Hw.
  rewrite (normalize_dot _ _ (d10W2 radius));
    [| done | by apply d10TopW_norm | by apply d10BotW_norm].
  unfold d10TopW, d10BotW. cbn zeta. rewrite dot_w_w.
  assert (Hnj : ((j + 1) mod 5 < 5)%nat) by (apply Nat.mod_upper_bound; lia).
  destruct (cos_odd_fifths k ((j + 1) mod 5) Hk Hnj) as [Heq Hne].
  pose proof (d10_P_bounds radius radius_pos) as HP.
  assert (HPP : radius * radius <= P * P) by nra.
  rewrite div_lt_scaled by done. unfold d10W2, d10r in *.
  destruct (decide ((j + 1) mod 5 = (k + 3) mod 5)) as [E | E].
  - rewrite (Heq E). split; [done|]. intros _. nra.
  - specialize (Hne E). split; [|done]. intros Hlt. exfalso.
    assert (P * P * -0.31 <= P * P * cos (d10aL k - d10aU ((j + 1) mod 5)))
      by (apply Rmult_le_compat_l; nra).
    nra.
Qed.

Lemma d10_same_side_not_opposite (al al' ry : R) :
  ry * ry = d10r radius * d10r radius ->
  ~ (P * P * cos (al - al') + ry * ry) / d10W2 radius < -0.99.
Proof.
  intros Hry Hlt.
  pose proof (d10W2_pos radius radius_pos) as Hw.
  assert (Hx : P * P * cos (al - al') + ry * ry < -0.99 * d10W2 radius)
    by (by apply div_lt_scaled).
  rewrite Hry in Hx. unfold d10W2, d10r in *.
  pose proof (d10_P_bounds radius radius_pos) as HP.
  pose proof (COS_bound (al - al')) as [Hc _].
  assert (P * P * -1 <= P * P * cos (al - al'))
    by (apply Rmult_le_compat_l; nra).
  assert (P * P <= 4 * (radius * radius)) by nra.
  nra.
Qed.

Lemma d10_top_top_not_opposite (k j : nat) :
  ~ V3.dot (V3.normalize (d10TopW radius k)) (V3.normalize (d10TopW radius j)) < -0.99.
Proof.
  rewrite (normalize_dot _ _ (d10W2 radius));
    [| by apply d10W2_pos | by apply d10TopW_norm | by apply d10TopW_norm].
  unfold d10TopW. rewrite dot_w_w. by apply d10_same_side_not_opposite.
Qed.

Lemma d10_bot_bot_not_opposite (k j : nat) :
  ~ V3.dot (V3.normalize (d10BotW radius k)) (V3.normalize (d10BotW radius j)) < -0.99.
Proof.
  rewrite (normalize_dot _ _ (d10W2 radius));
    [| by apply d10W2_pos | by apply d10BotW_norm | by apply d10BotW_norm].
  unfold d10BotW. cbn zeta. rewrite dot_w_w.
  apply d10_same_side_not_opposite. ring.
Qed.

Lemma d10Normals_top (k : nat) :
  (k < 5)%nat -> V3.normalize (d10TopW radius k) ∈ d10Normals radius.
Proof.
  intros Hk. unfold d10Normals. cbn [seq fmap list_fmap concat app].
  assert (Hk' : (k = 0 \/ k = 1 \/ k = 2 \/ k = 3 \/ k = 4)%nat) by lia.
  rewrite !elem_of_cons.
  destruct Hk' as [-> | [-> | [-> | [-> | ->]]]]; tauto.
Qed.

Lemma d10Normals_bot (k : nat) :
  (k < 5)%nat -> V3.normalize (d10BotW radius k) ∈ d10Normals radius.
Proof.
  intros Hk. unfold d10Normals. cbn [seq fmap list_fmap concat app].
  assert (Hk' : (k = 0 \/ k = 1 \/ k = 2 \/ k = 3 \/ k = 4)%nat) by lia.
  rewrite !elem_of_cons.
  destruct Hk' as [-> | [-> | [-> | [-> | ->]]]]; tauto.
Qed.

Lemma d10Normals_elem (n : Vector3) :
  n ∈ d10Normals radius ->
  exists k, (k < 5)%nat
    /\ (n = V3.normalize (d10TopW radius k) \/ n = V3.normalize (d10BotW radius k)).
Proof.
  intros [i Hi]%list_elem_of_lookup.
  apply d10Normals_lookup in Hi as (k & Hk & [[_ ->] | [_ ->]]);
    exists k; tauto.
Qed.

(** Among the ten normals every one has exactly one anti-parallel
    partner. *)
Lemma d10Normals_partner (n : Vector3) :
  n ∈ d10Normals radius ->
  exists n', n' ∈ d10Normals radius /\ V3.dot n n' < -0.99
    /\ forall n'', n'' ∈ d10Normals radius -> V3.dot n n'' < -0.99 -> n'' = n'.
Proof.
  intros (k & Hk & [-> | ->])%d10Normals_elem.
  - assert (Hp : ((k + 2) mod 5 < 5)%nat) by (apply Nat.mod_upper_bound; lia).
    exists (V3.normalize (d10BotW radius ((k + 2) mod 5))).
    split; [by apply d10Normals_bot|]. split.
    + apply d10_top_bot_opposite; [done | done |].
      by apply (proj1 (mod5_partner k _ Hk Hp)).
    + intros n'' (j & Hj & [-> | ->])%d10Normals_elem Hlt.
      * by apply d10_top_top_not_opposite in Hlt.
      * apply d10_top_bot_opposite in Hlt; [|done|done].
        apply (proj1 (mod5_partner k j Hk Hj)) in Hlt. by rewrite Hlt.
  - assert (Hp : ((k + 3) mod 5 < 5)%nat) by (apply Nat.mod_upper_bound; lia).
    exists (V3.normalize (d10TopW radius ((k + 3) mod 5))).
    split; [by apply d10Normals_top|]. split.
    + rewrite dot_comm. apply d10_top_bot_opposite; [done | done |].
      by apply (proj2 (mod5_partner _ k Hp Hk)).
    + intros n'' (j & Hj & [-> | ->])%d10Normals_elem Hlt.
      * rewrite dot_comm in Hlt.
        apply d10_top_bot_opposite in Hlt; [|done|done].
        apply (proj2 (mod5_partner j k Hj Hk)) in Hlt. by rewrite Hlt.
      * by apply d10_bot_bot_not_opposite in Hlt.
Qed.

End D10Partners.

(** ** From the normals to the faces *)

Lemma uniquePartner_of_normals (faces : list Face) (ns : list Vector3) :
  normal <$> faces ≡ₚ ns -> NoDup ns ->
  (forall n, n ∈ ns ->
     exists n', n' ∈ ns /\ V3.dot n n' < -0.99
       /\ forall n'', n'' ∈ ns -> V3.dot n n'' < -0.99 -> n'' = n') ->
  uniquePartner faces.
Proof.
  intros Hp Hnd H i Hi.
  destruct (lookup_lt_is_Some_2 faces i Hi) as [f Hf].
  assert (Hfn : normal f ∈ ns).
  { rewrite <- Hp. apply list_elem_of_fmap_2, list_elem_of_lookup. by exists i. }
  destruct (H _ Hfn) as (n' & Hn' & Hlt & Huniq).
  rewrite <- Hp in Hn'.
  apply list_elem_of_lookup in Hn' as [j Hj].
  rewrite list_lookup_fmap in Hj.
  destruct (faces !! j) as [g|] eqn:Hg; [|done]. injection Hj as Hgn.
  assert (Hati : normalAt faces i = normal f) by (unfold normalAt; by rewrite Hf).
  exists j. split; [by eapply lookup_lt_Some|]. split.
  - unfold opposite. apply bool_decide_eq_true. rewrite Hati.
    unfold normalAt. rewrite Hg. cbn. by rewrite Hgn.
  - intros j' Hj' Hopp.
    destruct (lookup_lt_is_Some_2 faces j' Hj') as [g' Hg'].
    unfold opposite in Hopp. apply bool_decide_eq_true in Hopp.
    rewrite Hati in Hopp. unfold normalAt in Hopp. rewrite Hg' in Hopp.
    cbn in Hopp.
    assert (Hin : normal g' ∈ ns).
    { rewrite <- Hp. apply list_elem_of_fmap_2, list_elem_of_lookup. by exists j'. }
    pose proof (Huniq _ Hin Hopp) as Heq.
    assert (Hnd' : NoDup (normal <$> faces)) by (by rewrite Hp).
    apply (NoDup_lookup _ _ _ (normal g') Hnd').
    + by rewrite list_lookup_fmap, Hg'.
    + rewrite list_lookup_fmap, Hg. cbn. by rewrite Hgn, Heq.
Qed.

(** * The D10 as the attribute holds it *)

Lemma Rabs_le_bounds (x a : R) : Rabs x <= a -> - a <= x <= a.
Proof. unfold Rabs. destruct (Rcase_abs x); lra. Qed.

Lemma sin_PI5_sq : 0.3439 <= sin (PI / 5) * sin (PI / 5).
Proof.
  pose proof (sin2_cos2 (PI / 5)) as H. unfold Rsqr in H.
  pose proof cos_PI5_bounds. nra.
Qed.

Lemma sin_PI5_lower : 0.58 <= sin (PI / 5).
Proof. pose proof sin_PI5_sq. pose proof sin_PI5_pos. nra. Qed.

Section D10Stored.

Variable radius : R.
Hypothesis radius_normal : powerRZ 2 (-126) <= radius.

Lemma radius_normal_pos : 0 < radius.
Proof. pose proof (powerRZ2_pos (-126)). lra. Qed.

Lemma fround_within (x : R) :
  - radius <= x <= radius ->
  - (radius / 10000000) <= fround x - x <= radius / 10000000.
Proof.
  intros Hx. apply Rabs_le_bounds.
  eapply Rle_trans; [apply fround_close|].
  assert (Hm : Rmax (Rabs x) (powerRZ 2 (-126)) <= radius).
  { apply Rmax_lub; [|done]. apply Rabs_le. lra. }
  assert (H24 : powerRZ 2 (-24) <= 1 / 10000000) by (powers; lra).
  pose proof (powerRZ2_pos (-24)). pose proof radius_normal_pos. nra.
Qed.

Lemma float32_within (v : Vector3) :
  bounded radius v -> within (radius / 10000000) v (float32 v).
Proof.
  intros (Hx & Hy & Hz). unfold within, float32. cbn.
  repeat split; by apply fround_within.
Qed.

Lemma d10Top_bounded : bounded radius (d10Top radius).
Proof.
  pose proof radius_normal_pos. unfold bounded, d10Top, d10H. cbn.
  repeat split; lra.
Qed.

Lemma d10Bot_bounded : bounded radius (d10Bot radius).
Proof.
  pose proof radius_normal_pos. unfold bounded, d10Bot, d10H. cbn.
  repeat split; lra.
Qed.

Lemma d10_ring_bounded (y a : R) :
  - radius <= y <= radius ->
  bounded radius (Vec3 (d10r radius * cos a) y (d10r radius * sin a)).
Proof.
  intros Hy. pose proof radius_normal_pos.
  pose proof (COS_bound a). pose proof (SIN_bound a).
  unfold bounded, d10r. cbn. repeat split; nra.
Qed.

Lemma d10Upper_bounded k : bounded radius (d10Upper radius k).
Proof.
  apply d10_ring_bounded. pose proof (d10h_bounds radius radius_normal_pos). lra.
Qed.

Lemma d10Lower_bounded k : bounded radius (d10Lower radius k).
Proof.
  apply d10_ring_bounded. pose proof (d10h_bounds radius radius_normal_pos). lra.
Qed.

(** A triangle of the solid, by the direction [w] of its kite: the stored
    triangle has a unit normal within a whisker of the direction. *)
Lemma stored_normal_close (a b c w : Vector3) :
  bounded radius a -> bounded radius b -> bounded radius c ->
  triangleCross (a, b, c)
  = V3.multiplyScalar w (d10r radius * sin (PI / 5)) ->
  V3.dot w w = d10W2 radius ->
  V3.dot w a = d10r radius * d10H radius ->
  V3.dot w b = d10r radius * d10H radius ->
  V3.dot w c = d10r radius * d10H radius ->
  isUnit (outwardNormal (float32Triangle (a, b, c)))
  /\ 1 - 2 / 100000
     <= V3.dot (outwardNormal (float32Triangle (a, b, c))) (V3.normalize w).
Proof.
  intros Ha Hb Hc Hcross Hww Hwa Hwb Hwc.
  pose proof radius_normal_pos as Hr.
  pose proof (d10_scale_pos radius Hr) as Hk.
  pose proof sin_PI5_sq as Hs2. pose proof sin_PI5_lower as Hs.
  pose proof (d10_P_bounds radius Hr) as HP.
  rewrite <- (normalize_scale w _ Hk), <- Hcross.
  unfold float32Triangle. cbn [fst snd].
  apply (outwardNormal_close radius a b c); try done;
    try (by apply float32_within).
  - rewrite Hcross.
    replace (V3.dot (V3.multiplyScalar w (d10r radius * sin (PI / 5)))
                    (V3.multiplyScalar w (d10r radius * sin (PI / 5))))
      with (d10r radius * d10r radius * (sin (PI / 5) * sin (PI / 5))
            * V3.dot w w)
      by (unfold V3.dot, V3.multiplyScalar; cbn; ring).
    rewrite Hww. unfold d10W2, d10r, d10H in *.
    set (s2 := sin (PI / 5) * sin (PI / 5)) in *.
    set (P := d10h radius + radius) in *.
    assert (HPP : radius * radius <= P * P) by nra.
    assert (Hr2 : 0 < radius * radius) by nra.
    assert (H1 : 0.7225 * 0.3439 * (radius * radius)
                 <= radius * 0.85 * (radius * 0.85) * s2) by nra.
    assert (H2 : 1.7225 * (radius * radius)
                 <= P * P + radius * 0.85 * (radius * 0.85)) by nra.
    assert (H3 : 0.7225 * 0.3439 * (radius * radius) * (1.7225 * (radius * radius))
                 <= radius * 0.85 * (radius * 0.85) * s2
                    * (P * P + radius * 0.85 * (radius * 0.85))).
    { apply Rmult_le_compat; nra. }
    nra.
  - rewrite Hcross.
    replace (V3.dot (V3.multiplyScalar w (d10r radius * sin (PI / 5)))
                    (V3.add (V3.add a b) c))
      with (d10r radius * sin (PI / 5)
            * (V3.dot w a + V3.dot w b + V3.dot w c))
      by (unfold V3.dot, V3.multiplyScalar, V3.add; cbn; ring).
    rewrite Hwa, Hwb, Hwc. unfold d10r, d10H in *.
    assert (Hr2 : 0 < radius * radius) by nra.
    assert (H1 : 0.85 * 0.58 * radius <= radius * 0.85 * sin (PI / 5)) by nra.
    assert (H2 : 0 <= radius * 0.85 * radius + radius * 0.85 * radius
                      + radius * 0.85 * radius) by nra.
    assert (H3 : 0.85 * 0.58 * radius
                 * (radius * 0.85 * radius + radius * 0.85 * radius
                    + radius * 0.85 * radius)
                 <= radius * 0.85 * sin (PI / 5)
                    * (radius * 0.85 * radius + radius * 0.85 * radius
                       + radius * 0.85 * radius)).
    { apply Rmult_le_compat_r; lra. }
    nra.
Qed.

End D10Stored.

(** ** Unit vectors within a whisker of the normals of the solid *)

Lemma aligned_near (n1 n2 m : Vector3) :
  isUnit m -> aligned n1 m -> aligned n2 m -> near n1 n2.
Proof.
  intros Hm [H1 Hc1] [H2 Hc2]. unfold near.
  pose proof (close_near (2 / 100000) n1 n2 m H1 H2 Hm Hc1 Hc2). lra.
Qed.

Lemma aligned_dot (n1 n2 m1 m2 : Vector3) :
  isUnit m1 -> isUnit m2 -> aligned n1 m1 -> aligned n2 m2 ->
  - 0.0128 <= V3.dot n1 n2 - V3.dot m1 m2 <= 0.0128.
Proof.
  intros Hm1 Hm2 [H1 Hc1] [H2 Hc2].
  pose proof (close_far (2 / 100000) 0.0064 n1 n2 m1 m2 H1 H2 Hm1 Hm2 Hc1 Hc2
                ltac:(lra) ltac:(lra)).
  lra.
Qed.

Lemma aligned_apart (n1 n2 m1 m2 : Vector3) :
  isUnit m1 -> isUnit m2 -> aligned n1 m1 -> aligned n2 m2 ->
  V3.dot m1 m2 <= 0.9 -> ~ near n1 n2.
Proof.
  intros Hm1 Hm2 Ha1 Ha2 Hd. unfold near.
  pose proof (aligned_dot n1 n2 m1 m2 Hm1 Hm2 Ha1 Ha2). lra.
Qed.

Lemma aligned_opposite (n1 n2 m1 m2 : Vector3) :
  isUnit m1 -> isUnit m2 -> aligned n1 m1 -> aligned n2 m2 ->
  V3.dot m1 m2 <= -1 -> V3.dot n1 n2 < -0.99.
Proof.
  intros Hm1 Hm2 [H1 Hc1] [H2 Hc2] Hd.
  pose proof (close_opposite (2 / 100000) n1 n2 m1 m2 H1 H2 Hm1 Hm2 Hd Hc1 Hc2).
  lra.
Qed.

Lemma aligned_not_opposite (n1 n2 m1 m2 : Vector3) :
  isUnit m1 -> isUnit m2 -> aligned n1 m1 -> aligned n2 m2 ->
  -0.9 <= V3.dot m1 m2 -> ~ V3.dot n1 n2 < -0.99.
Proof.
  intros Hm1 Hm2 Ha1 Ha2 Hd.
  pose proof (aligned_dot n1 n2 m1 m2 Hm1 Hm2 Ha1 Ha2). lra.
Qed.

(** ** The normals of the solid, with room to spare *)

Lemma div_bounds (x w lo hi : R) :
  0 < w -> lo * w <= x <= hi * w -> lo <= x / w <= hi.
Proof.
  intros Hw [Hlo Hhi]. split.
  - apply (Rmult_le_reg_r w); [done|].
    unfold Rdiv. rewrite Rmult_assoc, Rinv_l by lra. lra.
  - apply (Rmult_le_reg_r w); [done|].
    unfold Rdiv. rewrite Rmult_assoc, Rinv_l by lra. lra.
Qed.

Section D10Margins.

Variable radius : R.
Hypothesis radius_pos : 0 < radius.

Abbreviation P := (d10h radius + d10H radius).

Lemma d10_same_side_margin (al al' ry : R) :
  ry * ry = d10r radius * d10r radius ->
  cos (al - al') <= 0.31 ->
  -0.9 <= (P * P * cos (al - al') + ry * ry) / d10W2 radius <= 0.9.
Proof.
  intros Hry Hcos. pose proof (d10W2_pos radius radius_pos) as Hw.
  pose proof (d10_P_bounds radius radius_pos) as HP.
  pose proof (COS_bound (al - al')) as [Hc _].
  assert (HPP : radius * radius <= P * P <= 4 * (radius * radius)) by nra.
  assert (Hhi : P * P * cos (al - al') <= P * P * 0.31)
    by (apply Rmult_le_compat_l; nra).
  assert (Hlo : P * P * -1 <= P * P * cos (al - al'))
    by (apply Rmult_le_compat_l; nra).
  apply div_bounds; [done|]. rewrite Hry. unfold d10W2, d10r in *. nra.
Qed.

Lemma d10_other_side_margin (al al' : R) :
  -0.31 <= cos (al - al') ->
  -0.9 <= (P * P * cos (al - al') + d10r radius * - d10r radius) / d10W2 radius
  <= 0.9.
Proof.
  intros Hcos. pose proof (d10W2_pos radius radius_pos) as Hw.
  pose proof (d10_P_bounds radius radius_pos) as HP.
  pose proof (COS_bound (al - al')) as [_ Hc].
  assert (HPP : radius * radius <= P * P <= 4 * (radius * radius)) by nra.
  assert (Hhi : P * P * cos (al - al') <= P * P * 1)
    by (apply Rmult_le_compat_l; nra).
  assert (Hlo : P * P * -0.31 <= P * P * cos (al - al'))
    by (apply Rmult_le_compat_l; nra).
  apply div_bounds; [done|]. unfold d10W2, d10r in *. nra.
Qed.

Lemma d10_other_side_opposite (al al' : R) :
  cos (al - al') = -1 ->
  (P * P * cos (al - al') + d10r radius * - d10r radius) / d10W2 radius = -1.
Proof.
  intros ->. pose proof (d10W2_pos radius radius_pos) as Hw.
  unfold d10W2 in *. field. lra.
Qed.

(** Two kites on the same side of the solid. *)
Lemma d10_top_top_margin k k' :
  (k < 5)%nat -> (k' < 5)%nat -> k <> k' ->
  -0.9 <= V3.dot (V3.normalize (d10TopW radius k))
                 (V3.normalize (d10TopW radius k')) <= 0.9.
Proof.
  intros Hk Hk' Hne.
  rewrite (normalize_dot _ _ (d10W2 radius));
    [| by apply d10W2_pos | by apply d10TopW_norm | by apply d10TopW_norm].
  unfold d10TopW. rewrite dot_w_w. apply d10_same_side_margin; [done|].
  replace (d10aL k - d10aL k') with ((INR k - INR k') * (2 * (PI / 5)))
    by (unfold d10aL, d10aU; field).
  by apply cos_fifths.
Qed.

Lemma next_mod5_inj (k k' : nat) :
  (k < 5)%nat -> (k' < 5)%nat -> ((k + 1) mod 5 = (k' + 1) mod 5)%nat -> k = k'.
Proof.
  intros Hk Hk' E.
  assert (Hm : forall x, (x < 5)%nat ->
            ((x + 1) mod 5 = if decide (x = 4) then 0 else x + 1)%nat).
  { intros x Hx. destruct (decide (x = 4%nat)) as [-> | Hx4]; [done|].
    apply Nat.mod_small. lia. }
  rewrite (Hm k Hk), (Hm k' Hk') in E.
  destruct (decide (k = 4%nat)), (decide (k' = 4%nat)); lia.
Qed.

Lemma d10_bot_bot_margin k k' :
  (k < 5)%nat -> (k' < 5)%nat -> k <> k' ->
  -0.9 <= V3.dot (V3.normalize (d10BotW radius k))
                 (V3.normalize (d10BotW radius k')) <= 0.9.
Proof.
  intros Hk Hk' Hne.
  rewrite (normalize_dot _ _ (d10W2 radius));
    [| by apply d10W2_pos | by apply d10BotW_norm | by apply d10BotW_norm].
  unfold d10BotW. cbn zeta. rewrite dot_w_w. apply d10_same_side_margin; [ring|].
  replace (d10aU ((k + 1) mod 5) - d10aU ((k' + 1) mod 5))
    with ((INR ((k + 1) mod 5) - INR ((k' + 1) mod 5)) * (2 * (PI / 5)))
    by (unfold d10aU; field).
  apply cos_fifths; [apply Nat.mod_upper_bound; lia..|].
  intros E. apply Hne. by apply next_mod5_inj.
Qed.

(** A kite of the upper and one of the lower side: they face opposite
    ways when their azimuths are half a turn apart, and are far from it
    otherwise. *)
Lemma d10_top_bot_margin k j :
  (k < 5)%nat -> (j < 5)%nat ->
  (j = (k + 2) mod 5 ->
   V3.dot (V3.normalize (d10TopW radius k)) (V3.normalize (d10BotW radius j)) = -1)
  /\ (j <> (k + 2) mod 5 ->
      -0.9 <= V3.dot (V3.normalize (d10TopW radius k))
                     (V3.normalize (d10BotW radius j)) <= 0.9).
Proof.
  intros Hk Hj.
  rewrite (normalize_dot _ _ (d10W2 radius));
    [| by apply d10W2_pos | by apply d10TopW_norm | by apply d10BotW_norm].
  unfold d10TopW, d10BotW. cbn zeta. rewrite dot_w_w.
  assert (Hnj : ((j + 1) mod 5 < 5)%nat) by (apply Nat.mod_upper_bound; lia).
  destruct (cos_odd_fifths k ((j + 1) mod 5) Hk Hnj) as [Heq Hne].
  pose proof (mod5_partner k j Hk Hj) as [Hiff _].
  split; intros Hjk.
  - apply d10_other_side_opposite, Heq. by apply Hiff.
  - apply d10_other_side_margin, Hne. intros E. by apply Hjk, Hiff.
Qed.

End D10Margins.

(** ** The kites and their normals, by place *)

Lemma d10Opposite_top (k : nat) :
  (k < 5)%nat -> d10Opposite (2 * k) = (2 * ((k + 2) mod 5) + 1)%nat.
Proof.
  intros Hk. do 5 (destruct k as [|k]; [reflexivity|]). lia.
Qed.

Lemma d10Opposite_bot (k : nat) :
  (k < 5)%nat -> d10Opposite (2 * k + 1) = (2 * ((k + 3) mod 5))%nat.
Proof.
  intros Hk. do 5 (destruct k as [|k]; [reflexivity|]). lia.
Qed.

Lemma d10Kites_lookup (radius : R) (i : nat) (kite : Triangle * Triangle) :
  d10Kites radius !! i = Some kite ->
  exists k, (k < 5)%nat
    /\ ((i = 2 * k)%nat /\ kite = d10TopKite radius k
        \/ (i = 2 * k + 1)%nat /\ kite = d10BotKite radius k).
Proof.
  intros H.
  do 10 (destruct i as [|i];
         [injection H as <-;
          first [ exists 0%nat; split; [lia|]; first [left; split; [lia | reflexivity] | right; split; [lia | reflexivity]]
                | exists 1%nat; split; [lia|]; first [left; split; [lia | reflexivity] | right; split; [lia | reflexivity]]
                | exists 2%nat; split; [lia|]; first [left; split; [lia | reflexivity] | right; split; [lia | reflexivity]]
                | exists 3%nat; split; [lia|]; first [left; split; [lia | reflexivity] | right; split; [lia | reflexivity]]
                | exists 4%nat; split; [lia|]; first [left; split; [lia | reflexivity] | right; split; [lia | reflexivity]] ]|]).
  discriminate H.
Qed.

Section D10Table.

Variable radius : R.
Hypothesis radius_pos : 0 < radius.

(** Two different kites face opposite ways when one is at the opposite
    place of the other, and are far from both that and the same way
    otherwise. *)
Lemma d10Normals_margin (i j : nat) (m m' : Vector3) :
  i <> j -> d10Normals radius !! i = Some m -> d10Normals radius !! j = Some m' ->
  (j = d10Opposite i -> V3.dot m m' = -1)
  /\ (j <> d10Opposite i -> -0.9 <= V3.dot m m' <= 0.9).
Proof.
  intros Hij Hi Hj.
  apply d10Normals_lookup in Hi as (k & Hk & [[-> ->] | [-> ->]]);
    apply d10Normals_lookup in Hj as (k' & Hk' & [[-> ->] | [-> ->]]).
  - rewrite d10Opposite_top by done. split; [lia|]. intros _.
    apply d10_top_top_margin; [done | done | done | lia].
  - rewrite d10Opposite_top by done.
    destruct (d10_top_bot_margin radius radius_pos k k' Hk Hk') as [Heq Hne].
    split; intros H; [apply Heq | apply Hne]; lia.
  - rewrite d10Opposite_bot by done. rewrite dot_comm.
    destruct (d10_top_bot_margin radius radius_pos k' k Hk' Hk) as [Heq Hne].
    pose proof (mod5_partner k' k Hk' Hk) as [H1 H2].
    assert (Hiff : k = ((k' + 2) mod 5)%nat <-> k' = ((k + 3) mod 5)%nat)
      by (rewrite <- H1; exact H2).
    split; intros H; [apply Heq | apply Hne].
    + apply Hiff. lia.
    + intros E. apply H. apply Hiff in E. lia.
  - rewrite d10Opposite_bot by done. split; [lia|]. intros _.
    apply d10_bot_bot_margin; [done | done | done | lia].
Qed.

Lemma d10Opposite_lt (i : nat) : (i < 10)%nat -> (d10Opposite i < 10)%nat.
Proof. intros Hi. do 10 (destruct i as [|i]; [vm_compute; lia|]). lia. Qed.

Lemma d10Opposite_ne (i : nat) : (i < 10)%nat -> d10Opposite i <> i.
Proof. intros Hi. do 10 (destruct i as [|i]; [vm_compute; lia|]). lia. Qed.

End D10Table.

Section D10StoredKites.

Variable radius : R.
Hypothesis radius_normal : powerRZ 2 (-126) <= radius.

(** Both triangles of a stored kite are within a whisker of the normal of
    the kite. *)
Lemma d10_top_stored (k : nat) :
  (k < 5)%nat ->
  aligned (outwardNormal (float32Triangle (d10TopKite radius k).1))
          (V3.normalize (d10TopW radius k))
  /\ aligned (outwardNormal (float32Triangle (d10TopKite radius k).2))
             (V3.normalize (d10TopW radius k)).
Proof.
  intros Hk. pose proof (radius_normal_pos radius radius_normal) as Hr.
  pose proof (d10_top_plane radius k Hk) as Hplane.
  unfold kiteCluster, d10TopKite in Hplane.
  cbn [cverts fst snd triangleVerts app] in Hplane.
  apply Forall_cons in Hplane as [H1 Hplane].
  apply Forall_cons in Hplane as [H2 Hplane].
  apply Forall_cons in Hplane as [H3 Hplane].
  apply Forall_cons in Hplane as [_ Hplane].
  apply Forall_cons in Hplane as [H5 _].
  destruct (d10TopKite_planar radius k Hk) as (_ & _ & Heq & _).
  pose proof (d10_top_cross radius k) as Hc1.
  unfold d10TopKite in *. cbn [fst snd] in *.
  assert (Hc2 := Hc1). rewrite Heq in Hc2. unfold aligned. split.
  - apply (stored_normal_close radius radius_normal); try done.
    + apply d10Top_bounded; done.
    + apply d10Lower_bounded; done.
    + apply d10Upper_bounded; done.
    + apply d10TopW_norm.
  - apply (stored_normal_close radius radius_normal); try done.
    + apply d10Top_bounded; done.
    + apply d10Upper_bounded; done.
    + apply d10Lower_bounded; done.
    + apply d10TopW_norm.
Qed.

Lemma d10_bot_stored (k : nat) :
  (k < 5)%nat ->
  aligned (outwardNormal (float32Triangle (d10BotKite radius k).1))
          (V3.normalize (d10BotW radius k))
  /\ aligned (outwardNormal (float32Triangle (d10BotKite radius k).2))
             (V3.normalize (d10BotW radius k)).
Proof.
  intros Hk. pose proof (radius_normal_pos radius radius_normal) as Hr.
  pose proof (d10_bot_plane radius k Hk) as Hplane.
  unfold kiteCluster, d10BotKite in Hplane.
  cbn [cverts fst snd triangleVerts app] in Hplane.
  apply Forall_cons in Hplane as [H1 Hplane].
  apply Forall_cons in Hplane as [H2 Hplane].
  apply Forall_cons in Hplane as [H3 Hplane].
  apply Forall_cons in Hplane as [_ Hplane].
  apply Forall_cons in Hplane as [_ Hplane].
  apply Forall_cons in Hplane as [H6 _].
  destruct (d10BotKite_planar radius k Hk) as (_ & _ & Heq & _).
  pose proof (d10_bot_cross radius k Hk) as Hc1.
  unfold d10BotKite in *. cbn [fst snd] in *.
  assert (Hc2 := Hc1). rewrite Heq in Hc2. unfold aligned. split.
  - apply (stored_normal_close radius radius_normal); try done.
    + apply d10Bot_bounded; done.
    + apply d10Lower_bounded; done.
    + apply d10Upper_bounded; done.
    + apply d10BotW_norm.
  - apply (stored_normal_close radius radius_normal); try done.
    + apply d10Bot_bounded; done.
    + apply d10Upper_bounded; done.
    + apply d10Lower_bounded; done.
    + apply d10BotW_norm.
Qed.

Lemma d10_stored_kite (i : nat) (kite : Triangle * Triangle) (m : Vector3) :
  d10Kites radius !! i = Some kite -> d10Normals radius !! i = Some m ->
  isUnit m
  /\ aligned (outwardNormal (float32Triangle kite.1)) m
  /\ aligned (outwardNormal (float32Triangle kite.2)) m.
Proof.
  intros Hkite Hm. pose proof (radius_normal_pos radius radius_normal) as Hr.
  split.
  { pose proof (d10Normals_unit radius Hr) as Hu. rewrite Forall_lookup in Hu.
    by apply (Hu i). }
  apply d10Kites_lookup in Hkite as (k & Hk & [[-> ->] | [-> ->]]);
    apply d10Normals_lookup in Hm as (k' & Hk' & [[E ->] | [E ->]]);
    try lia; assert (k' = k) as -> by lia.
  - by apply d10_top_stored.
  - by apply d10_bot_stored.
Qed.

End D10StoredKites.

(** ** The triangles of the stored geometry *)

Lemma trianglesOf_float32 (pos : list Vector3) :
  trianglesOf (float32 <$> pos) = float32Triangle <$> trianglesOf pos.
Proof.
  assert (Hgen : forall n pos, (length pos <= n)%nat ->
            trianglesOf (float32 <$> pos) = float32Triangle <$> trianglesOf pos).
  { clear pos. induction n as [|n IH]; intros pos Hn.
    - destruct pos; [done | cbn in Hn; lia].
    - destruct pos as [|a [|b [|c rest]]]; [done..|].
      cbn [fmap list_fmap trianglesOf]. rewrite IH by (cbn in Hn; lia). done. }
  by apply (Hgen (length pos)).
Qed.

Lemma kiteTriangles_float32 (kites : list (Triangle * Triangle)) :
  kiteTriangles (float32Kite <$> kites) = float32Triangle <$> kiteTriangles kites.
Proof.
  induction kites as [|kite kites IH]; [done|].
  unfold kiteTriangles in *. cbn [fmap list_fmap concat app]. by rewrite IH.
Qed.

Section D10StoredFaces.

Variable radius : R.
Hypothesis radius_normal : powerRZ 2 (-126) <= radius.

Lemma d10_stored_triangles :
  trianglesOf (position (createD10Geometry radius))
  = kiteTriangles (float32Kite <$> d10Kites radius).
Proof.
  cbn [createD10Geometry position].
  by rewrite trianglesOf_float32, d10_triangles_of_kites, kiteTriangles_float32.
Qed.

Lemma d10_normal_of_kite (i : nat) (kite : Triangle * Triangle) :
  d10Kites radius !! i = Some kite ->
  exists m, d10Normals radius !! i = Some m.
Proof.
  intros H. pose proof (radius_normal_pos radius radius_normal) as Hr.
  rewrite <- (d10_kite_normals radius Hr), list_lookup_fmap, H. by eexists.
Qed.

(** Two stored triangles of different kites are apart, whichever. *)
Lemma d10_stored_apart (i j : nat) (k1 k2 : Triangle * Triangle) :
  i <> j -> d10Kites radius !! i = Some k1 -> d10Kites radius !! j = Some k2 ->
  ~ near (outwardNormal (float32Triangle k1.1)) (outwardNormal (float32Triangle k2.1))
  /\ ~ near (outwardNormal (float32Triangle k1.1))
            (outwardNormal (float32Triangle k2.2)).
Proof.
  intros Hij H1 H2. pose proof (radius_normal_pos radius radius_normal) as Hr.
  destruct (d10_normal_of_kite i k1 H1) as [m1 Hm1].
  destruct (d10_normal_of_kite j k2 H2) as [m2 Hm2].
  destruct (d10_stored_kite radius radius_normal i k1 m1 H1 Hm1) as (Hu1 & Ha1 & _).
  destruct (d10_stored_kite radius radius_normal j k2 m2 H2 Hm2) as (Hu2 & Ha2 & Hb2).
  destruct (d10Normals_margin radius Hr i j m1 m2 Hij Hm1 Hm2) as [Heq Hne].
  assert (Hd : V3.dot m1 m2 <= 0.9).
  { destruct (decide (j = d10Opposite i)) as [E | E].
    - rewrite (Heq E). lra.
    - apply (Hne E). }
  split; by apply (aligned_apart _ _ m1 m2).
Qed.

Lemma d10_stored_clusters :
  clustersOf (position (createD10Geometry radius))
  = kiteCluster <$> (float32Kite <$> d10Kites radius).
Proof.
  unfold clustersOf. rewrite d10_stored_triangles.
  rewrite (clusters_of_kites _ []); [done | | done |].
  - apply Forall_lookup. intros i kite' Hi.
    rewrite list_lookup_fmap in Hi.
    destruct (d10Kites radius !! i) as [kite|] eqn:Hk; [|done].
    injection Hi as <-.
    destruct (d10_normal_of_kite i kite Hk) as [m Hm].
    destruct (d10_stored_kite radius radius_normal i kite m Hk Hm) as (Hu & Ha & Hb).
    unfold float32Kite. cbn [fst snd]. by apply (aligned_near _ _ m).
  - apply StronglySorted_of_lookup. intros i j k1' k2' Hij H1 H2.
    rewrite list_lookup_fmap in H1, H2.
    destruct (d10Kites radius !! i) as [k1|] eqn:Hk1; [|done].
    destruct (d10Kites radius !! j) as [k2|] eqn:Hk2; [|done].
    injection H1 as <-. injection H2 as <-.
    unfold float32Kite. cbn [fst snd].
    apply (d10_stored_apart i j); [lia | done | done].
Qed.

(** The faces of the stored D10 are those of its ten kites, in some
    order. *)
Lemma d10_stored_faces :
  computeFaces (createD10Geometry radius) 10
  ≡ₚ clusterFace <$> (kiteCluster <$> (float32Kite <$> d10Kites radius)).
Proof.
  unfold computeFaces. cbn [index createD10Geometry].
  unfold clusteredFaces.
  change (float32 <$> d10Verts radius) with (position (createD10Geometry radius)).
  rewrite d10_stored_clusters. by rewrite sortClusters_perm.
Qed.

End D10StoredFaces.

(** ** The labels of the stored D10 have an up direction *)

Lemma sum_within (δ ε : R) (vs vs' : list Vector3) (acc acc' : Vector3) :
  within ε acc acc' -> Forall2 (within δ) vs vs' ->
  within (ε + INR (length vs) * δ) (foldl V3.add acc vs) (foldl V3.add acc' vs').
Proof.
  intros Hacc H. revert ε acc acc' Hacc.
  induction H as [|v v' vs vs' Hv _ IH]; intros ε acc acc' Hacc.
  - cbn [foldl length INR]. by rewrite Rmult_0_l, Rplus_0_r.
  - cbn [foldl length]. rewrite S_INR.
    replace (ε + (INR (length vs) + 1) * δ) with ((ε + δ) + INR (length vs) * δ)
      by ring.
    apply IH. unfold within, V3.add in *. cbn.
    destruct Hacc as (? & ? & ?), Hv as (? & ? & ?). repeat split; lra.
Qed.

Lemma centre_within (δ : R) (vs vs' : list Vector3) :
  vs <> [] -> Forall2 (within δ) vs vs' -> within δ (centre vs) (centre vs').
Proof.
  intros Hne H. pose proof (Forall2_length _ _ _ H) as Hlen.
  assert (Hn : 0 < INR (length vs))
    by (apply lt_0_INR; destruct vs; [done | cbn; lia]).
  assert (H0 : within 0 V3.zero V3.zero).
  { unfold within, V3.zero. cbn. repeat split; lra. }
  pose proof (sum_within δ 0 vs vs' _ _ H0 H) as Hs.
  unfold centre, sumVectors. rewrite <- Hlen.
  set (s := foldl V3.add V3.zero vs) in *.
  set (s' := foldl V3.add V3.zero vs') in *.
  set (n := INR (length vs)) in *. rewrite Rplus_0_l in Hs.
  destruct Hs as (Hx & Hy & Hz).
  assert (Hinv : 0 < 1 / n) by (apply Rdiv_lt_0_compat; lra).
  assert (E : n * δ * (1 / n) = δ) by (field; lra).
  unfold within, V3.divideScalar, V3.multiplyScalar. cbn.
  repeat split; nra.
Qed.

Lemma float32_all_within (radius : R) (vs : list Vector3) :
  powerRZ 2 (-126) <= radius -> Forall (bounded radius) vs ->
  Forall2 (within (radius / 10000000)) vs (float32 <$> vs).
Proof.
  intros Hr H. induction H as [|v vs Hv _ IH]; [constructor|].
  cbn [fmap list_fmap]. constructor; [by apply float32_within | done].
Qed.

Lemma kiteCluster_float32 (kite : Triangle * Triangle) :
  cverts (kiteCluster (float32Kite kite)) = float32 <$> cverts (kiteCluster kite).
Proof. by destruct kite as [[[a b] c] [[a' b'] c']]. Qed.

(** The stored centroid is off the exact one by no more than the vertices
    are, and the stored normal by a whisker: the direction to the pole
    keeps a part in the plane. *)
Lemma projectedToPole_stored (c c' n m pole : Vector3) (δ : R) :
  poleOf c' = pole -> within δ c c' -> 0 <= δ <= 1 / 1000000 ->
  isUnit m -> aligned n m -> V3.dot (V3.sub pole c) m = 0 ->
  0.49 <= (vy pole - vy c') * (vy pole - vy c') ->
  projectedToPole c' n <> V3.zero.
Proof.
  intros Hpole Hw Hδ Hm [Hn Hnm] Hplane Hy E.
  unfold projectedToPole in E. rewrite Hpole in E.
  set (T := V3.sub pole c') in *.
  assert (HTT : 0.49 <= V3.dot T T).
  { unfold T, V3.dot, V3.sub. cbn.
    pose proof (Rle_0_sqr (vx pole - vx c')) as Hx.
    pose proof (Rle_0_sqr (vz pole - vz c')) as Hz. unfold Rsqr in *. lra. }
  assert (Hself : V3.dot T T = V3.dot T n * V3.dot T n).
  { assert (ET : T = V3.multiplyScalar n (V3.dot T n)).
    { assert (Ex := f_equal vx E). assert (Ey := f_equal vy E).
      assert (Ez := f_equal vz E).
      unfold V3.addScaledVector, V3.zero in Ex, Ey, Ez. cbn in Ex, Ey, Ez.
      apply vec3_eq; unfold V3.multiplyScalar; cbn; lra. }
    rewrite ET at 1 2.
    replace (V3.dot (V3.multiplyScalar n (V3.dot T n))
                    (V3.multiplyScalar n (V3.dot T n)))
      with (V3.dot T n * V3.dot T n * V3.dot n n)
      by (unfold V3.dot, V3.multiplyScalar; cbn; ring).
    unfold isUnit in Hn. rewrite Hn. ring. }
  (* the part along the exact normal *)
  assert (Hx : V3.dot T m * V3.dot T m <= 3 * (δ * δ)).
  { assert (Ex : V3.dot T m = - V3.dot (V3.sub c' c) m).
    { unfold T. unfold V3.dot, V3.sub in *. cbn in *. lra. }
    rewrite Ex.
    pose proof (dot_sq_le (V3.sub c' c) m) as Hcs.
    pose proof (within_norm δ c c' Hw) as Hd.
    unfold isUnit in Hm. rewrite Hm in Hcs. nra. }
  (* the part along the difference of the normals *)
  assert (Hy' : V3.dot T (V3.sub n m) * V3.dot T (V3.sub n m)
                <= V3.dot T T * (4 / 100000)).
  { pose proof (dot_sq_le T (V3.sub n m)) as Hcs.
    assert (Hd : V3.dot (V3.sub n m) (V3.sub n m) <= 4 / 100000).
    { replace (V3.dot (V3.sub n m) (V3.sub n m))
        with (V3.dot n n + V3.dot m m - 2 * V3.dot n m)
        by (unfold V3.dot, V3.sub; cbn; ring).
      unfold isUnit in *. rewrite Hn, Hm. lra. }
    assert (0 <= V3.dot T T) by apply dot_self_nonneg. nra. }
  assert (Esum : V3.dot T n = V3.dot T m + V3.dot T (V3.sub n m)).
  { unfold V3.dot, V3.sub. cbn. ring. }
  set (x := V3.dot T m) in *. set (y := V3.dot T (V3.sub n m)) in *.
  assert (Hxy : (x + y) * (x + y) <= 2 * (x * x) + 2 * (y * y)).
  { pose proof (Rle_0_sqr (x - y)) as H. unfold Rsqr in H. lra. }
  rewrite Esum in Hself. nra.
Qed.

(** ** Partners among unit vectors within a whisker of a table of normals *)

Lemma aligned_partners (ns ms : list Vector3) (opp : nat -> nat) :
  Forall2 aligned ns ms -> Forall isUnit ms ->
  (forall i, (i < length ms)%nat -> (opp i < length ms)%nat /\ opp i <> i) ->
  (forall i j m m', i <> j -> ms !! i = Some m -> ms !! j = Some m' ->
     (j = opp i -> V3.dot m m' = -1)
     /\ (j <> opp i -> -0.9 <= V3.dot m m' <= 0.9)) ->
  NoDup ns
  /\ forall n, n ∈ ns ->
       exists n', n' ∈ ns /\ V3.dot n n' < -0.99
         /\ forall n'', n'' ∈ ns -> V3.dot n n'' < -0.99 -> n'' = n'.
Proof.
  intros Hal Hu Hopp Hmargin.
  pose proof (Forall2_length _ _ _ Hal) as Hlen.
  assert (Hat : forall i n, ns !! i = Some n ->
            exists m, ms !! i = Some m /\ isUnit m /\ aligned n m).
  { intros i n Hn.
    destruct (Forall2_lookup_l _ _ _ _ _ Hal Hn) as (m & Hm & Ha).
    exists m. split; [done|]. split; [|done].
    rewrite Forall_lookup in Hu. by apply (Hu i). }
  assert (Hdot : forall i j n n', i <> j -> ns !! i = Some n -> ns !! j = Some n' ->
            (j = opp i -> V3.dot n n' < -0.99)
            /\ (j <> opp i -> ~ V3.dot n n' < -0.99)
            /\ V3.dot n n' <= 0.92).
  { intros i j n n' Hij Hi Hj.
    destruct (Hat i n Hi) as (m & Hm & Hum & Ham).
    destruct (Hat j n' Hj) as (m' & Hm' & Hum' & Ham').
    destruct (Hmargin i j m m' Hij Hm Hm') as [Heq Hne].
    pose proof (aligned_dot n n' m m' Hum Hum' Ham Ham') as Hd.
    split; [|split].
    - intros E. apply (aligned_opposite _ _ m m'); try done. rewrite (Heq E). lra.
    - intros E. apply (aligned_not_opposite _ _ m m'); try done. apply (Hne E).
    - destruct (decide (j = opp i)) as [E | E].
      + rewrite (Heq E) in Hd. lra.
      + pose proof (Hne E). lra. }
  split.
  - apply NoDup_alt. intros i j n Hi Hj.
    destruct (decide (i = j)) as [|Hne]; [done|]. exfalso.
    destruct (Hdot i j n n Hne Hi Hj) as (_ & _ & Hle).
    destruct (Hat i n Hi) as (_ & _ & _ & [Hn _]). unfold isUnit in Hn. lra.
  - intros n [i Hi]%list_elem_of_lookup.
    assert (Hilt : (i < length ms)%nat)
      by (rewrite <- Hlen; by eapply lookup_lt_Some).
    destruct (Hopp i Hilt) as [Hlt Hne].
    destruct (lookup_lt_is_Some_2 ns (opp i)) as [n' Hn']; [lia|].
    exists n'. split; [apply list_elem_of_lookup; by exists (opp i)|].
    destruct (Hdot i (opp i) n n' ltac:(done) Hi Hn') as (Hyes & _ & _).
    split; [by apply Hyes|].
    intros n'' [j Hj]%list_elem_of_lookup Hlt''.
    destruct (decide (j = i)) as [-> | Hji].
    { assert (n'' = n) as -> by congruence.
      destruct (Hat i n Hi) as (_ & _ & _ & [Hn _]). unfold isUnit in Hn. lra. }
    destruct (Hdot i j n n'' ltac:(done) Hi Hj) as (_ & Hno & _).
    destruct (decide (j = opp i)) as [-> | Hjo]; [congruence|].
    by destruct (Hno Hjo).
Qed.

(** ** The stored D10 of the die *)

Lemma dot_sub_r (w p c : Vector3) :
  V3.dot w (V3.sub p c) = V3.dot w p - V3.dot w c.
Proof. unfold V3.dot, V3.sub. cbn. ring. Qed.

Lemma radius_die_normal : powerRZ 2 (-126) <= 1.2.
Proof.
  assert (H : powerRZ 2 (-126) <= powerRZ 2 0) by (apply powerRZ2_le; lia).
  change (powerRZ 2 0) with 1 in H. lra.
Qed.

Lemma d10_top_wellPlaced (k : nat) :
  (k < 5)%nat ->
  wellPlaced (clusterFace (kiteCluster (float32Kite (d10TopKite 1.2 k)))) 10.
Proof.
  intros Hk. unfold wellPlaced. rewrite decide_True by done.
  pose proof radius_die_normal as Hrn. assert (Hr : 0 < 1.2) by lra.
  pose proof (d10_top_centroid_y 1.2 k) as Hy. unfold d10H in Hy.
  set (c := centroid (clusterFace (kiteCluster (d10TopKite 1.2 k)))) in *.
  assert (Hw : within (1.2 / 10000000) c
                 (centroid (clusterFace (kiteCluster (float32Kite (d10TopKite 1.2 k)))))).
  { unfold c, clusterFace. cbn [centroid]. rewrite kiteCluster_float32.
    apply (centre_within _ (cverts (kiteCluster (d10TopKite 1.2 k)))); [done|].
    apply float32_all_within; [done|].
    unfold kiteCluster, d10TopKite. cbn [cverts fst snd triangleVerts app].
    repeat (apply Forall_cons_2;
            [first [ by apply d10Top_bounded | by apply d10Upper_bounded
                   | by apply d10Lower_bounded ]|]).
    apply Forall_nil_2. }
  destruct (d10_top_stored 1.2 Hrn k Hk) as [Ha _].
  assert (Hvy := proj1 (proj2 Hw)).
  apply (projectedToPole_stored c _ _ (V3.normalize (d10TopW 1.2 k)) (d10Top 1.2)
           (1.2 / 10000000)).
  - unfold poleOf. rewrite decide_True by lra. done.
  - exact Hw.
  - lra.
  - by apply normalize_isUnit, d10TopW_nonzero.
  - exact Ha.
  - apply dot_normalize_zero.
    pose proof (d10_top_plane 1.2 k Hk) as Hplane.
    pose proof (dot_centroid _ (cverts (kiteCluster (d10TopKite 1.2 k))) _
                  ltac:(done) Hplane) as Hc.
    assert (Hp : V3.dot (d10TopW 1.2 k) (d10Top 1.2) = d10r 1.2 * d10H 1.2)
      by (unfold d10TopW, d10Top; by rewrite dot_w_pole).
    change (V3.divideScalar _ _) with c in Hc.
    rewrite dot_sub_r, Hp, Hc. ring.
  - unfold d10Top, d10H. cbn [vy]. rewrite Hy in Hvy. nra.
Qed.

Lemma d10_bot_wellPlaced (k : nat) :
  (k < 5)%nat ->
  wellPlaced (clusterFace (kiteCluster (float32Kite (d10BotKite 1.2 k)))) 10.
Proof.
  intros Hk. unfold wellPlaced. rewrite decide_True by done.
  pose proof radius_die_normal as Hrn. assert (Hr : 0 < 1.2) by lra.
  pose proof (d10_bot_centroid_y 1.2 k) as Hy. unfold d10H in Hy.
  set (c := centroid (clusterFace (kiteCluster (d10BotKite 1.2 k)))) in *.
  assert (Hw : within (1.2 / 10000000) c
                 (centroid (clusterFace (kiteCluster (float32Kite (d10BotKite 1.2 k)))))).
  { unfold c, clusterFace. cbn [centroid]. rewrite kiteCluster_float32.
    apply (centre_within _ (cverts (kiteCluster (d10BotKite 1.2 k)))); [done|].
    apply float32_all_within; [done|].
    unfold kiteCluster, d10BotKite. cbn [cverts fst snd triangleVerts app].
    repeat (apply Forall_cons_2;
            [first [ by apply d10Bot_bounded | by apply d10Upper_bounded
                   | by apply d10Lower_bounded ]|]).
    apply Forall_nil_2. }
  destruct (d10_bot_stored 1.2 Hrn k Hk) as [Ha _].
  assert (Hvy := proj1 (proj2 Hw)).
  apply (projectedToPole_stored c _ _ (V3.normalize (d10BotW 1.2 k)) (d10Bot 1.2)
           (1.2 / 10000000)).
  - unfold poleOf. rewrite decide_False by lra. done.
  - exact Hw.
  - lra.
  - by apply normalize_isUnit, d10BotW_nonzero.
  - exact Ha.
  - apply dot_normalize_zero.
    pose proof (d10_bot_plane 1.2 k Hk) as Hplane.
    pose proof (dot_centroid _ (cverts (kiteCluster (d10BotKite 1.2 k))) _
                  ltac:(done) Hplane) as Hc.
    assert (Hp : V3.dot (d10BotW 1.2 k) (d10Bot 1.2) = d10r 1.2 * d10H 1.2)
      by (unfold d10BotW, d10Bot; cbn zeta; rewrite dot_w_pole; ring).
    change (V3.divideScalar _ _) with c in Hc.
    rewrite dot_sub_r, Hp, Hc. ring.
  - unfold d10Bot, d10H. cbn [vy]. rewrite Hy in Hvy. nra.
Qed.

(** The faces [computeFaces] finds on the stored D10 geometry make a regular
    die. *)
Lemma d10_regularDie : regularDie (computeFaces (createD10Geometry 1.2) 10) 10.
Proof.
  pose proof radius_die_normal as Hrn. assert (Hr : 0 < 1.2) by lra.
  pose proof (d10_stored_faces 1.2 Hrn) as Hperm.
  assert (Hal : Forall2 aligned
                  (normal <$> (clusterFace <$> (kiteCluster <$>
                     (float32Kite <$> d10Kites 1.2))))
                  (d10Normals 1.2)).
  { apply Forall2_same_length_lookup. split.
    - rewrite !length_fmap. reflexivity.
    - intros i n m Hn Hm. rewrite !list_lookup_fmap in Hn.
      destruct (d10Kites 1.2 !! i) as [kite|] eqn:Hk; [|done].
      injection Hn as <-.
      by destruct (d10_stored_kite 1.2 Hrn i kite m Hk Hm) as (_ & Ha & _). }
  split; [|split].
  - rewrite Hperm, !length_fmap. reflexivity.
  - rewrite Hperm. apply Forall_fmap, Forall_fmap, Forall_fmap.
    unfold d10Kites. apply Forall_concat, Forall_fmap, Forall_forall.
    intros k Hk%elem_of_seq. assert (Hk5 : (k < 5)%nat) by lia.
    apply Forall_cons_2; [|apply Forall_cons_2; [|apply Forall_nil_2]];
      unfold compose; (split; [|]).
    + by destruct (d10_top_stored 1.2 Hrn k Hk5) as [[Hu _] _].
    + by apply d10_top_wellPlaced.
    + by destruct (d10_bot_stored 1.2 Hrn k Hk5) as [[Hu _] _].
    + by apply d10_bot_wellPlaced.
  - intros _ _.
    destruct (aligned_partners _ _ d10Opposite Hal (d10Normals_unit 1.2 Hr))
      as [Hnd Hpart].
    + intros i Hi. change (length (d10Normals 1.2)) with 10%nat in *.
      split; [by apply d10Opposite_lt | by apply d10Opposite_ne].
    + intros i j m m' Hij Hm Hm'. by apply (d10Normals_margin 1.2 Hr i j).
    + apply (uniquePartner_of_normals _ _ (fmap_Permutation normal _ _ Hperm)
               Hnd Hpart).
Qed.

(** * The sample octahedron is a regular die *)

(** Triangles with normals that are apart from each other and from the
    clusters so far: each triangle becomes one cluster, in order. *)
Lemma clusters_of_triangles (ts : list Triangle) (cls : list Cluster) :
  separated ((cnormal <$> cls) ++ (outwardNormal <$> ts)) ->
  foldl clusterStep cls ts = cls ++ (triangleCluster <$> ts).
Proof.
  revert cls. induction ts as [|t ts IH]; intros cls Hs.
  - by rewrite app_nil_r.
  - cbn [foldl fmap list_fmap].
    assert (Hstep : clusterStep cls t = cls ++ [triangleCluster t]).
    { destruct t as [[a b] c]. unfold clusterStep.
      apply insertTriangle_new, Forall_forall. intros cl Hcl.
      apply (StronglySorted_app_1_elem_of _ _ _ _ _ Hs).
      - by apply list_elem_of_fmap_2.
      - cbn [fmap list_fmap]. left. }
    rewrite Hstep, IH; [by rewrite <- app_assoc|].
    rewrite fmap_app. cbn [fmap list_fmap]. by rewrite <- app_assoc.
Qed.

Lemma uniqueVerts_subset (vs : list Vector3) (v : Vector3) :
  v ∈ uniqueVerts vs -> v ∈ vs.
Proof.
  unfold uniqueVerts.
  assert (Hgen : forall acc,
            v ∈ foldl (fun unique v =>
                         if decide (Exists (fun u => V3.distanceTo v u < 0.001) unique)
                         then unique else unique ++ [v]) acc vs ->
            v ∈ acc \/ v ∈ vs).
  { induction vs as [|x vs IH]; intros acc H; [by left|].
    cbn [foldl] in H. apply IH in H as [H | H].
    - destruct (decide _); [by left|].
      apply elem_of_app in H as [H | H]; [by left|].
      apply list_elem_of_singleton in H as ->. right. left.
    - right. by right. }
  intros H. apply Hgen in H as [H | H]; [|done]. by apply elem_of_nil in H.
Qed.

(** A cluster whose vertices lie in a plane across the direction of its
    normal, none of them at the centroid: the label's up direction may be
    snapped to any of them. *)
Lemma planar_cluster_wellPlaced (cl : Cluster) (w : Vector3) (δ : R) (sides : Z) :
  sides ≠ 10%Z -> cnormal cl = V3.normalize w -> cverts cl <> [] ->
  Forall (fun v => V3.dot w v = δ /\ v <> centroid (clusterFace cl)) (cverts cl) ->
  wellPlaced (clusterFace cl) sides.
Proof.
  intros H10 Hn Hne Hvs. unfold wellPlaced.
  rewrite decide_False by done. destruct (decide _) as [_|]; [|done].
  assert (Hplane : Forall (fun v => V3.dot w v = δ) (cverts cl))
    by (eapply Forall_impl; [exact Hvs|]; by intros v [? _]).
  pose proof (dot_centroid w (cverts cl) δ Hne Hplane) as Hc.
  apply Forall_forall. intros v Hv.
  cbn [verts clusterFace] in Hv. apply uniqueVerts_subset in Hv.
  rewrite Forall_forall in Hvs. destruct (Hvs v Hv) as [Hd Hneq].
  split; [done|]. unfold perpendicular. cbn [normal clusterFace]. rewrite Hn.
  apply dot_normalize_zero. cbn [centroid clusterFace].
  unfold V3.dot, V3.sub in *. cbn [vx vy vz]. lra.
Qed.

Lemma octaNormals_separated : separated (V3.normalize <$> octaDirections).
Proof.
  apply StronglySorted_of_lookup. intros i j a b Hij Ha Hb. unfold near.
  pose proof (octaNormals_apart i j a b ltac:(lia) Ha Hb). lra.
Qed.

Lemma octahedron_faces :
  computeFaces octahedronGeometry 8
  ≡ₚ clusterFace <$> (triangleCluster <$> trianglesOf (position octahedronGeometry)).
Proof.
  unfold computeFaces. cbn [index octahedronGeometry].
  unfold clusteredFaces, clustersOf.
  change (octaVertex <$> octaIndices) with (position octahedronGeometry).
  rewrite (clusters_of_triangles _ []).
  - by rewrite sortClusters_perm.
  - cbn [fmap list_fmap app]. rewrite octahedron_normals.
    apply octaNormals_separated.
Qed.

(** Every vertex of a face of the octahedron has the component 1.2 along
    the direction of the face, and is not the centroid. *)
Lemma octahedron_triangles :
  Forall2 (fun t w =>
             Forall (fun v => V3.dot w v = 1.2
                              /\ v <> centroid (clusterFace (triangleCluster t)))
                    (triangleVerts t))
          (trianglesOf (position octahedronGeometry)) octaDirections.
Proof.
  cbn [octahedronGeometry position octaIndices fmap list_fmap octaVertex
       trianglesOf octaDirections].
  repeat (apply Forall2_cons_2; [|]); [..|apply Forall2_nil_2];
    cbn [triangleVerts];
    (repeat (apply Forall_cons_2; [|]); [..|apply Forall_nil_2]);
    (split;
     [ unfold V3.dot; cbn; lra
     | intros E; apply (f_equal vx) in E;
       unfold clusterFace, triangleCluster, sumVectors, V3.divideScalar,
         V3.multiplyScalar, V3.add, V3.zero in E;
       cbn in E; lra ]).
Qed.

Lemma octaNormals_partner (n : Vector3) :
  n ∈ V3.normalize <$> octaDirections ->
  exists n', n' ∈ V3.normalize <$> octaDirections /\ V3.dot n n' < -0.99
    /\ forall n'', n'' ∈ V3.normalize <$> octaDirections ->
                   V3.dot n n'' < -0.99 -> n'' = n'.
Proof.
  intros [i Hi]%list_elem_of_lookup.
  pose proof octaDirections_norm as Hn. rewrite Forall_lookup in Hn.
  set (p := match i with
            | 0 => 5 | 1 => 4 | 2 => 7 | 3 => 6 | 4 => 1 | 5 => 0 | 6 => 3 | _ => 2
            end%nat).
  assert (Hp : (p < 8)%nat)
    by (subst p; do 7 (destruct i as [|i]; [lia|]); lia).
  destruct (lookup_lt_is_Some_2 octaDirections p Hp) as [wp Ewp].
  rewrite list_lookup_fmap in Hi.
  destruct (octaDirections !! i) as [wi|] eqn:Ewi; [|done].
  injection Hi as <-.
  exists (V3.normalize wp). split; [|split].
  - apply list_elem_of_lookup. exists p. by rewrite list_lookup_fmap, Ewp.
  - rewrite (normalize_dot wi wp 3); [| lra | by eapply Hn | by eapply Hn].
    subst p.
    do 8 (destruct i as [|i];
          [injection Ewi as <-; injection Ewp as <-; unfold V3.dot; cbn; lra|]).
    discriminate Ewi.
  - intros n'' [j Hj]%list_elem_of_lookup Hlt.
    rewrite list_lookup_fmap in Hj.
    destruct (octaDirections !! j) as [wj|] eqn:Ewj; [|done].
    injection Hj as <-.
    rewrite (normalize_dot wi wj 3) in Hlt; [| lra | by eapply Hn | by eapply Hn].
    subst p.
    do 8 (destruct i as [|i];
          [do 8 (destruct j as [|j];
                 [injection Ewi as <-; injection Ewj as <-; injection Ewp as <-;
                  first [ reflexivity
                        | exfalso; unfold V3.dot in Hlt; cbn in Hlt; lra ]|]);
           discriminate Ewj|]).
    discriminate Ewi.
Qed.

Lemma octahedron_regularDie : regularDie (computeFaces octahedronGeometry 8) 8.
Proof.
  pose proof octahedron_faces as Hperm.
  split; [|split].
  - rewrite Hperm, !length_fmap. reflexivity.
  - rewrite Hperm. apply Forall_fmap, Forall_fmap, Forall_lookup.
    intros i t Ht. unfold compose.
    destruct (Forall2_lookup_l _ _ _ _ _ octahedron_triangles Ht)
      as (w & Hw & Hvs).
    assert (Hnorm : outwardNormal t = V3.normalize w).
    { pose proof octahedron_normals as Hns.
      apply (f_equal (fun l => l !! i)) in Hns.
      rewrite !list_lookup_fmap, Ht, Hw in Hns. by injection Hns. }
    pose proof octaDirections_norm as Hn. rewrite Forall_lookup in Hn.
    specialize (Hn i w Hw). split.
    + cbn [normal clusterFace triangleCluster cnormal]. rewrite Hnorm.
      apply normalize_isUnit. intros ->. unfold V3.dot in Hn. cbn in Hn. lra.
    + apply (planar_cluster_wellPlaced _ w 1.2); [done | done | |done].
      destruct t as [[a b] c]. done.
  - intros _ _.
    apply (uniquePartner_of_normals _ (V3.normalize <$> octaDirections)).
    + rewrite Hperm. rewrite <- !list_fmap_compose.
      rewrite <- octahedron_normals. done.
    + exact (apart_NoDup _ octaNormals_unit octaNormals_apart).
    + exact octaNormals_partner.
Qed.

(** * Solids given by their triangles *)

(** ** The bookkeeping of first occurrences *)





(** ** The triangles and the corners of a face *)









(** ** The clusters of a soup of triangles told apart by face *)




Section Labelled.

Variable ts : list Triangle.
Variable faceOf : list nat.
Variable numFaces : nat.
Hypothesis apart : facesApart (outwardNormal <$> ts) faceOf numFaces.









End Labelled.


(** ** The normal of a group of an indexed geometry *)







(** ** computeFaces on a flat-shaded solid *)



(** ** computeFaces on the solid of a die *)





Section RegularSolid.

Variable ts : list Triangle.
Variable faceOf : list nat.
Variable numFaces : nat.
Hypothesis apart : facesApart (outwardNormal <$> ts) faceOf numFaces.



End RegularSolid.


(** * The sample solids *)

(** ** A soup in which every triangle is a face of its own *)


Lemma facesApart_of_normals (ns : list Vector3) :
  Forall isUnit ns ->
  (forall i j a b, i <> j -> ns !! i = Some a -> ns !! j = Some b ->
                   V3.dot a b <= 0.999) ->
  facesApart ns (seq 0 (length ns)) (length ns).
Proof.
  intros Hu Hs. split; [by rewrite length_seq|]. split; [|split; [done|]].
  - intros l. rewrite elem_of_seq. lia.
  - intros i j n n' l l' Hn Hn' Hl Hl'.
    apply lookup_seq in Hl as [-> _]. apply lookup_seq in Hl' as [-> _].
    cbn. split.
    + intros Hnear. destruct (decide (i = j)) as [|Hne]; [done|].
      pose proof (Hs i j n n' Hne Hn Hn'). unfold near in Hnear. lra.
    + intros ->. assert (n' = n) as -> by congruence.
      rewrite Forall_lookup in Hu. specialize (Hu j n Hn).
      unfold near, isUnit in *. lra.
Qed.




(** ** The sample octahedron *)

Lemma octahedron_apart :
  facesApart (outwardNormal <$> trianglesOf (position octahedronGeometry))
             (seq 0 8) 8.
Proof.
  rewrite octahedron_normals.
  exact (facesApart_of_normals _ octaNormals_unit octaNormals_apart).
Qed.

Lemma octahedron_flatSolid : flatSolid octahedronGeometry 8.
Proof. exists (seq 0 8). exact octahedron_apart. Qed.


(** ** The sample box *)

Lemma boxDirections_apart (f g : nat) (n n' : Vector3) :
  f <> g -> boxDirections !! f = Some n -> boxDirections !! g = Some n' ->
  V3.dot n n' <= 0.999.
Proof.
  intros Hfg Hf Hg.
  do 6 (destruct f as [|f];
        [do 6 (destruct g as [|g];
               [first [ lia
                      | injection Hf as <-; injection Hg as <-;
                        unfold V3.dot; cbn; lra ]|]);
         discriminate Hg|]).
  discriminate Hf.
Qed.

Lemma box_planes (f : nat) (n : Vector3) :
  boxDirections !! f = Some n ->
  groupPlane (position (boxGeometry 1.7 1.7 1.7)) boxIndices 2 f n.
Proof.
  intros Hf.
  do 6 (destruct f as [|f];
        [injection Hf as <-;
         cbv -[Rplus Rmult Ropp Rdiv Rinv IZR Rminus Rlt Rle Rgt Rge];
         split; [lra|]; split; [intros E; injection E; lra|];
         repeat split; lra|]).
  discriminate Hf.
Qed.

Lemma box_flatSolid : flatSolid (boxGeometry 1.7 1.7 1.7) 6.
Proof.
  unfold flatSolid. cbn [index boxGeometry position].
  change (trisPerFace (length boxIndices) 6) with 2%nat. cbn zeta.
  split; [lia|]. split; [vm_compute; lia|]. split.
  - apply Forall_forall. intros i Hi.
    change (length (concat (boxPlanes (1.7 / 2) (1.7 / 2) (1.7 / 2)))) with 24%nat.
    unfold boxIndices in Hi. cbn in Hi.
    repeat (apply elem_of_cons in Hi as [-> | Hi]; [lia|]).
    by apply elem_of_nil in Hi.
  - exists boxDirections. split; [done|]. split.
    + exact box_planes.
    + exact boxDirections_apart.
Qed.

Lemma box_regularSolid : regularSolid (boxGeometry 1.7 1.7 1.7) 6.
Proof. split; [done | exact box_flatSolid]. Qed.

(** * computeFaces on the generated geometries *)



(** * The D10 geometry: the figure and the vertex buffer *)

Lemma inTwos_kiteTriangles (kites : list (Triangle * Triangle)) :
  inTwos (kiteTriangles kites) = kites.
Proof.
  induction kites as [|[t1 t2] kites IH]; [done|].
  unfold kiteTriangles in *. cbn [fmap list_fmap concat app inTwos fst snd].
  by rewrite IH.
Qed.

Lemma equal_cross_flat (t1 t2 : Triangle) :
  triangleCross t1 <> V3.zero -> triangleCross t1 = triangleCross t2 ->
  inPlaneOf t1 t2.1.1 -> inPlaneOf t1 t2.1.2 -> inPlaneOf t1 t2.2 ->
  kiteFlat (t1, t2).
Proof.
  intros Hne Heq H1 H2 H3. unfold kiteFlat.
  split; [done|]. split; [by rewrite <- Heq|]. split; [by rewrite Heq|]. done.
Qed.

Section D10Figure.

Variable radius : R.
Hypothesis radius_pos : 0 < radius.

Lemma d10_scaled_nonzero (w : Vector3) (k : R) :
  w <> V3.zero -> 0 < k -> V3.multiplyScalar w k <> V3.zero.
Proof.
  intros Hw Hk E. apply Hw.
  assert (Ex := f_equal vx E). assert (Ey := f_equal vy E).
  assert (Ez := f_equal vz E).
  unfold V3.multiplyScalar, V3.zero in Ex, Ey, Ez. cbn in Ex, Ey, Ez.
  apply vec3_eq; cbn; nra.
Qed.

Lemma d10TopKite_flat (k : nat) : (k < 5)%nat -> kiteFlat (d10TopKite radius k).
Proof.
  intros Hk.
  destruct (d10TopKite_planar radius k Hk) as (_ & _ & Heq & H1 & H2 & H3).
  apply equal_cross_flat; try done.
  cbn [d10TopKite fst]. rewrite (d10_top_cross radius k).
  apply d10_scaled_nonzero;
    [by apply d10TopW_nonzero | by apply d10_scale_pos].
Qed.

Lemma d10BotKite_flat (k : nat) : (k < 5)%nat -> kiteFlat (d10BotKite radius k).
Proof.
  intros Hk.
  destruct (d10BotKite_planar radius k Hk) as (_ & _ & Heq & H1 & H2 & H3).
  apply equal_cross_flat; try done.
  cbn [d10BotKite fst]. rewrite (d10_bot_cross radius k Hk).
  apply d10_scaled_nonzero;
    [by apply d10BotW_nonzero | by apply d10_scale_pos].
Qed.

(** The vertices the two loops compute are those of the pentagonal
    trapezohedron. *)
Lemma d10Verts_trapezohedron : trapezohedron radius (d10Verts radius).
Proof.
  pose proof cos_PI5_pos as Hc.
  exists (d10Upper radius), (d10Lower radius). split; [|split; [|split]].
  - intros k Hk.
    assert (Eh : d10h radius
                 = radius * ((1 - cos (PI / 5)) / (1 + cos (PI / 5))))
      by (unfold d10h, d10H; field; lra).
    split; [exact Eh|]. split; [cbn [d10Lower vy]; by rewrite Eh|]. split.
    + unfold d10Upper, rotateY, d10aU. cbn [vx vy vz INR].
      replace (0 * 2 * PI / 5) with 0 by field. rewrite cos_0, sin_0.
      replace (INR k * (2 * PI / 5)) with (INR k * 2 * PI / 5) by field.
      f_equal; ring.
    + unfold d10Lower, d10Upper, rotateY, d10aL. cbn [vx vy vz].
      rewrite cos_plus, sin_plus, <- Eh. f_equal; ring.
  - left. unfold d10Upper, d10aU, d10r. cbn [vx INR].
    replace (0 * 2 * PI / 5) with 0 by field. rewrite cos_0. lra.
  - reflexivity.
  - rewrite d10_triangles_of_kites, inTwos_kiteTriangles.
    unfold d10Kites. apply Forall_concat, Forall_fmap, Forall_forall.
    intros k Hk%elem_of_seq.
    apply Forall_cons_2; [apply d10TopKite_flat; lia|].
    apply Forall_cons_2; [apply d10BotKite_flat; lia | apply Forall_nil_2].
Qed.

End D10Figure.

Section D10Buffer.

Variable radius : R.
Hypothesis radius_normal : powerRZ 2 (-126) <= radius.

Lemma d10Verts_bounded : Forall (bounded radius) (d10Verts radius).
Proof.
  unfold d10Verts. apply Forall_concat, Forall_fmap, Forall_forall.
  intros k _. unfold compose, d10Round. cbn zeta.
  repeat (apply Forall_cons_2;
          [first [ by apply d10Top_bounded | by apply d10Bot_bounded
                 | by apply d10Upper_bounded | by apply d10Lower_bounded ]|]).
  apply Forall_nil_2.
Qed.

(** What the buffer holds is the computed vertex, each coordinate off by
    a ten-millionth of the radius at most. *)
Lemma d10_stored_within :
  Forall2 (within (radius / 10000000)) (d10Verts radius)
          (position (createD10Geometry radius)).
Proof. apply float32_all_within; [done | apply d10Verts_bounded]. Qed.

Lemma d10_stored_kites :
  inTwos (trianglesOf (position (createD10Geometry radius)))
  = float32Kite <$> d10Kites radius.
Proof.
  by rewrite (d10_stored_triangles radius), inTwos_kiteTriangles.
Qed.

(** The two triangles of a stored kite have unit normals within a whisker
    of each other. *)
Lemma d10_stored_kites_close :
  Forall (fun kite : Triangle * Triangle =>
            isUnit (outwardNormal kite.1) /\ isUnit (outwardNormal kite.2)
            /\ 1 - 8 / 100000 <= V3.dot (outwardNormal kite.1)
                                       (outwardNormal kite.2))
         (inTwos (trianglesOf (position (createD10Geometry radius)))).
Proof.
  rewrite d10_stored_kites. apply Forall_fmap, Forall_lookup.
  intros i kite Hk. unfold compose, float32Kite. cbn [fst snd].
  destruct (d10_normal_of_kite radius radius_normal i kite Hk) as [m Hm].
  destruct (d10_stored_kite radius radius_normal i kite m Hk Hm)
    as (Hu & [H1 Hc1] & [H2 Hc2]).
  split; [done|]. split; [done|].
  pose proof (close_near (2 / 100000) _ _ m H1 H2 Hu Hc1 Hc2). lra.
Qed.

End D10Buffer.

(** ** The buffer of the die: the first kite is bent *)

Lemma cos_PI5_enclosure : 0.809016994374 < cos (PI / 5) < 0.809016994375.
Proof.
  pose proof cos_PI5_equation as E. pose proof cos_PI5_bounds as [Hlo Hhi].
  set (c := cos (PI / 5)) in *. split.
  - destruct (Rlt_le_dec 0.809016994374 c) as [|Hle]; [done|]. exfalso.
    assert (0 <= (0.809016994374 - c) * (4 * (c + 0.809016994374) - 2))
      by (apply Rmult_le_pos; lra).
    lra.
  - destruct (Rlt_le_dec c 0.809016994375) as [|Hle]; [done|]. exfalso.
    assert (0 <= (c - 0.809016994375) * (4 * (c + 0.809016994375) - 2))
      by (apply Rmult_le_pos; lra).
    lra.
Qed.

Lemma sin_PI5_enclosure : 0.587785252292 < sin (PI / 5) < 0.587785252294.
Proof.
  pose proof cos_PI5_enclosure as [Hlo Hhi]. pose proof sin_PI5_pos as Hs.
  pose proof (sin2_cos2 (PI / 5)) as E. unfold Rsqr in E.
  set (c := cos (PI / 5)) in *. set (s := sin (PI / 5)) in *.
  assert (Hc2 : 0.809016994374 * 0.809016994374 < c * c
                < 0.809016994375 * 0.809016994375) by (split; nra).
  split.
  - destruct (Rlt_le_dec 0.587785252292 s) as [|Hle]; [done|]. exfalso.
    assert (s * s <= 0.587785252292 * 0.587785252292) by nra. lra.
  - destruct (Rlt_le_dec s 0.587785252294) as [|Hle]; [done|]. exfalso.
    assert (0.587785252294 * 0.587785252294 <= s * s) by nra. lra.
Qed.

Lemma fround_between (x lo hi : R) (e n : Z) :
  (-126 <= e)%Z -> lo <= x <= hi ->
  powerRZ 2 e <= lo -> hi < powerRZ 2 (e + 1) ->
  (IZR n - 1 / 2) * powerRZ 2 (e - 23) < lo ->
  hi < (IZR n + 1 / 2) * powerRZ 2 (e - 23) ->
  fround x = IZR n * powerRZ 2 (e - 23).
Proof.
  intros He Hx Hlo Hhi Hn1 Hn2. pose proof (powerRZ2_pos e) as Hp.
  apply fround_unique; [done | |split; lra].
  rewrite Rabs_right by lra. lra.
Qed.

Lemma fround_between_neg (x lo hi : R) (e n : Z) :
  (-126 <= e)%Z -> lo <= - x <= hi ->
  powerRZ 2 e <= lo -> hi < powerRZ 2 (e + 1) ->
  (IZR n - 1 / 2) * powerRZ 2 (e - 23) < lo ->
  hi < (IZR n + 1 / 2) * powerRZ 2 (e - 23) ->
  fround x = - (IZR n * powerRZ 2 (e - 23)).
Proof.
  intros He Hx Hlo Hhi Hn1 Hn2. pose proof (powerRZ2_pos e) as Hp.
  rewrite (fround_unique x e (- n)).
  - rewrite opp_IZR. ring.
  - done.
  - rewrite Rabs_left by lra. lra.
  - rewrite opp_IZR. split; lra.
Qed.

(** The numbers of the first kite, as the loops compute them. *)
Lemma d10_ring_height :
  0.12668737080006 <= d10h 1.2 <= 0.12668737080080.
Proof.
  pose proof cos_PI5_enclosure as [Hlo Hhi]. unfold d10h, d10H.
  set (c := cos (PI / 5)) in *.
  assert (Hpos : 0 < 1 + c) by lra.
  assert (E : 1.2 * (1 - c) / (1 + c) * (1 + c) = 1.2 * (1 - c))
    by (field; lra).
  set (h := 1.2 * (1 - c) / (1 + c)) in *. split; nra.
Qed.

Lemma d10_first_lower :
  d10Lower 1.2 0
  = Vec3 (1.02 * cos (PI / 5)) (- d10h 1.2) (1.02 * sin (PI / 5)).
Proof.
  unfold d10Lower, d10aL, d10aU, d10r. cbn [INR].
  replace (0 * 2 * PI / 5 + PI / 5) with (PI / 5) by field.
  f_equal; lra.
Qed.

Lemma d10_first_upper : d10Upper 1.2 0 = Vec3 1.02 (d10h 1.2) 0.
Proof.
  unfold d10Upper, d10aU, d10r. cbn [INR].
  replace (0 * 2 * PI / 5) with 0 by field. rewrite cos_0, sin_0.
  f_equal; lra.
Qed.

Lemma d10_second_upper :
  d10Upper 1.2 1
  = Vec3 (1.02 * (2 * cos (PI / 5) * cos (PI / 5) - 1)) (d10h 1.2)
         (1.02 * (2 * sin (PI / 5) * cos (PI / 5))).
Proof.
  unfold d10Upper, d10aU, d10r. cbn [INR].
  replace (1 * 2 * PI / 5) with (2 * (PI / 5)) by field.
  rewrite cos_2a_cos, sin_2a. f_equal; lra.
Qed.

Lemma fround_1_02 : fround 1.02 = 8556380 / 8388608.
Proof.
  rewrite (fround_between 1.02 1.02 1.02 0 8556380);
    [powers; lra | lia | lra | powers; lra..].
Qed.

Lemma fround_ring_height : fround (d10h 1.2) = 8501846 / 67108864.
Proof.
  pose proof d10_ring_height as H.
  rewrite (fround_between _ 0.12668737080006 0.12668737080080 (-3) 8501846);
    [powers; lra | lia | done | powers; lra..].
Qed.

Lemma fround_ring_depth : fround (- d10h 1.2) = - (8501846 / 67108864).
Proof.
  pose proof d10_ring_height as H.
  rewrite (fround_between_neg _ 0.12668737080006 0.12668737080080 (-3) 8501846);
    [powers; lra | lia | lra | powers; lra..].
Qed.

Lemma fround_lower_x : fround (1.02 * cos (PI / 5)) = 13844514 / 16777216.
Proof.
  pose proof cos_PI5_enclosure as H.
  rewrite (fround_between _ (1.02 * 0.809016994374) (1.02 * 0.809016994375)
             (-1) 13844514);
    [powers; lra | lia | lra | powers; lra..].
Qed.

Lemma fround_lower_z : fround (1.02 * sin (PI / 5)) = 10058628 / 16777216.
Proof.
  pose proof sin_PI5_enclosure as H.
  rewrite (fround_between _ (1.02 * 0.587785252292) (1.02 * 0.587785252294)
             (-1) 10058628);
    [powers; lra | lia | lra | powers; lra..].
Qed.

Lemma fround_upper_x :
  fround (1.02 * (2 * cos (PI / 5) * cos (PI / 5) - 1)) = 10576268 / 33554432.
Proof.
  pose proof cos_PI5_enclosure as H. pose proof cos_PI5_equation as E.
  rewrite (fround_between _ (1.02 * (0.809016994374 - 1 / 2))
             (1.02 * (0.809016994375 - 1 / 2)) (-2) 10576268);
    [powers; lra | lia | lra | powers; lra..].
Qed.

Lemma fround_upper_z :
  fround (1.02 * (2 * sin (PI / 5) * cos (PI / 5))) = 16275202 / 16777216.
Proof.
  pose proof cos_PI5_enclosure as Hc. pose proof sin_PI5_enclosure as Hs.
  rewrite (fround_between _
             (1.02 * (2 * 0.587785252292 * 0.809016994374))
             (1.02 * (2 * 0.587785252294 * 0.809016994375)) (-1) 16275202);
    [powers; lra | lia | split; nra | powers; lra..].
Qed.

(** The corners of the first stored kite: the pole, [lower[0]], [upper[0]]
    and [upper[1]], as the buffer holds them. *)
Lemma d10_stored_first_kite :
  float32Kite (d10TopKite 1.2 0)
  = ((Vec3 0 (10066330 / 8388608) 0,
      Vec3 (13844514 / 16777216) (- (8501846 / 67108864)) (10058628 / 16777216),
      Vec3 (8556380 / 8388608) (8501846 / 67108864) 0),
     (Vec3 0 (10066330 / 8388608) 0,
      Vec3 (10576268 / 33554432) (8501846 / 67108864) (16275202 / 16777216),
      Vec3 (13844514 / 16777216) (- (8501846 / 67108864)) (10058628 / 16777216))).
Proof.
  unfold d10TopKite. change ((0 + 1) mod 5)%nat with 1%nat.
  rewrite d10_first_lower, d10_first_upper, d10_second_upper.
  unfold float32Kite, float32Triangle, float32, d10Top, d10H.
  cbn [fst snd vx vy vz].
  by rewrite fround_0, fround_1_2, fround_1_02, fround_ring_height,
    fround_ring_depth, fround_lower_x, fround_lower_z, fround_upper_x,
    fround_upper_z.
Qed.

(** [upper[1]] as stored is off the plane through the stored pole,
    [lower[0]] and [upper[0]]. *)
Lemma d10_stored_first_kite_bent : ~ kiteFlat (float32Kite (d10TopKite 1.2 0)).
Proof.
  rewrite d10_stored_first_kite. unfold kiteFlat.
  intros (_ & _ & _ & _ & Hin & _). revert Hin.
  unfold inPlaneOf, triangleCross, V3.dot, V3.cross, V3.sub.
  cbn [fst snd vx vy vz]. lra.
Qed.

Lemma radius_die_range : powerRZ 2 (-126) <= 1.2 <= powerRZ 2 127.
Proof.
  split; [exact radius_die_normal|].
  assert (H : powerRZ 2 1 <= powerRZ 2 127) by (apply powerRZ2_le; lia).
  change (powerRZ 2 1) with (2 * 1) in H. lra.
Qed.

(** C8 (amended).  For a radius in the range of the normal floats,
    [createD10Geometry(radius)] computes the vertices of a pentagonal
    trapezohedron: the poles at (0, ±radius, 0), two rings of five
    vertices at the heights ±h with h / radius = (1 - cos 36°) /
    (1 + cos 36°), the lower ring turned by 36° against the upper one, and
    ten kites of two triangles each, the two triangles of a kite with
    area, with the same unit normal and with their four corners in one
    plane.  The geometry is not indexed and holds these vertices as
    32-bit floats, every coordinate within a ten-millionth of the radius
    of the computed one; it holds ten kites, and the two triangles of a
    stored kite have unit normals with a dot product of 1 - 8/100000 at
    least. *)
Theorem createD10Geometry_kites_planar (radius : R) :
  powerRZ 2 (-126) <= radius <= powerRZ 2 127 ->
  trapezohedron radius (d10Verts radius)
  /\ index (createD10Geometry radius) = None
  /\ Forall2 (within (radius / 10000000)) (d10Verts radius)
             (position (createD10Geometry radius))
  /\ length (inTwos (trianglesOf (position (createD10Geometry radius)))) = 10%nat
  /\ Forall (fun kite : Triangle * Triangle =>
               isUnit (outwardNormal kite.1) /\ isUnit (outwardNormal kite.2)
               /\ 1 - 8 / 100000 <= V3.dot (outwardNormal kite.1)
                                          (outwardNormal kite.2))
            (inTwos (trianglesOf (position (createD10Geometry radius)))).
Proof.
  intros [Hlo _]. pose proof (radius_normal_pos radius Hlo) as Hpos.
  split; [by apply d10Verts_trapezohedron|]. split; [reflexivity|].
  split; [by apply d10_stored_within|].
  split; [by rewrite d10_stored_kites, length_fmap|].
  by apply d10_stored_kites_close.
Qed.

Lemma createD10Geometry_kites_planar_witness :
  powerRZ 2 (-126) <= 1.2 <= powerRZ 2 127
  /\ trapezohedron 1.2 (d10Verts 1.2)
  /\ index (createD10Geometry 1.2) = None
  /\ Forall2 (within (1.2 / 10000000)) (d10Verts 1.2)
             (position (createD10Geometry 1.2))
  /\ length (inTwos (trianglesOf (position (createD10Geometry 1.2)))) = 10%nat
  /\ Forall (fun kite : Triangle * Triangle =>
               isUnit (outwardNormal kite.1) /\ isUnit (outwardNormal kite.2)
               /\ 1 - 8 / 100000 <= V3.dot (outwardNormal kite.1)
                                          (outwardNormal kite.2))
            (inTwos (trianglesOf (position (createD10Geometry 1.2)))).
Proof.
  split; [exact radius_die_range|].
  exact (createD10Geometry_kites_planar 1.2 radius_die_range).
Defined.

(** The claim as stated fails of the geometry the function returns: the
    vertex buffer keeps 32-bit floats, and at the radius 1.2 of the dice
    the fourth corner of the first kite, [upper[1]], is stored off the
    plane through the other three, so that the kites of the buffer are
    not flat and the buffer is not the trapezohedron of radius 1.2. *)
Lemma createD10Geometry_stored_kites_bent :
  ~ Forall kiteFlat (inTwos (trianglesOf (position (createD10Geometry 1.2))))
  /\ ~ trapezohedron 1.2 (position (createD10Geometry 1.2)).
Proof.
  assert (Hbent : ~ Forall kiteFlat
                      (inTwos (trianglesOf (position (createD10Geometry 1.2))))).
  { rewrite (d10_stored_kites 1.2). unfold d10Kites.
    cbn [seq fmap list_fmap concat app].
    intros [H _]%Forall_cons. by apply d10_stored_first_kite_bent. }
  split; [exact Hbent|].
  intros (upper & lower & _ & _ & _ & Hflat). by apply Hbent.
Qed.

(** * The round trip of a built die *)



(** * Further properties of the orientation solver *)

(** ** Unit quaternions *)

Lemma applyQuaternion_inverse (v : Vector3) (q : Quaternion) :
  unitQuaternion q -> applyQuaternion (applyQuaternion v q) (conjugate q) = v.
Proof.
  destruct v as [a b c], q as [x y z w]. unfold unitQuaternion. cbn. intros H.
  unfold applyQuaternion, conjugate. cbn. f_equal; nsatz.
Qed.

Lemma applyQuaternion_dot (v u : Vector3) (q : Quaternion) :
  unitQuaternion q ->
  V3.dot (applyQuaternion v q) (applyQuaternion u q) = V3.dot v u.
Proof.
  destruct v as [a b c], u as [d e f], q as [x y z w].
  unfold unitQuaternion. cbn. intros H.
  unfold applyQuaternion, V3.dot. cbn. nsatz.
Qed.

Lemma conjugate_unit (q : Quaternion) : unitQuaternion q -> unitQuaternion (conjugate q).
Proof. destruct q. unfold unitQuaternion, conjugate. cbn. intros H. lra. Qed.

(** The quaternion of an orthonormal basis has norm 1, in each of the four
    branches. *)
Lemma setFromRotationMatrix_unit (u n : Vector3) :
  isUnit u -> isUnit n -> perpendicular u n ->
  unitQuaternion (setFromRotationMatrix (makeBasis (V3.cross u n) u n)).
Proof.
  destruct u as [ux uy uz], n as [nx ny nz].
  unfold isUnit, perpendicular, V3.dot, V3.cross, makeBasis, setFromRotationMatrix,
    unitQuaternion.
  cbn. intros Hu Hn Hp.
  set (x1 := uy * nz - uz * ny). set (x2 := uz * nx - ux * nz).
  set (x3 := ux * ny - uy * nx).
  replace 0.5 with (1 / 2) by lra. replace 0.25 with (1 / 4) by lra.
  assert (Hsum : forall σ a b c : R, σ <> 0 ->
            a * a + b * b + c * c = σ * σ * (4 - σ * σ) ->
            a / (2 * σ) * (a / (2 * σ)) + b / (2 * σ) * (b / (2 * σ))
            + c / (2 * σ) * (c / (2 * σ)) + σ / 2 * (σ / 2) = 1).
  { intros σ a b c Hs H.
    transitivity ((a * a + b * b + c * c) / (4 * (σ * σ)) + σ * σ / 4);
      [by field|]. rewrite H. by field. }
  destruct (decide (x1 + uy + nz > 0)) as [Ht|Ht];
    [|destruct (decide (x1 > uy /\ x1 > nz)) as [[H1 H1']|H1];
      [|destruct (decide (uy > nz)) as [H2|H2]]]; cbn [qx qy qz qw].
  - set (σ := sqrt (x1 + uy + nz + 1)).
    assert (Hσ : σ * σ = x1 + uy + nz + 1) by (apply sqrt_sqrt; lra).
    assert (Hpos : 0 < σ) by (apply sqrt_lt_R0; lra).
    replace (1 / 4 / (1 / 2 / σ)) with (σ / 2) by (field; lra).
    replace ((uz - ny) * (1 / 2 / σ)) with ((uz - ny) / (2 * σ)) by (field; lra).
    replace ((nx - x3) * (1 / 2 / σ)) with ((nx - x3) / (2 * σ)) by (field; lra).
    replace ((x2 - ux) * (1 / 2 / σ)) with ((x2 - ux) / (2 * σ)) by (field; lra).
    apply Hsum; [lra|]. rewrite Hσ. subst x1 x2 x3. nsatz.
  - set (σ := sqrt (1 + x1 - uy - nz)).
    assert (Hσ : σ * σ = 1 + x1 - uy - nz) by (apply sqrt_sqrt; lra).
    assert (Hpos : 0 < σ) by (apply sqrt_lt_R0; lra).
    replace (1 / 4 * (2 * σ)) with (σ / 2) by (field; lra).
    transitivity ((ux + x2) / (2 * σ) * ((ux + x2) / (2 * σ))
                  + (nx + x3) / (2 * σ) * ((nx + x3) / (2 * σ))
                  + (uz - ny) / (2 * σ) * ((uz - ny) / (2 * σ)) + σ / 2 * (σ / 2));
      [ring|].
    apply Hsum; [lra|]. rewrite Hσ. subst x1 x2 x3. nsatz.
  - assert (Hmax : x1 <= uy)
      by (destruct (Rle_or_lt x1 uy); [done|];
          destruct (Rle_or_lt x1 nz); [lra | tauto]).
    set (σ := sqrt (1 + uy - x1 - nz)).
    assert (Hσ : σ * σ = 1 + uy - x1 - nz) by (apply sqrt_sqrt; lra).
    assert (Hpos : 0 < σ) by (apply sqrt_lt_R0; lra).
    replace (1 / 4 * (2 * σ)) with (σ / 2) by (field; lra).
    transitivity ((ux + x2) / (2 * σ) * ((ux + x2) / (2 * σ))
                  + (ny + uz) / (2 * σ) * ((ny + uz) / (2 * σ))
                  + (nx - x3) / (2 * σ) * ((nx - x3) / (2 * σ)) + σ / 2 * (σ / 2));
      [ring|].
    apply Hsum; [lra|]. rewrite Hσ. subst x1 x2 x3. nsatz.
  - assert (Hmax : x1 <= nz)
      by (destruct (Rle_or_lt x1 nz); [done|];
          destruct (Rle_or_lt x1 uy); [lra | tauto]).
    set (σ := sqrt (1 + nz - x1 - uy)).
    assert (Hσ : σ * σ = 1 + nz - x1 - uy) by (apply sqrt_sqrt; lra).
    assert (Hpos : 0 < σ) by (apply sqrt_lt_R0; lra).
    replace (1 / 4 * (2 * σ)) with (σ / 2) by (field; lra).
    transitivity ((nx + x3) / (2 * σ) * ((nx + x3) / (2 * σ))
                  + (ny + uz) / (2 * σ) * ((ny + uz) / (2 * σ))
                  + (x2 - ux) / (2 * σ) * ((x2 - ux) / (2 * σ)) + σ / 2 * (σ / 2));
      [ring|].
    apply Hsum; [lra|]. rewrite Hσ. subst x1 x2 x3. nsatz.
Qed.

Lemma faceSettleQuat_unit (face : Face) (sides : Z) :
  isUnit (normal face) -> wellPlaced face sides ->
  unitQuaternion (faceSettleQuat face sides).
Proof.
  intros Hn Hw.
  destruct (faceUpOf_unit_perpendicular face sides Hn Hw) as [Hu Hp].
  unfold faceSettleQuat, basisQuat. cbn zeta. rewrite (normalize_unit _ Hn).
  rewrite (normalize_unit _ (cross_unit_perpendicular _ _ Hu Hn Hp)).
  by apply conjugate_unit, setFromRotationMatrix_unit.
Qed.

Lemma faceSettleQuat_apply (face : Face) (sides : Z) (v : Vector3) :
  isUnit (normal face) -> wellPlaced face sides ->
  applyQuaternion v (faceSettleQuat face sides)
  = Vec3 (V3.dot v (V3.cross (faceUpOf face sides) (normal face)))
         (V3.dot v (faceUpOf face sides)) (V3.dot v (normal face)).
Proof.
  intros Hn Hw.
  destruct (faceUpOf_unit_perpendicular face sides Hn Hw) as [Hu Hp].
  unfold faceSettleQuat. cbn zeta. rewrite (normalize_unit _ Hn).
  by apply basisQuat_rotates.
Qed.

(** A face of a D8 in the plane [y = 0.85], with its four corners. *)
Lemma topFace_wellPlaced :
  wellPlaced (sampleFace (Vec3 0 1 0)
                [Vec3 (-0.85) 0.85 (-0.85); Vec3 0.85 0.85 (-0.85);
                 Vec3 (-0.85) 0.85 0.85; Vec3 0.85 0.85 0.85]) 8.
Proof.
  unfold wellPlaced. rewrite decide_False by lia.
  rewrite decide_True by (cbn; split; lia).
  repeat constructor; cbn;
    solve [ intros [= H1 H2 H3]; lra
          | unfold perpendicular, V3.dot, V3.sub; cbn; lra ].
Qed.

(** X1. For a face with a unit normal and a usable up direction,
    [faceSettleQuat] returns a rotation: a quaternion of norm 1 that keeps
    all dot products, takes the face normal to the viewing axis (0,0,1)
    and the label's up direction to the screen's up (0,1,0). *)
Theorem faceSettleQuat_is_rotation (face : Face) (sides : Z) :
  isUnit (normal face) -> wellPlaced face sides ->
  unitQuaternion (faceSettleQuat face sides)
  /\ applyQuaternion (normal face) (faceSettleQuat face sides) = Vec3 0 0 1
  /\ applyQuaternion (faceUpOf face sides) (faceSettleQuat face sides) = Vec3 0 1 0
  /\ forall v w,
       V3.dot (applyQuaternion v (faceSettleQuat face sides))
              (applyQuaternion w (faceSettleQuat face sides))
       = V3.dot v w.
Proof.
  intros Hn Hw.
  destruct (faceUpOf_unit_perpendicular face sides Hn Hw) as [Hu Hp].
  pose proof (faceSettleQuat_unit face sides Hn Hw) as Hq.
  split; [done|]. split; [|split].
  - rewrite faceSettleQuat_apply by done.
    rewrite (dot_comm (normal face) (V3.cross _ _)), cross_perp_r.
    rewrite (dot_comm (normal face) (faceUpOf face sides)).
    unfold perpendicular in Hp. unfold isUnit in Hn. by rewrite Hp, Hn.
  - rewrite faceSettleQuat_apply by done.
    rewrite (dot_comm (faceUpOf face sides) (V3.cross _ _)), cross_perp_l.
    unfold perpendicular in Hp. unfold isUnit in Hu. by rewrite Hp, Hu.
  - intros v w. by apply applyQuaternion_dot.
Qed.

Lemma faceSettleQuat_is_rotation_witness :
  let face := sampleFace (Vec3 0 1 0)
                [Vec3 (-0.85) 0.85 (-0.85); Vec3 0.85 0.85 (-0.85);
                 Vec3 (-0.85) 0.85 0.85; Vec3 0.85 0.85 0.85] in
  isUnit (normal face) /\ wellPlaced face 8
  /\ unitQuaternion (faceSettleQuat face 8)
  /\ applyQuaternion (normal face) (faceSettleQuat face 8) = Vec3 0 0 1.
Proof.
  intros face.
  assert (Hn : isUnit (normal face)) by (unfold isUnit, V3.dot; cbn; lra).
  pose proof topFace_wellPlaced as Hw.
  destruct (faceSettleQuat_is_rotation face 8 Hn Hw) as (Hq & Hz & _).
  split; [exact Hn|]. split; [exact Hw|]. split; [exact Hq | exact Hz].
Defined.

(** X2. The label of a face sits 0.02 off the face along the normal, and
    its quaternion turns the label plane's own normal (0,0,1) to the face
    normal and its own up (0,1,0) to the up direction of the face: the
    label lies flat on the face, facing outwards. *)
Theorem label_lies_on_face (face : Face) (sides : Z) :
  isUnit (normal face) -> wellPlaced face sides ->
  V3.sub (labelPosition face) (centroid face) = V3.multiplyScalar (normal face) 0.02
  /\ applyQuaternion (Vec3 0 0 1) (labelQuaternion face sides) = normal face
  /\ applyQuaternion (Vec3 0 1 0) (labelQuaternion face sides) = faceUpOf face sides.
Proof.
  intros Hn Hw.
  destruct (faceSettleQuat_is_rotation face sides Hn Hw) as (Hq & Hz & Hy & _).
  split; [|split].
  - unfold labelPosition, V3.addScaledVector, V3.sub, V3.multiplyScalar. cbn.
    f_equal; ring.
  - unfold labelQuaternion. rewrite <- Hz at 1. by apply applyQuaternion_inverse.
  - unfold labelQuaternion. rewrite <- Hy at 1. by apply applyQuaternion_inverse.
Qed.

Lemma label_lies_on_face_witness :
  let face := sampleFace (Vec3 0 1 0)
                [Vec3 (-0.85) 0.85 (-0.85); Vec3 0.85 0.85 (-0.85);
                 Vec3 (-0.85) 0.85 0.85; Vec3 0.85 0.85 0.85] in
  isUnit (normal face) /\ wellPlaced face 8
  /\ applyQuaternion (Vec3 0 0 1) (labelQuaternion face 8) = normal face.
Proof.
  intros face.
  assert (Hn : isUnit (normal face)) by (unfold isUnit, V3.dot; cbn; lra).
  pose proof topFace_wellPlaced as Hw.
  destruct (label_lies_on_face face 8 Hn Hw) as (_ & Hz & _).
  split; [exact Hn|]. split; [exact Hw | exact Hz].
Defined.

(** X3. On a D6 the label's up direction is the world's up, (0,1,0),
    projected on the face, or (0,0,1) for the two faces across the y axis
    (the code tests [Math.abs(n.y) > 0.99]).  Turned by the settle
    quaternion that reference direction has no sideways component and
    points up on the screen: the settled number stands upright. *)
Theorem faceSettleQuat_d6_upright (face : Face) :
  isUnit (normal face) ->
  vx (applyQuaternion (worldRef (normal face)) (faceSettleQuat face 6)) = 0
  /\ vy (applyQuaternion (worldRef (normal face)) (faceSettleQuat face 6)) > 0.
Proof.
  intros Hn.
  assert (Hw : wellPlaced face 6).
  { unfold wellPlaced. rewrite decide_False by lia.
    rewrite decide_False; [done|]. intros [H _]. by apply H. }
  rewrite faceSettleQuat_apply by done. cbn [vx vy].
  assert (Hup : faceUpOf face 6 = refUpOf (normal face)).
  { unfold faceUpOf, faceUpFrom. rewrite (normalize_unit _ Hn).
    rewrite decide_False by lia. rewrite decide_False; [done|].
    intros [H _]. by apply H. }
  rewrite Hup. unfold refUpOf.
  pose proof (projectedRef_nonzero _ Hn) as Hnz.
  pose proof (projectedRef_norm _ Hn) as Hnorm.
  rewrite (normalize_nonzero _ Hnz).
  assert (Hlen : 0 < V3.length (projectedRef (normal face))).
  { pose proof (length_nonneg (projectedRef (normal face))) as H0.
    destruct (Req_dec (V3.length (projectedRef (normal face))) 0) as [E | E];
      [|lra]. by apply length_zero_iff in E. }
  set (k := 1 / V3.length (projectedRef (normal face))).
  assert (Hk : 0 < k) by (unfold k; apply Rdiv_lt_0_compat; lra).
  revert Hnorm. clearbody k. clear Hnz Hlen Hup Hw.
  unfold projectedRef. destruct (normal face) as [x y z].
  unfold isUnit, V3.dot in Hn. cbn in Hn.
  destruct (worldRef_cases (Vec3 x y z)) as [[_ ->] | [_ ->]];
    unfold V3.dot, V3.cross, V3.multiplyScalar, V3.addScaledVector; cbn;
    intros Hnorm; (split; [ring|]); nra.
Qed.

Lemma faceSettleQuat_d6_upright_witness :
  isUnit (normal (sampleFace (Vec3 1 0 0) []))
  /\ vx (applyQuaternion (worldRef (Vec3 1 0 0))
           (faceSettleQuat (sampleFace (Vec3 1 0 0) []) 6)) = 0.
Proof.
  assert (Hn : isUnit (normal (sampleFace (Vec3 1 0 0) [])))
    by (unfold isUnit, V3.dot; cbn; lra).
  split; [exact Hn|].
  exact (proj1 (faceSettleQuat_d6_upright (sampleFace (Vec3 1 0 0) []) Hn)).
Defined.

(** * Further properties of the face extractor *)

Lemma normalize_unit_or_zero (v : Vector3) :
  isUnit (V3.normalize v) \/ V3.normalize v = V3.zero.
Proof.
  destruct (decide (v = V3.zero)) as [-> | Hne].
  - right. unfold V3.normalize.
    rewrite decide_True by (by apply length_zero_iff).
    unfold V3.divideScalar, V3.multiplyScalar, V3.zero. cbn. f_equal; lra.
  - left. by apply normalize_isUnit.
Qed.

Lemma negate_unit_or_zero (v : Vector3) :
  isUnit v \/ v = V3.zero -> isUnit (V3.negate v) \/ V3.negate v = V3.zero.
Proof.
  intros [H | ->].
  - left. unfold isUnit, V3.dot, V3.negate in *. cbn. lra.
  - right. unfold V3.negate, V3.zero. cbn. f_equal; lra.
Qed.

Lemma outwardNormal_unit_or_zero (t : Triangle) :
  isUnit (outwardNormal t) \/ outwardNormal t = V3.zero.
Proof.
  destruct t as [[a b] c]. unfold outwardNormal. cbn zeta.
  destruct (decide _); [apply negate_unit_or_zero|]; apply normalize_unit_or_zero.
Qed.

Lemma joinNormal_elem (cs : list Vector3) (n x : Vector3) :
  x ∈ joinNormal cs n -> x ∈ cs \/ x = n.
Proof.
  unfold joinNormal. destruct (decide _); [by left|].
  intros [H | H%list_elem_of_singleton]%elem_of_app; [by left | by right].
Qed.

Lemma foldl_joinNormal_elem (ns cs : list Vector3) (x : Vector3) :
  x ∈ foldl joinNormal cs ns -> x ∈ cs \/ x ∈ ns.
Proof.
  revert cs. induction ns as [|n ns IH]; intros cs H; [by left|].
  cbn in H. apply IH in H as [H | H]; [|right; by right].
  apply joinNormal_elem in H as [H | ->]; [by left | right; left].
Qed.

Lemma foldl_joinNormal_length (ns cs : list Vector3) :
  (length (foldl joinNormal cs ns) <= length cs + length ns)%nat.
Proof.
  revert cs. induction ns as [|n ns IH]; intros cs; cbn; [lia|].
  etransitivity; [apply IH|]. unfold joinNormal.
  destruct (decide _); rewrite ?length_app; cbn; lia.
Qed.

Lemma trianglesOf_length (pos : list Vector3) :
  length (trianglesOf pos) = (length pos / 3)%nat.
Proof.
  assert (Hgen : forall n pos, (length pos < n)%nat ->
            length (trianglesOf pos) = (length pos / 3)%nat).
  { induction n as [|n IH]; intros l Hl; [lia|].
    destruct l as [|a [|b [|c rest]]]; [done | done | done |].
    cbn [trianglesOf length]. rewrite IH by (cbn in Hl; lia).
    replace (S (S (S (length rest)))) with (1 * 3 + length rest)%nat by lia.
    rewrite Nat.div_add_l by lia. lia. }
  apply (Hgen (S (length pos))). lia.
Qed.

(** X4. On a geometry that is not indexed and whose vertices make full
    triangles, [computeFaces] clusters the triangles by normal, whatever
    [numFaces] is: no two faces it returns have normals with a dot product
    above 0.999, every normal is a unit vector (or the zero vector, for a
    triangle without area), and there are at most as many faces as
    triangles. *)
Theorem computeFaces_clustered_normals (pos : list Vector3) (numFaces : nat) :
  (length pos mod 3 = 0)%nat ->
  distinctNormals (computeFaces (mkGeometry pos None) numFaces)
  /\ Forall (fun f => isUnit (normal f) \/ normal f = V3.zero)
            (computeFaces (mkGeometry pos None) numFaces)
  /\ (length (computeFaces (mkGeometry pos None) numFaces) <= length pos / 3)%nat.
Proof.
  intros _. unfold computeFaces. cbn [index position].
  split; [apply clusteredFaces_distinct|]. split.
  - apply Forall_forall. intros f Hf.
    assert (Hn : normal f ∈ normal <$> clusteredFaces pos)
      by (by apply list_elem_of_fmap_2).
    rewrite clusteredFaces_normals in Hn.
    apply foldl_joinNormal_elem in Hn as [Hn | Hn]; [by apply elem_of_nil in Hn|].
    apply list_elem_of_fmap in Hn as (t & -> & _).
    apply outwardNormal_unit_or_zero.
  - rewrite <- (length_fmap normal), clusteredFaces_normals.
    etransitivity; [apply foldl_joinNormal_length|].
    cbn [length]. by rewrite length_fmap, trianglesOf_length.
Qed.

Lemma computeFaces_clustered_normals_witness :
  (length (position octahedronGeometry) mod 3 = 0)%nat
  /\ distinctNormals (computeFaces (mkGeometry (position octahedronGeometry) None) 8)
  /\ (length (computeFaces (mkGeometry (position octahedronGeometry) None) 8)
      <= length (position octahedronGeometry) / 3)%nat.
Proof.
  assert (H3 : (length (position octahedronGeometry) mod 3 = 0)%nat)
    by reflexivity.
  destruct (computeFaces_clustered_normals (position octahedronGeometry) 8 H3)
    as (Hd & _ & Hl).
  split; [exact H3|]. split; [exact Hd | exact Hl].
Defined.

(** ** The vertices of a clustered face *)

Lemma distanceTo_sym (a b : Vector3) : V3.distanceTo a b = V3.distanceTo b a.
Proof.
  unfold V3.distanceTo, V3.length, V3.sub. cbn. f_equal. ring.
Qed.

Lemma uniqueVerts_apart (vs : list Vector3) (i j : nat) (u v : Vector3) :
  i <> j -> uniqueVerts vs !! i = Some u -> uniqueVerts vs !! j = Some v ->
  ~ V3.distanceTo u v < 0.001.
Proof.
  unfold uniqueVerts.
  set (step := fun (unique : list Vector3) (v : Vector3) =>
                 if decide (Exists (fun u => V3.distanceTo v u < 0.001) unique)
                 then unique else unique ++ [v]).
  assert (Hgen : forall acc,
            StronglySorted (fun a b => ~ V3.distanceTo b a < 0.001) acc ->
            StronglySorted (fun a b => ~ V3.distanceTo b a < 0.001)
                           (foldl step acc vs)).
  { induction vs as [|x vs IH]; intros acc Hacc; [done|].
    cbn [foldl]. apply IH. unfold step. destruct (decide _) as [|Hne]; [done|].
    apply StronglySorted_app. split; [|split; [done | repeat constructor]].
    intros a b Ha Hb%list_elem_of_singleton Hd. subst b.
    apply Hne, Exists_exists. by exists a. }
  intros Hij Hi Hj.
  pose proof (Hgen [] ltac:(constructor)) as Hs.
  destruct (decide (i < j)%nat) as [Hlt | Hge].
  - pose proof (StronglySorted_lookup_le _ _ Hs i j u v Hlt Hi Hj) as H.
    by rewrite distanceTo_sym.
  - exact (StronglySorted_lookup_le _ _ Hs j i v u ltac:(lia) Hj Hi).
Qed.

Lemma uniqueVerts_nonempty (vs : list Vector3) : vs <> [] -> uniqueVerts vs <> [].
Proof.
  destruct vs as [|x vs]; [done|]. intros _. unfold uniqueVerts. cbn [foldl].
  rewrite decide_False by (by intros H%Exists_nil). cbn [app].
  set (step := fun (unique : list Vector3) (v : Vector3) => _).
  assert (Hgen : forall l acc, acc <> [] -> foldl step acc l <> []).
  { induction l as [|y l IH]; intros acc Hacc; [done|].
    cbn [foldl]. apply IH. unfold step. destruct (decide _); [done|].
    by destruct acc. }
  by apply Hgen.
Qed.

Lemma trianglesOf_elem (pos : list Vector3) (a b c : Vector3) :
  (a, b, c) ∈ trianglesOf pos -> a ∈ pos /\ b ∈ pos /\ c ∈ pos.
Proof.
  assert (Hgen : forall n pos, (length pos < n)%nat ->
            (a, b, c) ∈ trianglesOf pos -> a ∈ pos /\ b ∈ pos /\ c ∈ pos).
  { induction n as [|n IH]; intros l Hl H; [lia|].
    destruct l as [|x [|y [|z rest]]]; try (by apply elem_of_nil in H).
    cbn [trianglesOf] in H. apply elem_of_cons in H as [[= -> -> ->] | H].
    - set_solver.
    - apply IH in H; [set_solver | cbn in Hl; lia]. }
  apply (Hgen (S (length pos))). lia.
Qed.

Lemma insertTriangle_verts (P : list Vector3 -> Prop) (n : Vector3)
      (abc : list Vector3) (cls : list Cluster) :
  P abc -> (forall l, P l -> P (l ++ abc)) ->
  Forall (fun cl => P (cverts cl)) cls ->
  Forall (fun cl => P (cverts cl)) (insertTriangle n abc cls).
Proof.
  intros Habc Happ. induction cls as [|cl cls IH]; intros H; cbn.
  - by repeat constructor.
  - apply Forall_cons in H as [Hcl H]. destruct (decide _).
    + apply Forall_cons. split; [by apply Happ | done].
    + apply Forall_cons. split; [done | by apply IH].
Qed.

Lemma clustersOf_verts (pos : list Vector3) :
  Forall (fun cl => cverts cl <> [] /\ forall v, v ∈ cverts cl -> v ∈ pos)
         (clustersOf pos).
Proof.
  unfold clustersOf.
  assert (Hgen : forall ts cls,
            (forall t, t ∈ ts -> t ∈ trianglesOf pos) ->
            Forall (fun cl => cverts cl <> [] /\ forall v, v ∈ cverts cl -> v ∈ pos) cls ->
            Forall (fun cl => cverts cl <> [] /\ forall v, v ∈ cverts cl -> v ∈ pos)
                   (foldl clusterStep cls ts)).
  { induction ts as [|[[a b] c] ts IH]; intros cls Hts Hcls; [done|].
    cbn [foldl]. apply IH; [intros t Ht; apply Hts; by right|].
    unfold clusterStep.
    destruct (trianglesOf_elem pos a b c (Hts _ ltac:(left))) as (Ha & Hb & Hc).
    apply (insertTriangle_verts
             (fun l => l <> [] /\ forall v, v ∈ l -> v ∈ pos)); [| |done].
    - split; [done|]. intros v. rewrite !elem_of_cons, elem_of_nil.
      intros [-> | [-> | [-> | []]]]; done.
    - intros l [Hl Hsub]. split; [by destruct l|].
      intros v [Hv | Hv]%elem_of_app; [by apply Hsub|].
      revert Hv. rewrite !elem_of_cons, elem_of_nil.
      intros [-> | [-> | [-> | []]]]; done. }
  by apply Hgen.
Qed.

(** X5. On a geometry that is not indexed and whose vertices make full
    triangles, every face [computeFaces] returns has at least one vertex,
    its vertices are vertices of the geometry, and no two of them are
    closer than 0.001 to each other. *)
Theorem computeFaces_clustered_verts (pos : list Vector3) (numFaces : nat) :
  (length pos mod 3 = 0)%nat ->
  Forall (fun f =>
            verts f <> []
            /\ (forall v, v ∈ verts f -> v ∈ pos)
            /\ forall i j u v, i <> j -> verts f !! i = Some u -> verts f !! j = Some v ->
                               ~ V3.distanceTo u v < 0.001)
         (computeFaces (mkGeometry pos None) numFaces).
Proof.
  intros _. unfold computeFaces. cbn [index position]. unfold clusteredFaces.
  apply Forall_fmap. rewrite sortClusters_perm.
  eapply Forall_impl; [apply clustersOf_verts|].
  intros cl [Hne Hsub]. unfold compose. cbn [verts clusterFace].
  split; [by apply uniqueVerts_nonempty|]. split.
  - intros v Hv. by apply Hsub, uniqueVerts_subset.
  - intros i j u v. apply uniqueVerts_apart.
Qed.

Lemma computeFaces_clustered_verts_witness :
  (length (position octahedronGeometry) mod 3 = 0)%nat
  /\ Forall (fun f => verts f <> [])
            (computeFaces (mkGeometry (position octahedronGeometry) None) 8).
Proof.
  assert (H3 : (length (position octahedronGeometry) mod 3 = 0)%nat)
    by reflexivity.
  split; [exact H3|].
  eapply Forall_impl;
    [exact (computeFaces_clustered_verts (position octahedronGeometry) 8 H3)|].
  intros f Hf. exact (proj1 Hf).
Defined.

(** ** Indexed geometry *)

(** X6. On an indexed geometry [computeFaces] returns exactly [numFaces]
    faces, whatever the buffers hold.  Where the index buffer holds
    at least one triangle per face and every index it holds is a vertex
    of the geometry, each normal is a unit vector (or zero, for a first
    triangle without area) that does not point from the face's centroid
    towards the origin. *)
Theorem computeFaces_indexed (pos : list Vector3) (idx : list nat) (numFaces : nat) :
  (1 <= trisPerFace (length idx) numFaces)%nat ->
  (3 * trisPerFace (length idx) numFaces * numFaces <= length idx)%nat ->
  Forall (fun i => (i < length pos)%nat) idx ->
  length (computeFaces (mkGeometry pos (Some idx)) numFaces) = numFaces
  /\ Forall (fun f => (isUnit (normal f) \/ normal f = V3.zero)
                      /\ 0 <= V3.dot (normal f) (centroid f))
            (computeFaces (mkGeometry pos (Some idx)) numFaces).
Proof.
  intros _ _ _. unfold computeFaces. cbn [index position].
  split; [apply indexedFaces_length|].
  unfold indexedFaces. apply Forall_fmap, Forall_forall. intros f _.
  unfold compose, indexedFace. cbn [normal centroid].
  set (c := V3.divideScalar _ _). set (n0 := groupNormal pos _).
  assert (Hn0 : isUnit n0 \/ n0 = V3.zero).
  { unfold n0, groupNormal.
    destruct (concat _) as [|ia [|ib [|ic rest]]];
      try (right; reflexivity). apply normalize_unit_or_zero. }
  clearbody n0 c.
  destruct (decide (V3.dot n0 c < 0)) as [Hneg | Hpos].
  - split; [by apply negate_unit_or_zero|].
    unfold V3.dot, V3.negate in *. cbn. nra.
  - split; [done | lra].
Qed.

Lemma computeFaces_indexed_witness :
  (1 <= trisPerFace 6 1)%nat /\ (3 * trisPerFace 6 1 * 1 <= 6)%nat
  /\ Forall (fun i => (i < 4)%nat) [0; 1; 2; 0; 2; 3]%nat
  /\ length (computeFaces quadGeometry 1) = 1%nat.
Proof.
  assert (H1 : (1 <= trisPerFace 6 1)%nat) by (vm_compute; lia).
  assert (H2 : (3 * trisPerFace 6 1 * 1 <= 6)%nat) by (vm_compute; lia).
  assert (H3 : Forall (fun i => (i < 4)%nat) [0; 1; 2; 0; 2; 3]%nat)
    by (repeat constructor).
  split; [exact H1|]. split; [exact H2|]. split; [exact H3|].
  exact (proj1 (computeFaces_indexed
                  [Vec3 0 0 1; Vec3 1 0 1; Vec3 1 1 1; Vec3 0 1 1]
                  [0; 1; 2; 0; 2; 3]%nat 1 H1 H2 H3)).
Defined.

(** * Further properties of the numbering and of settleQuat *)

(** ** numberToFace *)

Lemma indexNumbers_last (numbers : list Z) (idx : nat) (ntf : gmap Z Z) (v : Z) :
  v ∈ numbers ->
  exists i, Store.indexNumbers idx numbers ntf !! v = Some (Z.of_nat (idx + i))
            /\ numbers !! i = Some v
            /\ forall j, numbers !! j = Some v -> (j <= i)%nat.
Proof.
  revert idx ntf. induction numbers as [|x l IH]; intros idx ntf Hv.
  - by apply elem_of_nil in Hv.
  - cbn [Store.indexNumbers]. destruct (decide (v ∈ l)) as [Hl | Hl].
    + destruct (IH (S idx) (<[x := Z.of_nat idx]> ntf) Hl) as (i & Hi & Hn & Hlast).
      exists (S i). split; [rewrite Hi; f_equal; lia|]. split; [done|].
      intros [|j] Hj; [lia|]. cbn in Hj. specialize (Hlast j Hj). lia.
    + assert (v = x) as -> by set_solver.
      exists 0%nat. rewrite indexNumbers_other by done.
      rewrite lookup_insert_eq. split; [f_equal; lia|]. split; [done|].
      intros [|j] Hj; [lia|]. cbn in Hj. exfalso. apply Hl.
      apply list_elem_of_lookup. by exists j.
Qed.

(** X7. [numberToFace], as [buildDieMesh] fills it, finds for a number the
    index of the last face that shows it, and has no entry for a number
    that no face shows. *)
Theorem numberToFace_last_face (numbers : list Z) (v : Z) :
  match Store.indexNumbers 0 numbers ∅ !! v with
  | Some fi => exists i, fi = Z.of_nat i /\ numbers !! i = Some v
                         /\ forall j, numbers !! j = Some v -> (j <= i)%nat
  | None => (v ∉ numbers)
  end.
Proof.
  destruct (decide (v ∈ numbers)) as [Hin | Hnin].
  - destruct (indexNumbers_last numbers 0 ∅ v Hin) as (i & -> & Hi & Hlast).
    by exists i.
  - by rewrite indexNumbers_other, lookup_empty.
Qed.

(** ** What buildDieMesh returns *)

Lemma buildDieMesh_labelled
      (polyhedron : PolyhedronKind -> R -> Z -> BufferGeometry)
      (box : R -> R -> R -> BufferGeometry) (sides : Z) (h : Heap) :
  sides ∈ FACE_LABELED ->
  exists os ext,
    Store.buildDieMesh polyhedron box sides h
    = (Store.mkMesh (createGeometry polyhedron box sides)
         (Store.mkUserData (Some os)
            (Some (computeFaceNumbers
                     (computeFaces (createGeometry polyhedron box sides)
                                   (geomFaceCount sides)) sides))
            (Some (Store.indexNumbers 0
                     (computeFaceNumbers
                        (computeFaces (createGeometry polyhedron box sides)
                                      (geomFaceCount sides)) sides) ∅))),
       h ++ ext)
    /\ Forall (faceIn (h ++ ext)) os
    /\ Store.faceOf (h ++ ext) <$> os
       = computeFaces (createGeometry polyhedron box sides) (geomFaceCount sides).
Proof.
  intros Hs.
  set (F := computeFaces (createGeometry polyhedron box sides)
                         (geomFaceCount sides)).
  destruct (newFaces_spec F h) as (os & e1 & Hos & Hin & Hval).
  destruct (labelLoop_spec os sides (seq 0 (Z.to_nat sides)) (h ++ e1) Hin)
    as (e2 & Hloop).
  exists os, (e1 ++ e2). rewrite app_assoc. split; [|split].
  - unfold Store.buildDieMesh. rewrite decide_True by done.
    unfold Store.computeFaces, Store.readFaces, bind, ret.
    fold F. rewrite Hos, Hval. by rewrite Hloop.
  - eapply Forall_impl; [exact Hin|]. intros f. apply faceIn_app.
  - rewrite <- Hval. apply Forall_fmap_ext.
    eapply Forall_impl; [exact Hin|]. intros f Hf. by apply faceOf_app.
Qed.

(** X8. A die whose side count is not 4, 6, 8, 10, 12 or 20 is built
    without face data: [buildDieMesh] creates no vector objects and sets
    none of [faces], [faceNumbers] and [numberToFace], and [settleQuat]
    returns [null] for every result. *)
Theorem unlabelled_die_has_no_settle
        (polyhedron : PolyhedronKind -> R -> Z -> BufferGeometry)
        (box : R -> R -> R -> BufferGeometry) (sides result : Z) (h : Heap) :
  sides ∉ FACE_LABELED ->
  exists mesh,
    Store.buildDieMesh polyhedron box sides h = (mesh, h)
    /\ Store.userData mesh = Store.mkUserData None None None
    /\ Store.settleQuat mesh result sides h = (Store.Return None, h).
Proof.
  intros Hs. unfold Store.buildDieMesh. rewrite decide_False by done.
  eexists. split; [reflexivity|]. split; reflexivity.
Qed.

Lemma unlabelled_die_has_no_settle_witness :
  (7%Z ∉ FACE_LABELED)
  /\ exists mesh,
       Store.buildDieMesh samplePolyhedron sampleBox 7 [] = (mesh, [])
       /\ Store.userData mesh = Store.mkUserData None None None
       /\ Store.settleQuat mesh 3 7 [] = (Store.Return None, []).
Proof.
  assert (H7 : 7%Z ∉ FACE_LABELED) by (unfold FACE_LABELED; set_solver).
  split; [exact H7|].
  exact (unlabelled_die_has_no_settle samplePolyhedron sampleBox 7 3 [] H7).
Defined.

(** X9. For a labelled die with regular faces, [settleQuat] returns [null]
    for every value outside 1..sides, and creates no object. *)
Theorem settleQuat_out_of_range
        (polyhedron : PolyhedronKind -> R -> Z -> BufferGeometry)
        (box : R -> R -> R -> BufferGeometry) (sides v : Z) (h : Heap) :
  sides ∈ FACE_LABELED ->
  (sides <> 10%Z ->
   regularDie (computeFaces (createGeometry polyhedron box sides)
                            (geomFaceCount sides)) sides) ->
  ~ (1 <= v <= sides)%Z ->
  exists mesh h1,
    Store.buildDieMesh polyhedron box sides h = (mesh, h1)
    /\ Store.settleQuat mesh v sides h1 = (Store.Return None, h1).
Proof.
  intros Hs Hreg Hv.
  assert (Hregular : regularDie (computeFaces (createGeometry polyhedron box sides)
                                              (geomFaceCount sides)) sides).
  { destruct (decide (sides = 10%Z)) as [-> | Hne]; [|by apply Hreg].
    exact d10_regularDie. }
  destruct Hregular as (Hlen & _ & Hpart).
  destruct (buildDieMesh_labelled polyhedron box sides h Hs)
    as (os & ext & Hbuild & _ & _).
  eexists _, _. split; [exact Hbuild|].
  unfold Store.settleQuat. cbn [Store.userData Store.faces Store.numberToFace].
  rewrite indexNumbers_other; [by rewrite lookup_empty|].
  rewrite (computeFaceNumbers_onto _ sides Hs Hlen Hpart).
  rewrite elem_of_seqZ. lia.
Qed.

Lemma settleQuat_out_of_range_witness :
  8%Z ∈ FACE_LABELED
  /\ regularDie (computeFaces (createGeometry samplePolyhedron sampleBox 8)
                              (geomFaceCount 8)) 8
  /\ ~ (1 <= 9 <= 8)%Z
  /\ exists mesh h1,
       Store.buildDieMesh samplePolyhedron sampleBox 8 [] = (mesh, h1)
       /\ Store.settleQuat mesh 9 8 h1 = (Store.Return None, h1).
Proof.
  assert (H8 : 8%Z ∈ FACE_LABELED) by (unfold FACE_LABELED; set_solver).
  assert (Hreg : regularDie (computeFaces (createGeometry samplePolyhedron sampleBox 8)
                                          (geomFaceCount 8)) 8)
    by exact octahedron_regularDie.
  assert (Hv : ~ (1 <= 9 <= 8)%Z) by lia.
  split; [exact H8|]. split; [exact Hreg|]. split; [exact Hv|].
  exact (settleQuat_out_of_range samplePolyhedron sampleBox 8 9 [] H8
           (fun _ => Hreg) Hv).
Defined.

(** ** The numbers on the faces *)

(** X10. When a labelled die has [sides] faces and, for 8, 10, 12 and 20
    sides, every face has exactly one anti-parallel partner,
    [computeFaceNumbers] gives every number from 1 to [sides] to exactly
    one face. *)
Theorem computeFaceNumbers_each_once (faces : list Face) (sides : Z) :
  sides ∈ FACE_LABELED ->
  Z.of_nat (length faces) = sides ->
  (sides ≠ 4%Z -> sides ≠ 6%Z -> uniquePartner faces) ->
  computeFaceNumbers faces sides ≡ₚ seqZ 1 sides.
Proof. apply computeFaceNumbers_onto. Qed.

Lemma computeFaceNumbers_each_once_witness :
  8%Z ∈ FACE_LABELED /\ Z.of_nat (length eightFaces) = 8%Z
  /\ uniquePartner eightFaces
  /\ computeFaceNumbers eightFaces 8 ≡ₚ seqZ 1 8.
Proof.
  assert (H8 : 8%Z ∈ FACE_LABELED) by (unfold FACE_LABELED; set_solver).
  assert (Hl : Z.of_nat (length eightFaces) = 8%Z) by reflexivity.
  pose proof eightFaces_uniquePartner as Hu.
  split; [exact H8|]. split; [exact Hl|]. split; [exact Hu|].
  exact (computeFaceNumbers_each_once eightFaces 8 H8 Hl (fun _ _ => Hu)).
Defined.

(** X11. The D10 of the engine: [computeFaces] finds ten faces on the
    generated geometry, every one of them has exactly one anti-parallel
    partner, and [computeFaceNumbers] gives each of the numbers 1..10 to
    exactly one face. *)
Theorem d10_die_is_numbered
        (polyhedron : PolyhedronKind -> R -> Z -> BufferGeometry)
        (box : R -> R -> R -> BufferGeometry) :
  length (computeFaces (createGeometry polyhedron box 10) (geomFaceCount 10)) = 10%nat
  /\ uniquePartner (computeFaces (createGeometry polyhedron box 10) (geomFaceCount 10))
  /\ computeFaceNumbers
       (computeFaces (createGeometry polyhedron box 10) (geomFaceCount 10)) 10
     ≡ₚ seqZ 1 10.
Proof.
  change (createGeometry polyhedron box 10) with (createD10Geometry 1.2).
  change (geomFaceCount 10) with 10%nat.
  destruct d10_regularDie as (Hlen & _ & Hpart).
  assert (Hu : uniquePartner (computeFaces (createD10Geometry 1.2) 10))
    by (by apply Hpart).
  split; [lia|]. split; [done|].
  by apply computeFaceNumbers_d10_bijective; [|lia].
Qed.

(** The pairing of faces none of which is opposite to another. *)
Lemma pairLoop_no_partner (n : nat) (idxs : list nat) :
  forall pairs used,
    NoDup idxs -> (forall i, i ∈ idxs -> i ∉ used) ->
    pairLoop (fun _ _ => false) n idxs pairs used
    = (pairs ++ ((fun i => (i, None)) <$> idxs), list_to_set idxs ∪ used).
Proof.
  induction idxs as [|i rest IH]; intros pairs used Hnd Hfresh.
  - cbn. rewrite app_nil_r. f_equal. set_solver.
  - apply NoDup_cons in Hnd as [Hi Hnd]. cbn [pairLoop].
    rewrite decide_False by (apply Hfresh; left).
    assert (Hnone : findPartner (fun _ _ => false) n used i = None).
    { unfold findPartner. generalize (seq (i + 1) (n - (i + 1))).
      intros l. induction l as [|j l IHl]; [done|].
      cbn. by rewrite andb_false_r. }
    rewrite Hnone, IH; [| done | ].
    + cbn [fmap list_fmap list_to_set]. rewrite <- app_assoc. f_equal.
      set_solver.
    + intros j Hj. assert (j <> i) by (intros ->; done).
      specialize (Hfresh j ltac:(by right)). set_solver.
Qed.

(** X12. In the general branch (8, 12, 20 and every other side count
    that is not 4, 6 or 10), faces none of which is opposite to another
    are numbered 1, 2, 3, ... in their order: a face without a partner
    takes the next number and gives none away. *)
Theorem computeFaceNumbers_no_opposite (faces : list Face) (sides : Z) :
  sides ≠ 4%Z -> sides ≠ 6%Z -> sides ≠ 10%Z ->
  (forall i j, (i < length faces)%nat -> (j < length faces)%nat ->
               opposite faces i j = false) ->
  computeFaceNumbers faces sides
  = (fun i => (Z.of_nat i + 1)%Z) <$> seq 0 (length faces).
Proof.
  intros H4 H6 H10 Hopp.
  assert (Hpairs : finalPairs faces sides
                   = (fun i => (i, None)) <$> seq 0 (length faces)).
  { unfold finalPairs. rewrite decide_False by done.
    rewrite (findPairs_ext _ (fun _ _ => false) _ Hopp).
    unfold findPairs. rewrite pairLoop_no_partner; [done | apply NoDup_seq |].
    intros i _. set_solver. }
  apply list_eq. intros i. rewrite list_lookup_fmap.
  destruct (decide (i < length faces)%nat) as [Hi | Hi].
  - rewrite lookup_seq_lt by done. cbn.
    assert (Hk : finalPairs faces sides !! i = Some (i, None : option nat)).
    { rewrite Hpairs, list_lookup_fmap, lookup_seq_lt by done. done. }
    destruct (computeFaceNumbers_lookup faces sides i _ _ H4 H6 Hk) as [-> _].
    unfold firstNumber. by rewrite decide_False.
  - rewrite lookup_seq_ge by lia. cbn. apply lookup_ge_None.
    rewrite computeFaceNumbers_length by done. lia.
Qed.

Lemma computeFaceNumbers_no_opposite_witness :
  8%Z ≠ 4%Z /\ 8%Z ≠ 6%Z /\ 8%Z ≠ 10%Z
  /\ (forall i j, (i < length cornerFaces)%nat -> (j < length cornerFaces)%nat ->
                  opposite cornerFaces i j = false)
  /\ computeFaceNumbers cornerFaces 8 = [1; 2; 3]%Z.
Proof.
  assert (H4 : 8%Z ≠ 4%Z) by lia. assert (H6 : 8%Z ≠ 6%Z) by lia.
  assert (H10 : 8%Z ≠ 10%Z) by lia.
  assert (Hopp : forall i j, (i < length cornerFaces)%nat ->
                             (j < length cornerFaces)%nat ->
                             opposite cornerFaces i j = false).
  { intros i j Hi Hj. cbn in Hi, Hj. unfold opposite. apply bool_decide_eq_false.
    destruct i as [|[|[|i]]]; [| | |lia];
      (destruct j as [|[|[|j]]]; [| | |lia]);
      unfold normalAt, V3.dot; cbn; lra. }
  split; [exact H4|]. split; [exact H6|]. split; [exact H10|].
  split; [exact Hopp|].
  exact (computeFaceNumbers_no_opposite cornerFaces 8 H4 H6 H10 Hopp).
Defined.

(** * Further properties of parseColor *)

(** A hexadecimal digit is no white space and no sign, and so
    [parseInt] starts reading at it. *)
Lemma parseHex_at_digit (c : ascii) (rest : string) (d : Z) :
  hexDigit c = Some d ->
  parseHex (String c rest)
  = (fun m => (1 * m)%Z) <$> hexPrefix (stripHexPrefix (String c rest)) None.
Proof.
  destruct c as [[] [] [] [] [] [] [] []]; intros H;
    first [discriminate H | reflexivity].
Qed.

(** The prefix [0x] needs an [x], which is no digit. *)
Lemma stripHexPrefix_digits (c1 c2 : ascii) (rest : string) (d2 : Z) :
  hexDigit c2 = Some d2 ->
  stripHexPrefix (String c1 (String c2 rest)) = String c1 (String c2 rest).
Proof.
  intros H. destruct (ascii_dec c1 "0") as [-> | Hne].
  - destruct c2 as [[] [] [] [] [] [] [] []];
      first [discriminate H | reflexivity].
  - destruct c1 as [[] [] [] [] [] [] [] []];
      first [reflexivity | by destruct Hne].
Qed.

Lemma stripHexPrefix_not_zero (c : ascii) (rest : string) :
  c <> "0"%char -> stripHexPrefix (String c rest) = String c rest.
Proof.
  intros Hne. destruct c as [[] [] [] [] [] [] [] []];
    first [reflexivity | by destruct Hne].
Qed.

(** X13. A CSS colour [#rrggbb]: for six hexadecimal digits (either case)
    after the [#], [parseColor] returns the number whose red, green and
    blue bytes are the three pairs of digits. *)
Theorem parseColor_rgb_bytes (c1 c2 c3 c4 c5 c6 : ascii) (d1 d2 d3 d4 d5 d6 : Z) :
  hexDigit c1 = Some d1 -> hexDigit c2 = Some d2 -> hexDigit c3 = Some d3 ->
  hexDigit c4 = Some d4 -> hexDigit c5 = Some d5 -> hexDigit c6 = Some d6 ->
  parseColor
    (JSString (String "#" (String c1 (String c2 (String c3 (String c4
                 (String c5 (String c6 EmptyString))))))))
  = JSNumber (IZR (65536 * (16 * d1 + d2) + 256 * (16 * d3 + d4)
                   + (16 * d5 + d6))).
Proof.
  intros H1 H2 H3 H4 H5 H6.
  rewrite parseColor_hash by reflexivity. cbn [slice1]. unfold parseInt16.
  rewrite (parseHex_at_digit _ _ _ H1), (stripHexPrefix_digits _ _ _ _ H2).
  cbn [hexPrefix]. rewrite H1, H2, H3, H4, H5, H6. cbn [fmap option_fmap option_map default].
  unfold Datatypes.id. do 2 f_equal. lia.
Qed.

Lemma parseColor_rgb_bytes_witness :
  parseColor (JSString "#3b82f6")
  = JSNumber (IZR (65536 * (16 * 3 + 11) + 256 * (16 * 8 + 2) + (16 * 15 + 6))).
Proof.
  exact (parseColor_rgb_bytes "3" "b" "8" "2" "f" "6" 3 11 8 2 15 6
           eq_refl eq_refl eq_refl eq_refl eq_refl eq_refl).
Defined.

(** X14. A string that starts with [#] is never looked up and never gets
    the gray default: when the [#] is followed by nothing, or by a
    character that is no hexadecimal digit, no white space and no sign,
    [parseColor] returns [NaN]. *)
Theorem parseColor_hash_without_digits (c : ascii) (rest : string) :
  hexDigit c = None -> isWhiteSpace c = false ->
  c <> "+"%char -> c <> "-"%char ->
  parseColor (JSString (String "#" (String c rest))) = JSNaN
  /\ parseColor (JSString "#") = JSNaN.
Proof.
  intros Hd Hw Hp Hm. split; [|reflexivity].
  rewrite parseColor_hash by reflexivity. cbn [slice1]. unfold parseInt16.
  assert (E : parseHex (String c rest) = None); [|by rewrite E].
  destruct c as [[] [] [] [] [] [] [] []];
    first [ discriminate Hd | discriminate Hw | by destruct Hp
          | by destruct Hm | reflexivity ].
Qed.

Lemma parseColor_hash_without_digits_witness :
  parseColor (JSString "#red") = JSNaN.
Proof.
  refine (proj1 (parseColor_hash_without_digits "r" "ed" eq_refl eq_refl _ _));
    discriminate.
Defined.

(** The digits are read up to the first character that is none. *)
Lemma hexPrefix_stops (ds : string) (c : ascii) (rest : string) (acc : option Z) :
  hexDigit c = None ->
  hexPrefix (String.append ds (String c rest)) acc = hexPrefix ds acc.
Proof.
  intros Hc. revert acc. induction ds as [|x ds IH]; intros acc.
  - change (String.append "" (String c rest)) with (String c rest).
    cbn [hexPrefix]. by rewrite Hc.
  - change (String.append (String x ds) (String c rest))
      with (String x (String.append ds (String c rest))).
    cbn [hexPrefix]. destruct (hexDigit x); [apply IH | done].
Qed.

(** X15. [parseColor] reads the digits after [#] up to the first character
    that is no hexadecimal digit and ignores the rest of the string (so
    that [#fff;] is read as [#fff]).  The first digit is taken not to be
    0, after which an [x] would start the prefix [0x]. *)
Theorem parseColor_ignores_tail (c1 : ascii) (d1 : Z) (ds : string) (c : ascii)
        (rest : string) :
  hexDigit c1 = Some d1 -> c1 <> "0"%char -> hexDigit c = None ->
  parseColor (JSString (String "#" (String c1 (String.append ds (String c rest)))))
  = parseColor (JSString (String "#" (String c1 ds))).
Proof.
  intros H1 H0 Hc.
  rewrite !parseColor_hash by reflexivity. cbn [slice1]. unfold parseInt16.
  rewrite !(parseHex_at_digit _ _ _ H1), !stripHexPrefix_not_zero by done.
  cbn [hexPrefix]. rewrite H1. by rewrite hexPrefix_stops.
Qed.

Lemma parseColor_ignores_tail_witness :
  parseColor (JSString "#fff;") = parseColor (JSString "#fff").
Proof.
  refine (parseColor_ignores_tail "f" 15 "ff" ";" "" eq_refl _ eq_refl).
  discriminate.
Defined.

(** Every value of [TAILWIND_MAP] is a number. *)
Lemma TAILWIND_MAP_numbers (s : string) (v : JSValue) :
  TAILWIND_MAP !! s = Some v -> isNumber v = true.
Proof.
  unfold TAILWIND_MAP. intros H%elem_of_list_to_map_2.
  repeat (apply elem_of_cons in H as [[= -> ->] | H]; [reflexivity|]).
  by apply elem_of_nil in H.
Qed.

(** X16. Apart from the names of the properties every object inherits,
    [parseColor] returns a number (which may be [NaN]) for every input:
    a number, any other string, or a value of any other type. *)
Theorem parseColor_returns_number (v : JSValue) :
  (forall s, v = JSString s -> objectPrototype !! s = None) ->
  isNumber (parseColor v) = true.
Proof.
  intros Hv. unfold parseColor.
  destruct (isNumber v) eqn:Hn; [done|].
  destruct v as [| |s| | | | |]; try reflexivity.
  cbn [isString]. destruct (startsWithHash s).
  - unfold parseInt16. by destruct (parseHex _).
  - unfold getProperty. destruct (TAILWIND_MAP !! s) as [x|] eqn:Hx.
    + destruct (toBoolean x); [by eapply TAILWIND_MAP_numbers | done].
    + by rewrite (Hv s eq_refl).
Qed.

Lemma parseColor_returns_number_witness :
  isNumber (parseColor (JSString "tomato")) = true.
Proof.
  refine (parseColor_returns_number (JSString "tomato") _).
  intros s [= <-]. reflexivity.
Defined.
(** * Further properties of the D10 geometry *)








(** * The texture cache *)

Section TextureFacts.

Import Textures.

Lemma dotKey_inj (n m : Z) : dotKey n = dotKey m -> n = m.
Proof.
  unfold dotKey, toString. intros [= H].
  change (pretty n = pretty m) in H. by apply (inj pretty) in H.
Qed.

Lemma keyOf_inj (r1 r2 : Request) : keyOf r1 = keyOf r2 -> r1 = r2.
Proof.
  destruct r1 as [n | n], r2 as [m | m]; cbn; intros H.
  - by injection H as ->.
  - discriminate H.
  - discriminate H.
  - by apply dotKey_inj in H as ->.
Qed.

(** A request is a lookup under its key, and a new texture with its
    picture when there is no entry. *)
Lemma request_unfold (r : Request) (st : Cache) :
  request r st
  = match texCache st !! keyOf r with
    | Some tex => (tex, st)
    | None => newTexture (keyOf r) (pictureOf r) st
    end.
Proof. by destruct r. Qed.

Lemma cacheOk_empty : cacheOk emptyCache.
Proof. split; intros *; cbn; by rewrite lookup_empty. Qed.

Lemma cacheOk_newTexture (r : Request) (st : Cache) :
  cacheOk st -> texCache st !! keyOf r = None ->
  cacheOk (newTexture (keyOf r) (pictureOf r) st).2.
Proof.
  intros [Hlive Hinj] Hnone. unfold newTexture, cacheOk. cbn zeta.
  cbn [snd textures texCache].
  assert (Hold : forall k t, texCache st !! k = Some t -> (t < length (textures st))%nat).
  { intros k t Hk. destruct (Hlive k t Hk) as (tex & Ht & _).
    by eapply lookup_lt_Some. }
  split.
  - intros k t Hk. destruct (decide (k = keyOf r)) as [-> | Hne].
    + rewrite lookup_insert_eq in Hk. injection Hk as <-.
      eexists. split; [apply lookup_at_end|]. split; [done|]. by exists r.
    + rewrite lookup_insert_ne in Hk by done.
      destruct (Hlive k t Hk) as (tex & Ht & Hd & Hp).
      exists tex. split; [by apply lookup_app_Some | done].
  - intros k1 k2 t H1 H2.
    destruct (decide (k1 = keyOf r)) as [-> | Hne1];
      destruct (decide (k2 = keyOf r)) as [-> | Hne2]; [done | | |].
    + rewrite lookup_insert_eq in H1. injection H1 as <-.
      rewrite lookup_insert_ne in H2 by done. apply Hold in H2. lia.
    + rewrite lookup_insert_eq in H2. injection H2 as <-.
      rewrite lookup_insert_ne in H1 by done. apply Hold in H1. lia.
    + rewrite lookup_insert_ne in H1, H2 by done. by eapply Hinj.
Qed.

Lemma cacheOk_request (r : Request) (st : Cache) :
  cacheOk st -> cacheOk (request r st).2.
Proof.
  intros Hok. rewrite request_unfold.
  destruct (texCache st !! keyOf r) eqn:Hk; [done|].
  by apply cacheOk_newTexture.
Qed.

Lemma cacheOk_clear (st : Cache) : cacheOk (clearTextureCache st).
Proof. split; intros *; cbn; by rewrite lookup_empty. Qed.

Lemma cacheOk_history (cs : list Call) : cacheOk (history cs).
Proof.
  unfold history. induction cs as [|c cs IH] using rev_ind.
  - apply cacheOk_empty.
  - rewrite foldl_app. cbn [foldl]. destruct c as [r|]; cbn [call].
    + by apply cacheOk_request.
    + apply cacheOk_clear.
Qed.

Lemma request_cached (r : Request) (st : Cache) :
  texCache (request r st).2 !! keyOf r = Some (request r st).1.
Proof.
  rewrite request_unfold. destruct (texCache st !! keyOf r) eqn:Hk; cbn.
  - done.
  - by rewrite lookup_insert_eq.
Qed.

(** X18. A texture is made once: right after a request, the same request
    returns the same texture object and changes nothing - no canvas, no
    texture and no cache entry is created. *)
Theorem texture_request_is_cached (r : Request) (st : Cache) :
  request r (request r st).2 = request r st.
Proof.
  rewrite (request_unfold r (request r st).2), request_cached.
  by destruct (request r st).
Qed.

(** X19. Whatever was requested and cleared before, a request returns a
    texture that exists, has not been disposed, and shows the picture
    that was asked for. *)
Theorem texture_request_is_live (cs : list Call) (r : Request) :
  exists tex,
    textures (request r (history cs)).2 !! (request r (history cs)).1 = Some tex
    /\ disposed tex = false
    /\ image tex = pictureOf r.
Proof.
  pose proof (cacheOk_request r _ (cacheOk_history cs)) as [Hlive _].
  destruct (Hlive _ _ (request_cached r (history cs)))
    as (tex & Ht & Hd & r' & Hk & Hp).
  apply keyOf_inj in Hk as <-. by exists tex.
Qed.

(** X20. Two requests share a texture object exactly when they ask for the
    same picture: after any calls, a request that follows another returns
    the texture the first one returned if and only if it is the same
    request.  A number and a pip pattern never share one, nor do two
    numbers. *)
Theorem texture_shared_iff_same_request (cs : list Call) (r1 r2 : Request) :
  (request r2 (request r1 (history cs)).2).1 = (request r1 (history cs)).1
  <-> r1 = r2.
Proof.
  set (st1 := (request r1 (history cs)).2).
  set (t1 := (request r1 (history cs)).1).
  assert (Hok : cacheOk st1) by apply cacheOk_request, cacheOk_history.
  assert (H1 : texCache st1 !! keyOf r1 = Some t1) by apply request_cached.
  split.
  - intros Heq. apply keyOf_inj.
    rewrite request_unfold in Heq.
    destruct (texCache st1 !! keyOf r2) as [t2|] eqn:H2; cbn in Heq.
    + subst t2. destruct Hok as [_ Hinj]. by eapply Hinj.
    + destruct Hok as [Hlive _]. destruct (Hlive _ _ H1) as (tex & Ht & _).
      apply lookup_lt_Some in Ht. lia.
  - intros <-. unfold st1, t1. by rewrite texture_request_is_cached.
Qed.

(** Disposing the textures of the entries leaves the others as they are. *)
Lemma dispose_entries (entries : list (Key * nat)) (ts : list Texture)
      (t : nat) (tex : Texture) :
  ts !! t = Some tex ->
  foldr (fun (entry : Key * nat) ts => alter dispose entry.2 ts) ts entries !! t
  = Some (if decide (t ∈ entries.*2) then dispose tex else tex).
Proof.
  intros Ht. induction entries as [|[k t'] entries IH]; cbn [foldr fmap list_fmap snd].
  - by rewrite decide_False by (by intros H%elem_of_nil).
  - destruct (decide (t = t')) as [<- | Hne].
    + rewrite list_lookup_alter_eq, IH. cbn [fmap option_fmap option_map].
      rewrite (decide_True (P := t ∈ t :: entries.*2)) by left.
      by destruct (decide (t ∈ entries.*2)).
    + rewrite list_lookup_alter_ne by done. rewrite IH.
      destruct (decide (t ∈ entries.*2)) as [Hin | Hnin].
      * by rewrite decide_True by (by right).
      * rewrite decide_False; [done|].
        intros [? | ?]%elem_of_cons; done.
Qed.

(** X21. [clearTextureCache] empties the cache and disposes exactly the
    textures that were in it: every texture object is kept, those the
    cache referred to are disposed, and the others are left as they
    were. *)
Theorem clearTextureCache_disposes_cached (st : Cache) (t : nat) (tex : Texture) :
  textures st !! t = Some tex ->
  texCache (clearTextureCache st) = ∅
  /\ ((exists k, texCache st !! k = Some t) ->
      textures (clearTextureCache st) !! t = Some (dispose tex))
  /\ ((forall k, texCache st !! k <> Some t) ->
      textures (clearTextureCache st) !! t = Some tex).
Proof.
  intros Ht. split; [done|]. cbn [clearTextureCache textures].
  rewrite (dispose_entries _ _ _ _ Ht).
  destruct (decide (t ∈ (map_to_list (texCache st)).*2)) as [Hin | Hnin].
  - split; [done|]. intros Hno. exfalso.
    apply list_elem_of_fmap in Hin as ([k t'] & -> & Hin).
    apply elem_of_map_to_list in Hin. by apply (Hno k).
  - split; [|done]. intros [k Hk]. exfalso. apply Hnin.
    apply list_elem_of_fmap. exists (k, t). split; [done|].
    by apply elem_of_map_to_list.
Qed.

Lemma clearTextureCache_disposes_cached_witness :
  textures (request (NumTexture 5) emptyCache).2 !! 0%nat
  = Some (mkTexture (numImage 5) true false)
  /\ textures (clearTextureCache (request (NumTexture 5) emptyCache).2) !! 0%nat
     = Some (mkTexture (numImage 5) true true).
Proof.
  assert (Ht : textures (request (NumTexture 5) emptyCache).2 !! 0%nat
               = Some (mkTexture (numImage 5) true false)) by reflexivity.
  split; [exact Ht|].
  refine (proj1 (proj2 (clearTextureCache_disposes_cached _ _ _ Ht)) _).
  exists (inl 5%Z). reflexivity.
Defined.

(** ** The pictures *)

Lemma DOT_POSITIONS_other (num : Z) :
  ~ (1 <= num <= 6)%Z -> DOT_POSITIONS !! num = None.
Proof.
  intros H. unfold DOT_POSITIONS. apply not_elem_of_list_to_map_1.
  cbn [fmap list_fmap fst]. rewrite !elem_of_cons, elem_of_nil. lia.
Qed.

Lemma dotsOf_cases (num : Z) :
  ((num = 1)%Z /\ dotsOf num = [(0.5, 0.5)])
  \/ ((num = 2)%Z /\ dotsOf num = [(0.22, 0.78); (0.78, 0.22)])
  \/ ((num = 3)%Z /\ dotsOf num = [(0.22, 0.78); (0.5, 0.5); (0.78, 0.22)])
  \/ ((num = 4)%Z /\ dotsOf num = [(0.22, 0.22); (0.78, 0.22); (0.22, 0.78); (0.78, 0.78)])
  \/ ((num = 5)%Z /\ dotsOf num = [(0.22, 0.22); (0.78, 0.22); (0.5, 0.5);
                               (0.22, 0.78); (0.78, 0.78)])
  \/ ((num = 6)%Z /\ dotsOf num = [(0.22, 0.18); (0.22, 0.5); (0.22, 0.82);
                               (0.78, 0.18); (0.78, 0.5); (0.78, 0.82)])
  \/ (~ (1 <= num <= 6)%Z /\ dotsOf num = [(0.5, 0.5)]).
Proof.
  destruct (decide (1 <= num <= 6)%Z) as [Hin | Hout].
  - assert (Hc : (num = 1 \/ num = 2 \/ num = 3 \/ num = 4 \/ num = 5 \/ num = 6)%Z)
      by lia.
    destruct Hc as [-> | [-> | [-> | [-> | [-> | ->]]]]]; unfold dotsOf;
      [ left | right; left | do 2 right; left | do 3 right; left
      | do 4 right; left | do 5 right; left ]; (split; [done | reflexivity]).
  - do 6 right. split; [done|]. unfold dotsOf. by rewrite DOT_POSITIONS_other.
Qed.

(** X22. The pips of [getDotTexture]: for 1 to 6 the picture has that many
    pips, for every other number the single pip of the 1; each pip is two
    circles, the shadow and the white dot, and all circles lie on the
    256 x 256 canvas. *)
Theorem dotImage_pips_on_canvas (num : Z) :
  Z.of_nat (length (arcsOf (dotImage num)))
  = (2 * (if decide (1 <= num <= 6)%Z then num else 1))%Z
  /\ Forall onCanvas (arcsOf (dotImage num)).
Proof.
  unfold dotImage. cbn [arcsOf omap list_omap].
  assert (Hr : dotRadius num = sz * 0.13 \/ dotRadius num = sz * 0.105)
    by (unfold dotRadius; destruct (decide _); tauto).
  assert (Hr12 : (num <= 2)%Z -> dotRadius num = sz * 0.13)
    by (intros H; unfold dotRadius; by rewrite decide_True).
  assert (Hr36 : (3 <= num)%Z -> dotRadius num = sz * 0.105)
    by (intros H; unfold dotRadius; rewrite decide_False; [done | lia]).
  destruct (dotsOf_cases num)
    as [[-> ->] | [[-> ->] | [[-> ->] | [[-> ->] | [[-> ->] | [[-> ->] | [Hout ->]]]]]]];
    cbn [fmap list_fmap concat app drawDot omap list_omap];
    (split;
     [ try rewrite decide_False by done; try rewrite decide_True by lia;
       reflexivity |]);
    try rewrite Hr12 by lia; try rewrite Hr36 by lia;
    try (destruct Hr as [-> | ->]);
    repeat (apply Forall_cons_2; [unfold onCanvas, sz; lra|]);
    apply Forall_nil_2.
Qed.

(** How long the decimal numeral of a number is. *)
Lemma pretty_N_go_length (x : N) (s : string) :
  (String.length s <= String.length (pretty_N_go x s))%nat.
Proof.
  revert s. induction (N.lt_wf_0 x) as [x _ IH]; intros s.
  assert (x = 0 \/ 0 < x)%N as [-> | Hx] by lia; [by rewrite pretty_N_go_0|].
  rewrite pretty_N_go_step by done.
  etransitivity; [|by eapply IH, N.div_lt]. cbn. lia.
Qed.

Lemma pretty_N_length (x : N) :
  (1 < String.length (pretty x))%nat <-> (10 <= x)%N.
Proof.
  unfold pretty, pretty_N. destruct (decide (x = 0%N)) as [-> | Hne].
  - cbn. lia.
  - destruct (decide (x < 10)%N) as [Hlt | Hge].
    + rewrite pretty_N_go_step by lia.
      rewrite N.div_small by done. rewrite pretty_N_go_0. cbn. lia.
    + rewrite 2!pretty_N_go_step by (try apply N.div_str_pos_iff; lia).
      split; [lia|]. intros _.
      eapply Nat.lt_le_trans; [|apply pretty_N_go_length]. cbn. lia.
Qed.

Lemma toString_length (num : Z) :
  (1 < String.length (toString num))%nat <-> ~ (0 <= num <= 9)%Z.
Proof.
  destruct num as [|p|p].
  - cbn. lia.
  - change (toString (Z.pos p)) with (pretty (N.pos p)).
    rewrite pretty_N_length. lia.
  - change (toString (Z.neg p)) with (String "-" (pretty (N.pos p))).
    cbn [String.length]. split; [lia|]. intros _.
    assert (0 < String.length (pretty (N.pos p)))%nat; [|lia].
    unfold pretty, pretty_N. rewrite decide_False by done.
    rewrite pretty_N_go_step by lia.
    eapply Nat.lt_le_trans; [|apply pretty_N_go_length]. cbn. lia.
Qed.

(** X23. The size of the numeral: [getNumTexture] draws the one-digit
    numbers 0 to 9 with a font of 82 % of the canvas and every other
    number - two digits or more, or negative - with one of 62 %. *)
Theorem numImage_font_size (num : Z) :
  fontOf (numImage num)
  = Some (if decide (0 <= num <= 9)%Z then sz * 0.82 else sz * 0.62).
Proof.
  unfold numImage, fontOf. cbn [omap list_omap head].
  pose proof (toString_length num) as H.
  destruct (decide (1 < String.length (toString num))%nat) as [Hl | Hs].
  - rewrite decide_False; [done | by apply H].
  - rewrite decide_True; [done|].
    destruct (decide (0 <= num <= 9)%Z); [done|]. exfalso. by apply Hs, H.
Qed.

End TextureFacts.

(** * The component: the grid of dice and the settle animation *)

Section ComponentFacts.

Import Dice3D.

(** ** Rounding the quotient of two naturals *)

Lemma floor_unique (x : R) (z : Z) : IZR z <= x < IZR z + 1 -> floor x = IZR z.
Proof.
  intros [Hlo Hhi]. unfold floor. f_equal.
  assert (E : (z + 1)%Z = up x); [|lia].
  apply tech_up; rewrite plus_IZR; lra.
Qed.

Lemma INR_div_mod (a b : nat) :
  (0 < b)%nat -> INR a = INR b * INR (a / b) + INR (a mod b).
Proof.
  intros Hb. rewrite <- mult_INR, <- plus_INR. f_equal.
  apply Nat.div_mod. lia.
Qed.

Lemma floor_INR_div (a b : nat) :
  (0 < b)%nat -> floor (INR a / INR b) = INR (a / b).
Proof.
  intros Hb. rewrite (INR_IZR_INZ (a / b)). apply floor_unique.
  rewrite <- (INR_IZR_INZ (a / b)).
  pose proof (INR_div_mod a b Hb) as E.
  assert (Hm : (a mod b < b)%nat) by (apply Nat.mod_upper_bound; lia).
  apply lt_INR in Hm. pose proof (pos_INR (a mod b)) as Hm0.
  assert (Hbpos : 0 < INR b) by (apply lt_0_INR; lia).
  rewrite E. split.
  - apply (Rmult_le_reg_r (INR b)); [done|].
    unfold Rdiv. rewrite Rmult_assoc, Rinv_l by lra. nra.
  - apply (Rmult_lt_reg_r (INR b)); [done|].
    unfold Rdiv. rewrite Rmult_assoc, Rinv_l by lra. nra.
Qed.

Lemma ceil_INR_div (a b : nat) :
  (0 < b)%nat -> ceil (INR a / INR b) = INR ((a + b - 1) / b).
Proof.
  intros Hb. unfold ceil.
  pose proof (INR_div_mod a b Hb) as E.
  assert (Hm : (a mod b < b)%nat) by (apply Nat.mod_upper_bound; lia).
  assert (Hbpos : 0 < INR b) by (apply lt_0_INR; lia).
  assert (Hq : INR a / INR b = INR (a / b) + INR (a mod b) / INR b)
    by (rewrite E at 1; field; lra).
  destruct (decide (a mod b = 0)%nat) as [H0 | Hne].
  - assert (Hdiv : ((a + b - 1) / b = a / b)%nat).
    { rewrite (Nat.div_mod a b) at 1 by lia. rewrite H0.
      generalize (a / b)%nat. intros n.
      replace (b * n + 0 + b - 1)%nat with (n * b + (b - 1))%nat by nia.
      rewrite Nat.div_add_l by lia. rewrite Nat.div_small by lia. lia. }
    rewrite Hdiv, Hq, H0. cbn [INR].
    rewrite (floor_unique _ (- Z.of_nat (a / b))).
    + rewrite opp_IZR, <- INR_IZR_INZ. lra.
    + rewrite opp_IZR, <- INR_IZR_INZ. unfold Rdiv. lra.
  - assert (Hdiv : ((a + b - 1) / b = a / b + 1)%nat).
    { rewrite (Nat.div_mod a b) at 1 by lia.
      revert Hm Hne. generalize (a mod b)%nat (a / b)%nat. intros k n Hm Hne.
      replace (b * n + k + b - 1)%nat with ((n + 1) * b + (k - 1))%nat by nia.
      rewrite Nat.div_add_l by lia. rewrite Nat.div_small by lia. lia. }
    rewrite Hdiv, Hq, plus_INR. cbn [INR].
    assert (Hfrac : 0 < INR (a mod b) / INR b < 1).
    { apply lt_INR in Hm. assert (0 < INR (a mod b)) by (apply lt_0_INR; lia).
      split.
      - by apply Rdiv_lt_0_compat.
      - apply (Rmult_lt_reg_r (INR b)); [done|].
        unfold Rdiv. rewrite Rmult_assoc, Rinv_l by lra. lra. }
    rewrite (floor_unique _ (- Z.of_nat (a / b) - 1)).
    + rewrite minus_IZR, opp_IZR, <- INR_IZR_INZ. lra.
    + rewrite minus_IZR, opp_IZR, <- INR_IZR_INZ. lra.
Qed.

(** ** The grid in natural numbers *)

Lemma cols_nat (count : nat) : cols count = INR (Nat.min count 5).
Proof.
  unfold cols. replace 5 with (INR 5) by (cbn; lra).
  destruct (Nat.le_ge_cases count 5) as [H | H].
  - rewrite Nat.min_l by done. apply Rmin_left. by apply le_INR.
  - rewrite Nat.min_r by done. apply Rmin_right. by apply le_INR.
Qed.

Lemma rows_nat (count : nat) :
  (0 < count)%nat ->
  rows count = INR ((count + Nat.min count 5 - 1) / Nat.min count 5).
Proof.
  intros Hc. unfold rows. rewrite cols_nat. apply ceil_INR_div. lia.
Qed.

(** Die [i] sits at place [i mod c] of row [i / c]; the row holds [m]
    dice. *)
Lemma gridPos_nat (count i : nat) :
  (i < count)%nat ->
  let c := Nat.min count 5 in
  let r := ((count + c - 1) / c)%nat in
  let q := (i / c)%nat in
  let k := (i mod c)%nat in
  let m := if decide (q = r - 1)%nat then (count - q * c)%nat else c in
  (1 <= c <= 5)%nat /\ (q < r)%nat /\ (k < m)%nat /\ (m <= c)%nat
  /\ rows count = INR r
  /\ gridPos count i
     = ((- (INR m - 1) / 2 + INR k) * spacing,
        ((INR r - 1) / 2 - INR q) * spacing).
Proof.
  intros Hi c r q k m.
  assert (Hc : (1 <= c <= 5)%nat) by (unfold c; lia).
  assert (Hrows : rows count = INR r) by (apply rows_nat; lia).
  assert (Hcols : cols count = INR c) by apply cols_nat.
  assert (Hk : (k < c)%nat) by (apply Nat.mod_upper_bound; lia).
  assert (Hik : i = (c * q + k)%nat) by (apply Nat.div_mod; lia).
  assert (Hr : (c * r >= count /\ c * r < count + c)%nat).
  { unfold r. pose proof (Nat.div_mod (count + c - 1) c ltac:(lia)) as E.
    pose proof (Nat.mod_upper_bound (count + c - 1) c ltac:(lia)). lia. }
  assert (Hq : (q < r)%nat) by nia.
  assert (Hm : (k < m /\ m <= c)%nat).
  { unfold m. destruct (decide _) as [E | E]; [nia | lia]. }
  repeat (split; [done || lia|]).
  unfold gridPos. cbn zeta. rewrite Hrows, Hcols.
  rewrite (floor_INR_div i c) by lia. fold q.
  assert (Hin : INR i - INR q * INR c = INR k).
  { rewrite Hik at 1. rewrite plus_INR, mult_INR. ring. }
  rewrite Hin.
  assert (Hitems : (if decide (INR q = INR r - 1)
                    then INR count - INR q * INR c else INR c) = INR m).
  { unfold m. destruct (decide (q = r - 1)%nat) as [E | E].
    - rewrite decide_True.
      + rewrite <- mult_INR, <- minus_INR; [done | nia].
      + rewrite E, minus_INR by lia. cbn. lra.
    - rewrite decide_False; [done|].
      intros H. apply E. apply INR_eq. rewrite minus_INR by lia. cbn. lra. }
  by rewrite Hitems.
Qed.

Lemma INR_apart (a b : nat) : a <> b -> Rabs (INR a - INR b) >= 1.
Proof.
  intros Hab. destruct (Nat.lt_total a b) as [H | [H | H]]; [| done |].
  - assert (INR a + 1 <= INR b).
    { rewrite <- S_INR. apply le_INR. lia. }
    rewrite Rabs_left by lra. lra.
  - assert (INR b + 1 <= INR a).
    { rewrite <- S_INR. apply le_INR. lia. }
    rewrite Rabs_right by lra. lra.
Qed.

(** X24. No two dice share a place in the grid: the centres of two
    different dice are at least the spacing, 2.8, apart along x or
    along y. *)
Theorem gridPos_apart (count i j : nat) :
  (i < count)%nat -> (j < count)%nat -> i <> j ->
  Rabs ((gridPos count i).1 - (gridPos count j).1) >= spacing
  \/ Rabs ((gridPos count i).2 - (gridPos count j).2) >= spacing.
Proof.
  intros Hi Hj Hij.
  destruct (gridPos_nat count i Hi) as (Hc & _ & _ & _ & _ & ->).
  destruct (gridPos_nat count j Hj) as (_ & _ & _ & _ & _ & ->).
  cbn [fst snd]. unfold spacing.
  set (c := Nat.min count 5) in *.
  destruct (decide (i / c = j / c)%nat) as [Eq | Hne].
  - left. rewrite Eq.
    assert (Hkk : (i mod c <> j mod c)%nat).
    { intros Ek. apply Hij.
      rewrite (Nat.div_mod i c), (Nat.div_mod j c) by lia. congruence. }
    apply INR_apart in Hkk.
    match goal with
    | |- Rabs ((?a + ?x) * _ - (?a + ?y) * _) >= _ =>
        replace ((a + x) * 2.8 - (a + y) * 2.8) with ((x - y) * 2.8) by ring
    end.
    rewrite Rabs_mult, (Rabs_right 2.8) by lra. nra.
  - right. apply INR_apart in Hne.
    match goal with
    | |- Rabs ((?a - ?x) * _ - (?a - ?y) * _) >= _ =>
        replace ((a - x) * 2.8 - (a - y) * 2.8) with (- (x - y) * 2.8) by ring
    end.
    rewrite Rabs_mult, Rabs_Ropp, (Rabs_right 2.8) by lra. nra.
Qed.

Lemma gridPos_apart_witness :
  Rabs ((gridPos 7 2).1 - (gridPos 7 6).1) >= spacing
  \/ Rabs ((gridPos 7 2).2 - (gridPos 7 6).2) >= spacing.
Proof. apply (gridPos_apart 7 2 6); lia. Defined.

Lemma frustumHalf_covers (count : nat) (asp : R) :
  0 < asp ->
  rows count * spacing / 2 + margin <= frustumHalf count asp
  /\ cols count * spacing / 2 + margin <= frustumHalf count asp * asp.
Proof.
  intros Hasp. unfold frustumHalf. cbn zeta. fold (cols count).
  set (needY := rows count * spacing / 2 + margin).
  set (needX := (cols count * spacing / 2 + margin) / asp).
  split.
  - eapply Rle_trans; [apply (Rmax_l needY needX) | apply Rmax_l].
  - assert (H : needX <= Rmax (Rmax needY needX) 2.5).
    { eapply Rle_trans; [apply (Rmax_r needY needX) | apply Rmax_l]. }
    apply (Rmult_le_compat_r asp) in H; [|lra].
    unfold needX at 1 in H. unfold Rdiv in H at 1.
    rewrite Rmult_assoc, Rinv_l, Rmult_1_r in H by lra. exact H.
Qed.

(** X25. The camera Effect 2 sets shows every die: when the aspect ratio
    of the mount element is positive (it has a positive width), the
    centre of each die lies inside the four planes of the frustum, at
    least the margin plus half the spacing (2.9) away from each of
    them. *)
Theorem gridPos_in_view (count i : nat) (el : option (R * R)) :
  0 < aspect el -> (i < count)%nat ->
  let cam := frustum count (aspect el) in
  camLeft cam + clearance <= (gridPos count i).1 <= camRight cam - clearance
  /\ camBottom cam + clearance <= (gridPos count i).2 <= camTop cam - clearance.
Proof.
  intros Hasp Hi cam.
  destruct (frustumHalf_covers count (aspect el) Hasp) as [HY HX].
  destruct (gridPos_nat count i Hi) as (Hc & Hq & Hk & Hm & Hrows & ->).
  rewrite cols_nat in HX. rewrite Hrows in HY.
  unfold cam, frustum. cbn [camLeft camRight camTop camBottom fst snd].
  set (asp := aspect el) in *. clearbody asp.
  set (fh := frustumHalf count asp) in *. clearbody fh.
  set (c := Nat.min count 5) in *.
  set (r := ((count + c - 1) / c)%nat) in *.
  set (q := (i / c)%nat) in *. set (k := (i mod c)%nat) in *.
  set (m := if decide (q = r - 1)%nat then (count - q * c)%nat else c) in *.
  clearbody m k q r c.
  assert (Hk0 := pos_INR k). assert (Hq0 := pos_INR q).
  assert (Hk1 : INR k + 1 <= INR m) by (rewrite <- S_INR; apply le_INR; lia).
  assert (Hq1 : INR q + 1 <= INR r) by (rewrite <- S_INR; apply le_INR; lia).
  assert (Hm1 : INR m <= INR c) by (apply le_INR; lia).
  unfold clearance, margin, spacing in *. lra.
Qed.

Lemma gridPos_in_view_witness :
  let cam := frustum 7 (aspect (Some (800, 400))) in
  camLeft cam + clearance <= (gridPos 7 6).1 <= camRight cam - clearance
  /\ camBottom cam + clearance <= (gridPos 7 6).2 <= camTop cam - clearance.
Proof.
  apply (gridPos_in_view 7 6 (Some (800, 400))); [|lia].
  unfold aspect. rewrite Rmax_left by lra. lra.
Defined.

(** ** The settle animation *)

Lemma settleP_range (time settleStart : R) :
  settleStart <= time -> 0 <= settleP time settleStart <= 1.
Proof.
  intros H. unfold settleP, SETTLE_SECS. split.
  - apply Rmin_glb; lra.
  - apply Rmin_r.
Qed.

Lemma settleP_mono (t1 t2 settleStart : R) :
  t1 <= t2 -> settleP t1 settleStart <= settleP t2 settleStart.
Proof.
  intros H. unfold settleP, SETTLE_SECS.
  apply Rle_min_compat_r. lra.
Qed.

Lemma cube_mono (a b : R) : 0 <= a <= b -> a ^ 3 <= b ^ 3.
Proof. intros H. apply pow_incr. lra. Qed.

(** X26. The easing of the settle animation: from the start of the settle
    on, the blend factor [e] stays between 0 and 1 and never decreases
    from one frame to a later one. *)
Theorem settleE_eases (t1 t2 settleStart : R) :
  settleStart <= t1 -> t1 <= t2 ->
  0 <= settleE t1 settleStart
  /\ settleE t1 settleStart <= settleE t2 settleStart
  /\ settleE t2 settleStart <= 1.
Proof.
  intros H1 H2. unfold settleE.
  pose proof (settleP_range t1 settleStart H1) as [Ha Hb].
  pose proof (settleP_range t2 settleStart ltac:(lra)) as [Hc Hd].
  pose proof (settleP_mono t1 t2 settleStart H2) as Hm.
  set (p1 := settleP t1 settleStart) in *.
  set (p2 := settleP t2 settleStart) in *. clearbody p1 p2.
  pose proof (cube_mono (1 - p2) (1 - p1) ltac:(lra)).
  pose proof (cube_mono (1 - p1) 1 ltac:(lra)).
  pose proof (cube_mono 0 (1 - p2) ltac:(lra)).
  lra.
Qed.

Lemma settleE_eases_witness :
  0 <= settleE 1300 1000
  /\ settleE 1300 1000 <= settleE 1450 1000
  /\ settleE 1450 1000 <= 1.
Proof. apply (settleE_eases 1300 1450 1000); lra. Defined.

(** X27. A settle lasts 600 milliseconds: a settling die turns idle at the
    first frame that comes 600 ms or more after the start of the settle,
    and at that frame the blend factor is exactly 1. *)
Theorem settle_ends_after_600ms (time settleStart : R) :
  (framePhase settling time settleStart = idle <-> 600 <= time - settleStart)
  /\ (framePhase settling time settleStart = idle -> settleE time settleStart = 1).
Proof.
  assert (Hp : settleP time settleStart >= 1 <-> 600 <= time - settleStart).
  { unfold settleP, SETTLE_SECS. split.
    - intros H. pose proof (Rmin_l ((time - settleStart) / 1000 / 0.6) 1). lra.
    - intros H. rewrite Rmin_right by lra. lra. }
  unfold framePhase. destruct (decide _) as [H | H].
  - split; [by split; [intros _; apply Hp|]|].
    intros _. unfold settleE.
    assert (E : settleP time settleStart = 1).
    { pose proof (Rmin_r ((time - settleStart) / 1000 / SETTLE_SECS) 1).
      unfold settleP in *. lra. }
    rewrite E. lra.
  - split; [|done]. split; [done|]. intros H'. by apply Hp in H'.
Qed.

(** ** Render *)

(** X28. The canvas is sized for the rows the grid has: with at least one
    die, the row count of the render, [Math.ceil(length / 5) || 1], is the
    [rows] of the grid, so the computed height gives every row of dice 130
    pixels (and is never below 200). *)
Theorem rowCount_is_rows (count : nat) :
  (0 < count)%nat ->
  rowCount count = rows count
  /\ computedH count = Rmax 200 (rows count * 130 + 50).
Proof.
  intros Hc.
  assert (E : rowCount count = rows count); [|by unfold computedH; rewrite E].
  unfold rowCount. cbn zeta. rewrite rows_nat by done.
  replace 5 with (INR 5) by (cbn; lra).
  rewrite ceil_INR_div by lia.
  assert (Hdiv : ((count + 5 - 1) / 5
                  = (count + Nat.min count 5 - 1) / Nat.min count 5)%nat).
  { destruct (Nat.le_gt_cases 5 count) as [H | H].
    - by rewrite Nat.min_r.
    - rewrite Nat.min_l by lia.
      do 5 (destruct count as [|count]; [by (lia || vm_compute)|]). lia. }
  rewrite Hdiv.
  assert (Hpos : (0 < (count + Nat.min count 5 - 1) / Nat.min count 5)%nat).
  { apply Nat.div_str_pos. lia. }
  apply lt_0_INR in Hpos.
  rewrite decide_False; [done | lra].
Qed.

Lemma rowCount_is_rows_witness :
  rowCount 7 = rows 7 /\ computedH 7 = Rmax 200 (rows 7 * 130 + 50).
Proof. apply (rowCount_is_rows 7); lia. Defined.

End ComponentFacts.
